(** * The play queue of the music player daemon (src/Queue.cxx)

    A shallow embedding of [struct queue] and of its operations, followed
    by the properties of the queue that the specification states.

    - C [unsigned] / [uint32_t] values are integers in [0, 2^32) and every
      arithmetic operation on them is reduced with [wrap]; [int] values
      are obtained with [to_int]; [uint8_t] priorities live in [0, 256).
    - The three arrays ([items], [order], [id_to_position]) are lists of
      the allocated size; an access outside the allocation is undefined
      behaviour and is reported as [Undefined].
    - [assert] is modelled as in a debug build: a failed assertion aborts
      ([AssertFail]).
    - The operations run in a state-and-error monad over the queue.
    - The random engine [rand] is an oracle: an arbitrary stream of raw
      draws, so that a statement quantified over queues covers every
      behaviour of the engine. *)

From Stdlib Require Import ZArith Lia Permutation Sorted.
From stdpp Require Import base tactics option list numbers sorting.

Open Scope Z_scope.

(** ** Machine integers *)

Definition UINT_MOD : Z := 2 ^ 32.
Definition G_MAXUINT : Z := 2 ^ 32 - 1.

(** Arithmetic on [unsigned] wraps around. *)
Definition wrap (x : Z) : Z := x mod UINT_MOD.

(** Conversion of an [unsigned] to [int] (two's complement). *)
Definition to_int (x : Z) : Z := if x <? 2 ^ 31 then x else x - UINT_MOD.

(** Conversion of an [int] to [unsigned]. *)
Definition to_unsigned (x : Z) : Z := x mod UINT_MOD.

(** Modelled from the spec: the constant QUEUE_HASH_MULT is declared in
    Queue.hxx, which is not part of the sources at hand; the
    specification asks for a sparsity factor of at least 4, which is also
    the value used by the daemon. *)
Definition QUEUE_HASH_MULT : Z := 4.

(** ** Data *)

(** [struct queue_item]; the song is an opaque handle. *)
Record queue_item : Type := mk_item {
  i_song : Z;
  i_id : Z;
  i_version : Z;
  i_priority : Z
}.

Definition item_set_version (v : Z) (it : queue_item) : queue_item :=
  mk_item (i_song it) (i_id it) v (i_priority it).

Definition item_set_priority (p : Z) (it : queue_item) : queue_item :=
  mk_item (i_song it) (i_id it) (i_version it) p.

#[global] Instance queue_item_inhabited : Inhabited queue_item :=
  populate (mk_item 0 0 0 0).

(** [struct queue].  The fields [q_length], [q_version] and the four mode
    flags are the members [length], [version], [repeat], [single],
    [consume] and [random] of the source. *)
Record queue : Type := mk_queue {
  max_length : Z;
  q_length : Z;
  q_version : Z;
  items : list queue_item;
  order : list Z;
  id_to_position : list Z;
  q_repeat : bool;
  q_single : bool;
  q_consume : bool;
  q_random : bool;
  rand : nat -> Z
}.

Definition set_length (n : Z) (q : queue) : queue :=
  mk_queue (max_length q) n (q_version q) (items q) (order q)
    (id_to_position q) (q_repeat q) (q_single q) (q_consume q) (q_random q)
    (rand q).

Definition set_version (v : Z) (q : queue) : queue :=
  mk_queue (max_length q) (q_length q) v (items q) (order q)
    (id_to_position q) (q_repeat q) (q_single q) (q_consume q) (q_random q)
    (rand q).

Definition set_items (l : list queue_item) (q : queue) : queue :=
  mk_queue (max_length q) (q_length q) (q_version q) l (order q)
    (id_to_position q) (q_repeat q) (q_single q) (q_consume q) (q_random q)
    (rand q).

Definition set_order (l : list Z) (q : queue) : queue :=
  mk_queue (max_length q) (q_length q) (q_version q) (items q) l
    (id_to_position q) (q_repeat q) (q_single q) (q_consume q) (q_random q)
    (rand q).

Definition set_id_to_position (l : list Z) (q : queue) : queue :=
  mk_queue (max_length q) (q_length q) (q_version q) (items q) (order q)
    l (q_repeat q) (q_single q) (q_consume q) (q_random q) (rand q).

Definition set_rand (r : nat -> Z) (q : queue) : queue :=
  mk_queue (max_length q) (q_length q) (q_version q) (items q) (order q)
    (id_to_position q) (q_repeat q) (q_single q) (q_consume q) (q_random q)
    r.

(** ** The monad of queue operations *)

Inductive result (A : Type) : Type :=
| Ok (a : A)
| AssertFail
| Undefined
| Diverge.

Arguments Ok {A} a.
Arguments AssertFail {A}.
Arguments Undefined {A}.
Arguments Diverge {A}.

Definition M (A : Type) : Type := queue -> result (A * queue).

#[global] Instance M_ret : MRet M := fun A a q => Ok (a, q).

#[global] Instance M_bind : MBind M := fun A B f m q =>
  match m q with
  | Ok (a, q') => f a q'
  | AssertFail => AssertFail
  | Undefined => Undefined
  | Diverge => Diverge
  end.

Definition get : M queue := fun q => Ok (q, q).
Definition modify (f : queue -> queue) : M unit := fun q => Ok (tt, f q).
Definition assert (b : bool) : M unit :=
  fun q => if b then Ok (tt, q) else AssertFail.
Definition undefined {A} : M A := fun _ => Undefined.
Definition diverge {A} : M A := fun _ => Diverge.

(** Array accesses. *)
Definition read {A} (arr : queue -> list A) (i : Z) : M A := fun q =>
  if i <? 0 then Undefined
  else match arr q !! Z.to_nat i with
       | Some x => Ok (x, q)
       | None => Undefined
       end.

Definition write {A} (arr : queue -> list A)
    (set : list A -> queue -> queue) (i : Z) (x : A) : M unit := fun q =>
  if (0 <=? i) && (i <? Z.of_nat (length (arr q)))
  then Ok (tt, set (<[Z.to_nat i := x]> (arr q)) q)
  else Undefined.

Definition items_read := read items.
Definition items_write := write items set_items.
Definition order_read := read order.
Definition order_write := write order set_order.
Definition idmap_read := read id_to_position.
Definition idmap_write := write id_to_position set_id_to_position.

(** [for (unsigned i = lo; i < hi; i++) body(i)], for a bound [hi] that
    the body does not write: [for_up (hi - lo) lo body]. *)
Fixpoint for_up (n : nat) (i : Z) (body : Z -> M unit) : M unit :=
  match n with
  | O => mret tt
  | S n' => body i ;; for_up n' (i + 1) body
  end.

Definition for_range (lo hi : Z) (body : Z -> M unit) : M unit :=
  for_up (Z.to_nat (hi - lo)) lo body.

(** [for (unsigned i = hi; ...; i--) body(i)], [n] iterations. *)
Fixpoint for_down (n : nat) (i : Z) (body : Z -> M unit) : M unit :=
  match n with
  | O => mret tt
  | S n' => body i ;; for_down n' (i - 1) body
  end.

(** ** The random engine *)

(** One raw draw of the engine. *)
Definition draw : M Z := fun q =>
  Ok (rand q O, set_rand (fun n => rand q (S n)) q).

(** [std::uniform_int_distribution<unsigned>(lo, hi)(rand)]: some value
    of the closed interval; the standard requires [lo <= hi]. *)
Definition uniform (lo hi : Z) : M Z :=
  if hi <? lo then undefined
  else r ← draw; mret (lo + r mod (hi - lo + 1)).

(** [for] loop threading a local variable of the enclosing function. *)
Fixpoint for_up_acc {S : Type} (n : nat) (i : Z)
    (body : Z -> S -> M S) (acc : S) : M S :=
  match n with
  | O => mret acc
  | S n' => acc' ← body i acc; for_up_acc n' (i + 1) body acc'
  end.

(** Read of a local array (the [tmp] block of [MoveRange]). *)
Definition local_read {A} (l : list A) (i : Z) : M A :=
  if i <? 0 then undefined
  else match l !! Z.to_nat i with
       | Some x => mret x
       | None => undefined
       end.

(** ** Construction *)

(** [queue::queue].  The arrays come from [g_new] and [g_malloc]; the
    constructor only initialises [id_to_position], whose loop bound is
    computed in [unsigned] arithmetic. *)
Definition queue_new (_max_length : Z) (rng : nat -> Z) : queue :=
  {| max_length := _max_length;
     q_length := 0;
     q_version := 1;
     items := replicate (Z.to_nat _max_length) inhabitant;
     order := replicate (Z.to_nat _max_length) 0;
     id_to_position :=
       replicate (Z.to_nat (wrap (_max_length * QUEUE_HASH_MULT))) (-1)
       ++ replicate (Z.to_nat (_max_length * QUEUE_HASH_MULT
                               - wrap (_max_length * QUEUE_HASH_MULT))) 0;
     q_repeat := false;
     q_single := false;
     q_consume := false;
     q_random := false;
     rand := rng |}.

(** ** Inline members of Queue.hxx *)

(** Modelled from the spec: [IsFull] is declared in Queue.hxx, which is
    not part of the sources at hand; invariant 1 of the specification
    ([length ≤ max_length]) makes the queue full when the length has
    reached [max_length]. *)
Definition IsFull : M bool :=
  q ← get; mret (max_length q <=? q_length q).

(** Modelled from the spec: [OrderToPosition] (Queue.hxx) is the
    order-to-position query: [order[k]] is the position that plays at
    ordinal [k]. *)
Definition OrderToPosition (_order : Z) : M Z :=
  q ← get;
  assert (_order <? q_length q);;
  order_read _order.

(** Modelled from the spec: [PositionToOrder] (Queue.hxx) is the
    position-to-order query, the inverse of [OrderToPosition]: the first
    order index whose entry is the position. *)
Fixpoint PositionToOrder_loop (fuel : nat) (i position : Z) : M Z :=
  match fuel with
  | O => diverge
  | S fuel' =>
      q ← get;
      assert (i <? q_length q);;
      o ← order_read i;
      if o =? position then mret i
      else PositionToOrder_loop fuel' (wrap (i + 1)) position
  end.

Definition PositionToOrder (position : Z) : M Z :=
  q ← get;
  assert (position <? q_length q);;
  PositionToOrder_loop (S (Z.to_nat (q_length q))) 0 position.

(** Modelled from the spec: [PositionToId] (Queue.hxx) is the
    identifier of the item at a position. *)
Definition PositionToId (position : Z) : M Z :=
  q ← get;
  assert (position <? q_length q);;
  it ← items_read position;
  mret (i_id it).

(** Modelled from the spec: [SwapOrders] (Queue.hxx) exchanges two
    entries of the order array (the "single random swap" of
    [ShuffleOrderFirst] and [ShuffleOrderLast]). *)
Definition SwapOrders (order1 order2 : Z) : M unit :=
  tmp ← order_read order1;
  o2 ← order_read order2;
  order_write order1 o2;;
  order_write order2 tmp.

(** ** Queue.cxx *)

(** [queue_generate_id], with its static cursor [cur] made explicit.  The
    [do ... while] loop probes the slots cyclically; after as many
    iterations as there are slots it has seen every slot, so that running
    out of fuel means that the loop does not terminate. *)
Fixpoint queue_generate_id_loop (fuel : nat) (cur : Z) : M Z :=
  match fuel with
  | O => diverge
  | S fuel' =>
      q ← get;
      let cur := wrap (cur + 1) in
      let cur :=
        if wrap (max_length q * QUEUE_HASH_MULT) <=? cur then 0 else cur in
      p ← idmap_read cur;
      if p =? -1 then mret cur
      else queue_generate_id_loop fuel' cur
  end.

Definition queue_generate_id (cur : Z) : M Z :=
  q ← get;
  queue_generate_id_loop
    (S (Z.to_nat (wrap (max_length q * QUEUE_HASH_MULT)))) cur.

Definition GetNextOrder (_order : Z) : M Z :=
  q ← get;
  assert (_order <? q_length q);;
  if q_single q && q_repeat q && negb (q_consume q) then
    mret (to_int _order)
  else if wrap (_order + 1) <? q_length q then
    mret (to_int (wrap (_order + 1)))
  else if q_repeat q && ((0 <? _order) || negb (q_consume q)) then
    mret 0
  else
    mret (-1).

(** [items[i].version = v] *)
Definition items_set_version (i v : Z) : M unit :=
  it ← items_read i;
  items_write i (item_set_version v it).

Definition IncrementVersion : M unit :=
  let max := 2 ^ 31 - 1 in
  modify (fun q => set_version (wrap (q_version q + 1)) q);;
  q ← get;
  if max <=? q_version q then
    for_range 0 (q_length q) (fun i => items_set_version i 0);;
    modify (set_version 1)
  else mret tt.

Definition ModifyAtOrder (_order : Z) : M unit :=
  q ← get;
  assert (_order <? q_length q);;
  position ← order_read _order;
  items_set_version position (q_version q);;
  IncrementVersion.

Definition ModifyAll : M unit :=
  q ← get;
  for_range 0 (q_length q) (fun i => items_set_version i (q_version q));;
  IncrementVersion.

(** [queue::Append]; [cur] is the static cursor of [queue_generate_id],
    whose new value is the identifier returned.  [song_dup_detached]
    copies the opaque song. *)
Definition Append (song : Z) (priority : Z) (cur : Z) : M Z :=
  id ← queue_generate_id cur;
  full ← IsFull;
  assert (negb full);;
  q ← get;
  items_write (q_length q) (mk_item song id (q_version q) priority);;
  order_write (q_length q) (q_length q);;
  idmap_write id (to_int (q_length q));;
  modify (set_length (wrap (q_length q + 1)));;
  mret id.

Definition SwapPositions (position1 position2 : Z) : M unit :=
  it1 ← items_read position1;
  it2 ← items_read position2;
  let id1 := i_id it1 in
  let id2 := i_id it2 in
  items_write position1 it2;;
  items_write position2 it1;;
  q ← get;
  items_set_version position1 (q_version q);;
  items_set_version position2 (q_version q);;
  idmap_write id1 (to_int position2);;
  idmap_write id2 (to_int position1).

Definition queue_move_song_to (from to : Z) : M unit :=
  it ← items_read from;
  let from_id := i_id it in
  items_write to it;;
  q ← get;
  items_set_version to (q_version q);;
  idmap_write from_id (to_int to).

(** [queue::MovePostion] (the name is the source's). *)
Definition MovePostion (from to : Z) : M unit :=
  item ← items_read from;
  for_range from to (fun i => queue_move_song_to (wrap (i + 1)) i);;
  for_down (Z.to_nat (from - to)) from
    (fun i => queue_move_song_to (wrap (i - 1)) i);;
  idmap_write (i_id item) (to_int to);;
  items_write to item;;
  q ← get;
  items_set_version to (q_version q);;
  if q_random q then
    for_range 0 (q_length q) (fun i =>
      o ← order_read i;
      if (from <? o) && (o <=? to) then order_write i (wrap (o - 1))
      else if (o <? from) && (to <=? o) then order_write i (wrap (o + 1))
      else if from =? o then order_write i to
      else mret tt)
  else mret tt.

Definition MoveRange (start end_ to : Z) : M unit :=
  tmp ← for_up_acc (Z.to_nat (end_ - start)) start
           (fun i tmp => it ← items_read i; mret (tmp ++ [it])) [];
  for_range end_ (wrap (end_ + to - start))
    (fun i => queue_move_song_to i (wrap (start + i - end_)));;
  for_down (Z.to_nat (start - to)) (wrap (start - 1))
    (fun i => queue_move_song_to i (wrap (i + end_ - start)));;
  for_range start end_ (fun i =>
    it ← local_read tmp (wrap (i - start));
    idmap_write (i_id it) (to_int (wrap (to + i - start)));;
    items_write (wrap (to + i - start)) it;;
    q ← get;
    items_set_version (wrap (to + i - start)) (q_version q));;
  q ← get;
  if q_random q then
    for_range 0 (q_length q) (fun i =>
      o ← order_read i;
      if (end_ <=? o) && (o <? wrap (to + end_ - start)) then
        order_write i (wrap (o - wrap (end_ - start)))
      else if (o <? start) && (to <=? o) then
        order_write i (wrap (o + wrap (end_ - start)))
      else if (start <=? o) && (o <? end_) then
        order_write i (wrap (o + wrap (to - start)))
      else mret tt)
  else mret tt.

Definition queue_move_order (from_order to_order : Z) : M unit :=
  q ← get;
  assert (from_order <? q_length q);;
  assert (to_order <=? q_length q);;
  from_position ← OrderToPosition from_order;
  (if from_order <? to_order then
     for_range from_order to_order (fun i =>
       o ← order_read (wrap (i + 1)); order_write i o)
   else
     for_down (Z.to_nat (from_order - to_order)) from_order (fun i =>
       o ← order_read (wrap (i - 1)); order_write i o));;
  order_write to_order from_position.

(** [queue::DeletePosition]; releasing the song is outside the model. *)
Definition DeletePosition (position : Z) : M unit :=
  q ← get;
  assert (position <? q_length q);;
  id ← PositionToId position;
  _order ← PositionToOrder position;
  modify (fun q => set_length (wrap (q_length q - 1)) q);;
  idmap_write id (-1);;
  q ← get;
  for_range position (q_length q)
    (fun i => queue_move_song_to (wrap (i + 1)) i);;
  for_range _order (q_length q) (fun i =>
    o ← order_read (wrap (i + 1)); order_write i o);;
  for_range 0 (q_length q) (fun i =>
    o ← order_read i;
    if position <? o then order_write i (wrap (o - 1)) else mret tt).

Definition Clear : M unit :=
  q ← get;
  for_range 0 (q_length q) (fun i =>
    item ← items_read i;
    idmap_write (i_id item) (-1));;
  modify (set_length 0).

Definition queue_get_order_item_const (_order : Z) : M queue_item :=
  q ← get;
  assert (_order <? q_length q);;
  position ← order_read _order;
  items_read position.

Definition queue_get_order_priority (_order : Z) : M Z :=
  it ← queue_get_order_item_const _order;
  mret (i_priority it).

(** The comparison callback; [a] and [b] are the two order entries
    pointed to. *)
Definition queue_item_compare_order_priority (q : queue) (av bv : Z) : Z :=
  let a := i_priority (items q !!! Z.to_nat av) in
  let b := i_priority (items q !!! Z.to_nat bv) in
  if a =? b then 0
  else if b <? a then -1
  else 1.

(** [g_qsort_with_data] (GLib) sorts an array with a comparison callback
    and is stable; it is modelled by a stable insertion sort. *)
Fixpoint qsort_insert (cmp : Z -> Z -> Z) (x : Z) (l : list Z) : list Z :=
  match l with
  | [] => [x]
  | y :: l' => if cmp x y <=? 0 then x :: y :: l'
               else y :: qsort_insert cmp x l'
  end.

Definition g_qsort_with_data (cmp : Z -> Z -> Z) (l : list Z) : list Z :=
  foldr (qsort_insert cmp) [] l.

(** The slice [order[start .. start + n)] replaced by [l]. *)
Definition order_splice (start : Z) (n : nat) (f : list Z -> list Z)
    (l : list Z) : list Z :=
  take (Z.to_nat start) l
  ++ f (take n (drop (Z.to_nat start) l))
  ++ drop (Z.to_nat start + n) l.

Definition queue_sort_order_by_priority (start end_ : Z) : M unit :=
  q ← get;
  assert (q_random q);;
  assert (start <=? end_);;
  assert (end_ <=? q_length q);;
  modify (fun q =>
    set_order
      (order_splice start (Z.to_nat (wrap (end_ - start)))
         (g_qsort_with_data (queue_item_compare_order_priority q))
         (order q)) q).

(** [std::shuffle(order + start, order + end, rand)] is modelled by the
    usual implementation: a Fisher-Yates pass that swaps each element
    with a uniformly drawn earlier one. *)
Definition ShuffleOrderRange (start end_ : Z) : M unit :=
  q ← get;
  assert (q_random q);;
  assert (start <=? end_);;
  assert (end_ <=? q_length q);;
  for_range (start + 1) end_ (fun i =>
    j ← uniform start i;
    SwapOrders i j).

Definition ShuffleOrderRangeWithPriority (start end_ : Z) : M unit :=
  q ← get;
  assert (q_random q);;
  assert (start <=? end_);;
  assert (end_ <=? q_length q);;
  if start =? end_ then mret tt
  else
    queue_sort_order_by_priority start end_;;
    group_priority ← queue_get_order_priority start;
    g ← for_up_acc (Z.to_nat (end_ - (start + 1))) (wrap (start + 1))
          (fun i (g : Z * Z) =>
             let '(group_start, group_priority) := g in
             priority ← queue_get_order_priority i;
             assert (priority <=? group_priority);;
             if negb (priority =? group_priority) then
               ShuffleOrderRange group_start i;;
               mret (i, priority)
             else mret (group_start, group_priority))
          (start, group_priority);
    ShuffleOrderRange (fst g) end_.

Definition ShuffleOrder : M unit :=
  q ← get;
  ShuffleOrderRangeWithPriority 0 (q_length q).

Definition ShuffleOrderFirst (start end_ : Z) : M unit :=
  j ← uniform start (wrap (end_ - 1));
  SwapOrders start j.

Definition ShuffleOrderLast (start end_ : Z) : M unit :=
  j ← uniform start (wrap (end_ - 1));
  SwapOrders (wrap (end_ - 1)) j.

Definition ShuffleRange (start end_ : Z) : M unit :=
  q ← get;
  assert (start <=? end_);;
  assert (end_ <=? q_length q);;
  for_range start end_ (fun i =>
    ri ← uniform start (wrap (end_ - 1));
    SwapPositions i ri).

(** The loop of [queue_find_priority_order], [fuel] iterations left. *)
Fixpoint queue_find_priority_order_loop (fuel : nat) (_order : Z)
    (priority exclude_order : Z) : M Z :=
  match fuel with
  | O => q ← get; mret (q_length q)
  | S fuel' =>
      position ← OrderToPosition _order;
      item ← items_read position;
      if (i_priority item <=? priority) && negb (_order =? exclude_order)
      then mret _order
      else queue_find_priority_order_loop fuel' (wrap (_order + 1))
             priority exclude_order
  end.

Definition queue_find_priority_order (start_order priority exclude_order : Z)
    : M Z :=
  q ← get;
  assert (q_random q);;
  assert (start_order <=? q_length q);;
  queue_find_priority_order_loop (Z.to_nat (q_length q - start_order))
    start_order priority exclude_order.

(** The loop of [queue_count_same_priority]. *)
Fixpoint queue_count_same_priority_loop (fuel : nat) (_order : Z)
    (start_order priority : Z) : M Z :=
  match fuel with
  | O => q ← get; mret (wrap (q_length q - start_order))
  | S fuel' =>
      position ← OrderToPosition _order;
      item ← items_read position;
      if negb (i_priority item =? priority)
      then mret (wrap (_order - start_order))
      else queue_count_same_priority_loop fuel' (wrap (_order + 1))
             start_order priority
  end.

Definition queue_count_same_priority (start_order priority : Z) : M Z :=
  q ← get;
  assert (q_random q);;
  assert (start_order <=? q_length q);;
  queue_count_same_priority_loop (Z.to_nat (q_length q - start_order))
    start_order start_order priority.

(** The tail of [queue::SetPriority], reached when no early [return]
    applies: move the item to the beginning of its priority group and
    shuffle it within that group. *)
Definition SetPriority_reorder (priority after_order _order : Z) : M bool :=
  before_order ← queue_find_priority_order
                   (to_unsigned (after_order + 1)) priority _order;
  let new_order :=
    if _order <? before_order then wrap (before_order - 1)
    else before_order in
  queue_move_order _order new_order;;
  priority_count ← queue_count_same_priority new_order priority;
  assert (1 <=? priority_count);;
  ShuffleOrderFirst new_order (wrap (new_order + priority_count));;
  mret true.

(** [queue::SetPriority]; [priority] is a [uint8_t], [after_order] an
    [int]. *)
Definition SetPriority (position priority after_order : Z) : M bool :=
  q ← get;
  assert (position <? q_length q);;
  item ← items_read position;
  let old_priority := i_priority item in
  if old_priority =? priority then mret false
  else
    items_write position
      (item_set_priority priority (item_set_version (q_version q) item));;
    if negb (q_random q) then mret true
    else
      _order ← PositionToOrder position;
      if 0 <=? after_order then
        if _order =? to_unsigned after_order then mret true
        else if _order <? to_unsigned after_order then
          after_position ← OrderToPosition (to_unsigned after_order);
          after_item ← items_read after_position;
          if (i_priority after_item <? old_priority)
             || (priority <=? i_priority after_item)
          then mret true
          else SetPriority_reorder priority after_order _order
        else SetPriority_reorder priority after_order _order
      else SetPriority_reorder priority after_order _order.

Definition SetPriorityRange (start_position end_position : Z)
    (priority after_order : Z) : M bool :=
  q ← get;
  assert (start_position <=? end_position);;
  assert (end_position <=? q_length q);;
  after_position ←
    (if 0 <=? after_order then
       p ← OrderToPosition (to_unsigned after_order); mret (to_int p)
     else mret (-1));
  for_up_acc (Z.to_nat (end_position - start_position)) start_position
    (fun i (modified : bool) =>
       after_order ←
         (if 0 <=? after_position then
            o ← PositionToOrder (to_unsigned after_position);
            mret (to_int o)
          else mret (-1));
       m ← SetPriority i priority after_order;
       mret (modified || m))
    false.

(** ** Scenarios *)

(** Run a computation and keep the final queue. *)
Definition exec {A} (m : M A) (q : queue) : option queue :=
  match m q with
  | Ok (_, q') => Some q'
  | _ => None
  end.

Definition songs_of (q : queue) : list Z :=
  i_song <$> take (Z.to_nat (q_length q)) (items q).

(** The mode flags are public members, assigned by the caller. *)
Definition set_modes (rep sing cons rnd : bool) (q : queue) : queue :=
  mk_queue (max_length q) (q_length q) (q_version q) (items q) (order q)
    (id_to_position q) rep sing cons rnd (rand q).

(** The identifier of the item at a position, looked up in the IdMap. *)
Definition idmap_of_position (q : queue) (p : nat) : option Z :=
  it ← items q !! p; id_to_position q !! Z.to_nat (i_id it).

(** Append the songs of a list, one after the other, with priority 0; the
    cursor starts at its initial value [(unsigned)-1]. *)
Fixpoint append_all (songs : list Z) (cur : Z) : M Z :=
  match songs with
  | [] => mret cur
  | s :: songs' => id ← Append s 0 cur; append_all songs' id
  end.

(** The selector of section 4.3 of the specification, following its
    table: the first row that applies gives the result; [END] is -1. *)
Definition next_selector (len order_idx : Z) (rep sing cons : bool) : Z :=
  if sing && rep && negb cons then order_idx
  else if order_idx + 1 <? len then order_idx + 1
  else if rep && ((0 <? order_idx) || negb cons) then 0
  else -1.

(** [MoveRange] as the specification words it: remove the block, then
    insert it at [to] in the remaining sequence. *)
Definition move_range_spec {A} (start end_ to : nat) (l : list A) : list A :=
  let block := take (end_ - start) (drop start l) in
  let rest := take start l ++ drop end_ l in
  take to rest ++ block ++ drop to rest.

(** The three-item queue of the scenarios: songs 65, 66, 67 ("A", "B",
    "C") appended to a fresh queue of capacity 3. *)
Definition queue_ABC (rng : nat -> Z) : option queue :=
  exec (append_all [65; 66; 67] G_MAXUINT) (queue_new 3 rng).

Definition queue_ABC_value (rng : nat -> Z) : queue :=
  {| max_length := 3; q_length := 3; q_version := 1;
     items := [mk_item 65 0 1 0; mk_item 66 1 1 0; mk_item 67 2 1 0];
     order := [0; 1; 2];
     id_to_position := [0; 1; 2; -1; -1; -1; -1; -1; -1; -1; -1; -1];
     q_repeat := false; q_single := false; q_consume := false;
     q_random := false; rand := rng |}.


(** The one-item queue: song 65 alone. *)
Definition queue_A_value (rng : nat -> Z) : queue :=
  {| max_length := 3; q_length := 1; q_version := 1;
     items := [mk_item 65 0 1 0; inhabitant; inhabitant];
     order := [0; 0; 0];
     id_to_position := [0; -1; -1; -1; -1; -1; -1; -1; -1; -1; -1; -1];
     q_repeat := false; q_single := false; q_consume := false;
     q_random := false; rand := rng |}.

(** The five-item queue [A, B, C, D, E]: songs 65 to 69 appended to a
    fresh queue of capacity 5 whose mode flags have been set. *)
Definition queue_ABCDE (rep sing cons rnd : bool) (rng : nat -> Z)
    : option queue :=
  exec (append_all [65; 66; 67; 68; 69] G_MAXUINT)
    (set_modes rep sing cons rnd (queue_new 5 rng)).

Definition queue_ABCDE_value (rep sing cons rnd : bool) (rng : nat -> Z)
    : queue :=
  {| max_length := 5; q_length := 5; q_version := 1;
     items := [mk_item 65 0 1 0; mk_item 66 1 1 0; mk_item 67 2 1 0;
               mk_item 68 3 1 0; mk_item 69 4 1 0];
     order := [0; 1; 2; 3; 4];
     id_to_position := [0; 1; 2; 3; 4; -1; -1; -1; -1; -1;
                        -1; -1; -1; -1; -1; -1; -1; -1; -1; -1];
     q_repeat := rep; q_single := sing; q_consume := cons;
     q_random := rnd; rand := rng |}.

(** ** Total correctness of a computation

    [wp m Q q]: run from [q], the computation [m] returns, and its value
    and final queue satisfy [Q]. *)
Definition wp {A} (m : M A) (Q : A -> queue -> Prop) (q : queue) : Prop :=
  exists a q', m q = Ok (a, q') /\ Q a q'.

(** [f] applied to the first [n] elements. *)
Definition map_prefix {A} (f : A -> A) (n : nat) (l : list A) : list A :=
  (f <$> take n l) ++ drop n l.

(** The outcome of a version wrap-around: the counter is back at 1 and
    every live item carries the stamp 0. *)
Definition version_reset (q q' : queue) : Prop :=
  q_version q' = 1
  /\ q_length q' = q_length q
  /\ forall k, 0 <= k < q_length q ->
       exists it, items q' !! Z.to_nat k = Some it /\ i_version it = 0.

(** Invariant 2 of the specification: the IdMap sends the identifier of
    every live item to the position of the item. *)
Definition idmap_consistent (q : queue) : Prop :=
  forall p it, 0 <= p < q_length q ->
    items q !! Z.to_nat p = Some it ->
    0 <= i_id it /\ id_to_position q !! Z.to_nat (i_id it) = Some p.

(** Number of slots of the IdMap. *)
Definition idmap_size (q : queue) : Z := wrap (max_length q * QUEUE_HASH_MULT).

(** Some slot of the IdMap is unused. *)
Definition has_free_slot (q : queue) : Prop :=
  exists j, 0 <= j < idmap_size q
            /\ id_to_position q !! Z.to_nat j = Some (-1).

(** The cursor after one step of the probing loop. *)
Definition next_slot (n cur : Z) : Z :=
  if n <=? wrap (cur + 1) then 0 else wrap (cur + 1).

(** Invariant 4 of the specification: the first [length] entries of the
    order array are a permutation of the positions [0 .. length - 1]. *)
Definition order_perm (q : queue) : Prop :=
  take (Z.to_nat (q_length q)) (order q)
  ≡ₚ Z.of_nat <$> seq 0 (Z.to_nat (q_length q)).

(** The same, entry by entry: the first [n] entries of [l] are below [n]
    and pairwise distinct. *)
Definition perm_on (n : nat) (l : list Z) : Prop :=
  (n <= length l)%nat
  /\ (forall i o, (i < n)%nat -> l !! i = Some o -> 0 <= o < Z.of_nat n)
  /\ (forall i j o, (i < n)%nat -> (j < n)%nat ->
        l !! i = Some o -> l !! j = Some o -> i = j).

(** Number of slots of an IdMap that hold a position. *)
Definition used_slots (l : list Z) : nat :=
  length (filter (fun v => v <> -1) l).

(** The invariants of a queue: capacity representable, invariant 1,
    allocated sizes, invariant 4, invariant 2, and no more slots of the
    IdMap in use than there are live items (invariant 3). *)
Record Inv (q : queue) : Prop := mk_Inv {
  inv_size : 0 <= max_length q /\ max_length q * QUEUE_HASH_MULT < UINT_MOD;
  inv_length : 0 <= q_length q <= max_length q;
  inv_items : length (items q) = Z.to_nat (max_length q);
  inv_order : length (order q) = Z.to_nat (max_length q);
  inv_idmap :
    length (id_to_position q) = Z.to_nat (max_length q * QUEUE_HASH_MULT);
  inv_perm : perm_on (Z.to_nat (q_length q)) (order q);
  inv_ids : idmap_consistent q;
  inv_used : (used_slots (id_to_position q) <= Z.to_nat (q_length q))%nat
}.

(** What an operation on the order array leaves alone. *)
Definition frame_order (q q' : queue) : Prop :=
  max_length q' = max_length q /\ q_length q' = q_length q
  /\ q_version q' = q_version q /\ items q' = items q
  /\ id_to_position q' = id_to_position q
  /\ q_repeat q' = q_repeat q /\ q_single q' = q_single q
  /\ q_consume q' = q_consume q /\ q_random q' = q_random q
  /\ length (order q') = length (order q).

(** What an operation on the items and the IdMap leaves alone. *)
Definition frame_items (q q' : queue) : Prop :=
  max_length q' = max_length q /\ q_length q' = q_length q
  /\ q_version q' = q_version q /\ order q' = order q
  /\ q_repeat q' = q_repeat q /\ q_single q' = q_single q
  /\ q_consume q' = q_consume q /\ q_random q' = q_random q
  /\ rand q' = rand q
  /\ length (items q') = length (items q)
  /\ length (id_to_position q') = length (id_to_position q).

(** The list whose entry [k] is the entry [s k] of [l]. *)
Definition reindex {A} (s : nat -> nat) (l : list A) : list A :=
  imap (fun k x => default x (l !! s k)) l.

(** [for (i = a; i < b; i++) order[i] = order[i + 1]] *)
Definition shift_left_index (a b : nat) (k : nat) : nat :=
  if decide (a <= k < b)%nat then S k else k.

(** [for (i = a; i > b; i--) order[i] = order[i - 1]] *)
Definition shift_right_index (a b : nat) (k : nat) : nat :=
  if decide (b < k <= a)%nat then pred k else k.

(** The index map of [queue_move_order]: entry [from] goes to [to], the
    entries in between move by one towards [from]. *)
Definition move_order_index (from to : nat) (k : nat) : nat :=
  if decide (k = to) then from
  else if decide (from <= k < to)%nat then S k
  else if decide (to < k <= from)%nat then pred k
  else k.

(** [l'] is [l] with the entries of the index range [a .. b - 1]
    rearranged. *)
Definition permutes (a b : nat) (l l' : list Z) : Prop :=
  length l' = length l
  /\ exists s : nat -> nat,
       (forall k, (a <= k < b)%nat -> (a <= s k < b)%nat)
       /\ (forall k1 k2, (a <= k1 < b)%nat -> (a <= k2 < b)%nat ->
             s k1 = s k2 -> k1 = k2)
       /\ (forall k, (a <= k < b)%nat -> l' !! k = l !! s k)
       /\ (forall k, ~ (a <= k < b)%nat -> l' !! k = l !! k).

(** The priority of the item that plays at order [k]. *)
Definition prio_at (q : queue) (k : nat) : Z :=
  i_priority (items q !!! Z.to_nat (order q !!! k)).

(** The priorities read along the order array are non-increasing. *)
Definition prio_sorted (q : queue) : Prop :=
  forall i j, (i <= j)%nat -> (j < Z.to_nat (q_length q))%nat ->
    prio_at q j <= prio_at q i.

(** What [SetPriority position priority after_order] does to a queue:
    nothing when the priority is the one the item has; otherwise the item
    gets the priority and the stamp, and in random mode the entries of the
    order array are rearranged. *)
Definition SetPriority_post (q : queue) (position priority after_order : Z)
    (r : bool) (q' : queue) : Prop :=
  exists it, items q !! Z.to_nat position = Some it /\
  if i_priority it =? priority then r = false /\ q' = q
  else
    r = true
    /\ let q1 :=
         set_items
           (<[Z.to_nat position :=
                item_set_priority priority
                  (item_set_version (q_version q) it)]> (items q)) q in
       if q_random q then
         frame_order q1 q'
         /\ permutes 0 (Z.to_nat (q_length q)) (order q1) (order q')
         /\ (after_order = -1 -> prio_sorted q -> prio_sorted q')
       else q' = q1.

(** The coarse effect of [SetPriority] and [SetPriorityRange]: the items
    keep their identifiers and positions, the order array is
    rearranged, everything else is as before. *)
Definition reprioritized (q q' : queue) : Prop :=
  max_length q' = max_length q /\ q_length q' = q_length q
  /\ q_version q' = q_version q
  /\ id_to_position q' = id_to_position q
  /\ q_repeat q' = q_repeat q /\ q_single q' = q_single q
  /\ q_consume q' = q_consume q /\ q_random q' = q_random q
  /\ i_id <$> items q' = i_id <$> items q
  /\ permutes 0 (Z.to_nat (q_length q)) (order q) (order q').

(** Two items that differ at most by their version stamp. *)
Definition same_item (a b : queue_item) : Prop :=
  i_song a = i_song b /\ i_id a = i_id b /\ i_priority a = i_priority b.

(** The first [n] items carry pairwise distinct identifiers. *)
Definition ids_distinct (n : Z) (q0 : queue) : Prop :=
  forall p1 p2 it1 it2, 0 <= p1 < n -> 0 <= p2 < n ->
    items q0 !! Z.to_nat p1 = Some it1 ->
    items q0 !! Z.to_nat p2 = Some it2 ->
    i_id it1 = i_id it2 -> p1 = p2.

(** The state of the items and of the IdMap in the middle of an
    operation that moves items, started in [q0]: outside the holes [H],
    position [p] holds the item that was at position [s p], and the IdMap
    binds its identifier to [p]; the items that were at the positions [P]
    are held aside, their slots still in use. *)
Record moved (n : Z) (H P : Z -> Prop) (s : Z -> Z) (q0 q : queue) : Prop :=
  mk_moved {
  mv_frame : frame_items q0 q;
  mv_len : 0 <= n <= Z.of_nat (length (items q0));
  mv_used : used_slots (id_to_position q) = used_slots (id_to_position q0);
  mv_src : forall p, 0 <= p < n -> ~ H p -> 0 <= s p < n /\ ~ P (s p);
  mv_inj : forall p1 p2, 0 <= p1 < n -> 0 <= p2 < n -> ~ H p1 -> ~ H p2 ->
             s p1 = s p2 -> p1 = p2;
  mv_item : forall p, 0 <= p < n -> ~ H p ->
              exists it it0, items q !! Z.to_nat p = Some it
                /\ items q0 !! Z.to_nat (s p) = Some it0 /\ same_item it0 it;
  mv_idmap : forall p it, 0 <= p < n -> ~ H p ->
               items q !! Z.to_nat p = Some it ->
               0 <= i_id it
               /\ id_to_position q !! Z.to_nat (i_id it) = Some p;
  mv_pend : forall p0 it0, 0 <= p0 < n -> P p0 ->
              items q0 !! Z.to_nat p0 = Some it0 ->
              0 <= i_id it0
              /\ exists v, id_to_position q !! Z.to_nat (i_id it0) = Some v
                           /\ v <> -1
}.

(** The rewriting of an order entry by [MovePostion from to]. *)
Definition MovePostion_order (from to o : Z) : Z :=
  if (from <? o) && (o <=? to) then wrap (o - 1)
  else if (o <? from) && (to <=? o) then wrap (o + 1)
  else if from =? o then to
  else o.

(** Where the item at a position comes from, after
    [MovePostion from to]. *)
Definition MovePostion_source (from to p : Z) : Z :=
  if decide (p = to) then from
  else if decide (from <= p < to) then p + 1
  else if decide (to < p <= from) then p - 1
  else p.

(** The rewriting of an order entry by [MoveRange start end to]. *)
Definition MoveRange_order (start end_ to o : Z) : Z :=
  if (end_ <=? o) && (o <? wrap (to + end_ - start)) then
    wrap (o - wrap (end_ - start))
  else if (o <? start) && (to <=? o) then wrap (o + wrap (end_ - start))
  else if (start <=? o) && (o <? end_) then wrap (o + wrap (to - start))
  else o.

(** Where the item at a position comes from, after
    [MoveRange start end to]. *)
Definition MoveRange_source (start end_ to p : Z) : Z :=
  if decide (to <= p < to + (end_ - start)) then start + (p - to)
  else if decide (start <= p < to) then p + (end_ - start)
  else if decide (to + (end_ - start) <= p < end_) then p - (end_ - start)
  else p.

(** ** The public mutating operations *)

Inductive op : Type :=
| OpAppend (song priority : Z)
| OpDeletePosition (position : Z)
| OpClear
| OpSwapPositions (position1 position2 : Z)
| OpMovePostion (from to : Z)
| OpMoveRange (start end_ to : Z)
| OpSetPriority (position priority after_order : Z)
| OpSetPriorityRange (start_position end_position priority after_order : Z)
| OpShuffleRange (start end_ : Z)
| OpShuffleOrder
| OpShuffleOrderRangeWithPriority (start end_ : Z)
| OpShuffleOrderFirst (start end_ : Z)
| OpShuffleOrderLast (start end_ : Z)
| OpSetModes (rep sing csm rnd : bool).

(** Run one operation; the value threaded is the cursor of
    [queue_generate_id]. *)
Definition exec_op (o : op) (cur : Z) : M Z :=
  match o with
  | OpAppend song priority => Append song priority cur
  | OpDeletePosition position => DeletePosition position;; mret cur
  | OpClear => Clear;; mret cur
  | OpSwapPositions p1 p2 => SwapPositions p1 p2;; mret cur
  | OpMovePostion from to => MovePostion from to;; mret cur
  | OpMoveRange start end_ to => MoveRange start end_ to;; mret cur
  | OpSetPriority position priority after_order =>
      SetPriority position priority after_order;; mret cur
  | OpSetPriorityRange s e priority after_order =>
      SetPriorityRange s e priority after_order;; mret cur
  | OpShuffleRange start end_ => ShuffleRange start end_;; mret cur
  | OpShuffleOrder => ShuffleOrder;; mret cur
  | OpShuffleOrderRangeWithPriority start end_ =>
      ShuffleOrderRangeWithPriority start end_;; mret cur
  | OpShuffleOrderFirst start end_ => ShuffleOrderFirst start end_;; mret cur
  | OpShuffleOrderLast start end_ => ShuffleOrderLast start end_;; mret cur
  | OpSetModes rep sing csm rnd =>
      modify (set_modes rep sing csm rnd);; mret cur
  end.

Definition is_position (q : queue) (p : Z) : bool :=
  (0 <=? p) && (p <? q_length q).

Definition is_range (q : queue) (start end_ : Z) : bool :=
  (0 <=? start) && (start <=? end_) && (end_ <=? q_length q).

Definition is_priority (p : Z) : bool := (0 <=? p) && (p <? 256).

Definition is_after_order (q : queue) (a : Z) : bool :=
  (-1 <=? a) && (a <? q_length q).

(** The preconditions of the operations: the assertions of the source
    and the ranges of the arguments. *)
Definition pre_op (q : queue) (o : op) : bool :=
  match o with
  | OpAppend _ priority =>
      (q_length q <? max_length q) && is_priority priority
  | OpDeletePosition position => is_position q position
  | OpClear => true
  | OpSwapPositions p1 p2 => is_position q p1 && is_position q p2
  | OpMovePostion from to => is_position q from && is_position q to
  | OpMoveRange start end_ to =>
      is_range q start end_ && (0 <=? to)
      && (to <=? q_length q - (end_ - start))
  | OpSetPriority position priority after_order =>
      is_position q position && is_priority priority
      && is_after_order q after_order
  | OpSetPriorityRange s e priority after_order =>
      is_range q s e && is_priority priority && is_after_order q after_order
  | OpShuffleRange start end_ => is_range q start end_
  | OpShuffleOrder => q_random q
  | OpShuffleOrderRangeWithPriority start end_ =>
      q_random q && is_range q start end_
  | OpShuffleOrderFirst start end_
  | OpShuffleOrderLast start end_ =>
      is_range q start end_ && (start <? end_)
  | OpSetModes _ _ _ _ => true
  end.

(** Run a sequence of operations. *)
Fixpoint run (ops : list op) (cur : Z) : M Z :=
  match ops with
  | [] => mret cur
  | o :: ops' => cur' ← exec_op o cur; run ops' cur'
  end.

(** Every operation of the sequence is invoked with its precondition
    satisfied. *)
Fixpoint pre_ok (ops : list op) (cur : Z) (q : queue) : Prop :=
  match ops with
  | [] => True
  | o :: ops' =>
      pre_op q o = true
      /\ match exec_op o cur q with
         | Ok (cur', q') => pre_ok ops' cur' q'
         | _ => True
         end
  end.

(** The priorities read along the order array:
    [items[order[0]].priority, ..., items[order[length - 1]].priority]. *)
Definition priorities_along_order (q : queue) : list Z :=
  (fun o => i_priority (items q !!! Z.to_nat o))
    <$> take (Z.to_nat (q_length q)) (order q).

Definition non_increasing (l : list Z) : Prop :=
  forall i j x y, (i <= j)%nat -> l !! i = Some x -> l !! j = Some y -> y <= x.

(** The operations that keep the priorities along the order array
    non-increasing, with the condition on their arguments under which
    they do. *)
Definition keeps_priority_order (q : queue) (o : op) : bool :=
  match o with
  | OpAppend _ priority =>
      (q_length q =? 0)
      || (priority <=? prio_at q (Z.to_nat (q_length q - 1)))
  | OpDeletePosition _ | OpClear | OpMovePostion _ _ | OpMoveRange _ _ _ =>
      true
  | OpSetPriority _ _ after_order => after_order =? -1
  | OpSetPriorityRange _ _ _ after_order => after_order =? -1
  | OpShuffleOrder => true
  | OpShuffleOrderRangeWithPriority start end_ =>
      (start =? 0) && (end_ =? q_length q)
  | OpSetModes _ _ _ _ => true
  | OpSwapPositions _ _ | OpShuffleRange _ _
  | OpShuffleOrderFirst _ _ | OpShuffleOrderLast _ _ => false
  end.

(** The operations that sort the whole order array by priority. *)
Definition sorts_by_priority (q : queue) (o : op) : bool :=
  match o with
  | OpShuffleOrder => true
  | OpShuffleOrderRangeWithPriority start end_ =>
      (start =? 0) && (end_ =? q_length q)
  | _ => false
  end.

(** ** Further notions used by the properties *)

(** Every live item carries a version stamp below [v]. *)
Definition stamps_below (v : Z) (q : queue) : Prop :=
  forall p it, 0 <= p < q_length q ->
    items q !! Z.to_nat p = Some it -> i_version it < v.

(** The order indices played when starting at [_order] and following
    [GetNextOrder] for at most [fuel] songs; the walk stops at the end of
    the queue (-1). *)
Fixpoint play (fuel : nat) (_order : Z) (q : queue) : list Z :=
  match fuel with
  | O => []
  | S fuel' =>
      _order ::
      match GetNextOrder _order q with
      | Ok (next, _) => if next =? -1 then [] else play fuel' next q
      | _ => []
      end
  end.

(** The songs in playing order:
    [items[order[0]].song, ..., items[order[length - 1]].song]. *)
Definition songs_along_order (q : queue) : list Z :=
  (fun o => i_song (items q !!! Z.to_nat o))
    <$> take (Z.to_nat (q_length q)) (order q).

(** What identifies an item apart from its version stamp: song,
    identifier and priority. *)
Definition entry_of (it : queue_item) : Z * Z * Z :=
  (i_song it, i_id it, i_priority it).

(** The live items by position, without their stamps. *)
Definition entries_of (q : queue) : list (Z * Z * Z) :=
  entry_of <$> take (Z.to_nat (q_length q)) (items q).

(** What [SetPriority] does to an item whose priority changes. *)
Definition reprioritize (v priority : Z) (it : queue_item) : queue_item :=
  if i_priority it =? priority then it
  else item_set_priority priority (item_set_version v it).

(** The song found under an identifier: the IdMap binds the identifier to
    a position of the queue, and the item there carries the identifier
    and the song. *)
Definition has_song (q : queue) (id song : Z) : Prop :=
  exists p it,
    0 <= p < q_length q
    /\ items q !! Z.to_nat p = Some it
    /\ i_id it = id /\ i_song it = song
    /\ id_to_position q !! Z.to_nat id = Some p.

(** The operations that remove no item. *)
Definition keeps_items (o : op) : bool :=
  match o with
  | OpDeletePosition _ | OpClear => false
  | _ => true
  end.
(** * Properties *)

(** ** Machine arithmetic *)

Lemma wrap_small x : 0 <= x < UINT_MOD -> wrap x = x.
Proof. intros H. unfold wrap. apply Z.mod_small. exact H. Qed.

Lemma wrap_range x : 0 <= wrap x < UINT_MOD.
Proof. unfold wrap, UINT_MOD. apply Z.mod_pos_bound. lia. Qed.

Lemma to_int_small x : x < 2 ^ 31 -> to_int x = x.
Proof.
  intros H. unfold to_int. destruct (Z.ltb_spec x (2 ^ 31)); [done | lia].
Qed.

Lemma to_unsigned_small x : 0 <= x < UINT_MOD -> to_unsigned x = x.
Proof. apply wrap_small. Qed.

Lemma UINT_MOD_eq : UINT_MOD = 4294967296.
Proof. reflexivity. Qed.

(** ** Stepping through the monad *)

Lemma bind_Ok {A B} (m : M A) (f : A -> M B) q a q' :
  m q = Ok (a, q') -> (m ≫= f) q = f a q'.
Proof. intros H. unfold mbind, M_bind. rewrite H. reflexivity. Qed.

Lemma bind_inv {A B} (m : M A) (f : A -> M B) q b q2 :
  (m ≫= f) q = Ok (b, q2) ->
  exists a q1, m q = Ok (a, q1) /\ f a q1 = Ok (b, q2).
Proof.
  unfold mbind, M_bind. destruct (m q) as [[a q1]| | |]; try discriminate.
  intros H. exists a, q1. split; [reflexivity | exact H].
Qed.

Lemma read_Ok {A} (arr : queue -> list A) i q x :
  0 <= i -> arr q !! Z.to_nat i = Some x -> read arr i q = Ok (x, q).
Proof.
  intros Hi Hx. unfold read.
  destruct (Z.ltb_spec i 0); [lia |]. rewrite Hx. reflexivity.
Qed.

Lemma write_Ok {A} (arr : queue -> list A) set i (x : A) q :
  0 <= i < Z.of_nat (length (arr q)) ->
  write arr set i x q = Ok (tt, set (<[Z.to_nat i := x]> (arr q)) q).
Proof.
  intros Hi. unfold write.
  destruct (Z.leb_spec 0 i); [| lia].
  destruct (Z.ltb_spec i (Z.of_nat (length (arr q)))); [| lia].
  reflexivity.
Qed.

Lemma assert_Ok b q : b = true -> assert b q = Ok (tt, q).
Proof. intros ->. reflexivity. Qed.

(** ** GetNextOrder *)

Lemma GetNextOrder_eq q o :
  0 <= o < q_length q -> q_length q <= 2 ^ 31 ->
  GetNextOrder o q =
  Ok (next_selector (q_length q) o (q_repeat q) (q_single q) (q_consume q), q).
Proof.
  intros Ho Hlen. unfold GetNextOrder, next_selector.
  rewrite (bind_Ok get _ q q q) by reflexivity.
  rewrite (bind_Ok (assert _) _ q tt q)
    by (apply assert_Ok; apply Z.ltb_lt; lia).
  assert (Hw : wrap (o + 1) = o + 1)
    by (apply wrap_small; rewrite UINT_MOD_eq; lia).
  rewrite Hw.
  destruct (q_single q && q_repeat q && negb (q_consume q)).
  { rewrite to_int_small by lia. reflexivity. }
  destruct (Z.ltb_spec (o + 1) (q_length q)).
  { rewrite to_int_small by lia. reflexivity. }
  destruct (q_repeat q && ((0 <? o) || negb (q_consume q))); reflexivity.
Qed.

(** C2: for an order index below the length and every combination of
    the flags, [GetNextOrder] returns without touching the queue and its
    value is the one of the specification's table read top to bottom,
    first match winning: [order_idx] under single, repeat and no consume;
    else [order_idx + 1] when that is below the length; else 0 under
    repeat when [order_idx > 0] or consume is off; else END (-1).  With
    repeat and single set, consume off, the successor of order 1 is 1. *)
Theorem GetNextOrder_spec (q : queue) (order_idx : Z) :
  0 <= order_idx < q_length q ->
  q_length q <= 2 ^ 31 ->
  GetNextOrder order_idx q =
    Ok (next_selector (q_length q) order_idx
          (q_repeat q) (q_single q) (q_consume q), q)
  /\ (q_single q = true -> q_repeat q = true -> q_consume q = false ->
      GetNextOrder order_idx q = Ok (order_idx, q))
  /\ (q_single q && q_repeat q && negb (q_consume q) = false ->
      order_idx + 1 < q_length q ->
      GetNextOrder order_idx q = Ok (order_idx + 1, q))
  /\ (q_single q && q_repeat q && negb (q_consume q) = false ->
      q_length q <= order_idx + 1 ->
      q_repeat q = true -> (0 < order_idx \/ q_consume q = false) ->
      GetNextOrder order_idx q = Ok (0, q))
  /\ (q_single q && q_repeat q && negb (q_consume q) = false ->
      q_length q <= order_idx + 1 ->
      (q_repeat q = false \/ (order_idx = 0 /\ q_consume q = true)) ->
      GetNextOrder order_idx q = Ok (-1, q)).
Proof.
  intros Ho Hlen. rewrite GetNextOrder_eq by assumption.
  unfold next_selector. repeat split.
  - intros -> -> ->. reflexivity.
  - intros -> H. destruct (Z.ltb_spec (order_idx + 1) (q_length q)); [done | lia].
  - intros -> H Hr Hc.
    destruct (Z.ltb_spec (order_idx + 1) (q_length q)); [lia |].
    rewrite Hr. destruct Hc as [Hc | Hc].
    + destruct (Z.ltb_spec 0 order_idx); [done | lia].
    + rewrite Hc. rewrite orb_true_r. reflexivity.
  - intros -> H Hc.
    destruct (Z.ltb_spec (order_idx + 1) (q_length q)); [lia |].
    destruct Hc as [-> | [-> ->]]; [reflexivity |].
    destruct (q_repeat q); reflexivity.
Qed.

Lemma queue_ABC_eq rng : queue_ABC rng = Some (queue_ABC_value rng).
Proof. reflexivity. Qed.

Lemma GetNextOrder_spec_witness :
  0 <= 1 < q_length (set_modes true true false false
                       (queue_ABC_value (fun _ => 0)))
  /\ q_length (set_modes true true false false
                (queue_ABC_value (fun _ => 0))) <= 2 ^ 31
  /\ GetNextOrder 1
       (set_modes true true false false (queue_ABC_value (fun _ => 0)))
     = Ok (1, set_modes true true false false
                (queue_ABC_value (fun _ => 0))).
Proof.
  split; [simpl; lia |]. split; [simpl; lia |].
  apply (GetNextOrder_spec
           (set_modes true true false false (queue_ABC_value (fun _ => 0))) 1);
    simpl; (reflexivity || lia).
Defined.

(** C8 (as amended): on the three-item queue obtained by appending A, B
    and C, the successor of order 2 under repeat is 0; under consume and
    repeat the successor of order 0 is order 1, since a next entry
    exists; END is the successor of order 0 under consume and repeat on
    the queue that holds a single item. *)
Theorem GetNextOrder_repeat_wrap (rng : nat -> Z) :
  queue_ABC rng = Some (queue_ABC_value rng)
  /\ (forall cons,
        GetNextOrder 2 (set_modes true false cons false (queue_ABC_value rng))
        = Ok (0, set_modes true false cons false (queue_ABC_value rng)))
  /\ (forall sing,
        GetNextOrder 0 (set_modes true sing true false (queue_ABC_value rng))
        = Ok (1, set_modes true sing true false (queue_ABC_value rng)))
  /\ exec (append_all [65] G_MAXUINT) (queue_new 3 rng)
     = Some (queue_A_value rng)
  /\ (forall sing,
        GetNextOrder 0 (set_modes true sing true false (queue_A_value rng))
        = Ok (-1, set_modes true sing true false (queue_A_value rng))).
Proof.
  split; [reflexivity |].
  split; [intros []; reflexivity |].
  split; [intros []; reflexivity |].
  split; [reflexivity |].
  intros []; reflexivity.
Qed.

(** C8, as stated, fails: on the three-item queue with consume and
    repeat set the successor of order 0 is 1, not END. *)
Lemma GetNextOrder_repeat_wrap_counterexample :
  queue_ABC (fun _ => 0) = Some (queue_ABC_value (fun _ => 0))
  /\ GetNextOrder 0
       (set_modes true false true false (queue_ABC_value (fun _ => 0)))
     = Ok (1, set_modes true false true false (queue_ABC_value (fun _ => 0)))
  /\ GetNextOrder 0
       (set_modes true false true false (queue_ABC_value (fun _ => 0)))
     <> Ok (-1, set_modes true false true false
                  (queue_ABC_value (fun _ => 0))).
Proof.
  split; [reflexivity |]. split; [reflexivity |]. discriminate.
Qed.

(** The five-item queue obtained by appending A to E to a fresh queue,
    in every mode: [MoveRange 1 3 3] leaves [A, D, E, B, C], with B and C
    (identifiers 1 and 2) at positions 3 and 4 and A where it was. *)
Lemma queue_ABCDE_MoveRange (rep sing cons rnd : bool) (rng : nat -> Z) :
  queue_ABCDE rep sing cons rnd rng
    = Some (queue_ABCDE_value rep sing cons rnd rng)
  /\ exists q',
      MoveRange 1 3 3 (queue_ABCDE_value rep sing cons rnd rng) = Ok (tt, q')
      /\ songs_of q' = [65; 68; 69; 66; 67]
      /\ songs_of q'
         = move_range_spec 1 3 3
             (songs_of (queue_ABCDE_value rep sing cons rnd rng))
      /\ items q' !! 3%nat = Some (mk_item 66 1 1 0)
      /\ items q' !! 4%nat = Some (mk_item 67 2 1 0)
      /\ id_to_position q' !! 1%nat = Some 3
      /\ id_to_position q' !! 2%nat = Some 4
      /\ items q' !! 0%nat = Some (mk_item 65 0 1 0)
      /\ id_to_position q' !! 0%nat = Some 0
      /\ (forall p, (p < 5)%nat -> idmap_of_position q' p = Some (Z.of_nat p))
      /\ q_length q' = 5
      /\ 3 = q_length (queue_ABCDE_value rep sing cons rnd rng) - (3 - 1).
Proof.
  split; [destruct rep, sing, cons, rnd; reflexivity |].
  destruct rnd; eexists; (split; [vm_compute; reflexivity |]);
    repeat (split; [reflexivity |]);
    (split; [| split; reflexivity]);
    intros p Hp;
    repeat (destruct p as [| p]; [reflexivity |]); lia.
Qed.

(** ** SetPriority *)

(** C7: setting the priority of an item to the priority it already has
    returns [false] and leaves the whole queue as it was: items with
    their stamps, order array, IdMap, length, version counter, mode
    flags and random engine. *)
Theorem SetPriority_same_priority (q : queue) (p x : Z) (it : queue_item) :
  0 <= p < q_length q ->
  items q !! Z.to_nat p = Some it ->
  SetPriority p (i_priority it) x q = Ok (false, q).
Proof.
  intros Hp Hit. unfold SetPriority.
  rewrite (bind_Ok get _ q q q) by reflexivity.
  rewrite (bind_Ok (assert _) _ q tt q)
    by (apply assert_Ok; apply Z.ltb_lt; lia).
  rewrite (bind_Ok (items_read p) _ q it q)
    by (apply read_Ok; [lia | exact Hit]).
  rewrite Z.eqb_refl. reflexivity.
Qed.

Lemma SetPriority_same_priority_witness :
  0 <= 1 < q_length (queue_ABC_value (fun _ => 0))
  /\ items (queue_ABC_value (fun _ => 0)) !! Z.to_nat 1
     = Some (mk_item 66 1 1 0)
  /\ SetPriority 1 0 (-1) (queue_ABC_value (fun _ => 0))
     = Ok (false, queue_ABC_value (fun _ => 0)).
Proof.
  split; [simpl; lia |]. split; [reflexivity |].
  apply (SetPriority_same_priority
           (queue_ABC_value (fun _ => 0)) 1 (-1) (mk_item 66 1 1 0)).
  - simpl; lia.
  - reflexivity.
Defined.

(** ** Weakest preconditions *)

Section wp_rules.
Context {A B : Type}.
Implicit Types (Q : A -> queue -> Prop) (q : queue).

Lemma wp_ret (a : A) Q q : Q a q -> wp (mret a) Q q.
Proof. intros H. exists a, q. split; [reflexivity | exact H]. Qed.

Lemma wp_bind (m : M A) (f : A -> M B) (R : B -> queue -> Prop) q :
  wp m (fun a q' => wp (f a) R q') q -> wp (m ≫= f) R q.
Proof.
  intros (a & q1 & Hm & b & q2 & Hf & HR).
  exists b, q2. split; [| exact HR].
  rewrite (bind_Ok m f q a q1 Hm). exact Hf.
Qed.

Lemma wp_mono (m : M A) Q (Q' : A -> queue -> Prop) q :
  wp m Q q -> (forall a q', Q a q' -> Q' a q') -> wp m Q' q.
Proof.
  intros (a & q1 & Hm & HQ) Himp. exists a, q1. split; [exact Hm |].
  apply Himp, HQ.
Qed.

Lemma wp_eq (m : M A) Q q a q' : m q = Ok (a, q') -> Q a q' -> wp m Q q.
Proof. intros Hm HQ. exists a, q'. split; assumption. Qed.
End wp_rules.

Lemma wp_get (Q : queue -> queue -> Prop) q : Q q q -> wp get Q q.
Proof. intros H. exists q, q. split; [reflexivity | exact H]. Qed.

Lemma wp_modify f (Q : unit -> queue -> Prop) q :
  Q tt (f q) -> wp (modify f) Q q.
Proof. intros H. exists tt, (f q). split; [reflexivity | exact H]. Qed.

Lemma wp_assert b (Q : unit -> queue -> Prop) q :
  b = true -> Q tt q -> wp (assert b) Q q.
Proof. intros -> H. exists tt, q. split; [reflexivity | exact H]. Qed.

Lemma wp_read {A} (arr : queue -> list A) i x (Q : A -> queue -> Prop) q :
  0 <= i -> arr q !! Z.to_nat i = Some x -> Q x q -> wp (read arr i) Q q.
Proof.
  intros Hi Hx H. exists x, q. split; [apply read_Ok; assumption | exact H].
Qed.

Lemma wp_write {A} (arr : queue -> list A) set i (x : A)
    (Q : unit -> queue -> Prop) q :
  0 <= i < Z.of_nat (length (arr q)) ->
  Q tt (set (<[Z.to_nat i := x]> (arr q)) q) ->
  wp (write arr set i x) Q q.
Proof.
  intros Hi H. eexists tt, _. split; [apply write_Ok; assumption | exact H].
Qed.

(** Loop rules: an invariant indexed by the loop variable. *)
Lemma wp_for_up (I : Z -> queue -> Prop) n lo body q :
  I lo q ->
  (forall i q', lo <= i < lo + Z.of_nat n -> I i q' ->
     wp (body i) (fun _ q'' => I (i + 1) q'') q') ->
  wp (for_up n lo body) (fun _ q' => I (lo + Z.of_nat n) q') q.
Proof.
  revert lo q. induction n as [| n IH]; intros lo q H0 Hstep.
  - simpl. apply wp_ret. replace (lo + Z.of_nat 0) with lo by lia. exact H0.
  - simpl. apply wp_bind.
    eapply wp_mono; [apply (Hstep lo q); [lia | exact H0] |].
    intros u1 q1 H1. simpl in H1.
    eapply wp_mono; [apply (IH (lo + 1) q1 H1) |].
    + intros i q' Hi. apply Hstep. lia.
    + intros u2 q2 H2. simpl in H2.
      replace (lo + Z.of_nat (S n)) with (lo + 1 + Z.of_nat n) by lia.
      exact H2.
Qed.

Lemma wp_for_range (I : Z -> queue -> Prop) lo hi body q :
  lo <= hi ->
  I lo q ->
  (forall i q', lo <= i < hi -> I i q' ->
     wp (body i) (fun _ q'' => I (i + 1) q'') q') ->
  wp (for_range lo hi body) (fun _ q' => I hi q') q.
Proof.
  intros Hle H0 Hstep. unfold for_range.
  eapply wp_mono; [apply (wp_for_up I _ lo body q H0) |].
  - intros i q' Hi. apply Hstep. lia.
  - intros u q' H. simpl in H.
    replace (lo + Z.of_nat (Z.to_nat (hi - lo))) with hi in H by lia.
    exact H.
Qed.

Lemma wp_for_down (I : Z -> queue -> Prop) n hi body q :
  I hi q ->
  (forall i q', hi - Z.of_nat n < i <= hi -> I i q' ->
     wp (body i) (fun _ q'' => I (i - 1) q'') q') ->
  wp (for_down n hi body) (fun _ q' => I (hi - Z.of_nat n) q') q.
Proof.
  revert hi q. induction n as [| n IH]; intros hi q H0 Hstep.
  - simpl. apply wp_ret. replace (hi - Z.of_nat 0) with hi by lia. exact H0.
  - simpl. apply wp_bind.
    eapply wp_mono; [apply (Hstep hi q); [lia | exact H0] |].
    intros u1 q1 H1. simpl in H1.
    eapply wp_mono; [apply (IH (hi - 1) q1 H1) |].
    + intros i q' Hi. apply Hstep. lia.
    + intros u2 q2 H2. simpl in H2.
      replace (hi - Z.of_nat (S n)) with (hi - 1 - Z.of_nat n) by lia.
      exact H2.
Qed.

Lemma wp_for_up_acc {St} (I : Z -> St -> queue -> Prop) n lo
    (body : Z -> St -> M St) acc q :
  I lo acc q ->
  (forall i a q', lo <= i < lo + Z.of_nat n -> I i a q' ->
     wp (body i a) (fun a' q'' => I (i + 1) a' q'') q') ->
  wp (for_up_acc n lo body acc) (fun a q' => I (lo + Z.of_nat n) a q') q.
Proof.
  revert lo acc q. induction n as [| n IH]; intros lo acc q H0 Hstep.
  - simpl. apply wp_ret. replace (lo + Z.of_nat 0) with lo by lia. exact H0.
  - simpl. apply wp_bind.
    eapply wp_mono; [apply (Hstep lo acc q); [lia | exact H0] |].
    intros a1 q1 H1. simpl in H1.
    eapply wp_mono; [apply (IH (lo + 1) a1 q1 H1) |].
    + intros i a q' Hi. apply Hstep. lia.
    + intros a2 q2 H2. simpl in H2.
      replace (lo + Z.of_nat (S n)) with (lo + 1 + Z.of_nat n) by lia.
      exact H2.
Qed.

(** ** Lists as arrays *)

Lemma map_prefix_0 {A} (f : A -> A) (l : list A) : map_prefix f 0 l = l.
Proof. unfold map_prefix. rewrite take_0, drop_0. reflexivity. Qed.

Lemma length_map_prefix {A} (f : A -> A) n (l : list A) :
  length (map_prefix f n l) = length l.
Proof.
  unfold map_prefix. rewrite length_app, length_fmap, <- length_app.
  rewrite take_drop. reflexivity.
Qed.

Lemma lookup_map_prefix {A} (f : A -> A) n (l : list A) (i : nat) :
  map_prefix f n l !! i = if decide (i < n)%nat then f <$> l !! i else l !! i.
Proof.
  unfold map_prefix. destruct (decide (i < n)%nat) as [Hlt | Hge].
  - destruct (decide (i < length l)%nat) as [Hl | Hl].
    + rewrite lookup_app_l by (rewrite length_fmap, length_take; lia).
      rewrite list_lookup_fmap, lookup_take_lt by lia. reflexivity.
    + rewrite (lookup_ge_None_2 l i) by lia. simpl.
      apply lookup_ge_None_2.
      rewrite length_app, length_fmap, <- length_app, take_drop. lia.
  - destruct (decide (n <= length l)%nat) as [Hl | Hl].
    + rewrite lookup_app_r by (rewrite length_fmap, length_take; lia).
      rewrite length_fmap, length_take, lookup_drop. f_equal. lia.
    + rewrite take_ge, drop_ge by lia. rewrite app_nil_r.
      rewrite (lookup_ge_None_2 l i) by lia.
      rewrite list_lookup_fmap, (lookup_ge_None_2 l i) by lia. reflexivity.
Qed.

Lemma insert_map_prefix {A} (f : A -> A) (l : list A) (i : nat) x :
  l !! i = Some x ->
  <[i := f x]> (map_prefix f i l) = map_prefix f (S i) l.
Proof.
  intros Hx. apply list_eq. intros j.
  rewrite lookup_map_prefix.
  destruct (decide (j = i)) as [-> | Hne].
  - rewrite list_lookup_insert_eq
      by (rewrite length_map_prefix; eapply lookup_lt_Some; exact Hx).
    destruct (decide (i < S i)%nat); [| lia]. rewrite Hx. reflexivity.
  - rewrite list_lookup_insert_ne by congruence.
    rewrite lookup_map_prefix.
    destruct (decide (j < i)%nat), (decide (j < S i)%nat);
      (reflexivity || lia).
Qed.


(** ** Version stamps *)

Lemma items_set_version_Ok i v q it :
  0 <= i -> items q !! Z.to_nat i = Some it ->
  items_set_version i v q
  = Ok (tt, set_items (<[Z.to_nat i := item_set_version v it]> (items q)) q).
Proof.
  intros Hi Hit. unfold items_set_version.
  rewrite (bind_Ok (items_read i) _ q it q) by (apply read_Ok; assumption).
  apply write_Ok. split; [lia |].
  apply lookup_lt_Some in Hit. lia.
Qed.

(** The loop that stamps every live item with [v]. *)
Lemma stamp_all_Ok v q :
  0 <= q_length q <= Z.of_nat (length (items q)) ->
  for_range 0 (q_length q) (fun i => items_set_version i v) q
  = Ok (tt, set_items
              (map_prefix (item_set_version v) (Z.to_nat (q_length q))
                 (items q)) q).
Proof.
  intros Hlen.
  pose (I := fun (i : Z) (q' : queue) =>
    q' = set_items
           (map_prefix (item_set_version v) (Z.to_nat i) (items q)) q).
  destruct (wp_for_range I 0 (q_length q)
              (fun i => items_set_version i v) q) as (u & q' & Hrun & HI).
  - lia.
  - unfold I. simpl. rewrite map_prefix_0. destruct q; reflexivity.
  - intros i q1 Hi ->.
    destruct (lookup_lt_is_Some_2 (items q) (Z.to_nat i)) as [it Hit];
      [lia |].
    eapply wp_eq.
    + apply (items_set_version_Ok i v _ it); [lia |].
      simpl. rewrite lookup_map_prefix.
      destruct (decide (Z.to_nat i < Z.to_nat i)%nat); [lia |]. exact Hit.
    + unfold I. simpl. rewrite insert_map_prefix by exact Hit.
      replace (Z.to_nat (i + 1)) with (S (Z.to_nat i)) by lia.
      reflexivity.
  - destruct u. rewrite Hrun. rewrite HI. reflexivity.
Qed.

Lemma IncrementVersion_Ok q :
  0 <= q_length q <= Z.of_nat (length (items q)) ->
  IncrementVersion q =
  Ok (tt,
      if 2 ^ 31 - 1 <=? wrap (q_version q + 1) then
        set_version 1
          (set_items
             (map_prefix (item_set_version 0) (Z.to_nat (q_length q))
                (items q)) q)
      else set_version (wrap (q_version q + 1)) q).
Proof.
  intros Hlen. unfold IncrementVersion.
  rewrite (bind_Ok (modify _) _ q tt (set_version (wrap (q_version q + 1)) q))
    by reflexivity.
  set (q1 := set_version (wrap (q_version q + 1)) q).
  rewrite (bind_Ok get _ q1 q1 q1 eq_refl).
  change (q_version q1) with (wrap (q_version q + 1)).
  destruct (2 ^ 31 - 1 <=? wrap (q_version q + 1)); [| reflexivity].
  rewrite (bind_Ok _ _ _ _ _ (stamp_all_Ok 0 q1 Hlen)).
  reflexivity.
Qed.

Lemma map_prefix_version_0 (l : list queue_item) (n k : nat) :
  (k < n <= length l)%nat ->
  exists it, map_prefix (item_set_version 0) n l !! k = Some it
             /\ i_version it = 0.
Proof.
  intros Hk.
  destruct (lookup_lt_is_Some_2 l k) as [it Hit]; [lia |].
  exists (item_set_version 0 it). rewrite lookup_map_prefix.
  destruct (decide (k < n)%nat); [| lia]. rewrite Hit. split; reflexivity.
Qed.

(** C5 (as amended): [IncrementVersion] resets the counter to 1 and the
    stamp of every live item to 0 exactly when the incremented counter
    reaches [2^31 - 1], that is from the counter values [2^31 - 2] on;
    otherwise the counter is incremented and the items are untouched.  In
    particular, from the counter value [2^31 - 2], [ModifyAll] and
    [ModifyAtOrder] leave the counter at 1 and every live stamp at 0. *)
Theorem version_wrap_around (q : queue) :
  0 <= q_length q <= Z.of_nat (length (items q)) ->
  0 <= q_version q < 2 ^ 32 ->
  (exists q', IncrementVersion q = Ok (tt, q')
     /\ if (2 ^ 31 - 2 <=? q_version q) && (q_version q <=? 2 ^ 32 - 2)
        then version_reset q q'
        else q' = set_version (wrap (q_version q + 1)) q)
  /\ (q_version q = 2 ^ 31 - 2 ->
      wp ModifyAll (fun _ q' => version_reset q q') q
      /\ forall o p, 0 <= o < q_length q ->
           order q !! Z.to_nat o = Some p -> 0 <= p < q_length q ->
           wp (ModifyAtOrder o) (fun _ q' => version_reset q q') q).
Proof.
  intros Hlen Hv.
  assert (Hreset : forall q0 : queue,
    0 <= q_length q0 <= Z.of_nat (length (items q0)) ->
    version_reset q0
      (set_version 1
         (set_items
            (map_prefix (item_set_version 0) (Z.to_nat (q_length q0))
               (items q0)) q0))).
  { intros q0 H0. split; [reflexivity |]. split; [reflexivity |].
    intros k Hk. simpl. apply map_prefix_version_0. lia. }
  split.
  - eexists. split; [apply IncrementVersion_Ok; exact Hlen |].
    destruct (Z.leb_spec (2 ^ 31 - 2) (q_version q)) as [H1 | H1];
      destruct (Z.leb_spec (q_version q) (2 ^ 32 - 2)) as [H2 | H2]; simpl.
    + rewrite wrap_small by (rewrite UINT_MOD_eq; lia).
      destruct (Z.leb_spec (2 ^ 31 - 1) (q_version q + 1)); [| lia].
      apply Hreset, Hlen.
    + replace (q_version q + 1) with UINT_MOD by (rewrite UINT_MOD_eq; lia).
      reflexivity.
    + rewrite wrap_small by (rewrite UINT_MOD_eq; lia).
      destruct (Z.leb_spec (2 ^ 31 - 1) (q_version q + 1)); [lia |].
      reflexivity.
    + lia.
  - intros Hv2. split.
    + unfold ModifyAll. apply wp_bind, wp_get. apply wp_bind.
      eapply wp_eq; [apply stamp_all_Ok, Hlen |].
      eapply wp_eq.
      * apply IncrementVersion_Ok. simpl. rewrite length_map_prefix.
        exact Hlen.
      * cbn [q_version set_items]. rewrite Hv2. simpl.
        split; [reflexivity |]. split; [reflexivity |].
        intros k Hk. apply map_prefix_version_0.
        rewrite length_map_prefix. lia.
    + intros o p Ho Hp Hpr. unfold ModifyAtOrder.
      apply wp_bind, wp_get.
      apply wp_bind, wp_assert; [apply Z.ltb_lt; lia |].
      apply wp_bind. eapply wp_read; [lia | exact Hp |].
      destruct (lookup_lt_is_Some_2 (items q) (Z.to_nat p)) as [it Hit];
        [lia |].
      apply wp_bind.
      eapply wp_eq; [apply (items_set_version_Ok p _ q it); [lia | exact Hit] |].
      eapply wp_eq.
      * apply IncrementVersion_Ok. simpl. rewrite length_insert. exact Hlen.
      * cbn [q_version set_items]. rewrite Hv2. simpl.
        split; [reflexivity |]. split; [reflexivity |].
        intros k Hk. apply map_prefix_version_0.
        rewrite length_insert. lia.
Qed.

Lemma version_wrap_around_witness :
  let q := set_version (2 ^ 31 - 2) (queue_ABC_value (fun _ => 0)) in
  0 <= q_length q <= Z.of_nat (length (items q))
  /\ 0 <= q_version q < 2 ^ 32
  /\ exists q', IncrementVersion q = Ok (tt, q') /\ version_reset q q'.
Proof.
  intros q.
  assert (H1 : 0 <= q_length q <= Z.of_nat (length (items q)))
    by (simpl; lia).
  assert (H2 : 0 <= q_version q < 2 ^ 32) by (simpl; lia).
  split; [exact H1 |]. split; [exact H2 |].
  destruct (version_wrap_around q H1 H2) as [(q' & Hrun & Hres) _].
  exists q'. split; [exact Hrun | exact Hres].
Defined.

(** C5, as stated, fails: from the counter value [2^31 - 2] the
    incremented counter is [2^31 - 1], which does not exceed [2^31 - 1],
    and the counter is reset all the same. *)
Lemma version_wrap_around_counterexample :
  let q := set_version (2 ^ 31 - 2) (queue_ABC_value (fun _ => 0)) in
  ~ (q_version q + 1 > 2 ^ 31 - 1)
  /\ IncrementVersion q
     = Ok (tt, set_version 1
                 (set_items [mk_item 65 0 0 0; mk_item 66 1 0 0;
                             mk_item 67 2 0 0] q)).
Proof.
  split; [simpl; lia | vm_compute; reflexivity].
Qed.


Lemma wp_items_set_version i v it (Q : unit -> queue -> Prop) q :
  0 <= i -> items q !! Z.to_nat i = Some it ->
  Q tt (set_items (<[Z.to_nat i := item_set_version v it]> (items q)) q) ->
  wp (items_set_version i v) Q q.
Proof.
  intros Hi Hit HQ. eapply wp_eq; [| exact HQ].
  apply items_set_version_Ok; assumption.
Qed.

Ltac wp_get_step := apply wp_bind, wp_get; cbv beta.
Ltac wp_assert_step := apply wp_bind, wp_assert; [| cbv beta].

(** Identifiers of live items at distinct positions are distinct. *)
Lemma idmap_consistent_inj q p1 p2 it1 it2 :
  idmap_consistent q ->
  0 <= p1 < q_length q -> 0 <= p2 < q_length q ->
  items q !! Z.to_nat p1 = Some it1 -> items q !! Z.to_nat p2 = Some it2 ->
  i_id it1 = i_id it2 -> p1 = p2.
Proof.
  intros Hc Hp1 Hp2 H1 H2 Heq.
  destruct (Hc p1 it1 Hp1 H1) as [_ Ha].
  destruct (Hc p2 it2 Hp2 H2) as [_ Hb].
  rewrite Heq in Ha. congruence.
Qed.

(** ** SwapPositions *)

(** C6 (as amended): [SwapPositions p1 p2] exchanges the two items,
    stamps both with the version counter, rebinds both identifiers
    ([IdMap[id1] = p2], [IdMap[id2] = p1]) and leaves everything else,
    the version counter included, as it was: the counter is not
    incremented and equals the two new stamps after the call. *)
Theorem SwapPositions_spec (q : queue) (p1 p2 : Z) (it1 it2 : queue_item) :
  idmap_consistent q ->
  q_length q <= 2 ^ 31 ->
  0 <= p1 < q_length q -> 0 <= p2 < q_length q ->
  items q !! Z.to_nat p1 = Some it1 ->
  items q !! Z.to_nat p2 = Some it2 ->
  exists q',
    SwapPositions p1 p2 q = Ok (tt, q')
    /\ items q' !! Z.to_nat p1 = Some (item_set_version (q_version q) it2)
    /\ items q' !! Z.to_nat p2 = Some (item_set_version (q_version q) it1)
    /\ (forall k, k <> Z.to_nat p1 -> k <> Z.to_nat p2 ->
          items q' !! k = items q !! k)
    /\ id_to_position q' !! Z.to_nat (i_id it1) = Some p2
    /\ id_to_position q' !! Z.to_nat (i_id it2) = Some p1
    /\ (forall k, k <> Z.to_nat (i_id it1) -> k <> Z.to_nat (i_id it2) ->
          id_to_position q' !! k = id_to_position q !! k)
    /\ q_version q' = q_version q
    /\ q' = set_id_to_position (id_to_position q') (set_items (items q') q).
Proof.
  intros Hc Hlen Hp1 Hp2 H1 H2.
  destruct (Hc p1 it1 Hp1 H1) as [Hid1 Hm1].
  destruct (Hc p2 it2 Hp2 H2) as [Hid2 Hm2].
  assert (Hl1 := lookup_lt_Some _ _ _ H1).
  assert (Hl2 := lookup_lt_Some _ _ _ H2).
  assert (Hk1 := lookup_lt_Some _ _ _ Hm1).
  assert (Hk2 := lookup_lt_Some _ _ _ Hm2).
  assert (Hne : p1 <> p2 -> Z.to_nat (i_id it1) <> Z.to_nat (i_id it2)).
  { intros Hne Heq. apply Hne.
    apply (idmap_consistent_inj q p1 p2 it1 it2); try assumption. lia. }
  assert (Hsame : p1 = p2 -> it1 = it2) by (intros ->; congruence).
  cut (wp (SwapPositions p1 p2) (fun _ q' =>
    items q' !! Z.to_nat p1 = Some (item_set_version (q_version q) it2)
    /\ items q' !! Z.to_nat p2 = Some (item_set_version (q_version q) it1)
    /\ (forall k, k <> Z.to_nat p1 -> k <> Z.to_nat p2 ->
          items q' !! k = items q !! k)
    /\ id_to_position q' !! Z.to_nat (i_id it1) = Some p2
    /\ id_to_position q' !! Z.to_nat (i_id it2) = Some p1
    /\ (forall k, k <> Z.to_nat (i_id it1) -> k <> Z.to_nat (i_id it2) ->
          id_to_position q' !! k = id_to_position q !! k)
    /\ q_version q' = q_version q
    /\ q' = set_id_to_position (id_to_position q') (set_items (items q') q))
    q).
  { intros ([] & q' & Hrun & Hpost). exists q'. split; assumption. }
  unfold SwapPositions.
  apply wp_bind. eapply wp_read; [lia | exact H1 |].
  apply wp_bind. eapply wp_read; [lia | exact H2 |].
  apply wp_bind, wp_write; [lia |].
  apply wp_bind, wp_write; [simpl; rewrite length_insert; lia |].
  wp_get_step.
  apply wp_bind.
  eapply (wp_items_set_version p1 _
            (if decide (p1 = p2) then it1 else it2)); [lia | |].
  { simpl. destruct (decide (p1 = p2)) as [-> | Hd].
    - apply list_lookup_insert_eq. rewrite length_insert. lia.
    - rewrite list_lookup_insert_ne by lia.
      apply list_lookup_insert_eq. lia. }
  apply wp_bind.
  eapply (wp_items_set_version p2 _
            (if decide (p1 = p2)
             then item_set_version (q_version q) it1 else it1)); [lia | |].
  { simpl. destruct (decide (p1 = p2)) as [-> | Hd].
    - apply list_lookup_insert_eq. rewrite !length_insert. lia.
    - rewrite list_lookup_insert_ne by lia.
      apply list_lookup_insert_eq. rewrite length_insert. lia. }
  apply wp_bind, wp_write; [simpl; lia |].
  apply wp_write; [simpl; rewrite length_insert; lia |].
  simpl.
  rewrite !to_int_small by lia.
  split.
  { destruct (decide (p1 = p2)) as [-> | Hd].
    - rewrite list_lookup_insert_eq by (rewrite !length_insert; lia).
      rewrite (Hsame eq_refl). reflexivity.
    - rewrite list_lookup_insert_ne by lia.
      rewrite list_lookup_insert_eq by (rewrite !length_insert; lia).
      reflexivity. }
  split.
  { rewrite list_lookup_insert_eq by (rewrite !length_insert; lia).
    destruct (decide (p1 = p2)); reflexivity. }
  split.
  { intros k Hka Hkb. rewrite !list_lookup_insert_ne by lia. reflexivity. }
  split.
  { destruct (decide (p1 = p2)) as [-> | Hd].
    - rewrite (Hsame eq_refl).
      apply list_lookup_insert_eq. rewrite length_insert. lia.
    - rewrite list_lookup_insert_ne by (specialize (Hne Hd); lia).
      apply list_lookup_insert_eq. lia. }
  split.
  { apply list_lookup_insert_eq. rewrite length_insert. lia. }
  split.
  { intros k Hka Hkb. rewrite !list_lookup_insert_ne by lia. reflexivity. }
  split; reflexivity.
Qed.

Lemma idmap_consistent_ABC rng : idmap_consistent (queue_ABC_value rng).
Proof.
  intros p it Hp Hit. simpl in Hp.
  assert (Hc : p = 0 \/ p = 1 \/ p = 2) by lia.
  destruct Hc as [-> | [-> | ->]]; simpl in Hit; inversion Hit; subst;
    simpl; (split; [lia | reflexivity]).
Qed.

Lemma SwapPositions_spec_witness :
  let q := queue_ABC_value (fun _ => 0) in
  exists q',
    SwapPositions 0 1 q = Ok (tt, q')
    /\ items q' !! 0%nat = Some (mk_item 66 1 1 0)
    /\ items q' !! 1%nat = Some (mk_item 65 0 1 0)
    /\ id_to_position q' !! 0%nat = Some 1
    /\ id_to_position q' !! 1%nat = Some 0
    /\ q_version q' = q_version q.
Proof.
  intros q.
  destruct (SwapPositions_spec q 0 1 (mk_item 65 0 1 0) (mk_item 66 1 1 0))
    as (q' & Hrun & Ha & Hb & _ & Hc & Hd & _ & He & _).
  - apply idmap_consistent_ABC.
  - simpl; lia.
  - simpl; lia.
  - simpl; lia.
  - reflexivity.
  - reflexivity.
  - exists q'. repeat split; assumption.
Defined.

(** C6, as stated, fails: after [SwapPositions 0 1] on the three-item
    queue the version counter is still 1 and both exchanged items carry
    the stamp 1, so the counter is not greater than the new stamps. *)
Lemma SwapPositions_spec_counterexample :
  let q := queue_ABC_value (fun _ => 0) in
  let q' := set_id_to_position [1; 0; 2; -1; -1; -1; -1; -1; -1; -1; -1; -1]
              (set_items [mk_item 66 1 1 0; mk_item 65 0 1 0;
                          mk_item 67 2 1 0] q) in
  SwapPositions 0 1 q = Ok (tt, q')
  /\ q_version q' = q_version q
  /\ ~ (forall it, items q' !! 0%nat = Some it -> i_version it < q_version q').
Proof.
  split; [vm_compute; reflexivity |]. split; [reflexivity |].
  intros H. specialize (H (mk_item 66 1 1 0) eq_refl). simpl in H. lia.
Qed.


Lemma set_items_id q : set_items (items q) q = q.
Proof. destruct q; reflexivity. Qed.

Lemma set_order_id q : set_order (order q) q = q.
Proof. destruct q; reflexivity. Qed.

Lemma set_id_to_position_id q : set_id_to_position (id_to_position q) q = q.
Proof. destruct q; reflexivity. Qed.

(** A loop whose body leaves the queue as it is. *)
Lemma for_up_skip n lo body q :
  (forall i, lo <= i < lo + Z.of_nat n -> body i q = Ok (tt, q)) ->
  for_up n lo body q = Ok (tt, q).
Proof.
  intros Hbody.
  destruct (wp_for_up (fun _ q' => q' = q) n lo body q)
    as ([] & q' & Hrun & ->); [reflexivity | | exact Hrun].
  intros i q' Hi ->. eapply wp_eq; [apply Hbody; exact Hi | reflexivity].
Qed.

(** ** MovePostion *)

(** C10: moving an item onto its own position re-stamps the item with
    the version counter and changes nothing else, in every mode: the
    other items, the order array, the IdMap, the length, the flags and
    the version counter are as before. *)
Theorem MovePostion_same_position (q : queue) (p : Z) (it : queue_item) :
  idmap_consistent q ->
  q_length q <= 2 ^ 31 ->
  q_length q <= Z.of_nat (length (order q)) ->
  0 <= p < q_length q ->
  items q !! Z.to_nat p = Some it ->
  MovePostion p p q
  = Ok (tt, set_items
              (<[Z.to_nat p := item_set_version (q_version q) it]> (items q))
              q).
Proof.
  intros Hc Hlen Hord Hp Hit.
  destruct (Hc p it Hp Hit) as [Hid Hm].
  assert (Hl := lookup_lt_Some _ _ _ Hit).
  unfold MovePostion.
  rewrite (bind_Ok (items_read p) _ q it q) by (apply read_Ok; [lia | done]).
  unfold for_range. rewrite Z.sub_diag. simpl for_up. simpl for_down.
  rewrite (bind_Ok (mret tt) _ q tt q eq_refl).
  rewrite (bind_Ok (mret tt) _ q tt q eq_refl).
  rewrite (bind_Ok (idmap_write _ _) _ q tt q).
  2:{ unfold idmap_write. rewrite write_Ok.
      - rewrite to_int_small by lia. rewrite list_insert_id by exact Hm.
        rewrite set_id_to_position_id. reflexivity.
      - apply lookup_lt_Some in Hm. lia. }
  rewrite (bind_Ok (items_write p it) _ q tt q).
  2:{ unfold items_write. rewrite write_Ok by lia.
      rewrite list_insert_id by exact Hit.
      rewrite set_items_id. reflexivity. }
  rewrite (bind_Ok get _ q q q eq_refl).
  rewrite (bind_Ok _ _ _ _ _ (items_set_version_Ok p (q_version q) q it
                                 ltac:(lia) Hit)).
  set (q1 := set_items _ q).
  destruct (q_random q); [| reflexivity].
  apply for_up_skip. intros i Hi.
  change (q_length q1) with (q_length q) in Hi.
  destruct (lookup_lt_is_Some_2 (order q1) (Z.to_nat i)) as [o Ho].
  { change (order q1) with (order q). lia. }
  rewrite (bind_Ok (order_read i) _ q1 o q1)
    by (apply read_Ok; [lia | exact Ho]).
  assert (E1 : (p <? o) && (o <=? p) = false).
  { destruct (Z.ltb_spec p o); [| reflexivity].
    destruct (Z.leb_spec o p); [lia | reflexivity]. }
  assert (E2 : (o <? p) && (p <=? o) = false).
  { destruct (Z.ltb_spec o p); [| reflexivity].
    destruct (Z.leb_spec p o); [lia | reflexivity]. }
  rewrite E1, E2.
  destruct (Z.eqb_spec p o) as [-> | Hne]; [| reflexivity].
  unfold order_write. rewrite write_Ok
    by (apply lookup_lt_Some in Ho; lia).
  rewrite list_insert_id by exact Ho. rewrite set_order_id. reflexivity.
Qed.

Lemma MovePostion_same_position_witness :
  let q := set_modes false false false true (queue_ABC_value (fun _ => 0)) in
  MovePostion 1 1 q
  = Ok (tt, set_items [mk_item 65 0 1 0; mk_item 66 1 1 0; mk_item 67 2 1 0]
              q).
Proof.
  intros q.
  apply (MovePostion_same_position q 1 (mk_item 66 1 1 0)).
  - apply (idmap_consistent_ABC (fun _ => 0)).
  - simpl; lia.
  - simpl; lia.
  - simpl; lia.
  - reflexivity.
Defined.


(** ** Identifier allocation *)

Lemma next_slot_range n cur : 0 < n -> 0 <= next_slot n cur < n.
Proof.
  intros Hn. unfold next_slot.
  destruct (Z.leb_spec n (wrap (cur + 1))); [lia |].
  pose proof (wrap_range (cur + 1)). lia.
Qed.

Lemma next_slot_succ n c :
  0 <= c < n -> n < UINT_MOD -> next_slot n c = (c + 1) mod n.
Proof.
  intros Hc Hn. unfold next_slot. rewrite wrap_small by lia.
  destruct (Z.leb_spec n (c + 1)).
  - replace (c + 1) with n by lia. rewrite Z.mod_same by lia. reflexivity.
  - rewrite Z.mod_small by lia. reflexivity.
Qed.

Lemma queue_generate_id_loop_Ok q (d : nat) : forall fuel cur,
  idmap_size q <= Z.of_nat (length (id_to_position q)) ->
  idmap_size q < UINT_MOD ->
  (d < fuel)%nat ->
  0 < idmap_size q ->
  id_to_position q
    !! Z.to_nat ((next_slot (idmap_size q) cur + Z.of_nat d) mod idmap_size q)
    = Some (-1) ->
  exists id, queue_generate_id_loop fuel cur q = Ok (id, q)
             /\ 0 <= id < idmap_size q
             /\ id_to_position q !! Z.to_nat id = Some (-1).
Proof.
  induction d as [| d IH]; intros fuel cur Hsz Hlt Hfuel Hpos Hfree;
    (destruct fuel as [| fuel]; [lia |]);
    pose proof (next_slot_range (idmap_size q) cur Hpos) as Hr;
    simpl queue_generate_id_loop;
    rewrite (bind_Ok get _ q q q eq_refl);
    fold (idmap_size q); fold (next_slot (idmap_size q) cur);
    (destruct (lookup_lt_is_Some_2 (id_to_position q)
               (Z.to_nat (next_slot (idmap_size q) cur))) as [v Hv];
     [lia |]);
    rewrite (bind_Ok (idmap_read _) _ q v q)
      by (apply read_Ok; [lia | exact Hv]).
  - rewrite Z.add_0_r, Z.mod_small in Hfree by lia.
    rewrite Hfree in Hv. inversion Hv; subst v. simpl.
    eexists. split; [reflexivity |]. split; [lia | exact Hfree].
  - destruct (Z.eqb_spec v (-1)) as [-> | Hne].
    + eexists. split; [reflexivity |]. split; [lia | exact Hv].
    + apply IH; try assumption; try lia.
      rewrite next_slot_succ by lia.
      rewrite Zplus_mod_idemp_l.
      replace (next_slot (idmap_size q) cur + 1 + Z.of_nat d)
        with (next_slot (idmap_size q) cur + Z.of_nat (S d)) by lia.
      exact Hfree.
Qed.

Lemma queue_generate_id_Ok q cur :
  idmap_size q <= Z.of_nat (length (id_to_position q)) ->
  has_free_slot q ->
  exists id, queue_generate_id cur q = Ok (id, q)
             /\ 0 <= id < idmap_size q
             /\ id_to_position q !! Z.to_nat id = Some (-1).
Proof.
  intros Hsz (j & Hj & Hfree).
  unfold queue_generate_id. rewrite (bind_Ok get _ q q q eq_refl).
  fold (idmap_size q).
  pose proof (wrap_range (max_length q * QUEUE_HASH_MULT)) as Hw.
  fold (idmap_size q) in Hw.
  pose proof (next_slot_range (idmap_size q) cur ltac:(lia)) as Hr.
  apply (queue_generate_id_loop_Ok q
           (Z.to_nat ((j - next_slot (idmap_size q) cur) mod idmap_size q)));
    try lia.
  - pose proof (Z.mod_pos_bound (j - next_slot (idmap_size q) cur)
                  (idmap_size q) ltac:(lia)). lia.
  - rewrite Z2Nat.id by (apply Z.mod_pos_bound; lia).
    rewrite Zplus_mod_idemp_r.
    replace (next_slot (idmap_size q) cur + (j - next_slot (idmap_size q) cur))
      with j by lia.
    rewrite Z.mod_small by lia. exact Hfree.
Qed.

(** ** Append at capacity *)

(** C9 (as amended): on a queue whose length has reached [max_length],
    [Append] does not return: the identifier is allocated first, leaving
    the queue as it is, then the assertion [!IsFull()] fails and aborts.
    There is no [QueueFull] result. *)
Theorem Append_full (q : queue) (song priority cur : Z) :
  max_length q <= q_length q ->
  idmap_size q <= Z.of_nat (length (id_to_position q)) ->
  has_free_slot q ->
  (exists id, queue_generate_id cur q = Ok (id, q))
  /\ Append song priority cur q = AssertFail.
Proof.
  intros Hfull Hsz Hfree.
  destruct (queue_generate_id_Ok q cur Hsz Hfree) as (id & Hgen & _ & _).
  split; [exists id; exact Hgen |].
  unfold Append. rewrite (bind_Ok _ _ _ _ _ Hgen).
  unfold IsFull.
  rewrite (bind_Ok (get ≫= _) _ q true q).
  - reflexivity.
  - rewrite (bind_Ok get _ q q q eq_refl).
    destruct (Z.leb_spec (max_length q) (q_length q)); [reflexivity | lia].
Qed.

Lemma Append_full_witness :
  let q := queue_ABC_value (fun _ => 0) in
  max_length q <= q_length q
  /\ Append 68 0 2 q = AssertFail.
Proof.
  intros q. split; [simpl; lia |].
  apply (Append_full q 68 0 2).
  - simpl; lia.
  - vm_compute. intros H; discriminate H.
  - exists 3. split; [vm_compute; split; [intros H; discriminate H | reflexivity] | reflexivity].
Defined.

(** C9, as stated, fails: on the full three-item queue [Append] returns
    nothing, neither an identifier nor an error value; the cursor of the
    allocator has moved from 2 to 3 before the capacity is checked. *)
Lemma Append_full_counterexample :
  let q := queue_ABC_value (fun _ => 0) in
  q_length q = max_length q
  /\ queue_generate_id 2 q = Ok (3, q)
  /\ Append 68 0 2 q = AssertFail
  /\ forall r, Append 68 0 2 q <> Ok r.
Proof.
  split; [reflexivity |]. split; [reflexivity |]. split; [reflexivity |].
  intros r H. discriminate H.
Qed.


(** ** Permutations of positions *)

Lemma perm_on_Permutation n l :
  perm_on n l -> take n l ≡ₚ Z.of_nat <$> seq 0 n.
Proof.
  intros (Hlen & Hrange & Hinj).
  assert (Hnd : NoDup (take n l)).
  { apply NoDup_alt. intros i j o Hi Hj.
    apply lookup_take_Some in Hi as [Hi Hi'].
    apply lookup_take_Some in Hj as [Hj Hj'].
    eapply Hinj; eassumption. }
  symmetry. apply NoDup_Permutation_bis.
  - apply NoDup_ListNoDup. apply NoDup_fmap_2; [apply _ | apply NoDup_seq].
  - rewrite length_take, length_fmap, length_seq. lia.
  - intros x Hx. apply list_elem_of_In in Hx.
    (* counting: the entries of the prefix, all below [n] and distinct,
       exhaust the positions *)
    apply list_elem_of_In.
    destruct (decide (x ∈ take n l)) as [Hin | Hnin]; [exact Hin |].
    exfalso.
    apply list_elem_of_fmap in Hx as (k & -> & Hk).
    apply elem_of_seq in Hk.
    assert (Hsub : take n l ⊆ Z.of_nat <$> (filter (fun j => j <> k) (seq 0 n))).
    { intros o Ho. apply list_elem_of_lookup in Ho as [i Hi].
      apply lookup_take_Some in Hi as [Hi Hi'].
      pose proof (Hrange i o Hi' Hi) as Hr.
      apply list_elem_of_fmap. exists (Z.to_nat o). split; [lia |].
      apply list_elem_of_filter. split.
      - intros <-. apply Hnin. rewrite Z2Nat.id by lia.
        apply list_elem_of_lookup. exists i.
        rewrite lookup_take_lt by lia. exact Hi.
      - apply elem_of_seq. lia. }
    assert (Hle := submseteq_length _ _ (NoDup_submseteq _ _ Hnd
                       (fun o Ho => Hsub o Ho))).
    rewrite length_take, length_fmap in Hle.
    assert (Hflt : (length (filter (fun j => j <> k) (seq 0 n)) < n)%nat).
    { pose proof (length_filter_lt (fun j => j <> k) (seq 0 n) k) as H.
      rewrite length_seq in H. apply H.
      - apply elem_of_seq. lia.
      - intros Hc. apply Hc. reflexivity. }
    lia.
Qed.

Lemma Permutation_perm_on n l :
  (n <= length l)%nat -> take n l ≡ₚ Z.of_nat <$> seq 0 n -> perm_on n l.
Proof.
  intros Hlen Hp. split; [exact Hlen |]. split.
  - intros i o Hi Ho.
    assert (Hin : o ∈ take n l).
    { apply list_elem_of_lookup. exists i. rewrite lookup_take_lt by lia. exact Ho. }
    rewrite Hp in Hin. apply list_elem_of_fmap in Hin as (k & -> & Hk).
    apply elem_of_seq in Hk. lia.
  - intros i j o Hi Hj Hoi Hoj.
    assert (Hnd : NoDup (take n l)).
    { rewrite Hp. apply NoDup_fmap_2; [apply _ | apply NoDup_seq]. }
    eapply (proj1 (NoDup_alt _) Hnd i j o);
      rewrite lookup_take_lt by lia; assumption.
Qed.

(** Every position occurs in a permutation. *)
Lemma perm_on_surj n l p :
  perm_on n l -> 0 <= p < Z.of_nat n ->
  exists i, (i < n)%nat /\ l !! i = Some p.
Proof.
  intros Hp Hr. pose proof (perm_on_Permutation n l Hp) as HP.
  assert (Hin : p ∈ take n l).
  { rewrite HP. apply list_elem_of_fmap. exists (Z.to_nat p).
    split; [lia |]. apply elem_of_seq. lia. }
  apply list_elem_of_lookup in Hin as [i Hi].
  apply lookup_take_Some in Hi as [Hi Hi']. exists i. split; assumption.
Qed.


(** ** Frames *)

Lemma frame_order_refl q : frame_order q q.
Proof. repeat split. Qed.

Lemma frame_order_trans q1 q2 q3 :
  frame_order q1 q2 -> frame_order q2 q3 -> frame_order q1 q3.
Proof.
  unfold frame_order. intros H1 H2.
  destruct H1 as (?&?&?&?&?&?&?&?&?&?), H2 as (?&?&?&?&?&?&?&?&?&?).
  repeat split; congruence.
Qed.

Lemma frame_items_refl q : frame_items q q.
Proof. repeat split. Qed.

Lemma frame_items_trans q1 q2 q3 :
  frame_items q1 q2 -> frame_items q2 q3 -> frame_items q1 q3.
Proof.
  unfold frame_items. intros H1 H2.
  destruct H1 as (?&?&?&?&?&?&?&?&?&?&?), H2 as (?&?&?&?&?&?&?&?&?&?&?).
  repeat split; congruence.
Qed.

Lemma frame_order_set_order l q :
  length l = length (order q) -> frame_order q (set_order l q).
Proof. intros H. repeat split. exact H. Qed.

Lemma frame_order_set_rand r q : frame_order q (set_rand r q).
Proof. repeat split. Qed.

(** ** Reindexing a permutation *)

Lemma perm_on_reindex n l l' (s : nat -> nat) :
  perm_on n l -> (n <= length l')%nat ->
  (forall k, (k < n)%nat -> (s k < n)%nat /\ l' !! k = l !! s k) ->
  (forall k1 k2, (k1 < n)%nat -> (k2 < n)%nat -> s k1 = s k2 -> k1 = k2) ->
  perm_on n l'.
Proof.
  intros (Hlen & Hrange & Hinj) Hlen' Hs Hsinj.
  split; [exact Hlen' |]. split.
  - intros i o Hi Ho. destruct (Hs i Hi) as [Hsi Heq].
    rewrite Heq in Ho. eapply Hrange; eassumption.
  - intros i j o Hi Hj Hoi Hoj.
    destruct (Hs i Hi) as [Hsi Heqi]. destruct (Hs j Hj) as [Hsj Heqj].
    rewrite Heqi in Hoi. rewrite Heqj in Hoj.
    apply Hsinj; [assumption .. |]. eapply Hinj; eassumption.
Qed.

Lemma perm_on_map n l l' (F : Z -> Z) :
  perm_on n l -> (n <= length l')%nat ->
  (forall k o, (k < n)%nat -> l !! k = Some o -> l' !! k = Some (F o)) ->
  (forall o, 0 <= o < Z.of_nat n -> 0 <= F o < Z.of_nat n) ->
  (forall o1 o2, 0 <= o1 < Z.of_nat n -> 0 <= o2 < Z.of_nat n ->
     F o1 = F o2 -> o1 = o2) ->
  perm_on n l'.
Proof.
  intros (Hlen & Hrange & Hinj) Hlen' HF HFr HFinj.
  split; [exact Hlen' |]. split.
  - intros i o Hi Ho.
    destruct (lookup_lt_is_Some_2 l i) as [o0 Ho0]; [lia |].
    rewrite (HF i o0 Hi Ho0) in Ho. inversion Ho; subst o.
    apply HFr. eapply Hrange; eassumption.
  - intros i j o Hi Hj Hoi Hoj.
    destruct (lookup_lt_is_Some_2 l i) as [oi Hoi0]; [lia |].
    destruct (lookup_lt_is_Some_2 l j) as [oj Hoj0]; [lia |].
    rewrite (HF i oi Hi Hoi0) in Hoi. rewrite (HF j oj Hj Hoj0) in Hoj.
    assert (oi = oj).
    { apply HFinj;
        [exact (Hrange i oi Hi Hoi0) | exact (Hrange j oj Hj Hoj0)
        | congruence]. }
    subst oj. eapply Hinj; eassumption.
Qed.


(** ** Primitive steps on the order array *)

Lemma wp_order_read i o (Q : Z -> queue -> Prop) q :
  0 <= i -> order q !! Z.to_nat i = Some o -> Q o q -> wp (order_read i) Q q.
Proof. apply wp_read. Qed.

Lemma wp_order_write i o (Q : unit -> queue -> Prop) q :
  0 <= i < Z.of_nat (length (order q)) ->
  Q tt (set_order (<[Z.to_nat i := o]> (order q)) q) ->
  wp (order_write i o) Q q.
Proof. apply wp_write. Qed.

Lemma wp_SwapOrders i j oi oj (Q : unit -> queue -> Prop) q :
  0 <= i -> 0 <= j ->
  order q !! Z.to_nat i = Some oi -> order q !! Z.to_nat j = Some oj ->
  Q tt (set_order (<[Z.to_nat j := oi]> (<[Z.to_nat i := oj]> (order q))) q) ->
  wp (SwapOrders i j) Q q.
Proof.
  intros Hi Hj Hoi Hoj HQ. unfold SwapOrders.
  apply wp_bind. eapply wp_order_read; [lia | exact Hoi |].
  apply wp_bind. eapply wp_order_read; [lia | exact Hoj |].
  apply wp_bind, wp_order_write.
  { apply lookup_lt_Some in Hoi. lia. }
  apply wp_order_write.
  { simpl. rewrite length_insert. apply lookup_lt_Some in Hoj. lia. }
  exact HQ.
Qed.

Lemma wp_uniform lo hi (Q : Z -> queue -> Prop) q :
  lo <= hi ->
  (forall r, lo <= r <= hi -> Q r (set_rand (fun n => rand q (S n)) q)) ->
  wp (uniform lo hi) Q q.
Proof.
  intros Hle HQ. unfold uniform.
  destruct (Z.ltb_spec hi lo); [lia |].
  apply wp_bind. eapply wp_eq; [reflexivity |].
  apply wp_ret. apply HQ.
  pose proof (Z.mod_pos_bound (rand q 0%nat) (hi - lo + 1) ltac:(lia)). lia.
Qed.

(** ** Loops over the order array *)

Lemma length_reindex {A} (s : nat -> nat) (l : list A) :
  length (reindex s l) = length l.
Proof. apply length_imap. Qed.

Lemma lookup_reindex {A} (s : nat -> nat) (l : list A) k :
  (k < length l)%nat -> (s k < length l)%nat ->
  reindex s l !! k = l !! s k.
Proof.
  intros Hk Hs. unfold reindex. rewrite list_lookup_imap.
  destruct (lookup_lt_is_Some_2 l k Hk) as [x Hx].
  destruct (lookup_lt_is_Some_2 l (s k) Hs) as [y Hy].
  rewrite Hx, Hy. reflexivity.
Qed.

Lemma reindex_id {A} (s : nat -> nat) (l : list A) :
  (forall k, (k < length l)%nat -> s k = k) -> reindex s l = l.
Proof.
  intros Hs. apply list_eq. intros k.
  destruct (decide (k < length l)%nat) as [Hk | Hk].
  - rewrite lookup_reindex by (rewrite ?Hs; lia). rewrite Hs by lia. reflexivity.
  - rewrite !lookup_ge_None_2 by (rewrite ?length_reindex; lia). reflexivity.
Qed.

(** One more step of a loop that builds a reindexed array. *)
Lemma insert_reindex {A} (s s' : nat -> nat) (l : list A) i x :
  (i < length l)%nat ->
  l !! s' i = Some x ->
  (forall k, (k < length l)%nat -> k <> i -> s' k = s k) ->
  (forall k, (k < length l)%nat -> (s k < length l)%nat) ->
  <[i := x]> (reindex s l) = reindex s' l.
Proof.
  intros Hi Hx Hs Hr. apply list_eq. intros k.
  destruct (decide (k < length l)%nat) as [Hk | Hk].
  - destruct (decide (k = i)) as [-> | Hne].
    + rewrite list_lookup_insert_eq by (rewrite length_reindex; lia).
      rewrite lookup_reindex; [congruence | lia |].
      apply lookup_lt_Some in Hx. exact Hx.
    + rewrite list_lookup_insert_ne by congruence.
      rewrite !lookup_reindex; rewrite ?Hs; auto.
  - rewrite !lookup_ge_None_2
      by (rewrite ?length_insert, ?length_reindex; lia).
    reflexivity.
Qed.

Lemma set_order_set_order l l' q : set_order l (set_order l' q) = set_order l q.
Proof. reflexivity. Qed.

(** The rewriting loops of [MovePostion], [MoveRange] and
    [DeletePosition]: every entry of the prefix is replaced by its image
    under [F]. *)
Lemma order_rewrite_Ok (F : Z -> Z) (body : Z -> M unit) q :
  0 <= q_length q <= Z.of_nat (length (order q)) ->
  (forall i q' o, 0 <= i -> order q' !! Z.to_nat i = Some o ->
     body i q' = Ok (tt, set_order (<[Z.to_nat i := F o]> (order q')) q')) ->
  for_range 0 (q_length q) body q
  = Ok (tt, set_order (map_prefix F (Z.to_nat (q_length q)) (order q)) q).
Proof.
  intros Hlen Hbody.
  pose (I := fun (i : Z) (q' : queue) =>
    q' = set_order (map_prefix F (Z.to_nat i) (order q)) q).
  destruct (wp_for_range I 0 (q_length q) body q) as (u & q' & Hrun & HI).
  - lia.
  - unfold I. simpl. rewrite map_prefix_0, set_order_id. reflexivity.
  - intros i q1 Hi ->.
    destruct (lookup_lt_is_Some_2 (order q) (Z.to_nat i)) as [o Ho]; [lia |].
    eapply wp_eq.
    + apply (Hbody i _ o); [lia |]. simpl. rewrite lookup_map_prefix.
      destruct (decide (Z.to_nat i < Z.to_nat i)%nat); [lia | exact Ho].
    + unfold I. simpl. rewrite insert_map_prefix by exact Ho.
      replace (Z.to_nat (i + 1)) with (S (Z.to_nat i)) by lia. reflexivity.
  - destruct u. rewrite Hrun, HI. reflexivity.
Qed.

Lemma order_shift_left_Ok a b q :
  0 <= a <= b -> b < Z.of_nat (length (order q)) ->
  Z.of_nat (length (order q)) <= UINT_MOD ->
  for_range a b (fun i => o ← order_read (wrap (i + 1)); order_write i o) q
  = Ok (tt, set_order
              (reindex (shift_left_index (Z.to_nat a) (Z.to_nat b)) (order q))
              q).
Proof.
  intros Hab Hb Hmax.
  pose (I := fun (i : Z) (q' : queue) =>
    q' = set_order
           (reindex (shift_left_index (Z.to_nat a) (Z.to_nat i)) (order q)) q).
  destruct (wp_for_range I a b
              (fun i => o ← order_read (wrap (i + 1)); order_write i o) q)
    as (u & q' & Hrun & HI).
  - lia.
  - unfold I. rewrite reindex_id, set_order_id; [reflexivity |].
    intros k _. unfold shift_left_index. case_decide; [lia | reflexivity].
  - intros i q1 Hi ->.
    destruct (lookup_lt_is_Some_2 (order q) (Z.to_nat (i + 1))) as [o Ho];
      [lia |].
    rewrite wrap_small by lia.
    apply wp_bind. eapply (wp_order_read _ o); [lia | |].
    { simpl. rewrite lookup_reindex.
      - unfold shift_left_index. case_decide; [lia | exact Ho].
      - lia.
      - unfold shift_left_index. case_decide; lia. }
    apply wp_order_write; [simpl; rewrite length_reindex; lia |].
    unfold I. rewrite set_order_set_order. f_equal. simpl order.
    apply insert_reindex.
    + lia.
    + unfold shift_left_index. case_decide; [| lia].
      replace (S (Z.to_nat i)) with (Z.to_nat (i + 1)) by lia. exact Ho.
    + intros k Hk Hne. unfold shift_left_index. repeat case_decide; lia.
    + intros k Hk. unfold shift_left_index. case_decide; lia.
  - destruct u. rewrite Hrun, HI. reflexivity.
Qed.

Lemma order_shift_right_Ok a b q :
  0 <= b <= a -> a < Z.of_nat (length (order q)) ->
  Z.of_nat (length (order q)) <= UINT_MOD ->
  for_down (Z.to_nat (a - b)) a
    (fun i => o ← order_read (wrap (i - 1)); order_write i o) q
  = Ok (tt, set_order
              (reindex (shift_right_index (Z.to_nat a) (Z.to_nat b)) (order q))
              q).
Proof.
  intros Hab Ha Hmax.
  (* the entries above [i] have been written *)
  pose (I := fun (i : Z) (q' : queue) =>
    q' = set_order
           (reindex (shift_right_index (Z.to_nat a) (Z.to_nat i)) (order q)) q).
  destruct (wp_for_down I (Z.to_nat (a - b)) a
              (fun i => o ← order_read (wrap (i - 1)); order_write i o) q)
    as (u & q' & Hrun & HI).
  - unfold I. rewrite reindex_id, set_order_id; [reflexivity |].
    intros k _. unfold shift_right_index. case_decide; [lia | reflexivity].
  - intros i q1 Hi ->.
    destruct (lookup_lt_is_Some_2 (order q) (Z.to_nat (i - 1))) as [o Ho];
      [lia |].
    rewrite wrap_small by lia.
    apply wp_bind. eapply (wp_order_read _ o); [lia | |].
    { simpl. rewrite lookup_reindex.
      - unfold shift_right_index. case_decide; [lia | exact Ho].
      - lia.
      - unfold shift_right_index. case_decide; lia. }
    apply wp_order_write; [simpl; rewrite length_reindex; lia |].
    unfold I. rewrite set_order_set_order. f_equal. simpl order.
    apply insert_reindex.
    + lia.
    + unfold shift_right_index. case_decide; [| lia].
      replace (Nat.pred (Z.to_nat i)) with (Z.to_nat (i - 1)) by lia. exact Ho.
    + intros k Hk Hne. unfold shift_right_index. repeat case_decide; lia.
    + intros k Hk. unfold shift_right_index. case_decide; lia.
  - destruct u. rewrite Hrun, HI.
    replace (a - Z.of_nat (Z.to_nat (a - b))) with b by lia. reflexivity.
Qed.

(** ** Queries on the order array *)

Lemma wp_OrderToPosition o p (Q : Z -> queue -> Prop) q :
  0 <= o < q_length q -> order q !! Z.to_nat o = Some p -> Q p q ->
  wp (OrderToPosition o) Q q.
Proof.
  intros Ho Hp HQ. unfold OrderToPosition.
  apply wp_bind, wp_get.
  apply wp_bind, wp_assert; [apply Z.ltb_lt; lia |].
  eapply wp_order_read; [lia | exact Hp | exact HQ].
Qed.

Lemma wp_PositionToOrder_loop position (Q : Z -> queue -> Prop) q (d : nat) :
  forall fuel i,
  0 <= i -> i + Z.of_nat d < q_length q -> q_length q <= UINT_MOD ->
  q_length q <= Z.of_nat (length (order q)) ->
  (d < fuel)%nat ->
  order q !! Z.to_nat (i + Z.of_nat d) = Some position ->
  (forall r, 0 <= r < q_length q ->
     order q !! Z.to_nat r = Some position -> Q r q) ->
  wp (PositionToOrder_loop fuel i position) Q q.
Proof.
  induction d as [| d IH]; intros fuel i Hi Hd Hmax Hlen Hfuel Hpos HQ;
    (destruct fuel as [| fuel]; [lia |]); simpl PositionToOrder_loop;
    apply wp_bind, wp_get;
    (apply wp_bind, wp_assert; [apply Z.ltb_lt; lia |]);
    (destruct (lookup_lt_is_Some_2 (order q) (Z.to_nat i)) as [o Ho];
     [lia |]);
    apply wp_bind; (eapply wp_order_read; [lia | exact Ho |]).
  - rewrite Z.add_0_r in Hpos. rewrite Ho in Hpos. inversion Hpos; subst o.
    rewrite Z.eqb_refl. apply wp_ret. apply HQ; [lia | exact Ho].
  - destruct (Z.eqb_spec o position) as [-> | Hne].
    + apply wp_ret. apply HQ; [lia | exact Ho].
    + rewrite wrap_small by lia.
      apply IH; try assumption; try lia.
      replace (i + 1 + Z.of_nat d) with (i + Z.of_nat (S d)) by lia.
      exact Hpos.
Qed.

Lemma wp_PositionToOrder position (Q : Z -> queue -> Prop) q :
  perm_on (Z.to_nat (q_length q)) (order q) ->
  0 <= position < q_length q -> q_length q <= UINT_MOD ->
  (forall r, 0 <= r < q_length q ->
     order q !! Z.to_nat r = Some position -> Q r q) ->
  wp (PositionToOrder position) Q q.
Proof.
  intros Hperm Hp Hmax HQ. unfold PositionToOrder.
  apply wp_bind, wp_get.
  apply wp_bind, wp_assert; [apply Z.ltb_lt; lia |].
  destruct (perm_on_surj _ _ position Hperm ltac:(lia)) as (k & Hk & Hok).
  destruct Hperm as (Hlen & _ & _).
  apply (wp_PositionToOrder_loop position Q q k); try lia.
  - replace (0 + Z.of_nat k) with (Z.of_nat k) by lia.
    rewrite Nat2Z.id. exact Hok.
  - exact HQ.
Qed.

(** ** queue_move_order *)

Lemma queue_move_order_Ok from to q :
  0 <= from < q_length q -> 0 <= to < q_length q ->
  q_length q <= Z.of_nat (length (order q)) ->
  Z.of_nat (length (order q)) <= UINT_MOD ->
  queue_move_order from to q
  = Ok (tt, set_order
              (reindex (move_order_index (Z.to_nat from) (Z.to_nat to))
                 (order q)) q).
Proof.
  intros Hf Ht Hlen Hmax. unfold queue_move_order.
  rewrite (bind_Ok get _ q q q eq_refl).
  rewrite (bind_Ok (assert _) _ q tt q)
    by (apply assert_Ok, Z.ltb_lt; lia).
  rewrite (bind_Ok (assert _) _ q tt q)
    by (apply assert_Ok, Z.leb_le; lia).
  destruct (lookup_lt_is_Some_2 (order q) (Z.to_nat from)) as [p Hp]; [lia |].
  rewrite (bind_Ok (OrderToPosition from) _ q p q).
  2:{ unfold OrderToPosition. rewrite (bind_Ok get _ q q q eq_refl).
      rewrite (bind_Ok (assert _) _ q tt q)
        by (apply assert_Ok, Z.ltb_lt; lia).
      apply read_Ok; [lia | exact Hp]. }
  assert (Hfinal : forall s : nat -> nat,
    (forall k, (k < length (order q))%nat -> (s k < length (order q))%nat) ->
    (forall k, (k < length (order q))%nat -> k <> Z.to_nat to ->
       move_order_index (Z.to_nat from) (Z.to_nat to) k = s k) ->
    order_write to p (set_order (reindex s (order q)) q)
    = Ok (tt, set_order
                (reindex (move_order_index (Z.to_nat from) (Z.to_nat to))
                   (order q)) q)).
  { intros s Hs Heq. unfold order_write. rewrite write_Ok
      by (simpl; rewrite length_reindex; lia).
    rewrite set_order_set_order. simpl order. do 3 f_equal.
    apply insert_reindex; [lia | | exact Heq | exact Hs].
    unfold move_order_index. case_decide; [exact Hp | lia]. }
  destruct (Z.ltb_spec from to).
  - rewrite (bind_Ok _ _ _ _ _ (order_shift_left_Ok from to q
                                   ltac:(lia) ltac:(lia) Hmax)).
    apply Hfinal.
    + intros k Hk. unfold shift_left_index. case_decide; lia.
    + intros k Hk Hne. unfold move_order_index, shift_left_index.
      repeat case_decide; lia.
  - rewrite (bind_Ok _ _ _ _ _ (order_shift_right_Ok from to q
                                   ltac:(lia) ltac:(lia) Hmax)).
    apply Hfinal.
    + intros k Hk. unfold shift_right_index. case_decide; lia.
    + intros k Hk Hne. unfold move_order_index, shift_right_index.
      repeat case_decide; lia.
Qed.

Lemma perm_on_move_order n l from to :
  perm_on n l -> (from < n)%nat -> (to < n)%nat ->
  perm_on n (reindex (move_order_index from to) l).
Proof.
  intros Hp Hf Ht. pose proof Hp as (Hlen & _ & _).
  apply (perm_on_reindex n l _ (move_order_index from to) Hp).
  - rewrite length_reindex. exact Hlen.
  - intros k Hk.
    assert (move_order_index from to k < n)%nat
      by (unfold move_order_index; repeat case_decide; lia).
    split; [assumption |]. apply lookup_reindex; lia.
  - intros k1 k2 Hk1 Hk2. unfold move_order_index.
    repeat case_decide; lia.
Qed.

(** ** Rearrangements of a range of the order array *)

Lemma permutes_refl a b l : permutes a b l l.
Proof.
  split; [reflexivity |]. exists (fun k => k).
  repeat split; intros; (lia || reflexivity || assumption).
Qed.

Lemma permutes_trans a b l1 l2 l3 :
  permutes a b l1 l2 -> permutes a b l2 l3 -> permutes a b l1 l3.
Proof.
  intros (Hl1 & s1 & Hr1 & Hi1 & He1 & Ho1) (Hl2 & s2 & Hr2 & Hi2 & He2 & Ho2).
  split; [congruence |]. exists (fun k => s1 (s2 k)).
  split; [intros k Hk; apply Hr1, Hr2, Hk |]. split.
  - intros k1 k2 Hk1 Hk2 Heq.
    apply Hi2; [assumption .. |]. apply Hi1; [apply Hr2 .. |]; assumption.
  - split.
    + intros k Hk. rewrite He2 by exact Hk. apply He1, Hr2, Hk.
    + intros k Hk. rewrite Ho2 by exact Hk. apply Ho1, Hk.
Qed.

Lemma permutes_weaken a b a' b' l l' :
  (a' <= a)%nat -> (b <= b')%nat -> permutes a b l l' -> permutes a' b' l l'.
Proof.
  intros Ha Hb (Hl & s & Hr & Hi & He & Ho).
  split; [exact Hl |].
  exists (fun k => if decide (a <= k < b)%nat then s k else k).
  split; [| split; [| split]].
  - intros k Hk. case_decide; [specialize (Hr k ltac:(assumption)) |]; lia.
  - intros k1 k2 Hk1 Hk2. repeat case_decide; intros Heq.
    + apply Hi; assumption.
    + specialize (Hr k1 ltac:(assumption)). lia.
    + specialize (Hr k2 ltac:(assumption)). lia.
    + exact Heq.
  - intros k Hk. case_decide; [apply He | apply Ho]; assumption.
  - intros k Hk. apply Ho. lia.
Qed.

Lemma permutes_swap a b l i j oi oj :
  (a <= i < b)%nat -> (a <= j < b)%nat ->
  l !! i = Some oi -> l !! j = Some oj ->
  permutes a b l (<[j := oi]> (<[i := oj]> l)).
Proof.
  intros Hi Hj Hoi Hoj.
  assert (Hli := lookup_lt_Some _ _ _ Hoi).
  assert (Hlj := lookup_lt_Some _ _ _ Hoj).
  split; [rewrite !length_insert; reflexivity |].
  exists (fun k => if decide (k = j) then i
                   else if decide (k = i) then j else k).
  split; [| split; [| split]].
  - intros k Hk. repeat case_decide; lia.
  - intros k1 k2 Hk1 Hk2. repeat case_decide; lia.
  - intros k Hk. repeat case_decide; subst.
    + rewrite list_lookup_insert_eq by (rewrite length_insert; lia).
      symmetry; exact Hoi.
    + rewrite list_lookup_insert_ne by lia.
      rewrite list_lookup_insert_eq by lia. symmetry; exact Hoj.
    + rewrite !list_lookup_insert_ne by lia. reflexivity.
  - intros k Hk. rewrite !list_lookup_insert_ne by lia. reflexivity.
Qed.

Lemma permutes_reindex a b (s : nat -> nat) l :
  (b <= length l)%nat ->
  (forall k, (a <= k < b)%nat -> (a <= s k < b)%nat) ->
  (forall k, ~ (a <= k < b)%nat -> s k = k) ->
  (forall k1 k2, (a <= k1 < b)%nat -> (a <= k2 < b)%nat ->
     s k1 = s k2 -> k1 = k2) ->
  permutes a b l (reindex s l).
Proof.
  intros Hb Hr Hid Hinj. split; [apply length_reindex |].
  exists s. split; [exact Hr |]. split; [exact Hinj |]. split.
  - intros k Hk. specialize (Hr k Hk). apply lookup_reindex; lia.
  - intros k Hk. destruct (decide (k < length l)%nat).
    + rewrite lookup_reindex; rewrite ?Hid by exact Hk; [reflexivity | lia ..].
    + rewrite !lookup_ge_None_2 by (rewrite ?length_reindex; lia).
      reflexivity.
Qed.

Lemma perm_on_permutes n a b l l' :
  perm_on n l -> permutes a b l l' -> (b <= n)%nat -> perm_on n l'.
Proof.
  intros Hp (Hl & s & Hr & Hi & He & Ho) Hb. pose proof Hp as (Hlen & _ & _).
  apply (perm_on_reindex n l l'
           (fun k => if decide (a <= k < b)%nat then s k else k) Hp).
  - lia.
  - intros k Hk. case_decide.
    + specialize (Hr k ltac:(assumption)). split; [lia | apply He; assumption].
    + split; [lia | apply Ho; assumption].
  - intros k1 k2 Hk1 Hk2. repeat case_decide; intros Heq.
    + apply Hi; assumption.
    + specialize (Hr k1 ltac:(assumption)). lia.
    + specialize (Hr k2 ltac:(assumption)). lia.
    + exact Heq.
Qed.

(** A rearrangement of a range keeps whatever holds of every entry of
    the range. *)
Lemma permutes_forall a b l l' (P : Z -> Prop) :
  permutes a b l l' ->
  (forall k o, (a <= k < b)%nat -> l !! k = Some o -> P o) ->
  forall k o, (a <= k < b)%nat -> l' !! k = Some o -> P o.
Proof.
  intros (Hl & s & Hr & Hi & He & Ho) HP k o Hk Hlk.
  rewrite He in Hlk by exact Hk. eapply HP; [apply Hr, Hk | exact Hlk].
Qed.

Lemma permutes_outside a b l l' k :
  permutes a b l l' -> ~ (a <= k < b)%nat -> l' !! k = l !! k.
Proof. intros (Hl & s & Hr & Hi & He & Ho) Hk. apply Ho, Hk. Qed.

Lemma permutes_length a b l l' : permutes a b l l' -> length l' = length l.
Proof. intros [H _]. exact H. Qed.

(** ** Shuffling the order array *)

Lemma wp_ShuffleOrderFirst start end_ (Q : unit -> queue -> Prop) q :
  0 <= start < end_ -> end_ <= Z.of_nat (length (order q)) ->
  end_ <= UINT_MOD ->
  (forall q', frame_order q q' ->
     permutes (Z.to_nat start) (Z.to_nat end_) (order q) (order q') ->
     Q tt q') ->
  wp (ShuffleOrderFirst start end_) Q q.
Proof.
  intros Hs He Hmax HQ. unfold ShuffleOrderFirst.
  rewrite wrap_small by lia.
  apply wp_bind, wp_uniform; [lia |]. intros r Hr.
  destruct (lookup_lt_is_Some_2 (order q) (Z.to_nat start)) as [o1 Ho1];
    [lia |].
  destruct (lookup_lt_is_Some_2 (order q) (Z.to_nat r)) as [o2 Ho2]; [lia |].
  eapply wp_SwapOrders; [lia | lia | exact Ho1 | exact Ho2 |].
  apply HQ.
  - repeat split. simpl. rewrite !length_insert. reflexivity.
  - simpl. apply permutes_swap; [lia | lia | assumption ..].
Qed.

Lemma wp_ShuffleOrderLast start end_ (Q : unit -> queue -> Prop) q :
  0 <= start < end_ -> end_ <= Z.of_nat (length (order q)) ->
  end_ <= UINT_MOD ->
  (forall q', frame_order q q' ->
     permutes (Z.to_nat start) (Z.to_nat end_) (order q) (order q') ->
     Q tt q') ->
  wp (ShuffleOrderLast start end_) Q q.
Proof.
  intros Hs He Hmax HQ. unfold ShuffleOrderLast.
  rewrite wrap_small by lia.
  apply wp_bind, wp_uniform; [lia |]. intros r Hr.
  destruct (lookup_lt_is_Some_2 (order q) (Z.to_nat (end_ - 1))) as [o1 Ho1];
    [lia |].
  destruct (lookup_lt_is_Some_2 (order q) (Z.to_nat r)) as [o2 Ho2]; [lia |].
  eapply wp_SwapOrders; [lia | lia | exact Ho1 | exact Ho2 |].
  apply HQ.
  - repeat split. simpl. rewrite !length_insert. reflexivity.
  - simpl. apply permutes_swap; [lia | lia | assumption ..].
Qed.

Lemma wp_ShuffleOrderRange start end_ (Q : unit -> queue -> Prop) q :
  q_random q = true ->
  0 <= start <= end_ -> end_ <= q_length q ->
  q_length q <= Z.of_nat (length (order q)) ->
  (forall q', frame_order q q' ->
     permutes (Z.to_nat start) (Z.to_nat end_) (order q) (order q') ->
     Q tt q') ->
  wp (ShuffleOrderRange start end_) Q q.
Proof.
  intros Hrnd Hs He Hlen HQ. unfold ShuffleOrderRange.
  apply wp_bind, wp_get.
  apply wp_bind, wp_assert; [exact Hrnd |].
  apply wp_bind, wp_assert; [apply Z.leb_le; lia |].
  apply wp_bind, wp_assert; [apply Z.leb_le; lia |].
  destruct (decide (start + 1 <= end_)) as [Hne | Hempty].
  - eapply wp_mono.
    + apply (wp_for_range (fun _ q' =>
        frame_order q q'
        /\ permutes (Z.to_nat start) (Z.to_nat end_) (order q) (order q'))).
      * exact Hne.
      * split; [apply frame_order_refl | apply permutes_refl].
      * intros i q1 Hi [Hfr Hperm].
        assert (Hl1 : length (order q1) = length (order q))
          by (apply (permutes_length _ _ _ _ Hperm)).
        apply wp_bind, wp_uniform; [lia |]. intros r Hr.
        destruct (lookup_lt_is_Some_2 (order q1) (Z.to_nat i)) as [o1 Ho1];
          [lia |].
        destruct (lookup_lt_is_Some_2 (order q1) (Z.to_nat r)) as [o2 Ho2];
          [lia |].
        eapply wp_SwapOrders; [lia | lia | exact Ho1 | exact Ho2 |].
        split.
        -- eapply frame_order_trans; [exact Hfr |].
           repeat split. simpl. rewrite !length_insert. reflexivity.
        -- eapply permutes_trans; [exact Hperm |]. simpl.
           apply permutes_swap; [lia | lia | assumption ..].
    + intros [] q' [Hfr Hperm]. apply HQ; assumption.
  - unfold for_range. replace (Z.to_nat (end_ - (start + 1))) with O by lia.
    apply wp_ret. apply HQ; [apply frame_order_refl | apply permutes_refl].
Qed.

(** ** Sorting by priority *)

Section qsort.
Variable cmp : Z -> Z -> Z.
Variable key : Z -> Z.
Hypothesis cmp_key : forall x y, cmp x y <= 0 <-> key y <= key x.

Lemma qsort_insert_perm x l : qsort_insert cmp x l ≡ₚ x :: l.
Proof.
  induction l as [| y l IH]; simpl; [reflexivity |].
  destruct (cmp x y <=? 0); [reflexivity |].
  rewrite IH. apply perm_swap.
Qed.

Lemma g_qsort_with_data_perm l : g_qsort_with_data cmp l ≡ₚ l.
Proof.
  induction l as [| x l IH]; simpl; [reflexivity |].
  unfold g_qsort_with_data in *. simpl.
  rewrite qsort_insert_perm, IH. reflexivity.
Qed.

Lemma qsort_insert_sorted x l :
  StronglySorted (fun a b => key b <= key a) l ->
  StronglySorted (fun a b => key b <= key a) (qsort_insert cmp x l).
Proof.
  induction l as [| y l IH]; intros Hs; simpl.
  - constructor; [constructor | constructor].
  - apply StronglySorted_cons in Hs as [Hall Hs].
    destruct (Z.leb_spec (cmp x y) 0) as [Hle | Hgt].
    + apply cmp_key in Hle.
      apply StronglySorted_cons. split.
      * constructor; [exact Hle |].
        eapply Forall_impl; [exact Hall |]. simpl. intros z Hz. lia.
      * apply StronglySorted_cons. split; assumption.
    + assert (Hxy : key x <= key y).
      { destruct (Z.le_gt_cases (key y) (key x)) as [H | H]; [| lia].
        apply cmp_key in H. lia. }
      apply StronglySorted_cons. split; [| apply IH, Hs].
      rewrite qsort_insert_perm. constructor; assumption.
Qed.

Lemma g_qsort_with_data_sorted l :
  StronglySorted (fun a b => key b <= key a) (g_qsort_with_data cmp l).
Proof.
  induction l as [| x l IH]; [constructor |].
  unfold g_qsort_with_data in *. simpl. apply qsort_insert_sorted, IH.
Qed.
End qsort.

Lemma StronglySorted_lookup_le (key : Z -> Z) l i j x y :
  StronglySorted (fun a b => key b <= key a) l ->
  (i <= j)%nat -> l !! i = Some x -> l !! j = Some y -> key y <= key x.
Proof.
  intros Hs. revert i j x y. induction Hs as [| a l Hs IH Hall];
    intros i j x y Hij Hx Hy; [rewrite lookup_nil in Hx; discriminate |].
  destruct i as [| i], j as [| j]; simpl in *; try lia.
  - inversion Hx; inversion Hy; subst. lia.
  - inversion Hx; subst. rewrite Forall_forall in Hall.
    apply Hall. apply list_elem_of_lookup. eauto.
  - apply (IH i j); [lia | assumption ..].
Qed.

Lemma length_order_splice start n f l :
  (forall l0, length (f l0) = length l0) ->
  length (order_splice start n f l) = length l.
Proof.
  intros Hf. unfold order_splice.
  rewrite !length_app, Hf, length_take, length_drop, length_take, length_drop.
  lia.
Qed.

Lemma lookup_order_splice_in start n f l k :
  (forall l0, length (f l0) = length l0) ->
  (Z.to_nat start + n <= length l)%nat ->
  (Z.to_nat start <= k < Z.to_nat start + n)%nat ->
  order_splice start n f l !! k
  = f (take n (drop (Z.to_nat start) l)) !! (k - Z.to_nat start)%nat.
Proof.
  intros Hf Hlen Hk. unfold order_splice.
  rewrite lookup_app_r by (rewrite length_take; lia).
  rewrite length_take. rewrite Nat.min_l by lia.
  rewrite lookup_app_l; [reflexivity |].
  rewrite Hf, length_take, length_drop. lia.
Qed.

Lemma lookup_order_splice_out start n f l k :
  (forall l0, length (f l0) = length l0) ->
  (Z.to_nat start + n <= length l)%nat ->
  ~ (Z.to_nat start <= k < Z.to_nat start + n)%nat ->
  order_splice start n f l !! k = l !! k.
Proof.
  intros Hf Hlen Hk. unfold order_splice.
  destruct (decide (k < Z.to_nat start)%nat).
  - rewrite lookup_app_l by (rewrite length_take; lia).
    apply lookup_take_lt. lia.
  - rewrite lookup_app_r by (rewrite length_take; lia).
    rewrite length_take, Nat.min_l by lia.
    rewrite lookup_app_r
      by (rewrite Hf, length_take, length_drop; lia).
    rewrite Hf, length_take, length_drop, Nat.min_l by lia.
    rewrite lookup_drop. f_equal. lia.
Qed.

Lemma permutes_order_splice start n f l :
  (forall l0, f l0 ≡ₚ l0) ->
  (Z.to_nat start + n <= length l)%nat ->
  permutes (Z.to_nat start) (Z.to_nat start + n) l (order_splice start n f l).
Proof.
  intros Hf Hlen.
  assert (Hfl : forall l0, length (f l0) = length l0)
    by (intros l0; apply Permutation_length, Hf).
  split; [apply length_order_splice, Hfl |].
  destruct (proj1 (Permutation_inj _ _) (Hf (take n (drop (Z.to_nat start) l))))
    as (Hl & g & Hinj & Hg).
  assert (Hgr : forall i, (i < n)%nat -> (g i < n)%nat).
  { intros i Hi.
    destruct (lookup_lt_is_Some_2 (f (take n (drop (Z.to_nat start) l))) i)
      as [x Hx]; [rewrite Hl, length_take, length_drop; lia |].
    rewrite Hg in Hx. apply lookup_lt_Some in Hx.
    rewrite length_take, length_drop in Hx. lia. }
  exists (fun k => (Z.to_nat start + g (k - Z.to_nat start))%nat).
  split; [| split; [| split]].
  - intros k Hk. specialize (Hgr (k - Z.to_nat start)%nat ltac:(lia)). lia.
  - intros k1 k2 Hk1 Hk2 Heq.
    assert (g (k1 - Z.to_nat start)%nat = g (k2 - Z.to_nat start)%nat) by lia.
    apply Hinj in H. lia.
  - intros k Hk. rewrite lookup_order_splice_in by (assumption || lia).
    rewrite Hg. specialize (Hgr (k - Z.to_nat start)%nat ltac:(lia)).
    rewrite lookup_take_lt by lia. rewrite lookup_drop. reflexivity.
  - intros k Hk. apply lookup_order_splice_out; assumption.
Qed.

Lemma compare_order_priority_key q x y :
  queue_item_compare_order_priority q x y <= 0
  <-> i_priority (items q !!! Z.to_nat y) <= i_priority (items q !!! Z.to_nat x).
Proof.
  unfold queue_item_compare_order_priority.
  destruct (Z.eqb_spec (i_priority (items q !!! Z.to_nat x))
              (i_priority (items q !!! Z.to_nat y))); [lia |].
  destruct (Z.ltb_spec (i_priority (items q !!! Z.to_nat y))
              (i_priority (items q !!! Z.to_nat x))); lia.
Qed.

Lemma wp_queue_sort_order_by_priority start end_ (Q : unit -> queue -> Prop) q :
  q_random q = true ->
  0 <= start <= end_ -> end_ <= q_length q ->
  q_length q <= Z.of_nat (length (order q)) ->
  end_ < UINT_MOD ->
  (forall q', frame_order q q' ->
     permutes (Z.to_nat start) (Z.to_nat end_) (order q) (order q') ->
     (forall i j, (Z.to_nat start <= i)%nat -> (i <= j)%nat ->
        (j < Z.to_nat end_)%nat -> prio_at q' j <= prio_at q' i) ->
     Q tt q') ->
  wp (queue_sort_order_by_priority start end_) Q q.
Proof.
  intros Hrnd Hs He Hlen Hmax HQ. unfold queue_sort_order_by_priority.
  apply wp_bind, wp_get.
  apply wp_bind, wp_assert; [exact Hrnd |].
  apply wp_bind, wp_assert; [apply Z.leb_le; lia |].
  apply wp_bind, wp_assert; [apply Z.leb_le; lia |].
  apply wp_modify.
  rewrite wrap_small by lia.
  set (cmp := queue_item_compare_order_priority q).
  set (key := fun o => i_priority (items q !!! Z.to_nat o)).
  assert (Hck : forall x y, cmp x y <= 0 <-> key y <= key x)
    by (intros x y; apply compare_order_priority_key).
  assert (Hfl : forall l0, length (g_qsort_with_data cmp l0) = length l0)
    by (intros l0; apply Permutation_length, g_qsort_with_data_perm).
  assert (Hend : (Z.to_nat start + Z.to_nat (end_ - start))%nat = Z.to_nat end_)
    by lia.
  apply HQ.
  - apply frame_order_set_order. apply length_order_splice, Hfl.
  - simpl. rewrite <- Hend at 1. apply permutes_order_splice; [| lia].
    intros l0. apply g_qsort_with_data_perm.
  - intros i j Hi Hij Hj. unfold prio_at. simpl.
    fold (key (order_splice start (Z.to_nat (end_ - start))
                 (g_qsort_with_data cmp) (order q) !!! j)).
    fold (key (order_splice start (Z.to_nat (end_ - start))
                 (g_qsort_with_data cmp) (order q) !!! i)).
    set (l' := order_splice _ _ _ _).
    assert (Hll : length l' = length (order q))
      by (apply length_order_splice, Hfl).
    destruct (lookup_lt_is_Some_2 l' i) as [x Hx]; [lia |].
    destruct (lookup_lt_is_Some_2 l' j) as [y Hy]; [lia |].
    rewrite (list_lookup_total_correct _ _ _ Hx).
    rewrite (list_lookup_total_correct _ _ _ Hy).
    unfold l' in Hx, Hy.
    rewrite lookup_order_splice_in in Hx by (assumption || lia).
    rewrite lookup_order_splice_in in Hy by (assumption || lia).
    eapply (StronglySorted_lookup_le key _ (i - Z.to_nat start)
              (j - Z.to_nat start) x y);
      [apply (g_qsort_with_data_sorted cmp key Hck) | lia | exact Hx | exact Hy].
Qed.

(** ** Priorities along the order array *)

Lemma prio_at_lookup q k o it :
  order q !! k = Some o -> items q !! Z.to_nat o = Some it ->
  prio_at q k = i_priority it.
Proof.
  intros Ho Hit. unfold prio_at.
  rewrite (list_lookup_total_correct _ _ _ Ho).
  rewrite (list_lookup_total_correct _ _ _ Hit). reflexivity.
Qed.

Lemma prio_at_eq q q' k k' :
  items q' = items q -> order q' !! k' = order q !! k ->
  prio_at q' k' = prio_at q k.
Proof.
  intros Hit Ho. unfold prio_at.
  rewrite !list_lookup_total_alt, Hit, Ho. reflexivity.
Qed.

(** Rearranging a range whose items all have the same priority does not
    change the sequence of priorities. *)
Lemma prio_at_permutes q q' a b gp :
  items q' = items q ->
  permutes a b (order q) (order q') ->
  (forall k, (a <= k < b)%nat -> prio_at q k = gp) ->
  forall k, prio_at q' k = prio_at q k.
Proof.
  intros Hit (Hl & s & Hr & Hi & He & Ho) Hgp k.
  destruct (decide (a <= k < b)%nat) as [Hk | Hk].
  - rewrite (prio_at_eq q q' (s k) k Hit (He k Hk)).
    rewrite !Hgp; [reflexivity | exact Hk | apply Hr, Hk].
  - apply prio_at_eq; [exact Hit | apply Ho, Hk].
Qed.

Lemma wp_queue_get_order_priority k (Q : Z -> queue -> Prop) q :
  perm_on (Z.to_nat (q_length q)) (order q) ->
  0 <= k < q_length q ->
  q_length q <= Z.of_nat (length (items q)) ->
  Q (prio_at q (Z.to_nat k)) q ->
  wp (queue_get_order_priority k) Q q.
Proof.
  intros (Hlen & Hrange & _) Hk Hitems HQ.
  unfold queue_get_order_priority, queue_get_order_item_const.
  destruct (lookup_lt_is_Some_2 (order q) (Z.to_nat k)) as [o Ho]; [lia |].
  pose proof (Hrange (Z.to_nat k) o ltac:(lia) Ho) as Hor.
  destruct (lookup_lt_is_Some_2 (items q) (Z.to_nat o)) as [it Hit]; [lia |].
  apply wp_bind. apply wp_bind, wp_get.
  apply wp_bind, wp_assert; [apply Z.ltb_lt; lia |].
  apply wp_bind. eapply wp_order_read; [lia | exact Ho |].
  eapply wp_read; [lia | exact Hit |].
  apply wp_ret. rewrite (prio_at_lookup q _ o it Ho Hit) in HQ. exact HQ.
Qed.

Lemma frame_order_perm_on q q' a b :
  frame_order q q' ->
  permutes a b (order q) (order q') ->
  (b <= Z.to_nat (q_length q))%nat ->
  perm_on (Z.to_nat (q_length q)) (order q) ->
  perm_on (Z.to_nat (q_length q')) (order q').
Proof.
  intros Hfr Hperm Hb Hp.
  destruct Hfr as (_ & Hl & _). rewrite Hl.
  eapply perm_on_permutes; eassumption.
Qed.

Lemma wp_ShuffleOrderRangeWithPriority start end_
    (Q : unit -> queue -> Prop) q :
  q_random q = true ->
  0 <= start <= end_ -> end_ <= q_length q ->
  perm_on (Z.to_nat (q_length q)) (order q) ->
  q_length q <= Z.of_nat (length (items q)) ->
  q_length q < UINT_MOD ->
  (forall q', frame_order q q' ->
     permutes (Z.to_nat start) (Z.to_nat end_) (order q) (order q') ->
     (forall i j, (Z.to_nat start <= i)%nat -> (i <= j)%nat ->
        (j < Z.to_nat end_)%nat -> prio_at q' j <= prio_at q' i) ->
     Q tt q') ->
  wp (ShuffleOrderRangeWithPriority start end_) Q q.
Proof.
  intros Hrnd Hs He Hperm Hitems Hmax HQ.
  pose proof Hperm as (Hlen & _ & _).
  unfold ShuffleOrderRangeWithPriority.
  apply wp_bind, wp_get.
  apply wp_bind, wp_assert; [exact Hrnd |].
  apply wp_bind, wp_assert; [apply Z.leb_le; lia |].
  apply wp_bind, wp_assert; [apply Z.leb_le; lia |].
  destruct (Z.eqb_spec start end_) as [-> | Hne].
  { apply wp_ret. apply HQ; [apply frame_order_refl | apply permutes_refl |].
    intros i j Hi Hij Hj. lia. }
  apply wp_bind.
  apply wp_queue_sort_order_by_priority; try assumption; try lia.
  intros q1 Hfr1 Hperm1 Hsorted1.
  pose proof Hfr1 as (Hml1 & Hl1 & Hv1 & Hit1 & Hid1 & _ & _ & _ & Hrnd1 & Hlo1).
  assert (Hp1 : perm_on (Z.to_nat (q_length q1)) (order q1)).
  { eapply frame_order_perm_on; try eassumption. lia. }
  apply wp_bind. apply wp_queue_get_order_priority;
    [exact Hp1 | lia | rewrite Hit1; lia |].
  rewrite wrap_small by lia.
  apply wp_bind.
  eapply wp_mono.
  - apply (wp_for_up_acc (fun i (g : Z * Z) q' =>
      frame_order q1 q'
      /\ permutes (Z.to_nat start) (Z.to_nat end_) (order q1) (order q')
      /\ (forall k, prio_at q' k = prio_at q1 k)
      /\ start <= fst g < i
      /\ (forall k, (Z.to_nat (fst g) <= k < Z.to_nat i)%nat ->
            prio_at q' k = snd g))).
    + split; [apply frame_order_refl |]. split; [apply permutes_refl |].
      split; [reflexivity |]. split; [simpl; lia |].
      simpl. intros k Hk. f_equal. lia.
    + intros i [gs gp] q2 Hi (Hfr2 & Hperm2 & Hprio2 & Hgs & Hgp).
      simpl in Hgs, Hgp.
      pose proof Hfr2 as (Hml2 & Hl2 & Hv2 & Hit2 & Hid2 & _ & _ & _ & Hrnd2 & Hlo2).
      assert (Hp2 : perm_on (Z.to_nat (q_length q2)) (order q2)).
      { eapply frame_order_perm_on; try eassumption. lia. }
      apply wp_bind. apply wp_queue_get_order_priority;
        [exact Hp2 | lia | rewrite Hit2, Hit1; lia |].
      assert (Hle : prio_at q2 (Z.to_nat i) <= gp).
      { rewrite <- (Hgp (Z.to_nat (i - 1))) by lia.
        rewrite !Hprio2. apply Hsorted1; lia. }
      apply wp_bind, wp_assert; [apply Z.leb_le; exact Hle |].
      destruct (Z.eqb_spec (prio_at q2 (Z.to_nat i)) gp) as [Heq | Hneq]; simpl.
      * apply wp_ret. split; [exact Hfr2 |]. split; [exact Hperm2 |].
        split; [exact Hprio2 |]. split; [simpl; lia |]. simpl.
        intros k Hk. destruct (decide (k = Z.to_nat i)) as [-> | Hk'];
          [exact Heq | apply Hgp; lia].
      * apply wp_bind. apply wp_ShuffleOrderRange;
          [congruence | lia | lia | destruct Hp2; lia |].
        intros q3 Hfr3 Hperm3. apply wp_ret.
        pose proof Hfr3 as (_ & _ & _ & Hit3 & _).
        assert (Hprio3 : forall k, prio_at q3 k = prio_at q2 k).
        { apply (prio_at_permutes q2 q3 _ _ gp Hit3 Hperm3). exact Hgp. }
        split; [eapply frame_order_trans; eassumption |].
        split.
        { eapply permutes_trans; [exact Hperm2 |].
          eapply permutes_weaken; [| | exact Hperm3]; lia. }
        split; [intros k; rewrite Hprio3; apply Hprio2 |].
        split; [simpl; lia |]. simpl.
        intros k Hk. replace k with (Z.to_nat i) by lia. apply Hprio3.
  - intros [gs gp] q2 (Hfr2 & Hperm2 & Hprio2 & Hgs & Hgp). simpl in *.
    replace (start + 1 + Z.of_nat (Z.to_nat (end_ - (start + 1))))
      with end_ in * by lia.
    pose proof Hfr2 as (Hml2 & Hl2 & Hv2 & Hit2 & Hid2 & _ & _ & _ & Hrnd2 & Hlo2).
    assert (Hp2 : perm_on (Z.to_nat (q_length q2)) (order q2)).
    { eapply frame_order_perm_on; try eassumption. lia. }
    apply wp_ShuffleOrderRange;
      [congruence | lia | lia | destruct Hp2; lia |].
    intros q3 Hfr3 Hperm3.
    pose proof Hfr3 as (_ & _ & _ & Hit3 & _).
    assert (Hprio3 : forall k, prio_at q3 k = prio_at q2 k).
    { apply (prio_at_permutes q2 q3 _ _ gp Hit3 Hperm3). exact Hgp. }
    apply HQ.
    + eapply frame_order_trans; [exact Hfr1 |].
      eapply frame_order_trans; eassumption.
    + eapply permutes_trans; [exact Hperm1 |].
      eapply permutes_trans; [exact Hperm2 |].
      eapply permutes_weaken; [| | exact Hperm3]; lia.
    + intros i j Hi Hij Hj. rewrite !Hprio3, !Hprio2.
      apply Hsorted1; assumption.
Qed.

(** ** The searches of SetPriority *)

Lemma wp_order_item {B} k (f : queue_item -> M B)
    (Q : B -> queue -> Prop) q :
  perm_on (Z.to_nat (q_length q)) (order q) ->
  0 <= k < q_length q ->
  q_length q <= Z.of_nat (length (items q)) ->
  (forall it, i_priority it = prio_at q (Z.to_nat k) -> wp (f it) Q q) ->
  wp (position ← OrderToPosition k; item ← items_read position; f item) Q q.
Proof.
  intros (Hlen & Hrange & _) Hk Hitems HQ.
  destruct (lookup_lt_is_Some_2 (order q) (Z.to_nat k)) as [o Ho]; [lia |].
  pose proof (Hrange (Z.to_nat k) o ltac:(lia) Ho) as Hor.
  destruct (lookup_lt_is_Some_2 (items q) (Z.to_nat o)) as [it Hit]; [lia |].
  apply wp_bind. eapply wp_OrderToPosition; [lia | exact Ho |].
  apply wp_bind. eapply wp_read; [lia | exact Hit |].
  apply HQ. symmetry. eapply prio_at_lookup; eassumption.
Qed.

Lemma wp_queue_find_priority_order_loop priority exclude
    (Q : Z -> queue -> Prop) q start :
  perm_on (Z.to_nat (q_length q)) (order q) ->
  q_length q <= Z.of_nat (length (items q)) ->
  q_length q < UINT_MOD ->
  (forall r, start <= r <= q_length q ->
     (r < q_length q ->
        r <> exclude /\ prio_at q (Z.to_nat r) <= priority) ->
     (forall k, start <= k < r ->
        k = exclude \/ priority < prio_at q (Z.to_nat k)) ->
     Q r q) ->
  forall fuel o, 0 <= start <= o ->
  Z.of_nat fuel = q_length q - o ->
  (forall k, start <= k < o ->
     k = exclude \/ priority < prio_at q (Z.to_nat k)) ->
  wp (queue_find_priority_order_loop fuel o priority exclude) Q q.
Proof.
  intros Hperm Hitems Hmax HQ.
  induction fuel as [| fuel IH]; intros o Ho Hfuel Hbefore;
    simpl queue_find_priority_order_loop.
  - apply wp_bind, wp_get. apply wp_ret.
    apply HQ; [lia | lia |].
    intros k Hk. apply Hbefore. lia.
  - apply wp_order_item; [exact Hperm | lia | exact Hitems |].
    intros it Hit.
    destruct (Z.leb_spec (i_priority it) priority) as [Hle | Hgt];
      [destruct (Z.eqb_spec o exclude) as [Heq | Hneq] |]; simpl.
    + rewrite wrap_small by lia. apply IH; [lia | lia |].
      intros k Hk. destruct (decide (k = o)) as [-> | Hko];
        [left; exact Heq | apply Hbefore; lia].
    + apply wp_ret. apply HQ; [lia | |].
      * intros _. split; [exact Hneq | rewrite <- Hit; exact Hle].
      * exact Hbefore.
    + rewrite wrap_small by lia. apply IH; [lia | lia |].
      intros k Hk. destruct (decide (k = o)) as [-> | Hko];
        [right; rewrite <- Hit; lia | apply Hbefore; lia].
Qed.

Lemma wp_queue_find_priority_order start priority exclude
    (Q : Z -> queue -> Prop) q :
  q_random q = true ->
  0 <= start <= q_length q ->
  perm_on (Z.to_nat (q_length q)) (order q) ->
  q_length q <= Z.of_nat (length (items q)) ->
  q_length q < UINT_MOD ->
  (forall r, start <= r <= q_length q ->
     (r < q_length q ->
        r <> exclude /\ prio_at q (Z.to_nat r) <= priority) ->
     (forall k, start <= k < r ->
        k = exclude \/ priority < prio_at q (Z.to_nat k)) ->
     Q r q) ->
  wp (queue_find_priority_order start priority exclude) Q q.
Proof.
  intros Hrnd Hs Hperm Hitems Hmax HQ. unfold queue_find_priority_order.
  apply wp_bind, wp_get.
  apply wp_bind, wp_assert; [exact Hrnd |].
  apply wp_bind, wp_assert; [apply Z.leb_le; lia |].
  eapply (wp_queue_find_priority_order_loop priority exclude Q q start);
    try eassumption; try lia.
Qed.

Lemma wp_queue_count_same_priority_loop priority
    (Q : Z -> queue -> Prop) q start :
  perm_on (Z.to_nat (q_length q)) (order q) ->
  q_length q <= Z.of_nat (length (items q)) ->
  q_length q < UINT_MOD ->
  (forall c, 0 <= c <= q_length q - start ->
     (forall k, start <= k < start + c ->
        prio_at q (Z.to_nat k) = priority) ->
     (start + c < q_length q ->
        prio_at q (Z.to_nat (start + c)) <> priority) ->
     Q c q) ->
  forall fuel o, 0 <= start <= o ->
  Z.of_nat fuel = q_length q - o ->
  (forall k, start <= k < o -> prio_at q (Z.to_nat k) = priority) ->
  wp (queue_count_same_priority_loop fuel o start priority) Q q.
Proof.
  intros Hperm Hitems Hmax HQ.
  induction fuel as [| fuel IH]; intros o Ho Hfuel Hbefore;
    simpl queue_count_same_priority_loop.
  - apply wp_bind, wp_get. apply wp_ret.
    rewrite wrap_small by lia.
    apply HQ; [lia | | lia].
    intros k Hk. apply Hbefore. lia.
  - apply wp_order_item; [exact Hperm | lia | exact Hitems |].
    intros it Hit.
    destruct (Z.eqb_spec (i_priority it) priority) as [Heq | Hneq]; simpl.
    + rewrite wrap_small by lia. apply IH; [lia | lia |].
      intros k Hk. destruct (decide (k = o)) as [-> | Hko];
        [rewrite <- Hit; exact Heq | apply Hbefore; lia].
    + apply wp_ret. rewrite wrap_small by lia.
      apply HQ; [lia | |].
      * intros k Hk. apply Hbefore. lia.
      * intros _. replace (start + (o - start)) with o by lia.
        rewrite <- Hit. exact Hneq.
Qed.

Lemma wp_queue_count_same_priority start priority
    (Q : Z -> queue -> Prop) q :
  q_random q = true ->
  0 <= start <= q_length q ->
  perm_on (Z.to_nat (q_length q)) (order q) ->
  q_length q <= Z.of_nat (length (items q)) ->
  q_length q < UINT_MOD ->
  (forall c, 0 <= c <= q_length q - start ->
     (forall k, start <= k < start + c ->
        prio_at q (Z.to_nat k) = priority) ->
     (start + c < q_length q ->
        prio_at q (Z.to_nat (start + c)) <> priority) ->
     Q c q) ->
  wp (queue_count_same_priority start priority) Q q.
Proof.
  intros Hrnd Hs Hperm Hitems Hmax HQ. unfold queue_count_same_priority.
  apply wp_bind, wp_get.
  apply wp_bind, wp_assert; [exact Hrnd |].
  apply wp_bind, wp_assert; [apply Z.leb_le; lia |].
  eapply (wp_queue_count_same_priority_loop priority Q q start);
    try eassumption; try lia.
Qed.

(** ** Reordering after a change of priority *)

(** [g] are the priorities along the order array before the change,
    [f] after it: entry [o] now has priority [priority]; [b] is the
    result of [queue_find_priority_order] from order 0. *)
Lemma reorder_sorted (g f : nat -> Z) (n o b : nat) (priority : Z) :
  (o < n)%nat ->
  (forall i j, (i <= j)%nat -> (j < n)%nat -> g j <= g i) ->
  (forall k, (k < n)%nat -> k <> o -> f k = g k) ->
  f o = priority ->
  (b <= n)%nat ->
  ((b < n)%nat -> b <> o /\ f b <= priority) ->
  (forall k, (k < b)%nat -> k = o \/ priority < f k) ->
  forall i j, (i <= j)%nat -> (j < n)%nat ->
    f (move_order_index o (if decide (o < b)%nat then b - 1 else b)%nat j)
    <= f (move_order_index o (if decide (o < b)%nat then b - 1 else b)%nat i).
Proof.
  intros Ho Hg Hfg Hfo Hb Hfb Hlt i j Hij Hj.
  set (new := (if decide (o < b)%nat then b - 1 else b)%nat).
  assert (Hnew : (new < n)%nat) by (unfold new; case_decide; lia).
  destruct (decide (i = j)) as [-> | Hne]; [lia |].
  assert (Hmi : i <> new ->
    move_order_index o new i <> o /\ (move_order_index o new i < n)%nat
    /\ ((i < new)%nat -> (move_order_index o new i < b)%nat)
    /\ ((new < i)%nat -> (b <= move_order_index o new i)%nat)).
  { intros Hi. unfold move_order_index, new in *.
    repeat case_decide; lia. }
  assert (Hmj : j <> new ->
    move_order_index o new j <> o /\ (move_order_index o new j < n)%nat
    /\ ((j < new)%nat -> (move_order_index o new j < b)%nat)
    /\ ((new < j)%nat -> (b <= move_order_index o new j)%nat)).
  { intros Hj'. unfold move_order_index, new in *.
    repeat case_decide; lia. }
  assert (Hmono : i <> new -> j <> new ->
    (move_order_index o new i <= move_order_index o new j)%nat).
  { intros Hi Hj'. unfold move_order_index, new in *.
    repeat case_decide; lia. }
  assert (Hmnew : move_order_index o new new = o).
  { unfold move_order_index. case_decide; [reflexivity | lia]. }
  destruct (decide (j = new)) as [Hjn | Hjn];
    destruct (decide (i = new)) as [Hin | Hin]; try lia.
  - (* the moved entry against an earlier one *)
    rewrite Hjn, Hmnew, Hfo.
    destruct (Hmi Hin) as (Hio & Hi1 & Hi2 & _).
    destruct (Hlt _ (Hi2 ltac:(lia))) as [? | ?]; [contradiction | lia].
  - (* a later entry against the moved one *)
    rewrite Hin, Hmnew, Hfo.
    destruct (Hmj Hjn) as (Hjo & Hj1 & _ & Hj2).
    specialize (Hj2 ltac:(lia)).
    destruct (Hfb ltac:(lia)) as [Hbo Hfb'].
    rewrite (Hfg _ Hj1 Hjo).
    rewrite (Hfg b ltac:(lia) Hbo) in Hfb'.
    pose proof (Hg b _ Hj2 Hj1). lia.
  - destruct (Hmi Hin) as (Hio & Hi1 & _).
    destruct (Hmj Hjn) as (Hjo & Hj1 & _).
    rewrite (Hfg _ Hi1 Hio), (Hfg _ Hj1 Hjo).
    apply Hg; [apply Hmono; assumption | assumption].
Qed.

Lemma prio_at_reindex q q' (s : nat -> nat) k :
  items q' = items q ->
  order q' = reindex s (order q) ->
  (k < length (order q))%nat -> (s k < length (order q))%nat ->
  prio_at q' k = prio_at q (s k).
Proof.
  intros Hit Ho Hk Hs. apply prio_at_eq; [exact Hit |].
  rewrite Ho. apply lookup_reindex; assumption.
Qed.

Lemma move_order_index_lt from to n k :
  (from < n)%nat -> (to < n)%nat -> (k < n)%nat ->
  (move_order_index from to k < n)%nat.
Proof. intros. unfold move_order_index. repeat case_decide; lia. Qed.

Lemma permutes_move_order n l from to :
  (n <= length l)%nat -> (from < n)%nat -> (to < n)%nat ->
  permutes 0 n l (reindex (move_order_index from to) l).
Proof.
  intros Hlen Hf Ht. apply permutes_reindex; [exact Hlen | | |].
  - intros k Hk. split; [lia | apply move_order_index_lt; lia].
  - intros k Hk. unfold move_order_index. repeat case_decide; lia.
  - intros k1 k2 Hk1 Hk2. unfold move_order_index. repeat case_decide; lia.
Qed.

Lemma wp_SetPriority_reorder priority after_order o position
    (Q : bool -> queue -> Prop) q :
  q_random q = true ->
  perm_on (Z.to_nat (q_length q)) (order q) ->
  q_length q <= Z.of_nat (length (items q)) ->
  Z.of_nat (length (order q)) < 2 ^ 31 ->
  -1 <= after_order < q_length q ->
  0 <= o < q_length q ->
  order q !! Z.to_nat o = Some position ->
  prio_at q (Z.to_nat o) = priority ->
  (forall q',
     frame_order q q' ->
     permutes 0 (Z.to_nat (q_length q)) (order q) (order q') ->
     (after_order = -1 ->
      forall g : nat -> Z,
        (forall i j, (i <= j)%nat -> (j < Z.to_nat (q_length q))%nat ->
           g j <= g i) ->
        (forall k, (k < Z.to_nat (q_length q))%nat -> k <> Z.to_nat o ->
           prio_at q k = g k) ->
        prio_sorted q') ->
     Q true q') ->
  wp (SetPriority_reorder priority after_order o) Q q.
Proof.
  intros Hrnd Hperm Hitems Hmax Hafter Ho Hpos Hprio HQ.
  pose proof Hperm as (Hlen & _ & _).
  assert (Hlq : q_length q < UINT_MOD) by (rewrite UINT_MOD_eq; lia).
  unfold SetPriority_reorder.
  rewrite to_unsigned_small by (rewrite UINT_MOD_eq; lia).
  apply wp_bind.
  apply wp_queue_find_priority_order; try assumption; try lia.
  intros b Hb Hbfound Hbbefore.
  set (new := if o <? b then wrap (b - 1) else b).
  assert (Hnew : new = if decide (o < b) then b - 1 else b).
  { unfold new. destruct (Z.ltb_spec o b); case_decide;
      try lia; try reflexivity. apply wrap_small. lia. }
  assert (Hnr : 0 <= new < q_length q) by (rewrite Hnew; case_decide; lia).
  assert (Hnn : Z.to_nat new
                = if decide (Z.to_nat o < Z.to_nat b)%nat
                  then (Z.to_nat b - 1)%nat else Z.to_nat b).
  { rewrite Hnew. repeat case_decide; lia. }
  apply wp_bind.
  eapply wp_eq;
    [apply queue_move_order_Ok; rewrite ?UINT_MOD_eq; lia |].
  set (q2 := set_order _ q).
  assert (Hfr2 : frame_order q q2).
  { apply frame_order_set_order. apply length_reindex. }
  assert (Hperm2 : permutes 0 (Z.to_nat (q_length q)) (order q) (order q2)).
  { apply permutes_move_order; lia. }
  assert (Hp2 : perm_on (Z.to_nat (q_length q2)) (order q2)).
  { eapply frame_order_perm_on; try eassumption. lia. }
  assert (Hpr2 : forall k, (k < Z.to_nat (q_length q))%nat ->
    prio_at q2 k
    = prio_at q (move_order_index (Z.to_nat o) (Z.to_nat new) k)).
  { intros k Hk. apply prio_at_reindex; [reflexivity | reflexivity | lia |].
    pose proof (move_order_index_lt (Z.to_nat o) (Z.to_nat new)
                  (Z.to_nat (q_length q)) k). lia. }
  assert (Hpn : prio_at q2 (Z.to_nat new) = priority).
  { rewrite Hpr2 by lia. unfold move_order_index.
    rewrite decide_True by reflexivity. exact Hprio. }
  apply wp_bind.
  apply wp_queue_count_same_priority;
    [exact Hrnd | change (q_length q2) with (q_length q); lia | exact Hp2
    | exact Hitems | exact Hlq |].
  intros c Hc Hsame Hnext.
  assert (Hc1 : 1 <= c).
  { destruct (Z.le_gt_cases 1 c) as [? | Hc0]; [assumption |].
    exfalso. apply Hnext; [change (q_length q2) with (q_length q); lia |].
    replace (new + c) with new by lia. exact Hpn. }
  change (q_length q2) with (q_length q) in Hc.
  apply wp_bind, wp_assert; [apply Z.leb_le; exact Hc1 |].
  rewrite wrap_small by lia.
  apply wp_bind. apply wp_ShuffleOrderFirst.
  { lia. }
  { simpl. rewrite length_reindex. lia. }
  { lia. }
  intros q3 Hfr3 Hperm3. apply wp_ret.
  apply HQ.
  - eapply frame_order_trans; eassumption.
  - eapply permutes_trans; [exact Hperm2 |].
    eapply permutes_weaken; [| | exact Hperm3]; lia.
  - intros Hm1 g Hg Hfg.
    pose proof Hfr3 as (_ & Hl3 & _ & Hit3 & _).
    assert (Hpr3 : forall k, prio_at q3 k = prio_at q2 k).
    { apply (prio_at_permutes q2 q3 _ _ priority Hit3 Hperm3).
      intros k Hk. rewrite <- (Hsame (Z.of_nat k)) by lia.
      rewrite Nat2Z.id. reflexivity. }
    intros i j Hij Hj. rewrite Hl3 in Hj. change (q_length q2) with (q_length q) in Hj.
    rewrite !Hpr3, !Hpr2 by lia. rewrite Hnn.
    apply (reorder_sorted g (prio_at q) (Z.to_nat (q_length q))
             (Z.to_nat o) (Z.to_nat b) priority); try assumption; try lia.
    intros k Hk.
    destruct (Hbbefore (Z.of_nat k) ltac:(lia)) as [Hko | Hkp].
    + left. lia.
    + right. rewrite Nat2Z.id in Hkp. exact Hkp.
Qed.

(** ** SetPriority *)

Lemma wp_SetPriority position priority after_order
    (Q : bool -> queue -> Prop) q :
  perm_on (Z.to_nat (q_length q)) (order q) ->
  0 <= position < q_length q ->
  q_length q <= Z.of_nat (length (items q)) ->
  Z.of_nat (length (order q)) < 2 ^ 31 ->
  -1 <= after_order < q_length q ->
  (forall r q', SetPriority_post q position priority after_order r q' ->
     Q r q') ->
  wp (SetPriority position priority after_order) Q q.
Proof.
  intros Hperm Hpos Hitems Hmax Hafter HQ.
  pose proof Hperm as (Hlen & Hrange & Hinj).
  destruct (lookup_lt_is_Some_2 (items q) (Z.to_nat position)) as [it Hit];
    [lia |].
  unfold SetPriority.
  apply wp_bind, wp_get.
  apply wp_bind, wp_assert; [apply Z.ltb_lt; lia |].
  apply wp_bind. eapply wp_read; [lia | exact Hit |].
  destruct (Z.eqb_spec (i_priority it) priority) as [Heq | Hneq].
  { apply wp_ret. apply HQ. exists it. split; [exact Hit |].
    rewrite (proj2 (Z.eqb_eq _ _) Heq). split; reflexivity. }
  apply wp_bind, wp_write; [lia |].
  set (q1 := set_items _ q).
  assert (Hpost : forall q', 
    (if q_random q then
       frame_order q1 q'
       /\ permutes 0 (Z.to_nat (q_length q)) (order q1) (order q')
       /\ (after_order = -1 -> prio_sorted q -> prio_sorted q')
     else q' = q1) -> Q true q').
  { intros q' Hq'. apply HQ. exists it. split; [exact Hit |].
    rewrite (proj2 (Z.eqb_neq _ _) Hneq). split; [reflexivity | exact Hq']. }
  change (q_random q1) with (q_random q).
  destruct (q_random q) eqn:Hrnd; simpl negb; cbv iota.
  2:{ apply wp_ret. apply Hpost. reflexivity. }
  assert (Hlq : q_length q < UINT_MOD) by (rewrite UINT_MOD_eq; lia).
  apply wp_bind. apply wp_PositionToOrder;
    [exact Hperm | exact Hpos | change (q_length q1) with (q_length q); lia |].
  intros o Ho Hoo. change (q_length q1) with (q_length q) in Ho.
  change (order q1) with (order q) in Hoo.
  assert (Hpo : prio_at q1 (Z.to_nat o) = priority).
  { unfold prio_at. change (order q1) with (order q).
    rewrite (list_lookup_total_correct _ _ _ Hoo).
    unfold q1. simpl items.
    rewrite list_lookup_total_insert_eq by lia. reflexivity. }
  assert (Hpk : forall k, (k < Z.to_nat (q_length q))%nat -> k <> Z.to_nat o ->
    prio_at q1 k = prio_at q k).
  { intros k Hk Hko. unfold prio_at. change (order q1) with (order q).
    destruct (lookup_lt_is_Some_2 (order q) k) as [ok Hok]; [lia |].
    rewrite (list_lookup_total_correct _ _ _ Hok).
    unfold q1. simpl items.
    rewrite list_lookup_total_insert_ne; [reflexivity |].
    intros Hc. apply Hko.
    apply (Hinj k (Z.to_nat o) ok); [lia | lia | exact Hok |].
    pose proof (Hrange k ok Hk Hok).
    replace ok with position by lia. exact Hoo. }
  assert (Hreorder :
    wp (SetPriority_reorder priority after_order o) Q q1).
  { apply (wp_SetPriority_reorder priority after_order o position Q q1);
      [exact Hrnd | exact Hperm
      | unfold q1; simpl; rewrite length_insert; exact Hitems
      | exact Hmax | exact Hafter | exact Ho | exact Hoo | exact Hpo |].
    intros q' Hfr Hpm Hsorted. apply Hpost.
    split; [exact Hfr |]. split; [exact Hpm |].
    intros Hm1 Hs. apply (Hsorted Hm1 (prio_at q)); [exact Hs | exact Hpk]. }
  destruct (Z.leb_spec 0 after_order) as [Hge | Hlt]; [| exact Hreorder].
  assert (Hstay : Q true q1).
  { apply Hpost. split; [apply frame_order_refl |].
    split; [apply permutes_refl |]. intros Hm1. lia. }
  rewrite to_unsigned_small by lia.
  destruct (Z.eqb_spec o after_order); [apply wp_ret; exact Hstay |].
  destruct (Z.ltb_spec o after_order); [| exact Hreorder].
  apply (wp_order_item after_order);
    [exact Hperm | change (q_length q1) with (q_length q); lia
    | unfold q1; simpl; rewrite length_insert; exact Hitems |].
  intros ait _.
  destruct ((i_priority ait <? i_priority it)
            || (priority <=? i_priority ait));
    [apply wp_ret; exact Hstay | exact Hreorder].
Qed.

Lemma reprioritized_refl q : reprioritized q q.
Proof. repeat split. apply (proj2 (permutes_refl _ _ _)). Qed.

Lemma reprioritized_trans q1 q2 q3 :
  reprioritized q1 q2 -> reprioritized q2 q3 -> reprioritized q1 q3.
Proof.
  intros (?&Hl&?&?&?&?&?&?&?&Hp1) (?&?&?&?&?&?&?&?&?&Hp2).
  rewrite Hl in Hp2.
  repeat split; try congruence.
  - destruct Hp1 as [Ha _], Hp2 as [Hb _]. congruence.
  - apply (proj2 (permutes_trans _ _ _ _ _ Hp1 Hp2)).
Qed.

Lemma SetPriority_post_reprioritized q position priority after_order r q' :
  SetPriority_post q position priority after_order r q' ->
  reprioritized q q'
  /\ (after_order = -1 -> q_random q = true ->
      prio_sorted q -> prio_sorted q').
Proof.
  intros (it & Hit & Hpost).
  destruct (i_priority it =? priority).
  { destruct Hpost as [_ ->]. split; [apply reprioritized_refl | auto]. }
  destruct Hpost as [_ Hpost]. cbv zeta in Hpost.
  set (q1 := set_items _ q) in Hpost.
  assert (Hids : i_id <$> items q1 = i_id <$> items q).
  { unfold q1. simpl. rewrite list_fmap_insert. simpl.
    apply list_insert_id. rewrite list_lookup_fmap, Hit. reflexivity. }
  destruct (q_random q).
  - destruct Hpost as ((?&?&?&Hi&?&?&?&?&?&?) & Hperm & Hsorted).
    split; [| intros; apply Hsorted; assumption].
    repeat split; try assumption; try congruence.
    apply (proj2 Hperm).
  - subst q'. split; [| intros; discriminate].
    repeat split; try assumption. apply (proj2 (permutes_refl _ _ _)).
Qed.

Lemma reprioritized_perm_on q q' :
  reprioritized q q' ->
  perm_on (Z.to_nat (q_length q)) (order q) ->
  perm_on (Z.to_nat (q_length q')) (order q').
Proof.
  intros (?&Hl&?&?&?&?&?&?&?&Hp) Hperm. rewrite Hl.
  eapply perm_on_permutes; [exact Hperm | exact Hp | lia].
Qed.

Lemma reprioritized_lengths q q' :
  reprioritized q q' ->
  length (items q') = length (items q)
  /\ length (order q') = length (order q).
Proof.
  intros (?&Hl&?&?&?&?&?&?&Hi&Hp). split.
  - rewrite <- (length_fmap i_id (items q')), Hi. apply length_fmap.
  - apply (permutes_length _ _ _ _ Hp).
Qed.

(** ** SetPriorityRange *)

Lemma wp_SetPriorityRange start end_ priority after_order
    (Q : bool -> queue -> Prop) q :
  perm_on (Z.to_nat (q_length q)) (order q) ->
  0 <= start <= end_ -> end_ <= q_length q ->
  q_length q <= Z.of_nat (length (items q)) ->
  Z.of_nat (length (order q)) < 2 ^ 31 ->
  -1 <= after_order < q_length q ->
  (forall r q',
     reprioritized q q' ->
     (after_order = -1 -> q_random q = true ->
      prio_sorted q -> prio_sorted q') ->
     Q r q') ->
  wp (SetPriorityRange start end_ priority after_order) Q q.
Proof.
  intros Hperm Hs He Hitems Hmax Hafter HQ.
  pose proof Hperm as (Hlen & Hrange & Hinj).
  unfold SetPriorityRange.
  apply wp_bind, wp_get.
  apply wp_bind, wp_assert; [apply Z.leb_le; lia |].
  apply wp_bind, wp_assert; [apply Z.leb_le; lia |].
  apply (wp_bind _ _ _ q).
  apply (wp_eq _ _ q
           (if 0 <=? after_order
            then order q !!! Z.to_nat after_order else -1) q).
  { destruct (Z.leb_spec 0 after_order) as [Hge | Hlt]; [| reflexivity].
    rewrite to_unsigned_small by (rewrite UINT_MOD_eq; lia).
    destruct (lookup_lt_is_Some_2 (order q) (Z.to_nat after_order))
      as [p Hp]; [lia |].
    pose proof (Hrange (Z.to_nat after_order) p ltac:(lia) Hp).
    rewrite (list_lookup_total_correct _ _ _ Hp).
    unfold OrderToPosition.
    rewrite (bind_Ok _ _ q p q).
    - rewrite to_int_small by lia. reflexivity.
    - rewrite (bind_Ok get _ q q q eq_refl).
      rewrite (bind_Ok (assert _) _ q tt q)
        by (apply assert_Ok, Z.ltb_lt; lia).
      apply read_Ok; [lia | exact Hp]. }
  set (ap := if 0 <=? after_order
             then order q !!! Z.to_nat after_order else -1).
  assert (Hap : (after_order = -1 /\ ap = -1)
                \/ (0 <= after_order /\ 0 <= ap < q_length q)).
  { unfold ap. destruct (Z.leb_spec 0 after_order) as [Hge | Hlt];
      [right | left; lia].
    destruct (lookup_lt_is_Some_2 (order q) (Z.to_nat after_order))
      as [p Hp]; [lia |].
    rewrite (list_lookup_total_correct _ _ _ Hp).
    pose proof (Hrange (Z.to_nat after_order) p ltac:(lia) Hp). lia. }
  clearbody ap.
  eapply wp_mono.
  - apply (wp_for_up_acc (fun _ (_ : bool) q' =>
      reprioritized q q'
      /\ (after_order = -1 -> q_random q = true ->
          prio_sorted q -> prio_sorted q'))).
    + split; [apply reprioritized_refl | auto].
    + intros i m q1 Hi [Hrep Hsorted].
      pose proof (reprioritized_perm_on _ _ Hrep Hperm) as Hperm1.
      pose proof (reprioritized_lengths _ _ Hrep) as [Hli Hlo].
      pose proof Hrep as (_ & Hl1 & _ & _ & _ & _ & _ & Hrnd1 & _).
      apply (wp_bind _ _ _ q1).
      assert (Hao : wp
        (if 0 <=? ap
         then o ← PositionToOrder (to_unsigned ap); mret (to_int o)
         else mret (-1))
        (fun ao q' => q' = q1 /\ -1 <= ao < q_length q1
                      /\ (after_order = -1 -> ao = -1)) q1).
      { destruct Hap as [[Ha1 ->] | [Ha1 Ha2]].
        - simpl. apply wp_ret. split; [reflexivity | lia].
        - destruct (Z.leb_spec 0 ap); [| lia].
          rewrite to_unsigned_small by (rewrite UINT_MOD_eq; lia).
          apply wp_bind. apply wp_PositionToOrder;
            [exact Hperm1 | lia | rewrite UINT_MOD_eq; lia |].
          intros o Ho _. apply wp_ret.
          rewrite to_int_small by lia. split; [reflexivity | lia]. }
      eapply wp_mono; [exact Hao |].
      intros ao q2 (-> & Hao1 & Hao2). simpl.
      apply wp_bind. apply wp_SetPriority;
        [exact Hperm1 | lia | lia | lia | exact Hao1 |].
      intros r q3 Hpost. apply wp_ret.
      apply SetPriority_post_reprioritized in Hpost as [Hrep3 Hsorted3].
      split; [eapply reprioritized_trans; eassumption |].
      intros Hm1 Hrnd Hs0. apply Hsorted3; [auto | congruence | auto].
  - intros r q' [Hrep Hsorted]. apply HQ; assumption.
Qed.

(** ** Slots in use *)

Lemma used_slots_insert l i v w :
  l !! i = Some v -> v <> -1 -> w <> -1 ->
  used_slots (<[i := w]> l) = used_slots l.
Proof.
  intros Hv Hv1 Hw1. unfold used_slots.
  rewrite insert_take_drop by (eapply lookup_lt_Some; exact Hv).
  rewrite <- (take_drop_middle l i v Hv) at 3.
  rewrite !filter_app, !filter_cons.
  destruct (decide (w <> -1)); [| contradiction].
  destruct (decide (v <> -1)); [| contradiction].
  rewrite !length_app. simpl. reflexivity.
Qed.

Lemma used_slots_release l i v :
  l !! i = Some v -> v <> -1 ->
  S (used_slots (<[i := -1]> l)) = used_slots l.
Proof.
  intros Hv Hv1. unfold used_slots.
  rewrite insert_take_drop by (eapply lookup_lt_Some; exact Hv).
  rewrite <- (take_drop_middle l i v Hv) at 3.
  rewrite !filter_app, !filter_cons.
  destruct (decide (-1 <> -1)); [contradiction |].
  destruct (decide (v <> -1)); [| contradiction].
  rewrite !length_app. simpl. lia.
Qed.

Lemma used_slots_bind l i w :
  l !! i = Some (-1) -> w <> -1 ->
  used_slots (<[i := w]> l) = S (used_slots l).
Proof.
  intros Hv Hw1. unfold used_slots.
  rewrite insert_take_drop by (eapply lookup_lt_Some; exact Hv).
  rewrite <- (take_drop_middle l i (-1) Hv) at 3.
  rewrite !filter_app, !filter_cons.
  destruct (decide (w <> -1)); [| contradiction].
  destruct (decide (-1 <> -1)); [contradiction |].
  rewrite !length_app. simpl. lia.
Qed.

(** A list with fewer used slots than slots has a free one. *)
Lemma used_slots_free l :
  (used_slots l < length l)%nat -> exists j, l !! j = Some (-1).
Proof.
  unfold used_slots. induction l as [| x l IH]; simpl; [lia |].
  rewrite filter_cons. destruct (decide (x <> -1)) as [Hx | Hx].
  - simpl. intros Hlt. destruct IH as [j Hj]; [lia |].
    exists (S j). exact Hj.
  - intros _. exists O. simpl. f_equal. lia.
Qed.

(** ** Moving items *)

Lemma same_item_refl it : same_item it it.
Proof. repeat split. Qed.

Lemma same_item_stamp it0 it v :
  same_item it0 it -> same_item it0 (item_set_version v it).
Proof. intros (?&?&?). repeat split; assumption. Qed.

Lemma moved_ext n (H H' P P' : Z -> Prop) s s' q0 q :
  moved n H P s q0 q ->
  (forall p, 0 <= p < n -> (H p <-> H' p)) ->
  (forall p, 0 <= p < n -> (P p <-> P' p)) ->
  (forall p, 0 <= p < n -> ~ H p -> s' p = s p) ->
  moved n H' P' s' q0 q.
Proof.
  intros [Hfr Hlen Hu Hsrc Hinj Hitem Hid Hpend] HH HP Hs.
  assert (HnH : forall p, 0 <= p < n -> ~ H' p -> ~ H p)
    by (intros p Hp Hn Hc; apply Hn, HH; assumption).
  split; try assumption.
  - intros p Hp Hn. rewrite Hs by auto.
    destruct (Hsrc p Hp (HnH p Hp Hn)) as [Hr HnP].
    split; [exact Hr |]. intros Hc. apply HnP, HP; assumption.
  - intros p1 p2 Hp1 Hp2 Hn1 Hn2. rewrite !Hs by auto.
    apply Hinj; auto.
  - intros p Hp Hn. rewrite Hs by auto. apply Hitem; auto.
  - intros p it Hp Hn. apply Hid; auto.
  - intros p0 it0 Hp0 HP0. apply Hpend; [exact Hp0 |]. apply HP; assumption.
Qed.

Lemma moved_init n (H P : Z -> Prop) q :
  0 <= n <= Z.of_nat (length (items q)) ->
  (forall p it, 0 <= p < n -> ~ H p -> items q !! Z.to_nat p = Some it ->
     0 <= i_id it /\ id_to_position q !! Z.to_nat (i_id it) = Some p) ->
  (forall p0 it0, 0 <= p0 < n -> P p0 ->
     items q !! Z.to_nat p0 = Some it0 ->
     0 <= i_id it0
     /\ exists v, id_to_position q !! Z.to_nat (i_id it0) = Some v
                  /\ v <> -1) ->
  (forall p, P p -> H p) ->
  moved n H P (fun p => p) q q.
Proof.
  intros Hlen Hid Hpend HPH. split.
  - apply frame_items_refl.
  - exact Hlen.
  - reflexivity.
  - intros p Hp Hn. split; [exact Hp |]. intros Hc. apply Hn, HPH, Hc.
  - intros p1 p2 _ _ _ _ Heq. exact Heq.
  - intros p Hp Hn.
    destruct (lookup_lt_is_Some_2 (items q) (Z.to_nat p)) as [it Hit]; [lia |].
    exists it, it. split; [exact Hit |]. split; [exact Hit |].
    apply same_item_refl.
  - exact Hid.
  - exact Hpend.
Qed.

(** [queue_move_song_to src dst], seen from the invariant. *)
Lemma moved_move n (H P : Z -> Prop) s q0 q q' src dst it v :
  moved n H P s q0 q ->
  0 <= src < n -> ~ H src -> 0 <= dst < n -> (H dst \/ dst = src) ->
  items q !! Z.to_nat src = Some it ->
  frame_items q q' ->
  items q' = <[Z.to_nat dst := item_set_version v it]> (items q) ->
  id_to_position q'
  = <[Z.to_nat (i_id it) := dst]> (id_to_position q) ->
  moved n (fun p => (H p /\ p <> dst) \/ (p = src /\ src <> dst)) P
    (fun p => if decide (p = dst) then s src else s p) q0 q'.
Proof.
  intros [Hfr Hlen Hu Hsrc Hinj Hitem Hid Hpend] Hs HnHs Hd HHd Hit Hfr'
    Hits Hidm.
  destruct (Hid src it Hs HnHs Hit) as [Hid0 Hslot].
  assert (Hslotlt := lookup_lt_Some _ _ _ Hslot).
  assert (Hli : length (items q) = length (items q0))
    by (destruct Hfr as (_&_&_&_&_&_&_&_&_&Hli&_); exact Hli).
  assert (Hdlt : (Z.to_nat dst < length (items q))%nat) by lia.
  assert (Hlook : forall p, 0 <= p < n ->
    items q' !! Z.to_nat p
    = if decide (p = dst) then Some (item_set_version v it)
      else items q !! Z.to_nat p).
  { intros p Hp. rewrite Hits. case_decide as Hpd.
    - subst p. apply list_lookup_insert_eq. exact Hdlt.
    - apply list_lookup_insert_ne. lia. }
  split.
  - eapply frame_items_trans; eassumption.
  - exact Hlen.
  - rewrite Hidm, <- Hu.
    apply (used_slots_insert _ _ src); [exact Hslot | lia | lia].
  - intros p Hp Hn. case_decide as Hpd.
    + apply Hsrc; assumption.
    + apply Hsrc; [exact Hp |]. intros Hc. apply Hn. left. auto.
  - intros p1 p2 Hp1 Hp2 Hn1 Hn2.
    assert (Hns : forall p, 0 <= p < n ->
      ~ ((H p /\ p <> dst) \/ (p = src /\ src <> dst)) -> p <> dst ->
      ~ H p /\ p <> src).
    { intros p Hp Hn Hpd. split.
      - intros Hc. apply Hn. left. auto.
      - intros ->. apply Hn. right. auto. }
    repeat case_decide; intros Heq.
    + congruence.
    + destruct (Hns p2 Hp2 Hn2 ltac:(assumption)) as [Hh2 Hs2].
      exfalso. apply Hs2. symmetry. apply Hinj; assumption.
    + destruct (Hns p1 Hp1 Hn1 ltac:(assumption)) as [Hh1 Hs1].
      exfalso. apply Hs1. apply Hinj; assumption.
    + destruct (Hns p1 Hp1 Hn1 ltac:(assumption)) as [Hh1 _].
      destruct (Hns p2 Hp2 Hn2 ltac:(assumption)) as [Hh2 _].
      apply Hinj; assumption.
  - intros p Hp Hn. rewrite Hlook by exact Hp. case_decide as Hpd.
    + destruct (Hitem src Hs HnHs) as (x & x0 & Hx & Hx0 & Hsame).
      rewrite Hit in Hx. inversion Hx; subst x.
      exists (item_set_version v it), x0.
      split; [reflexivity |]. split; [exact Hx0 |].
      apply same_item_stamp, Hsame.
    + apply Hitem; [exact Hp |]. intros Hc. apply Hn. left. auto.
  - intros p x Hp Hn. rewrite Hlook by exact Hp. rewrite Hidm.
    case_decide as Hpd.
    + intros Hx. inversion Hx; subst x p. simpl.
      split; [exact Hid0 |]. apply list_lookup_insert_eq. exact Hslotlt.
    + intros Hx.
      assert (HnHp : ~ H p) by (intros Hc; apply Hn; left; auto).
      assert (Hps : p <> src) by (intros ->; apply Hn; right; auto).
      destruct (Hid p x Hp HnHp Hx) as [Hidx Hslotx].
      split; [exact Hidx |].
      rewrite list_lookup_insert_ne; [exact Hslotx |].
      intros Hc. apply Hps.
      assert (i_id x = i_id it) by lia. congruence.
  - intros p0 it0 Hp0 HP0 Hit0.
    destruct (Hpend p0 it0 Hp0 HP0 Hit0) as [Hid00 (w & Hw & Hw1)].
    split; [exact Hid00 |]. rewrite Hidm.
    destruct (decide (Z.to_nat (i_id it) = Z.to_nat (i_id it0))) as [He | He].
    + exists dst. rewrite He.
      split; [apply list_lookup_insert_eq; eapply lookup_lt_Some; exact Hw | lia].
    + exists w. rewrite list_lookup_insert_ne by exact He. split; assumption.
Qed.

(** Putting back an item that was held aside. *)
Lemma moved_put n (H P : Z -> Prop) s q0 q q' p0 dst it0 v :
  moved n H P s q0 q ->
  ids_distinct n q0 ->
  0 <= p0 < n -> P p0 -> 0 <= dst < n -> H dst ->
  items q0 !! Z.to_nat p0 = Some it0 ->
  frame_items q q' ->
  items q' = <[Z.to_nat dst := item_set_version v it0]> (items q) ->
  id_to_position q'
  = <[Z.to_nat (i_id it0) := dst]> (id_to_position q) ->
  moved n (fun p => H p /\ p <> dst) (fun p => P p /\ p <> p0)
    (fun p => if decide (p = dst) then p0 else s p) q0 q'.
Proof.
  intros [Hfr Hlen Hu Hsrc Hinj Hitem Hid Hpend] Hdist Hp0 HP0 Hd HHd Hit0
    Hfr' Hits Hidm.
  destruct (Hpend p0 it0 Hp0 HP0 Hit0) as [Hid0 (w & Hw & Hw1)].
  assert (Hwlt := lookup_lt_Some _ _ _ Hw).
  assert (Hli : length (items q) = length (items q0))
    by (destruct Hfr as (_&_&_&_&_&_&_&_&_&Hli&_); exact Hli).
  assert (Hdlt : (Z.to_nat dst < length (items q))%nat) by lia.
  assert (Hlook : forall p, 0 <= p < n ->
    items q' !! Z.to_nat p
    = if decide (p = dst) then Some (item_set_version v it0)
      else items q !! Z.to_nat p).
  { intros p Hp. rewrite Hits. case_decide as Hpd.
    - subst p. apply list_lookup_insert_eq. exact Hdlt.
    - apply list_lookup_insert_ne. lia. }
  assert (Hns : forall p, ~ (H p /\ p <> dst) -> p <> dst -> ~ H p)
    by (intros p Hn Hpd Hc; apply Hn; auto).
  split.
  - eapply frame_items_trans; eassumption.
  - exact Hlen.
  - rewrite Hidm, <- Hu.
    apply (used_slots_insert _ _ w); [exact Hw | exact Hw1 | lia].
  - intros p Hp Hn. case_decide as Hpd.
    + split; [exact Hp0 |]. intros [_ Hc]. apply Hc. reflexivity.
    + destruct (Hsrc p Hp (Hns p Hn Hpd)) as [Hr HnP].
      split; [exact Hr |]. intros [Hc _]. apply HnP, Hc.
  - intros p1 p2 Hp1 Hp2 Hn1 Hn2. repeat case_decide; intros Heq.
    + congruence.
    + exfalso. destruct (Hsrc p2 Hp2 (Hns p2 Hn2 ltac:(assumption)))
        as [_ HnP]. apply HnP. rewrite <- Heq. exact HP0.
    + exfalso. destruct (Hsrc p1 Hp1 (Hns p1 Hn1 ltac:(assumption)))
        as [_ HnP]. apply HnP. rewrite Heq. exact HP0.
    + apply Hinj; auto.
  - intros p Hp Hn. rewrite Hlook by exact Hp. case_decide as Hpd.
    + exists (item_set_version v it0), it0.
      split; [reflexivity |]. split; [exact Hit0 |].
      apply same_item_stamp, same_item_refl.
    + apply Hitem; auto.
  - intros p x Hp Hn. rewrite Hlook by exact Hp. rewrite Hidm.
    case_decide as Hpd.
    + intros Hx. inversion Hx; subst x p. simpl.
      split; [exact Hid0 |]. apply list_lookup_insert_eq. exact Hwlt.
    + intros Hx. pose proof (Hns p Hn Hpd) as HnHp.
      destruct (Hid p x Hp HnHp Hx) as [Hidx Hslotx].
      split; [exact Hidx |].
      rewrite list_lookup_insert_ne; [exact Hslotx |].
      intros Hc.
      destruct (Hitem p Hp HnHp) as (y & y0 & Hy & Hy0 & (_ & Hsid & _)).
      rewrite Hx in Hy. inversion Hy; subst y.
      destruct (Hsrc p Hp HnHp) as [Hr HnP].
      apply HnP.
      replace (s p) with p0; [exact HP0 |].
      apply (Hdist p0 (s p) it0 y0); try assumption. lia.
  - intros p1 it1 Hp1 [HP1 Hne] Hit1.
    destruct (Hpend p1 it1 Hp1 HP1 Hit1) as [Hid1 (w1 & Hw1' & Hw1n)].
    split; [exact Hid1 |]. rewrite Hidm.
    destruct (decide (Z.to_nat (i_id it0) = Z.to_nat (i_id it1))) as [He | He].
    + exists dst. rewrite He.
      split; [apply list_lookup_insert_eq; eapply lookup_lt_Some; exact Hw1'
             | lia].
    + exists w1. rewrite list_lookup_insert_ne by exact He.
      split; assumption.
Qed.

Lemma frame_items_set q its idm :
  length its = length (items q) ->
  length idm = length (id_to_position q) ->
  frame_items q (set_id_to_position idm (set_items its q)).
Proof. intros H1 H2. repeat split; assumption. Qed.

Lemma wp_queue_move_song_to n (H P : Z -> Prop) s q0 q src dst
    (Q : unit -> queue -> Prop) :
  moved n H P s q0 q ->
  n <= 2 ^ 31 ->
  0 <= src < n -> ~ H src -> 0 <= dst < n -> (H dst \/ dst = src) ->
  (forall q',
     moved n (fun p => (H p /\ p <> dst) \/ (p = src /\ src <> dst)) P
       (fun p => if decide (p = dst) then s src else s p) q0 q' ->
     Q tt q') ->
  wp (queue_move_song_to src dst) Q q.
Proof.
  intros Hmv Hn Hs HnHs Hd HHd HQ.
  destruct (mv_item _ _ _ _ _ _ Hmv src Hs HnHs) as (it & it0 & Hit & _ & _).
  destruct (mv_idmap _ _ _ _ _ _ Hmv src it Hs HnHs Hit) as [Hid Hslot].
  assert (Hslotlt := lookup_lt_Some _ _ _ Hslot).
  pose proof (mv_len _ _ _ _ _ _ Hmv) as Hlen.
  assert (Hli : length (items q) = length (items q0)).
  { destruct (mv_frame _ _ _ _ _ _ Hmv) as (_&_&_&_&_&_&_&_&_&Hli&_).
    exact Hli. }
  unfold queue_move_song_to.
  apply wp_bind. eapply wp_read; [lia | exact Hit |].
  apply wp_bind, wp_write; [lia |].
  apply wp_bind, wp_get.
  apply wp_bind.
  eapply (wp_items_set_version dst _ it); [lia | |].
  { simpl. apply list_lookup_insert_eq. lia. }
  apply wp_write; [simpl; lia |].
  apply HQ. rewrite to_int_small by lia.
  eapply (moved_move n H P s q0 q _ src dst it (q_version q));
    try eassumption.
  - repeat split; simpl; rewrite ?length_insert; reflexivity.
  - simpl. apply list_insert_insert_eq.
  - reflexivity.
Qed.

(** The shifting loop of [DeletePosition] and the first loop of
    [MovePostion]: the hole climbs from [a] to [b]. *)
Lemma wp_shift_up n (P : Z -> Prop) s0 q0 q a b
    (Q : unit -> queue -> Prop) :
  moved n (fun p => p = a) P s0 q0 q ->
  n <= 2 ^ 31 -> 0 <= a <= b -> b < n ->
  (forall q',
     moved n (fun p => p = b) P
       (fun p => if decide (a <= p < b) then s0 (p + 1) else s0 p) q0 q' ->
     Q tt q') ->
  wp (for_range a b (fun i => queue_move_song_to (wrap (i + 1)) i)) Q q.
Proof.
  intros Hmv Hn Hab Hb HQ.
  eapply wp_mono.
  - apply (wp_for_range (fun i q' =>
      moved n (fun p => p = i) P
        (fun p => if decide (a <= p < i) then s0 (p + 1) else s0 p) q0 q')).
    + lia.
    + eapply moved_ext; [exact Hmv | | |].
      * intros p _. reflexivity.
      * intros p _. reflexivity.
      * intros p _ _. case_decide; [lia | reflexivity].
    + intros i q1 Hi Hmv1.
      rewrite wrap_small by (rewrite UINT_MOD_eq; lia).
      eapply wp_queue_move_song_to;
        [exact Hmv1 | lia | lia | cbv beta; lia | lia | |].
      { left. reflexivity. }
      intros q2 Hmv2.
      eapply moved_ext; [exact Hmv2 | | |].
      * intros p _. simpl. lia.
      * intros p _. reflexivity.
      * intros p Hp Hnh. simpl.
        repeat case_decide; try lia; try reflexivity;
          try (f_equal; lia); try (exfalso; apply Hnh; lia).
  - intros [] q' Hmv'. apply HQ, Hmv'.
Qed.

(** The second loop of [MovePostion]: the hole descends from [a] to
    [b]. *)
Lemma wp_shift_down n (P : Z -> Prop) s0 q0 q a b
    (Q : unit -> queue -> Prop) :
  moved n (fun p => p = a) P s0 q0 q ->
  n <= 2 ^ 31 -> 0 <= b <= a -> a < n ->
  (forall q',
     moved n (fun p => p = b) P
       (fun p => if decide (b < p <= a) then s0 (p - 1) else s0 p) q0 q' ->
     Q tt q') ->
  wp (for_down (Z.to_nat (a - b)) a
        (fun i => queue_move_song_to (wrap (i - 1)) i)) Q q.
Proof.
  intros Hmv Hn Hab Ha HQ.
  eapply wp_mono.
  - apply (wp_for_down (fun i q' =>
      moved n (fun p => p = i) P
        (fun p => if decide (i < p <= a) then s0 (p - 1) else s0 p) q0 q')).
    + eapply moved_ext; [exact Hmv | | |].
      * intros p _. reflexivity.
      * intros p _. reflexivity.
      * intros p _ _. case_decide; [lia | reflexivity].
    + intros i q1 Hi Hmv1.
      rewrite wrap_small by (rewrite UINT_MOD_eq; lia).
      eapply wp_queue_move_song_to;
        [exact Hmv1 | lia | lia | cbv beta; lia | lia | |].
      { left. reflexivity. }
      intros q2 Hmv2.
      eapply moved_ext; [exact Hmv2 | | |].
      * intros p _. simpl. lia.
      * intros p _. reflexivity.
      * intros p Hp Hnh. simpl.
        repeat case_decide; try lia; try reflexivity;
          try (f_equal; lia); try (exfalso; apply Hnh; lia).
  - intros [] q' Hmv'. apply HQ.
    replace (a - Z.of_nat (Z.to_nat (a - b))) with b in Hmv' by lia.
    exact Hmv'.
Qed.

(** ** Rebuilding the invariants *)

Lemma Inv_ids_distinct q : Inv q -> ids_distinct (q_length q) q.
Proof.
  intros HI p1 p2 it1 it2 Hp1 Hp2 H1 H2 Heq.
  eapply idmap_consistent_inj; try eassumption. apply (inv_ids _ HI).
Qed.

Lemma Inv_bounds q :
  Inv q ->
  q_length q < 2 ^ 30
  /\ q_length q <= Z.of_nat (length (items q))
  /\ q_length q <= Z.of_nat (length (order q))
  /\ Z.of_nat (length (order q)) < 2 ^ 30
  /\ Z.of_nat (length (items q)) < 2 ^ 30
  /\ Z.of_nat (length (id_to_position q)) < UINT_MOD.
Proof.
  intros [[Hm0 Hm] Hl Hi Ho Hd _ _ _].
  unfold QUEUE_HASH_MULT in *. rewrite UINT_MOD_eq in *.
  rewrite Hi, Ho, Hd. lia.
Qed.

Lemma Inv_moved_init q (H : Z -> Prop) :
  Inv q -> moved (q_length q) H H (fun p => p) q q.
Proof.
  intros HI. pose proof (Inv_bounds q HI) as (_ & Hli & _).
  pose proof (inv_length _ HI).
  apply moved_init; [lia | | | auto].
  - intros p it Hp _ Hit. apply (inv_ids _ HI); assumption.
  - intros p it Hp _ Hit. destruct (inv_ids _ HI p it Hp Hit) as [Hid Hs].
    split; [exact Hid |]. exists p. split; [exact Hs | lia].
Qed.

(** The invariants after the items have been moved and the order array
    rewritten. *)
Lemma Inv_rebuild q q1 q' s :
  Inv q ->
  moved (q_length q) (fun _ => False) (fun _ => False) s q q1 ->
  frame_order q1 q' ->
  perm_on (Z.to_nat (q_length q)) (order q') ->
  Inv q'.
Proof.
  intros HI Hmv Hfo Hperm.
  destruct (mv_frame _ _ _ _ _ _ Hmv)
    as (Hm1 & Hl1 & Hv1 & Ho1 & _ & _ & _ & Hr1 & _ & Hli1 & Hld1).
  destruct Hfo as (Hm2 & Hl2 & Hv2 & Hi2 & Hd2 & _ & _ & _ & Hr2 & Hlo2).
  destruct HI as [Hsz Hlen Hitems Horder Hidmap Hp0 Hids Hused].
  split.
  - rewrite Hm2, Hm1. exact Hsz.
  - rewrite Hl2, Hl1, Hm2, Hm1. exact Hlen.
  - rewrite Hi2, Hli1, Hm2, Hm1. exact Hitems.
  - rewrite Hlo2, Ho1, Hm2, Hm1. exact Horder.
  - rewrite Hd2, Hld1, Hm2, Hm1. exact Hidmap.
  - rewrite Hl2, Hl1. exact Hperm.
  - intros p it Hp Hit. rewrite Hl2, Hl1 in Hp. rewrite Hi2 in Hit.
    rewrite Hd2. apply (mv_idmap _ _ _ _ _ _ Hmv p it Hp); [tauto | exact Hit].
  - rewrite Hd2, Hl2, Hl1, (mv_used _ _ _ _ _ _ Hmv). exact Hused.
Qed.

(** Priorities read through an order array rewritten by [F] when the
    items have moved by [s], [F] and [s] inverse of each other. *)
Lemma prio_at_moved q q1 q' s (F : Z -> Z) k :
  moved (q_length q) (fun _ => False) (fun _ => False) s q q1 ->
  perm_on (Z.to_nat (q_length q)) (order q) ->
  items q' = items q1 ->
  (k < Z.to_nat (q_length q))%nat ->
  (forall o, order q !! k = Some o -> order q' !! k = Some (F o)) ->
  (forall o, 0 <= o < q_length q -> 0 <= F o < q_length q /\ s (F o) = o) ->
  prio_at q' k = prio_at q k.
Proof.
  intros Hmv (Hlen & Hrange & _) Hit Hk Hord HF.
  destruct (lookup_lt_is_Some_2 (order q) k) as [o Ho]; [lia |].
  pose proof (Hrange k o Hk Ho) as Hor.
  destruct (HF o ltac:(lia)) as [HFr HsF].
  destruct (mv_item _ _ _ _ _ _ Hmv (F o) HFr ltac:(tauto))
    as (it & it0 & Hx & Hx0 & (_ & _ & Hpr)).
  rewrite HsF in Hx0. rewrite <- Hit in Hx.
  rewrite (prio_at_lookup q' k (F o) it (Hord o Ho) Hx).
  rewrite (prio_at_lookup q k o it0 Ho Hx0). symmetry. exact Hpr.
Qed.

(** ** MovePostion *)

Lemma order_write_same i o q :
  0 <= i -> order q !! Z.to_nat i = Some o -> order_write i o q = Ok (tt, q).
Proof.
  intros Hi Ho. unfold order_write.
  rewrite write_Ok by (apply lookup_lt_Some in Ho; lia).
  rewrite list_insert_id by exact Ho. rewrite set_order_id. reflexivity.
Qed.

Lemma order_write_Ok i o x q :
  0 <= i -> order q !! Z.to_nat i = Some o ->
  order_write i x q = Ok (tt, set_order (<[Z.to_nat i := x]> (order q)) q).
Proof.
  intros Hi Ho. apply write_Ok. apply lookup_lt_Some in Ho. lia.
Qed.

Lemma MovePostion_order_spec from to n o :
  0 <= from < n -> 0 <= to < n -> n <= 2 ^ 31 -> 0 <= o < n ->
  0 <= MovePostion_order from to o < n
  /\ MovePostion_source from to (MovePostion_order from to o) = o.
Proof.
  intros Hf Ht Hn Ho. unfold MovePostion_order, MovePostion_source.
  destruct (Z.ltb_spec from o); destruct (Z.leb_spec o to); simpl;
    [rewrite wrap_small by (rewrite UINT_MOD_eq; lia);
     repeat case_decide; lia | ..];
    (destruct (Z.ltb_spec o from); destruct (Z.leb_spec to o); simpl;
     [rewrite wrap_small by (rewrite UINT_MOD_eq; lia);
      repeat case_decide; lia | ..]);
    destruct (Z.eqb_spec from o); repeat case_decide; lia.
Qed.

Lemma MovePostion_order_inj from to n o1 o2 :
  0 <= from < n -> 0 <= to < n -> n <= 2 ^ 31 ->
  0 <= o1 < n -> 0 <= o2 < n ->
  MovePostion_order from to o1 = MovePostion_order from to o2 -> o1 = o2.
Proof.
  intros Hf Ht Hn Ho1 Ho2 Heq.
  destruct (MovePostion_order_spec from to n o1 Hf Ht Hn Ho1) as [_ H1].
  destruct (MovePostion_order_spec from to n o2 Hf Ht Hn Ho2) as [_ H2].
  rewrite Heq in H1. congruence.
Qed.

Lemma MovePostion_rewrite_Ok from to q :
  0 <= q_length q <= Z.of_nat (length (order q)) ->
  for_range 0 (q_length q) (fun i =>
      o ← order_read i;
      if (from <? o) && (o <=? to) then order_write i (wrap (o - 1))
      else if (o <? from) && (to <=? o) then order_write i (wrap (o + 1))
      else if from =? o then order_write i to
      else mret tt) q
  = Ok (tt, set_order
              (map_prefix (MovePostion_order from to)
                 (Z.to_nat (q_length q)) (order q)) q).
Proof.
  intros Hlen. apply order_rewrite_Ok; [exact Hlen |].
  intros i q' o Hi Ho.
  rewrite (bind_Ok (order_read i) _ q' o q')
    by (apply read_Ok; assumption).
  unfold MovePostion_order.
  destruct ((from <? o) && (o <=? to));
    [eapply order_write_Ok; eassumption |].
  destruct ((o <? from) && (to <=? o));
    [eapply order_write_Ok; eassumption |].
  destruct (from =? o); [eapply order_write_Ok; eassumption |].
  rewrite list_insert_id by exact Ho. rewrite set_order_id. reflexivity.
Qed.

(** [MovePostion] with the rewriting of the order array made explicit. *)
Lemma wp_MovePostion_order from to (Q : unit -> queue -> Prop) q :
  Inv q ->
  0 <= from < q_length q -> 0 <= to < q_length q ->
  (forall q',
     Inv q' ->
     max_length q' = max_length q /\ q_length q' = q_length q
     /\ q_random q' = q_random q /\ q_version q' = q_version q ->
     moved (q_length q) (fun _ => False) (fun _ => False)
       (MovePostion_source from to) q (set_order (order q) q') ->
     (q_random q = true ->
      forall k, (k < Z.to_nat (q_length q))%nat ->
        prio_at q' k = prio_at q k) ->
     (q_random q = false -> order q' = order q) ->
     (q_random q = true ->
      order q'
      = map_prefix (MovePostion_order from to) (Z.to_nat (q_length q))
          (order q)) ->
     Q tt q') ->
  wp (MovePostion from to) Q q.
Proof.
  intros HI Hf Ht HQ.
  pose proof (Inv_bounds q HI) as (Hn & Hli & Hlo & Hmo & Hmi & Hmd).
  pose proof (inv_length _ HI) as Hlen.
  destruct (lookup_lt_is_Some_2 (items q) (Z.to_nat from)) as [item Hitem];
    [lia |].
  unfold MovePostion.
  apply wp_bind. eapply wp_read; [lia | exact Hitem |].
  pose proof (Inv_moved_init q (fun p => p = from) HI) as Hmv0.
  (* after the two shifting loops the hole is at [to] *)
  assert (Hloops : forall (rest : M unit) (R : unit -> queue -> Prop),
    (forall q1,
       moved (q_length q) (fun p => p = to) (fun p => p = from)
         (fun p => if decide (from <= p < to) then p + 1
                   else if decide (to < p <= from) then p - 1 else p)
         q q1 -> wp rest R q1) ->
    wp (for_range from to (fun i => queue_move_song_to (wrap (i + 1)) i);;
        for_down (Z.to_nat (from - to)) from
          (fun i => queue_move_song_to (wrap (i - 1)) i);; rest) R q).
  { intros rest R HR. destruct (Z.le_gt_cases from to) as [Hle | Hgt].
    - apply wp_bind.
      eapply (wp_shift_up (q_length q) _ _ q q from to);
        [exact Hmv0 | lia | lia | lia |].
      intros q1 Hmv1.
      replace (Z.to_nat (from - to)) with O by lia. apply wp_bind, wp_ret.
      apply HR. eapply moved_ext; [exact Hmv1 | | |].
      + intros p _. reflexivity.
      + intros p _. reflexivity.
      + intros p Hp Hnh. simpl. repeat case_decide; lia.
    - unfold for_range. replace (Z.to_nat (to - from)) with O by lia.
      apply wp_bind, wp_ret. apply wp_bind.
      eapply (wp_shift_down (q_length q) _ _ q q from to);
        [exact Hmv0 | lia | lia | lia |].
      intros q1 Hmv1.
      apply HR. eapply moved_ext; [exact Hmv1 | | |].
      + intros p _. reflexivity.
      + intros p _. reflexivity.
      + intros p Hp Hnh. simpl. repeat case_decide; lia. }
  apply Hloops. clear Hloops. intros q1 Hmv1.
  pose proof (mv_frame _ _ _ _ _ _ Hmv1)
    as (Hm1 & Hl1 & Hv1 & Ho1 & _ & _ & _ & Hr1 & _ & Hli1 & Hld1).
  destruct (mv_pend _ _ _ _ _ _ Hmv1 from item Hf eq_refl Hitem)
    as [Hid (w & Hw & Hw1)].
  assert (Hwlt := lookup_lt_Some _ _ _ Hw).
  apply wp_bind, wp_write; [lia |].
  apply wp_bind, wp_write; [simpl; lia |].
  apply wp_bind, wp_get.
  apply wp_bind.
  eapply (wp_items_set_version to _ item); [lia | |].
  { simpl. apply list_lookup_insert_eq. lia. }
  match goal with |- wp _ _ ?st => set (q3 := st) end.
  assert (Hmv3 : moved (q_length q) (fun _ => False) (fun _ => False)
                   (MovePostion_source from to) q q3).
  { eapply moved_ext.
    - eapply (moved_put (q_length q) _ _ _ q q1 q3 from to item (q_version q1));
        [exact Hmv1 | apply Inv_ids_distinct, HI | exact Hf | reflexivity
        | exact Ht | reflexivity | exact Hitem | | |].
      + unfold q3. repeat split; simpl; rewrite ?length_insert; reflexivity.
      + unfold q3. simpl. apply list_insert_insert_eq.
      + unfold q3. simpl. rewrite to_int_small by lia. reflexivity.
    - intros p _. simpl. lia.
    - intros p _. simpl. lia.
    - intros p Hp _. unfold MovePostion_source. simpl.
      repeat case_decide; lia. }
  assert (Hfr3 : q_random q3 = q_random q /\ q_length q3 = q_length q
                 /\ order q3 = order q /\ max_length q3 = max_length q
                 /\ q_version q3 = q_version q).
  { unfold q3. simpl. auto. }
  destruct Hfr3 as (Hr3 & Hl3 & Ho3 & Hm3 & Hv3).
  change (q_random (set_items _ _)) with (q_random q3).
  change (q_length (set_items _ _)) with (q_length q3).
  rewrite Hr3. destruct (q_random q) eqn:Hrnd.
  - eapply wp_eq.
    + apply MovePostion_rewrite_Ok. rewrite Hl3, Ho3. lia.
    + rewrite Hl3, Ho3.
      set (q' := set_order _ q3).
      assert (Hperm' : perm_on (Z.to_nat (q_length q)) (order q')).
      { eapply (perm_on_map _ (order q) _ (MovePostion_order from to)).
        - apply (inv_perm _ HI).
        - unfold q'. simpl. rewrite length_map_prefix. lia.
        - intros k o Hk Ho. unfold q'. simpl. rewrite lookup_map_prefix.
          case_decide; [| lia]. rewrite Ho. reflexivity.
        - intros o Ho. rewrite Z2Nat.id in * by lia.
          apply (MovePostion_order_spec from to (q_length q)); lia.
        - intros o1 o2 Ha Hb. rewrite Z2Nat.id in * by lia.
          apply (MovePostion_order_inj from to (q_length q)); lia. }
      apply HQ.
      * eapply (Inv_rebuild q q3 q'); [exact HI | exact Hmv3 | | exact Hperm'].
        apply frame_order_set_order. rewrite length_map_prefix, Ho3.
        reflexivity.
      * unfold q'. simpl. auto.
      * unfold q'. rewrite set_order_set_order. rewrite <- Ho3.
        rewrite set_order_id. exact Hmv3.
      * intros _ k Hk.
        apply (prio_at_moved q q3 q' (MovePostion_source from to)
                 (MovePostion_order from to));
          [exact Hmv3 | apply (inv_perm _ HI) | reflexivity | exact Hk | |].
        -- intros o Ho. unfold q'. simpl. rewrite lookup_map_prefix.
           case_decide; [| lia]. rewrite Ho. reflexivity.
        -- intros o Ho.
           apply (MovePostion_order_spec from to (q_length q)); lia.
      * intros Hc. discriminate Hc.
      * intros _. reflexivity.
  - apply wp_ret. apply HQ.
    + eapply (Inv_rebuild q q3 q3);
        [exact HI | exact Hmv3 | apply frame_order_refl |].
      rewrite Ho3. apply (inv_perm _ HI).
    + auto.
    + rewrite <- Ho3. rewrite set_order_id. exact Hmv3.
    + intros Hc. discriminate Hc.
    + intros _. exact Ho3.
    + intros Hc. discriminate Hc.
Qed.

Lemma wp_MovePostion from to (Q : unit -> queue -> Prop) q :
  Inv q ->
  0 <= from < q_length q -> 0 <= to < q_length q ->
  (forall q',
     Inv q' ->
     max_length q' = max_length q /\ q_length q' = q_length q
     /\ q_random q' = q_random q /\ q_version q' = q_version q ->
     moved (q_length q) (fun _ => False) (fun _ => False)
       (MovePostion_source from to) q (set_order (order q) q') ->
     (q_random q = true ->
      forall k, (k < Z.to_nat (q_length q))%nat ->
        prio_at q' k = prio_at q k) ->
     (q_random q = false -> order q' = order q) ->
     Q tt q') ->
  wp (MovePostion from to) Q q.
Proof.
  intros HI Hf Ht HQ. apply wp_MovePostion_order; try assumption.
  intros q' HI' Hfr Hmv Hpr Hor _. apply HQ; assumption.
Qed.

(** ** MoveRange *)

Lemma MoveRange_order_eq start end_ to n o :
  0 <= start <= end_ -> end_ <= n -> 0 <= to -> to + (end_ - start) <= n ->
  n <= 2 ^ 31 -> 0 <= o < n ->
  MoveRange_order start end_ to o
  = if decide (end_ <= o < to + (end_ - start)) then o - (end_ - start)
    else if decide (to <= o < start) then o + (end_ - start)
    else if decide (start <= o < end_) then o + (to - start)
    else o.
Proof.
  intros Hs He Ht Hte Hn Ho. unfold MoveRange_order.
  assert (H32 : UINT_MOD = 2 ^ 32) by reflexivity.
  rewrite (wrap_small (to + end_ - start)) by lia.
  rewrite (wrap_small (end_ - start)) by lia.
  assert (Hw : wrap (o + wrap (to - start)) = wrap (o + (to - start))).
  { unfold wrap. apply Zplus_mod_idemp_r. }
  rewrite Hw.
  destruct (Z.leb_spec end_ o); destruct (Z.ltb_spec o (to + end_ - start));
    simpl; repeat case_decide; try lia;
    try (apply wrap_small; lia);
    (destruct (Z.ltb_spec o start); destruct (Z.leb_spec to o);
     simpl; try lia; try (apply wrap_small; lia));
    (destruct (Z.leb_spec start o); destruct (Z.ltb_spec o end_);
     simpl; try lia; try (apply wrap_small; lia); try reflexivity).
Qed.

Lemma MoveRange_order_spec start end_ to n o :
  0 <= start <= end_ -> end_ <= n -> 0 <= to -> to + (end_ - start) <= n ->
  n <= 2 ^ 31 -> 0 <= o < n ->
  0 <= MoveRange_order start end_ to o < n
  /\ MoveRange_source start end_ to (MoveRange_order start end_ to o) = o.
Proof.
  intros Hs He Ht Hte Hn Ho.
  rewrite (MoveRange_order_eq start end_ to n o) by assumption.
  unfold MoveRange_source. repeat case_decide; lia.
Qed.

Lemma MoveRange_order_inj start end_ to n o1 o2 :
  0 <= start <= end_ -> end_ <= n -> 0 <= to -> to + (end_ - start) <= n ->
  n <= 2 ^ 31 -> 0 <= o1 < n -> 0 <= o2 < n ->
  MoveRange_order start end_ to o1 = MoveRange_order start end_ to o2 ->
  o1 = o2.
Proof.
  intros Hs He Ht Hte Hn Ho1 Ho2 Heq.
  destruct (MoveRange_order_spec start end_ to n o1) as [_ H1]; try assumption.
  destruct (MoveRange_order_spec start end_ to n o2) as [_ H2]; try assumption.
  rewrite Heq in H1. congruence.
Qed.

Lemma MoveRange_rewrite_Ok start end_ to q :
  0 <= q_length q <= Z.of_nat (length (order q)) ->
  for_range 0 (q_length q) (fun i =>
      o ← order_read i;
      if (end_ <=? o) && (o <? wrap (to + end_ - start)) then
        order_write i (wrap (o - wrap (end_ - start)))
      else if (o <? start) && (to <=? o) then
        order_write i (wrap (o + wrap (end_ - start)))
      else if (start <=? o) && (o <? end_) then
        order_write i (wrap (o + wrap (to - start)))
      else mret tt) q
  = Ok (tt, set_order
              (map_prefix (MoveRange_order start end_ to)
                 (Z.to_nat (q_length q)) (order q)) q).
Proof.
  intros Hlen. apply order_rewrite_Ok; [exact Hlen |].
  intros i q' o Hi Ho.
  rewrite (bind_Ok (order_read i) _ q' o q')
    by (apply read_Ok; assumption).
  unfold MoveRange_order.
  destruct ((end_ <=? o) && (o <? wrap (to + end_ - start)));
    [eapply order_write_Ok; eassumption |].
  destruct ((o <? start) && (to <=? o));
    [eapply order_write_Ok; eassumption |].
  destruct ((start <=? o) && (o <? end_));
    [eapply order_write_Ok; eassumption |].
  rewrite list_insert_id by exact Ho. rewrite set_order_id. reflexivity.
Qed.

(** The loop that copies the block into [tmp]. *)
Lemma tmp_read_Ok start m q :
  0 <= start -> start + Z.of_nat m <= Z.of_nat (length (items q)) ->
  for_up_acc m start
    (fun i tmp => it ← items_read i; mret (tmp ++ [it])) [] q
  = Ok (take m (drop (Z.to_nat start) (items q)), q).
Proof.
  intros Hs Hm.
  destruct (wp_for_up_acc (fun i (tmp : list queue_item) q' =>
      q' = q
      /\ tmp = take (Z.to_nat (i - start)) (drop (Z.to_nat start) (items q)))
    m start (fun i tmp => it ← items_read i; mret (tmp ++ [it])) [] q)
    as (tmp & q' & Hrun & -> & ->).
  - split; [reflexivity |]. rewrite Z.sub_diag. reflexivity.
  - intros i tmp q1 Hi [-> ->].
    destruct (lookup_lt_is_Some_2 (items q) (Z.to_nat i)) as [it Hit]; [lia |].
    apply wp_bind. eapply wp_read; [lia | exact Hit |].
    apply wp_ret. split; [reflexivity |].
    replace (Z.to_nat (i + 1 - start)) with (S (Z.to_nat (i - start))) by lia.
    erewrite take_S_r; [reflexivity |].
    rewrite lookup_drop. rewrite <- Hit. f_equal. lia.
  - rewrite Hrun. do 3 f_equal. lia.
Qed.

(** The first loop of [MoveRange]: the block of holes climbs. *)
Lemma wp_block_up n (P : Z -> Prop) q0 q start end_ b
    (Q : unit -> queue -> Prop) :
  moved n (fun p => start <= p < end_) P (fun p => p) q0 q ->
  n <= 2 ^ 31 -> 0 <= start <= end_ -> end_ <= b -> b <= n ->
  (forall q',
     moved n (fun p => b - (end_ - start) <= p < b) P
       (fun p => if decide (start <= p < b - (end_ - start))
                 then p + (end_ - start) else p) q0 q' ->
     Q tt q') ->
  wp (for_range end_ b
        (fun i => queue_move_song_to i (wrap (start + i - end_)))) Q q.
Proof.
  intros Hmv Hn Hse Heb Hb HQ.
  eapply wp_mono.
  - apply (wp_for_range (fun i q' =>
      moved n (fun p => i - (end_ - start) <= p < i) P
        (fun p => if decide (start <= p < i - (end_ - start))
                  then p + (end_ - start) else p) q0 q')).
    + lia.
    + eapply moved_ext; [exact Hmv | | |].
      * intros p _. simpl. lia.
      * intros p _. reflexivity.
      * intros p _ _. case_decide; [lia | reflexivity].
    + intros i q1 Hi Hmv1.
      rewrite wrap_small by (rewrite UINT_MOD_eq; lia).
      eapply wp_queue_move_song_to;
        [exact Hmv1 | lia | lia | cbv beta; lia | lia | cbv beta; lia |].
      intros q2 Hmv2.
      eapply moved_ext; [exact Hmv2 | | |].
      * intros p _. simpl. lia.
      * intros p _. reflexivity.
      * intros p Hp Hnh. simpl.
        repeat case_decide; try lia; try reflexivity;
          try (exfalso; apply Hnh; lia).
  - intros [] q' Hmv'. apply HQ, Hmv'.
Qed.

(** The second loop of [MoveRange]: the block of holes descends. *)
Lemma wp_block_down n (P : Z -> Prop) q0 q start end_ to
    (Q : unit -> queue -> Prop) :
  moved n (fun p => start <= p < end_) P (fun p => p) q0 q ->
  n <= 2 ^ 31 -> 0 <= to -> to <= start -> start <= end_ -> end_ <= n ->
  (forall q',
     moved n (fun p => to <= p < to + (end_ - start)) P
       (fun p => if decide (to + (end_ - start) <= p < end_)
                 then p - (end_ - start) else p) q0 q' ->
     Q tt q') ->
  wp (for_down (Z.to_nat (start - to)) (start - 1)
        (fun i => queue_move_song_to i (wrap (i + end_ - start)))) Q q.
Proof.
  intros Hmv Hn Ht Hts Hse He HQ.
  eapply wp_mono.
  - apply (wp_for_down (fun i q' =>
      moved n (fun p => i + 1 <= p < i + 1 + (end_ - start)) P
        (fun p => if decide (i + 1 + (end_ - start) <= p < end_)
                  then p - (end_ - start) else p)
        q0 q')).
    + eapply moved_ext; [exact Hmv | | |].
      * intros p _. simpl. lia.
      * intros p _. reflexivity.
      * intros p _ _. case_decide; [lia | reflexivity].
    + intros i q1 Hi Hmv1.
      rewrite wrap_small by (rewrite UINT_MOD_eq; lia).
      eapply wp_queue_move_song_to;
        [exact Hmv1 | lia | lia | cbv beta; lia | lia | cbv beta; lia |].
      intros q2 Hmv2.
      eapply moved_ext; [exact Hmv2 | | |].
      * intros p _. simpl. lia.
      * intros p _. reflexivity.
      * intros p Hp Hnh. simpl.
        repeat case_decide; try lia; try reflexivity;
          try (exfalso; apply Hnh; lia).
  - intros [] q' Hmv'. apply HQ.
    eapply moved_ext; [exact Hmv' | | |].
    + intros p _. simpl. lia.
    + intros p _. reflexivity.
    + intros p Hp Hnh. simpl. repeat case_decide; lia.
Qed.

(** The last loop of [MoveRange]: the block is copied back. *)
Lemma wp_copy_back n s0 q0 q start end_ to (tmp : list queue_item)
    (Q : unit -> queue -> Prop) :
  moved n (fun p => to <= p < to + (end_ - start))
    (fun p => start <= p < end_) s0 q0 q ->
  ids_distinct n q0 ->
  n <= 2 ^ 31 -> 0 <= start <= end_ -> end_ <= n ->
  0 <= to -> to + (end_ - start) <= n ->
  tmp = take (Z.to_nat (end_ - start)) (drop (Z.to_nat start) (items q0)) ->
  (forall q',
     moved n (fun _ => False) (fun _ => False)
       (fun p => if decide (to <= p < to + (end_ - start))
                 then start + (p - to) else s0 p) q0 q' ->
     Q tt q') ->
  wp (for_range start end_ (fun i =>
        it ← local_read tmp (wrap (i - start));
        idmap_write (i_id it) (to_int (wrap (to + i - start)));;
        items_write (wrap (to + i - start)) it;;
        q ← get;
        items_set_version (wrap (to + i - start)) (q_version q))) Q q.
Proof.
  intros Hmv Hdist Hn Hse He Ht Hte Htmp HQ.
  eapply wp_mono.
  - apply (wp_for_range (fun i q' =>
      moved n (fun p => to + (i - start) <= p < to + (end_ - start))
        (fun p => i <= p < end_)
        (fun p => if decide (to <= p < to + (i - start))
                  then start + (p - to) else s0 p) q0 q')).
    + lia.
    + eapply moved_ext; [exact Hmv | | |].
      * intros p _. simpl. lia.
      * intros p _. reflexivity.
      * intros p _ _. case_decide; [lia | reflexivity].
    + intros i q1 Hi Hmv1.
      pose proof (mv_len _ _ _ _ _ _ Hmv1) as Hlen.
      pose proof (mv_frame _ _ _ _ _ _ Hmv1)
        as (_ & _ & _ & _ & _ & _ & _ & _ & _ & Hli1 & Hld1).
      rewrite !wrap_small by (rewrite UINT_MOD_eq; lia).
      destruct (lookup_lt_is_Some_2 (items q0) (Z.to_nat i)) as [it Hit];
        [lia |].
      assert (Htl : tmp !! Z.to_nat (i - start) = Some it).
      { rewrite Htmp. rewrite lookup_take_lt by lia. rewrite lookup_drop.
        rewrite <- Hit. f_equal. lia. }
      apply wp_bind. unfold local_read.
      destruct (Z.ltb_spec (i - start) 0); [lia |]. rewrite Htl.
      apply wp_ret.
      destruct (mv_pend _ _ _ _ _ _ Hmv1 i it ltac:(lia)
                  ltac:(cbv beta; lia) Hit)
        as [Hid (w & Hw & Hw1)].
      assert (Hwlt := lookup_lt_Some _ _ _ Hw).
      apply wp_bind, wp_write; [lia |].
      apply wp_bind, wp_write; [simpl; lia |].
      apply wp_bind, wp_get.
      eapply (wp_items_set_version _ _ it); [lia | |].
      { simpl. apply list_lookup_insert_eq. lia. }
      match goal with |- moved _ _ _ _ _ ?st => set (q3 := st) end.
      eapply moved_ext.
      * eapply (moved_put n _ _ _ q0 q1 q3 i (to + i - start) it
                  (q_version q1));
          [exact Hmv1 | exact Hdist | lia | cbv beta; lia | lia
          | cbv beta; lia | exact Hit | | |].
        -- unfold q3. repeat split; simpl; rewrite ?length_insert;
             reflexivity.
        -- unfold q3. simpl. apply list_insert_insert_eq.
        -- unfold q3. simpl. rewrite to_int_small by lia. reflexivity.
      * intros p _. simpl. lia.
      * intros p _. simpl. lia.
      * intros p Hp Hnh. simpl.
        repeat case_decide; try lia; try reflexivity.
  - intros [] q' Hmv'. apply HQ.
    eapply moved_ext; [exact Hmv' | | |].
    + intros p _. simpl. lia.
    + intros p _. simpl. lia.
    + intros p Hp Hnh. simpl. repeat case_decide; try lia; reflexivity.
Qed.

(** [MoveRange] with the rewriting of the order array made explicit. *)
Lemma wp_MoveRange_order start end_ to (Q : unit -> queue -> Prop) q :
  Inv q ->
  0 <= start <= end_ -> end_ <= q_length q ->
  0 <= to -> to + (end_ - start) <= q_length q ->
  (forall q',
     Inv q' ->
     max_length q' = max_length q /\ q_length q' = q_length q
     /\ q_random q' = q_random q /\ q_version q' = q_version q ->
     moved (q_length q) (fun _ => False) (fun _ => False)
       (MoveRange_source start end_ to) q (set_order (order q) q') ->
     (q_random q = true ->
      forall k, (k < Z.to_nat (q_length q))%nat ->
        prio_at q' k = prio_at q k) ->
     (q_random q = false -> order q' = order q) ->
     (q_random q = true ->
      order q'
      = map_prefix (MoveRange_order start end_ to) (Z.to_nat (q_length q))
          (order q)) ->
     Q tt q') ->
  wp (MoveRange start end_ to) Q q.
Proof.
  intros HI Hse He Ht Hte HQ.
  pose proof (Inv_bounds q HI) as (Hn & Hli & Hlo & Hmo & Hmi & Hmd).
  pose proof (inv_length _ HI) as Hlen.
  unfold MoveRange.
  apply wp_bind.
  eapply wp_eq; [apply tmp_read_Ok; lia |].
  set (tmp := take _ _).
  pose proof (Inv_moved_init q (fun p => start <= p < end_) HI) as Hmv0.
  assert (Hloops : forall (rest : M unit) (R : unit -> queue -> Prop),
    (forall q1,
       moved (q_length q) (fun p => to <= p < to + (end_ - start))
         (fun p => start <= p < end_)
         (fun p => if decide (start <= p < to) then p + (end_ - start)
                   else if decide (to + (end_ - start) <= p < end_)
                        then p - (end_ - start) else p)
         q q1 -> wp rest R q1) ->
    wp (for_range end_ (wrap (end_ + to - start))
          (fun i => queue_move_song_to i (wrap (start + i - end_)));;
        for_down (Z.to_nat (start - to)) (wrap (start - 1))
          (fun i => queue_move_song_to i (wrap (i + end_ - start)));;
        rest) R q).
  { intros rest R HR.
    rewrite (wrap_small (end_ + to - start)) by (rewrite UINT_MOD_eq; lia).
    destruct (Z.le_gt_cases start to) as [Hle | Hgt].
    - apply wp_bind.
      eapply (wp_block_up (q_length q) _ q q start end_);
        [exact Hmv0 | lia | lia | lia | lia |].
      intros q1 Hmv1.
      replace (Z.to_nat (start - to)) with O by lia. apply wp_bind, wp_ret.
      apply HR. eapply moved_ext; [exact Hmv1 | | |].
      + intros p _. simpl. lia.
      + intros p _. reflexivity.
      + intros p Hp Hnh. simpl. repeat case_decide; lia.
    - unfold for_range.
      replace (Z.to_nat (end_ + to - start - end_)) with O by lia.
      apply wp_bind, wp_ret. apply wp_bind.
      rewrite (wrap_small (start - 1)) by (rewrite UINT_MOD_eq; lia).
      eapply (wp_block_down (q_length q) _ q q start end_ to);
        [exact Hmv0 | lia | lia | lia | lia | lia |].
      intros q1 Hmv1.
      apply HR. eapply moved_ext; [exact Hmv1 | | |].
      + intros p _. reflexivity.
      + intros p _. reflexivity.
      + intros p Hp Hnh. simpl. repeat case_decide; lia. }
  apply Hloops. clear Hloops. intros q1 Hmv1.
  apply wp_bind.
  eapply (wp_copy_back (q_length q) _ q q1 start end_ to tmp);
    [exact Hmv1 | apply Inv_ids_distinct, HI | lia | lia | lia | lia | lia
    | reflexivity |].
  intros q3 Hmv3'.
  assert (Hmv3 : moved (q_length q) (fun _ => False) (fun _ => False)
                   (MoveRange_source start end_ to) q q3).
  { eapply moved_ext; [exact Hmv3' | | |].
    - intros p _. reflexivity.
    - intros p _. reflexivity.
    - intros p Hp _. unfold MoveRange_source. simpl.
      repeat case_decide; lia. }
  pose proof (mv_frame _ _ _ _ _ _ Hmv3)
    as (Hm3 & Hl3 & Hv3 & Ho3 & _ & _ & _ & Hr3 & _ & Hli3 & Hld3).
  apply wp_bind, wp_get.
  rewrite Hr3, Hl3. destruct (q_random q) eqn:Hrnd.
  - eapply wp_eq.
    + rewrite <- Hl3. apply MoveRange_rewrite_Ok. rewrite Hl3, Ho3. lia.
    + rewrite Hl3, Ho3.
      set (q' := set_order _ q3).
      assert (Hperm' : perm_on (Z.to_nat (q_length q)) (order q')).
      { eapply (perm_on_map _ (order q) _ (MoveRange_order start end_ to)).
        - apply (inv_perm _ HI).
        - unfold q'. simpl. rewrite length_map_prefix. lia.
        - intros k o Hk Ho. unfold q'. simpl. rewrite lookup_map_prefix.
          case_decide; [| lia]. rewrite Ho. reflexivity.
        - intros o Ho. rewrite Z2Nat.id in * by lia.
          apply (MoveRange_order_spec start end_ to (q_length q)); lia.
        - intros o1 o2 Ha Hb. rewrite Z2Nat.id in * by lia.
          apply (MoveRange_order_inj start end_ to (q_length q)); lia. }
      apply HQ.
      * eapply (Inv_rebuild q q3 q'); [exact HI | exact Hmv3 | | exact Hperm'].
        apply frame_order_set_order. rewrite length_map_prefix, Ho3.
        reflexivity.
      * unfold q'. simpl. auto.
      * unfold q'. rewrite set_order_set_order. rewrite <- Ho3.
        rewrite set_order_id. exact Hmv3.
      * intros _ k Hk.
        apply (prio_at_moved q q3 q' (MoveRange_source start end_ to)
                 (MoveRange_order start end_ to));
          [exact Hmv3 | apply (inv_perm _ HI) | reflexivity | exact Hk | |].
        -- intros o Ho. unfold q'. simpl. rewrite lookup_map_prefix.
           case_decide; [| lia]. rewrite Ho. reflexivity.
        -- intros o Ho.
           apply (MoveRange_order_spec start end_ to (q_length q)); lia.
      * intros Hc. discriminate Hc.
      * intros _. reflexivity.
  - apply wp_ret. apply HQ.
    + eapply (Inv_rebuild q q3 q3);
        [exact HI | exact Hmv3 | apply frame_order_refl |].
      rewrite Ho3. apply (inv_perm _ HI).
    + auto.
    + rewrite <- Ho3. rewrite set_order_id. exact Hmv3.
    + intros Hc. discriminate Hc.
    + intros _. exact Ho3.
    + intros Hc. discriminate Hc.
Qed.

Lemma wp_MoveRange start end_ to (Q : unit -> queue -> Prop) q :
  Inv q ->
  0 <= start <= end_ -> end_ <= q_length q ->
  0 <= to -> to + (end_ - start) <= q_length q ->
  (forall q',
     Inv q' ->
     max_length q' = max_length q /\ q_length q' = q_length q
     /\ q_random q' = q_random q /\ q_version q' = q_version q ->
     moved (q_length q) (fun _ => False) (fun _ => False)
       (MoveRange_source start end_ to) q (set_order (order q) q') ->
     (q_random q = true ->
      forall k, (k < Z.to_nat (q_length q))%nat ->
        prio_at q' k = prio_at q k) ->
     (q_random q = false -> order q' = order q) ->
     Q tt q') ->
  wp (MoveRange start end_ to) Q q.
Proof.
  intros HI Hse He Ht Hte HQ. apply wp_MoveRange_order; try assumption.
  intros q' HI' Hfr Hmv Hpr Hor _. apply HQ; assumption.
Qed.

(** ** The scenario of the five-item queue *)

Lemma Inv_ABCDE rep sing csm rnd rng ord :
  Permutation ord [0; 1; 2; 3; 4] ->
  Inv (set_order ord (queue_ABCDE_value rep sing csm rnd rng)).
Proof.
  intros HP. pose proof (Permutation_length HP) as Hl. simpl in Hl.
  split; simpl; change (Z.to_nat 5) with 5%nat.
  - split; [lia | reflexivity].
  - lia.
  - reflexivity.
  - exact Hl.
  - reflexivity.
  - apply Permutation_perm_on; [lia |].
    rewrite take_ge by lia. exact HP.
  - intros p it Hp Hit. simpl in Hp, Hit.
    assert (Hc : p = 0 \/ p = 1 \/ p = 2 \/ p = 3 \/ p = 4) by lia.
    destruct Hc as [-> | [-> | [-> | [-> | ->]]]];
      inversion Hit; subst; simpl; (split; [lia | reflexivity]).
  - vm_compute. lia.
Qed.

(** C4: on every queue that satisfies the invariants and holds the five
    songs [A, B, C, D, E], whatever the mode flags and the order array,
    [MoveRange 1 3 3] returns and leaves the songs in the sequence
    [A, D, E, B, C]: the result of removing the block and inserting it at
    index 3 of the remaining sequence, 3 being the largest destination
    allowed, [length - (end - start)].  The IdMap binds the identifier of
    B to position 3 and that of C to position 4, and the identifier of
    every item to its position; A, outside the source and destination
    ranges, keeps its position. *)
Theorem MoveRange_scenario (q : queue) :
  Inv q ->
  songs_of q = [65; 66; 67; 68; 69] ->
  exists q',
    MoveRange 1 3 3 q = Ok (tt, q')
    /\ songs_of q' = [65; 68; 69; 66; 67]
    /\ songs_of q' = move_range_spec 1 3 3 (songs_of q)
    /\ (forall itB itC,
          items q !! 1%nat = Some itB -> items q !! 2%nat = Some itC ->
          id_to_position q' !! Z.to_nat (i_id itB) = Some 3
          /\ id_to_position q' !! Z.to_nat (i_id itC) = Some 4)
    /\ (forall itA, items q !! 0%nat = Some itA ->
          exists itA', items q' !! 0%nat = Some itA' /\ same_item itA itA'
                       /\ id_to_position q' !! Z.to_nat (i_id itA) = Some 0)
    /\ (forall p, (p < 5)%nat -> idmap_of_position q' p = Some (Z.of_nat p))
    /\ q_length q' = 5
    /\ 3 = q_length q - (3 - 1).
Proof.
  intros HI Hsongs.
  pose proof (Inv_bounds q HI) as (_ & Hli & _).
  pose proof (inv_length _ HI) as Hlen.
  assert (Hl5 : q_length q = 5).
  { apply (f_equal length) in Hsongs. unfold songs_of in Hsongs.
    rewrite length_fmap, length_take in Hsongs. simpl in Hsongs. lia. }
  destruct (wp_MoveRange 1 3 3
    (fun _ q' =>
       q_length q' = q_length q
       /\ moved (q_length q) (fun _ => False) (fun _ => False)
            (MoveRange_source 1 3 3) q (set_order (order q) q')) q HI)
    as ([] & q' & Hrun & Hl' & Hmv); try lia.
  { intros q' _ (_ & Hl' & _) Hmv _ _. split; assumption. }
  rewrite Hl5 in Hmv.
  (* the item found at each position *)
  assert (Hat : forall p, 0 <= p < 5 ->
    exists it it0,
      items q' !! Z.to_nat p = Some it
      /\ items q !! Z.to_nat (MoveRange_source 1 3 3 p) = Some it0
      /\ same_item it0 it
      /\ id_to_position q' !! Z.to_nat (i_id it0) = Some p).
  { intros p Hp.
    destruct (mv_item _ _ _ _ _ _ Hmv p Hp ltac:(tauto))
      as (it & it0 & Hit & Hit0 & Hsame).
    destruct (mv_idmap _ _ _ _ _ _ Hmv p it Hp ltac:(tauto) Hit) as [_ Hid].
    exists it, it0. simpl in Hit, Hid.
    destruct Hsame as (Hs1 & Hs2 & Hs3). rewrite <- Hs2 in Hid.
    repeat split; assumption. }
  assert (Hsong : forall k s, songs_of q !! k = Some s ->
    (k < 5)%nat -> exists it, items q !! k = Some it /\ i_song it = s).
  { intros k s Hk Hk5. unfold songs_of in Hk.
    rewrite list_lookup_fmap, lookup_take_lt in Hk by lia.
    destruct (items q !! k) as [it |]; [| discriminate].
    exists it. split; [reflexivity |]. simpl in Hk. congruence. }
  destruct (Hat 0 ltac:(lia)) as (a0 & b0 & Ha0 & Hb0 & Hs0 & Hi0).
  destruct (Hat 1 ltac:(lia)) as (a1 & b1 & Ha1 & Hb1 & Hs1 & Hi1).
  destruct (Hat 2 ltac:(lia)) as (a2 & b2 & Ha2 & Hb2 & Hs2 & Hi2).
  destruct (Hat 3 ltac:(lia)) as (a3 & b3 & Ha3 & Hb3 & Hs3 & Hi3).
  destruct (Hat 4 ltac:(lia)) as (a4 & b4 & Ha4 & Hb4 & Hs4 & Hi4).
  change (Z.to_nat (MoveRange_source 1 3 3 0)) with 0%nat in Hb0.
  change (Z.to_nat (MoveRange_source 1 3 3 1)) with 3%nat in Hb1.
  change (Z.to_nat (MoveRange_source 1 3 3 2)) with 4%nat in Hb2.
  change (Z.to_nat (MoveRange_source 1 3 3 3)) with 1%nat in Hb3.
  change (Z.to_nat (MoveRange_source 1 3 3 4)) with 2%nat in Hb4.
  change (Z.to_nat 0) with 0%nat in Ha0.
  change (Z.to_nat 1) with 1%nat in Ha1.
  change (Z.to_nat 2) with 2%nat in Ha2.
  change (Z.to_nat 3) with 3%nat in Ha3.
  change (Z.to_nat 4) with 4%nat in Ha4.
  destruct (Hsong 0%nat 65) as (c0 & Hc0 & Hd0);
    [rewrite Hsongs; reflexivity | lia |].
  destruct (Hsong 1%nat 66) as (c1 & Hc1 & Hd1);
    [rewrite Hsongs; reflexivity | lia |].
  destruct (Hsong 2%nat 67) as (c2 & Hc2 & Hd2);
    [rewrite Hsongs; reflexivity | lia |].
  destruct (Hsong 3%nat 68) as (c3 & Hc3 & Hd3);
    [rewrite Hsongs; reflexivity | lia |].
  destruct (Hsong 4%nat 69) as (c4 & Hc4 & Hd4);
    [rewrite Hsongs; reflexivity | lia |].
  assert (b0 = c0) by congruence. assert (b1 = c3) by congruence.
  assert (b2 = c4) by congruence. assert (b3 = c1) by congruence.
  assert (b4 = c2) by congruence. subst b0 b1 b2 b3 b4.
  assert (Hres : songs_of q' = [65; 68; 69; 66; 67]).
  { unfold songs_of. rewrite Hl', Hl5.
    assert (Hl : (5 <= length (items q'))%nat)
      by (apply lookup_lt_Some in Ha4; lia).
    apply list_eq. intros k.
    destruct (decide (k < 5)%nat) as [Hk | Hk].
    - rewrite list_lookup_fmap, lookup_take_lt by lia.
      destruct Hs0 as (? & _), Hs1 as (? & _), Hs2 as (? & _),
        Hs3 as (? & _), Hs4 as (? & _).
      destruct k as [| [| [| [| [| k]]]]]; [.. | lia];
        [rewrite Ha0 | rewrite Ha1 | rewrite Ha2 | rewrite Ha3 | rewrite Ha4];
        simpl; f_equal; congruence.
    - rewrite !lookup_ge_None_2; [reflexivity | simpl; lia |].
      rewrite length_fmap, length_take. lia. }
  exists q'. split; [exact Hrun |]. split; [exact Hres |].
  split; [rewrite Hres, Hsongs; reflexivity |].
  split.
  { intros itB itC HB HC.
    assert (itB = c1) by congruence. assert (itC = c2) by congruence.
    subst. split; assumption. }
  split.
  { intros itA HA. assert (itA = c0) by congruence. subst.
    exists a0. repeat split; try assumption; apply Hs0. }
  split.
  { intros p Hp. unfold idmap_of_position.
    destruct Hs0 as (_ & Hx0 & _), Hs1 as (_ & Hx1 & _),
      Hs2 as (_ & Hx2 & _), Hs3 as (_ & Hx3 & _), Hs4 as (_ & Hx4 & _).
    destruct p as [| [| [| [| [| p]]]]]; [.. | lia];
      [rewrite Ha0; simpl; rewrite <- Hx0
      | rewrite Ha1; simpl; rewrite <- Hx1
      | rewrite Ha2; simpl; rewrite <- Hx2
      | rewrite Ha3; simpl; rewrite <- Hx3
      | rewrite Ha4; simpl; rewrite <- Hx4]; assumption. }
  split; lia.
Qed.

Lemma MoveRange_scenario_witness :
  let q := set_order [4; 2; 0; 1; 3]
             (queue_ABCDE_value true false false true (fun _ => 0)) in
  exists q',
    MoveRange 1 3 3 q = Ok (tt, q')
    /\ songs_of q' = [65; 68; 69; 66; 67]
    /\ id_to_position q' !! 1%nat = Some 3
    /\ id_to_position q' !! 2%nat = Some 4
    /\ id_to_position q' !! 0%nat = Some 0.
Proof.
  intros q.
  destruct (MoveRange_scenario q) as (q' & Hrun & Hs & _ & HBC & HA & _).
  - apply Inv_ABCDE.
    apply (bool_decide_unpack _). vm_compute. reflexivity.
  - reflexivity.
  - destruct (HBC (mk_item 66 1 1 0) (mk_item 67 2 1 0) eq_refl eq_refl)
      as [HB HC].
    destruct (HA (mk_item 65 0 1 0) eq_refl) as (_ & _ & _ & HA0).
    exists q'. repeat split; assumption.
Defined.

(** ** DeletePosition *)

Lemma Delete_rewrite_Ok position q :
  0 <= q_length q <= Z.of_nat (length (order q)) ->
  for_range 0 (q_length q) (fun i =>
      o ← order_read i;
      if position <? o then order_write i (wrap (o - 1)) else mret tt) q
  = Ok (tt, set_order
              (map_prefix (fun o => if position <? o then wrap (o - 1) else o)
                 (Z.to_nat (q_length q)) (order q)) q).
Proof.
  intros Hlen. apply order_rewrite_Ok; [exact Hlen |].
  intros i q' o Hi Ho.
  rewrite (bind_Ok (order_read i) _ q' o q')
    by (apply read_Ok; assumption).
  destruct (position <? o); [eapply order_write_Ok; eassumption |].
  rewrite list_insert_id by exact Ho. rewrite set_order_id. reflexivity.
Qed.

(** [DeletePosition] with what it does to the items and to the order
    array. *)
Lemma wp_DeletePosition_effect position (Q : unit -> queue -> Prop) q :
  Inv q ->
  0 <= position < q_length q ->
  (forall q',
     Inv q' ->
     max_length q' = max_length q /\ q_length q' = q_length q - 1
     /\ q_random q' = q_random q /\ q_version q' = q_version q ->
     (prio_sorted q -> prio_sorted q') ->
     (exists o,
        0 <= o < q_length q /\ order q !! Z.to_nat o = Some position
        /\ (forall p, 0 <= p < q_length q - 1 ->
              exists it it0,
                items q' !! Z.to_nat p = Some it
                /\ items q
                     !! Z.to_nat (if decide (position <= p) then p + 1 else p)
                   = Some it0
                /\ same_item it0 it)
        /\ (forall k, (k < Z.to_nat (q_length q - 1))%nat ->
              exists v,
                order q !! (if decide (Z.to_nat o <= k)%nat then S k else k)
                = Some v
                /\ order q' !! k
                   = Some (if decide (position < v) then v - 1 else v)
                /\ v <> position /\ 0 <= v < q_length q)) ->
     Q tt q') ->
  wp (DeletePosition position) Q q.
Proof.
  intros HI Hpos HQ.
  pose proof (Inv_bounds q HI) as (Hn & Hli & Hlo & Hmo & Hmi & Hmd).
  pose proof (inv_length _ HI) as Hlen.
  pose proof (inv_perm _ HI) as Hperm.
  pose proof Hperm as (Hpl & Hrange & Hinj).
  destruct (lookup_lt_is_Some_2 (items q) (Z.to_nat position)) as [it Hit];
    [lia |].
  destruct (inv_ids _ HI position it Hpos Hit) as [Hid Hslot].
  assert (Hslotlt := lookup_lt_Some _ _ _ Hslot).
  unfold DeletePosition.
  apply wp_bind, wp_get.
  apply wp_bind, wp_assert; [apply Z.ltb_lt; lia |].
  apply wp_bind. unfold PositionToId.
  apply wp_bind, wp_get.
  apply wp_bind, wp_assert; [apply Z.ltb_lt; lia |].
  apply wp_bind. eapply wp_read; [lia | exact Hit |]. apply wp_ret.
  apply wp_bind.
  apply wp_PositionToOrder; [exact Hperm | exact Hpos | rewrite UINT_MOD_eq; lia |].
  intros o Ho Hoo.
  apply wp_bind, wp_modify.
  rewrite wrap_small by (rewrite UINT_MOD_eq; lia).
  apply wp_bind, wp_write; [simpl; lia |].
  apply wp_bind, wp_get.
  match goal with |- wp _ _ ?st => set (q0 := st) end.
  change (q_length q0) with (q_length q - 1).
  (* the items *)
  assert (Hmv0 : moved (q_length q) (fun p => p = position) (fun _ => False)
                   (fun p => p) q0 q0).
  { apply moved_init; [unfold q0; simpl; lia | | tauto | tauto].
    intros p x Hp Hne Hx. unfold q0 in Hx. simpl in Hx.
    destruct (inv_ids _ HI p x Hp Hx) as [Hidx Hsx].
    split; [exact Hidx |]. unfold q0. simpl.
    rewrite list_lookup_insert_ne; [exact Hsx |].
    intros Hc. apply Hne.
    assert (Hxi : i_id x = i_id it) by lia.
    symmetry.
    apply (idmap_consistent_inj q position p it x (inv_ids _ HI));
      [exact Hpos | exact Hp | exact Hit | exact Hx | congruence]. }
  apply wp_bind.
  eapply (wp_shift_up (q_length q) _ _ q0 q0 position (q_length q - 1));
    [exact Hmv0 | lia | lia | lia |].
  intros q1 Hmv1.
  pose proof (mv_frame _ _ _ _ _ _ Hmv1)
    as (Hm1 & Hl1 & Hv1 & Ho1 & _ & _ & _ & Hr1 & _ & Hli1 & Hld1).
  change (max_length q0) with (max_length q) in Hm1.
  change (q_length q0) with (q_length q - 1) in Hl1.
  change (q_version q0) with (q_version q) in Hv1.
  change (order q0) with (order q) in Ho1.
  change (q_random q0) with (q_random q) in Hr1.
  change (length (items q0)) with (length (items q)) in Hli1.
  (* the order array *)
  apply wp_bind.
  eapply wp_eq.
  { apply order_shift_left_Ok; rewrite ?Ho1; rewrite ?UINT_MOD_eq; lia. }
  rewrite Ho1.
  set (q2 := set_order _ q1).
  eapply wp_eq.
  { rewrite <- Hl1. apply (Delete_rewrite_Ok position q2). unfold q2. simpl.
    rewrite length_reindex, Hl1. lia. }
  set (F := fun o => if position <? o then wrap (o - 1) else o).
  set (q' := set_order _ q2).
  assert (Hlq' : q_length q' = q_length q - 1) by exact Hl1.
  (* the entries of the new order array *)
  assert (Hentry : forall k, (k < Z.to_nat (q_length q - 1))%nat ->
    exists v, order q !! (if decide (Z.to_nat o <= k)%nat then S k else k)
              = Some v
      /\ order q' !! k = Some (F v)
      /\ 0 <= v < q_length q /\ v <> position
      /\ 0 <= F v < q_length q - 1
      /\ F v = (if decide (position < v) then v - 1 else v)).
  { intros k Hk.
    set (k' := if decide (Z.to_nat o <= k)%nat then S k else k).
    assert (Hk' : (k' < Z.to_nat (q_length q))%nat)
      by (unfold k'; case_decide; lia).
    destruct (lookup_lt_is_Some_2 (order q) k') as [v Hv]; [lia |].
    pose proof (Hrange k' v Hk' Hv) as Hvr.
    assert (Hvp : v <> position).
    { intros ->. assert (k' = Z.to_nat o)
        by (apply (Hinj k' (Z.to_nat o) position); try assumption; lia).
      unfold k' in *. case_decide; lia. }
    exists v. split; [exact Hv |]. split.
    - unfold q', q2. simpl. rewrite Hl1. rewrite lookup_map_prefix.
      rewrite decide_True by lia.
      rewrite lookup_reindex.
      + unfold shift_left_index.
        replace (if decide (Z.to_nat o <= k < Z.to_nat (q_length q - 1))%nat
                 then S k else k) with k'
          by (unfold k'; repeat case_decide; lia).
        rewrite Hv. reflexivity.
      + lia.
      + unfold shift_left_index.
        destruct (decide (Z.to_nat o <= k < Z.to_nat (q_length q - 1))%nat);
          lia.
    - assert (HF : F v = if decide (position < v) then v - 1 else v).
      { unfold F. destruct (Z.ltb_spec position v); case_decide; try lia.
        apply wrap_small. rewrite UINT_MOD_eq. lia. }
      split; [lia |]. split; [exact Hvp |]. split; [| exact HF].
      rewrite HF. case_decide; lia. }
  apply HQ.
  - split.
    + unfold q', q2. simpl. rewrite Hm1. apply (inv_size _ HI).
    + rewrite Hlq'. unfold q', q2. simpl. rewrite Hm1. lia.
    + unfold q', q2. simpl. rewrite Hli1, Hm1. apply (inv_items _ HI).
    + unfold q', q2. simpl. rewrite length_map_prefix, length_reindex, Hm1.
      apply (inv_order _ HI).
    + unfold q', q2. simpl. rewrite Hld1, Hm1. unfold q0. simpl.
      rewrite length_insert. apply (inv_idmap _ HI).
    + rewrite Hlq'. split; [| split].
      * unfold q', q2. simpl. rewrite length_map_prefix, length_reindex. lia.
      * intros k x Hk Hx.
        destruct (Hentry k Hk) as (v & _ & Hv' & _ & _ & HFr & _).
        rewrite Hv' in Hx. inversion Hx; subst x. lia.
      * intros k1 k2 x Hk1 Hk2 Hx1 Hx2.
        destruct (Hentry k1 Hk1) as (v1 & Ha1 & Ha1' & Hb1 & Hc1 & _ & HF1).
        destruct (Hentry k2 Hk2) as (v2 & Ha2 & Ha2' & Hb2 & Hc2 & _ & HF2).
        rewrite Ha1' in Hx1. rewrite Ha2' in Hx2.
        assert (Hvv : v1 = v2).
        { assert (HFF : F v1 = F v2) by congruence.
          rewrite HF1, HF2 in HFF. repeat case_decide; lia. }
        subst v2.
        assert (Hkk : (if decide (Z.to_nat o <= k1)%nat then S k1 else k1)
                      = (if decide (Z.to_nat o <= k2)%nat then S k2 else k2)).
        { apply (Hinj _ _ v1); [| | exact Ha1 | exact Ha2].
          - destruct (decide (Z.to_nat o <= k1)%nat); lia.
          - destruct (decide (Z.to_nat o <= k2)%nat); lia. }
        clear - Hkk.
        destruct (decide (Z.to_nat o <= k1)%nat),
          (decide (Z.to_nat o <= k2)%nat); lia.
    + intros p x Hp Hx. rewrite Hlq' in Hp.
      apply (mv_idmap _ _ _ _ _ _ Hmv1 p x); [lia | cbv beta; lia | exact Hx].
    + rewrite Hlq'. unfold q', q2. simpl.
      rewrite (mv_used _ _ _ _ _ _ Hmv1). unfold q0. simpl.
      pose proof (used_slots_release _ _ _ Hslot ltac:(lia)).
      pose proof (inv_used _ HI). lia.
  - unfold q', q2. simpl. auto.
  - intros Hs i j Hij Hj. rewrite Hlq' in Hj.
    assert (Hpr : forall k, (k < Z.to_nat (q_length q - 1))%nat ->
      prio_at q' k
      = prio_at q (if decide (Z.to_nat o <= k)%nat then S k else k)).
    { intros k Hk.
      destruct (Hentry k Hk) as (v & Hv & Hv' & Hvr & Hvp & HFr & HF).
      destruct (mv_item _ _ _ _ _ _ Hmv1 (F v) ltac:(lia) ltac:(cbv beta; lia))
        as (x & x0 & Hx & Hx0 & (_ & _ & Hpr)).
      replace (if decide (position <= F v < q_length q - 1)
               then F v + 1 else F v) with v in Hx0
        by (rewrite HF; repeat case_decide; lia).
      rewrite (prio_at_lookup q' k (F v) x Hv' Hx).
      rewrite (prio_at_lookup q _ v x0 Hv Hx0). symmetry. exact Hpr. }
    rewrite !Hpr by lia.
    apply Hs; repeat case_decide; lia.
  - exists o. split; [exact Ho |]. split; [exact Hoo |]. split.
    + intros p Hp.
      destruct (mv_item _ _ _ _ _ _ Hmv1 p ltac:(lia) ltac:(cbv beta; lia))
        as (x & x0 & Hx & Hx0 & Hsame).
      exists x, x0. split; [exact Hx |]. split; [| exact Hsame].
      replace (if decide (position <= p) then p + 1 else p)
        with (if decide (position <= p < q_length q - 1) then p + 1 else p)
        by (repeat case_decide; lia).
      exact Hx0.
    + intros k Hk.
      destruct (Hentry k Hk) as (v & Hv & Hv' & Hvr & Hvp & _ & HF).
      exists v. split; [exact Hv |]. rewrite <- HF.
      split; [exact Hv' |]. split; [exact Hvp | exact Hvr].
Qed.

Lemma wp_DeletePosition position (Q : unit -> queue -> Prop) q :
  Inv q ->
  0 <= position < q_length q ->
  (forall q',
     Inv q' ->
     max_length q' = max_length q /\ q_length q' = q_length q - 1
     /\ q_random q' = q_random q /\ q_version q' = q_version q ->
     (prio_sorted q -> prio_sorted q') ->
     Q tt q') ->
  wp (DeletePosition position) Q q.
Proof.
  intros HI Hpos HQ. apply wp_DeletePosition_effect; try assumption.
  intros q' HI' Hfr Hpr _. apply HQ; assumption.
Qed.

(** ** Append *)

Lemma Inv_idmap_size q :
  Inv q ->
  idmap_size q = max_length q * QUEUE_HASH_MULT
  /\ idmap_size q = Z.of_nat (length (id_to_position q)).
Proof.
  intros HI. destruct (inv_size _ HI) as [Hm0 Hm].
  unfold idmap_size. rewrite wrap_small by (unfold QUEUE_HASH_MULT in *; lia).
  split; [reflexivity |]. rewrite (inv_idmap _ HI).
  unfold QUEUE_HASH_MULT in *. lia.
Qed.

(** Below capacity, the IdMap has a free slot. *)
Lemma Inv_has_free_slot q :
  Inv q -> q_length q < max_length q -> has_free_slot q.
Proof.
  intros HI Hlt. destruct (Inv_idmap_size q HI) as [Hsz Hsz'].
  pose proof (inv_used _ HI) as Hu. pose proof (inv_length _ HI) as Hl.
  destruct (used_slots_free (id_to_position q)) as [j Hj].
  - unfold QUEUE_HASH_MULT in *. lia.
  - exists (Z.of_nat j). rewrite Nat2Z.id. split; [| exact Hj].
    apply lookup_lt_Some in Hj. lia.
Qed.

(** [Append] with its whole effect: the identifier is the one that
    [queue_generate_id] hands out, and the queue is the old one with the
    new item, order entry and IdMap binding written at the end. *)
Lemma wp_Append_effect song priority cur (Q : Z -> queue -> Prop) q :
  Inv q ->
  q_length q < max_length q ->
  (forall id q',
     Inv q' ->
     max_length q' = max_length q /\ q_length q' = q_length q + 1
     /\ q_random q' = q_random q /\ q_version q' = q_version q ->
     0 <= id < idmap_size q ->
     (forall k, (k < Z.to_nat (q_length q))%nat ->
        prio_at q' k = prio_at q k) ->
     prio_at q' (Z.to_nat (q_length q)) = priority ->
     queue_generate_id cur q = Ok (id, q)
     /\ id_to_position q !! Z.to_nat id = Some (-1)
     /\ q' = set_length (q_length q + 1)
               (set_id_to_position
                  (<[Z.to_nat id := q_length q]> (id_to_position q))
                  (set_order
                     (<[Z.to_nat (q_length q) := q_length q]> (order q))
                     (set_items
                        (<[Z.to_nat (q_length q) :=
                             mk_item song id (q_version q) priority]>
                           (items q)) q))) ->
     Q id q') ->
  wp (Append song priority cur) Q q.
Proof.
  intros HI Hlt HQ.
  pose proof (Inv_bounds q HI) as (Hn & Hli & Hlo & Hmo & Hmi & Hmd).
  pose proof (inv_length _ HI) as Hlen.
  pose proof (inv_perm _ HI) as (Hpl & Hrange & Hinj).
  destruct (Inv_idmap_size q HI) as [Hsz Hsz'].
  destruct (queue_generate_id_Ok q cur ltac:(lia)
              (Inv_has_free_slot q HI Hlt)) as (id & Hgen & Hidr & Hfree).
  unfold Append.
  apply wp_bind. eapply wp_eq; [exact Hgen |].
  apply wp_bind. unfold IsFull. apply wp_bind, wp_get. apply wp_ret.
  destruct (Z.leb_spec (max_length q) (q_length q)) as [? | _]; [lia |].
  apply wp_bind, wp_assert; [reflexivity |].
  apply wp_bind, wp_get.
  assert (Hitl : Z.of_nat (length (items q)) = max_length q)
    by (rewrite (inv_items _ HI); lia).
  assert (Horl : Z.of_nat (length (order q)) = max_length q)
    by (rewrite (inv_order _ HI); lia).
  apply wp_bind, wp_write; [lia |].
  apply wp_bind, wp_write; [simpl; lia |].
  apply wp_bind, wp_write; [simpl; lia |].
  apply wp_bind, wp_modify. apply wp_ret.
  rewrite to_int_small by lia.
  rewrite wrap_small by (rewrite UINT_MOD_eq; lia).
  match goal with |- Q _ ?st => set (q' := st) end.
  assert (Hit' : forall p, 0 <= p < q_length q ->
    items q' !! Z.to_nat p = items q !! Z.to_nat p).
  { intros p Hp. unfold q'. simpl. apply list_lookup_insert_ne. lia. }
  assert (Hor' : forall k, (k < Z.to_nat (q_length q))%nat ->
    order q' !! k = order q !! k).
  { intros k Hk. unfold q'. simpl. apply list_lookup_insert_ne. lia. }
  assert (Hlast : order q' !! Z.to_nat (q_length q) = Some (q_length q)).
  { unfold q'. simpl. apply list_lookup_insert_eq. lia. }
  assert (Hnew : items q' !! Z.to_nat (q_length q)
                 = Some (mk_item song id (q_version q) priority)).
  { unfold q'. simpl. apply list_lookup_insert_eq. lia. }
  apply HQ.
  - split.
    + exact (inv_size _ HI).
    + unfold q'. simpl. lia.
    + unfold q'. simpl. rewrite length_insert. exact (inv_items _ HI).
    + unfold q'. simpl. rewrite length_insert. exact (inv_order _ HI).
    + unfold q'. simpl. rewrite length_insert. exact (inv_idmap _ HI).
    + change (q_length q') with (q_length q + 1). split; [| split].
      * unfold q'. simpl. rewrite length_insert. lia.
      * intros k x Hk Hx.
        destruct (decide (k = Z.to_nat (q_length q))) as [-> | Hne].
        -- rewrite Hlast in Hx. inversion Hx. lia.
        -- rewrite Hor' in Hx by lia.
           pose proof (Hrange k x ltac:(lia) Hx). lia.
      * intros k1 k2 x Hk1 Hk2 Hx1 Hx2.
        destruct (decide (k1 = Z.to_nat (q_length q))) as [-> | Hne1];
          destruct (decide (k2 = Z.to_nat (q_length q))) as [-> | Hne2];
          try reflexivity.
        -- rewrite Hlast in Hx1. inversion Hx1; subst x.
           rewrite Hor' in Hx2 by lia.
           pose proof (Hrange k2 _ ltac:(lia) Hx2). lia.
        -- rewrite Hlast in Hx2. inversion Hx2; subst x.
           rewrite Hor' in Hx1 by lia.
           pose proof (Hrange k1 _ ltac:(lia) Hx1). lia.
        -- rewrite Hor' in Hx1, Hx2 by lia.
           apply (Hinj k1 k2 x); try assumption; lia.
    + intros p x Hp Hx. change (q_length q') with (q_length q + 1) in Hp.
      destruct (decide (p = q_length q)) as [-> | Hne].
      * rewrite Hnew in Hx. inversion Hx; subst x. simpl.
        split; [lia |]. unfold q'. simpl.
        apply list_lookup_insert_eq. lia.
      * rewrite Hit' in Hx by lia.
        destruct (inv_ids _ HI p x ltac:(lia) Hx) as [Hidx Hsx].
        split; [exact Hidx |]. unfold q'. simpl.
        rewrite list_lookup_insert_ne; [exact Hsx |].
        intros Hc. assert (Hxi : i_id x = id) by lia.
        rewrite Hxi in Hsx. rewrite Hfree in Hsx. inversion Hsx. lia.
    + unfold q'. simpl.
      rewrite used_slots_bind by (assumption || lia).
      pose proof (inv_used _ HI). lia.
  - unfold q'. simpl. auto.
  - lia.
  - intros k Hk. unfold prio_at.
    destruct (lookup_lt_is_Some_2 (order q) k) as [o Ho]; [lia |].
    pose proof (Hrange k o Hk Ho) as Hor.
    rewrite (list_lookup_total_correct (order q') k o)
      by (rewrite Hor' by lia; exact Ho).
    rewrite (list_lookup_total_correct (order q) k o Ho).
    rewrite !list_lookup_total_alt, Hit' by lia. reflexivity.
  - unfold prio_at.
    rewrite (list_lookup_total_correct _ _ _ Hlast).
    rewrite (list_lookup_total_correct _ _ _ Hnew). reflexivity.
  - split; [exact Hgen |]. split; [exact Hfree | reflexivity].
Qed.

Lemma wp_Append song priority cur (Q : Z -> queue -> Prop) q :
  Inv q ->
  q_length q < max_length q ->
  (forall id q',
     Inv q' ->
     max_length q' = max_length q /\ q_length q' = q_length q + 1
     /\ q_random q' = q_random q /\ q_version q' = q_version q ->
     0 <= id < idmap_size q ->
     (forall k, (k < Z.to_nat (q_length q))%nat ->
        prio_at q' k = prio_at q k) ->
     prio_at q' (Z.to_nat (q_length q)) = priority ->
     Q id q') ->
  wp (Append song priority cur) Q q.
Proof.
  intros HI Hlt HQ. apply wp_Append_effect; [exact HI | exact Hlt |].
  intros id q' HI' Hfr Hid Hpr Hnew _. apply HQ; assumption.
Qed.

(** ** Clear *)

Lemma wp_Clear (Q : unit -> queue -> Prop) q :
  Inv q ->
  (forall q',
     Inv q' ->
     max_length q' = max_length q /\ q_length q' = 0
     /\ q_random q' = q_random q /\ q_version q' = q_version q ->
     Q tt q') ->
  wp Clear Q q.
Proof.
  intros HI HQ.
  pose proof (Inv_bounds q HI) as (Hn & Hli & Hlo & Hmo & Hmi & Hmd).
  pose proof (inv_length _ HI) as Hlen.
  unfold Clear. apply wp_bind, wp_get. apply wp_bind.
  eapply wp_mono.
  - apply (wp_for_range (fun i q' =>
      q' = set_id_to_position (id_to_position q') q
      /\ length (id_to_position q') = length (id_to_position q)
      /\ (forall p x, i <= p < q_length q ->
            items q !! Z.to_nat p = Some x ->
            id_to_position q' !! Z.to_nat (i_id x) = Some p)
      /\ (used_slots (id_to_position q') + Z.to_nat i
          <= Z.to_nat (q_length q))%nat)).
    + lia.
    + split; [symmetry; apply set_id_to_position_id |].
      split; [reflexivity |]. split.
      * intros p x Hp Hx. apply (inv_ids _ HI p x); [lia | exact Hx].
      * pose proof (inv_used _ HI). lia.
    + intros i q1 Hi (Hq1 & Hl1 & Hids & Hused).
      destruct (lookup_lt_is_Some_2 (items q) (Z.to_nat i)) as [x Hx];
        [lia |].
      pose proof (Hids i x ltac:(lia) Hx) as Hslot.
      destruct (inv_ids _ HI i x ltac:(lia) Hx) as [Hidx _].
      assert (Hslotlt := lookup_lt_Some _ _ _ Hslot).
      apply wp_bind. eapply wp_read; [lia | |].
      { rewrite Hq1. simpl. exact Hx. }
      apply wp_write; [lia |].
      split; [rewrite Hq1; reflexivity |].
      split; [simpl; rewrite length_insert; exact Hl1 |]. split.
      * intros p y Hp Hy. simpl.
        rewrite list_lookup_insert_ne; [apply Hids; [lia | exact Hy] |].
        intros Hc. pose proof (Hids p y ltac:(lia) Hy) as Hsy.
        destruct (inv_ids _ HI p y ltac:(lia) Hy) as [Hidy _].
        assert (Hyx : i_id y = i_id x) by lia.
        rewrite Hyx in Hsy. rewrite Hslot in Hsy. inversion Hsy. lia.
      * simpl.
        pose proof (used_slots_release _ _ _ Hslot ltac:(lia)). lia.
  - intros [] q1 (Hq1 & Hl1 & Hids & Hused).
    apply wp_modify. apply HQ.
    + rewrite Hq1. split; simpl.
      * exact (inv_size _ HI).
      * lia.
      * exact (inv_items _ HI).
      * exact (inv_order _ HI).
      * rewrite Hl1. exact (inv_idmap _ HI).
      * split; [lia |]. split; intros; lia.
      * intros p x Hp. simpl in Hp. lia.
      * lia.
    + rewrite Hq1. simpl. auto.
Qed.

(** ** SwapPositions and ShuffleRange *)

(** [SwapPositions] with what it does to the items. *)
Lemma wp_SwapPositions_items p1 p2 (Q : unit -> queue -> Prop) q :
  Inv q ->
  0 <= p1 < q_length q -> 0 <= p2 < q_length q ->
  (forall q',
     Inv q' ->
     frame_items q q' ->
     (forall p x, 0 <= p < q_length q ->
        items q' !! Z.to_nat p = Some x ->
        exists y, same_item y x
          /\ items q !! Z.to_nat (if decide (p = p1) then p2
                                  else if decide (p = p2) then p1 else p)
             = Some y) ->
     Q tt q') ->
  wp (SwapPositions p1 p2) Q q.
Proof.
  intros HI Hp1 Hp2 HQ.
  pose proof (Inv_bounds q HI) as (Hn & Hli & Hlo & Hmo & Hmi & Hmd).
  pose proof (inv_ids _ HI) as Hc.
  destruct (lookup_lt_is_Some_2 (items q) (Z.to_nat p1)) as [it1 H1]; [lia |].
  destruct (lookup_lt_is_Some_2 (items q) (Z.to_nat p2)) as [it2 H2]; [lia |].
  destruct (Hc p1 it1 Hp1 H1) as [Hid1 Hm1].
  destruct (Hc p2 it2 Hp2 H2) as [Hid2 Hm2].
  assert (Hl1 := lookup_lt_Some _ _ _ H1).
  assert (Hl2 := lookup_lt_Some _ _ _ H2).
  assert (Hk1 := lookup_lt_Some _ _ _ Hm1).
  assert (Hk2 := lookup_lt_Some _ _ _ Hm2).
  assert (Hne : p1 <> p2 -> Z.to_nat (i_id it1) <> Z.to_nat (i_id it2)).
  { intros Hne Heq. apply Hne.
    apply (idmap_consistent_inj q p1 p2 it1 it2); try assumption. lia. }
  assert (Hsame : p1 = p2 -> it1 = it2) by (intros ->; congruence).
  unfold SwapPositions.
  apply wp_bind. eapply wp_read; [lia | exact H1 |].
  apply wp_bind. eapply wp_read; [lia | exact H2 |].
  apply wp_bind, wp_write; [lia |].
  apply wp_bind, wp_write; [simpl; rewrite length_insert; lia |].
  apply wp_bind, wp_get.
  apply wp_bind.
  eapply (wp_items_set_version p1 _
            (if decide (p1 = p2) then it1 else it2)); [lia | |].
  { simpl. destruct (decide (p1 = p2)) as [-> | Hd].
    - apply list_lookup_insert_eq. rewrite length_insert. lia.
    - rewrite list_lookup_insert_ne by lia.
      apply list_lookup_insert_eq. lia. }
  apply wp_bind.
  eapply (wp_items_set_version p2 _
            (if decide (p1 = p2)
             then item_set_version (q_version q) it1 else it1)); [lia | |].
  { simpl. destruct (decide (p1 = p2)) as [-> | Hd].
    - apply list_lookup_insert_eq. rewrite !length_insert. lia.
    - rewrite list_lookup_insert_ne by lia.
      apply list_lookup_insert_eq. rewrite length_insert. lia. }
  apply wp_bind, wp_write; [simpl; lia |].
  apply wp_write; [simpl; rewrite length_insert; lia |].
  rewrite !to_int_small by lia.
  match goal with |- Q _ ?st => set (q' := st) end.
  assert (Hfr : frame_items q q').
  { unfold q'. repeat split; simpl; rewrite ?length_insert; reflexivity. }
  (* the item found at a position after the swap *)
  assert (Hitem' : forall p x, 0 <= p < q_length q ->
    items q' !! Z.to_nat p = Some x ->
    exists y, same_item y x
      /\ items q !! Z.to_nat (if decide (p = p1) then p2
                              else if decide (p = p2) then p1 else p)
         = Some y).
  { intros p x Hp. unfold q'. simpl.
    destruct (decide (p = p2)) as [-> | Hd2].
    - rewrite list_lookup_insert_eq by (rewrite !length_insert; lia).
      intros Hx. inversion Hx; subst x. exists it1.
      destruct (decide (p1 = p2)) as [-> | Hd];
        (split; [repeat split |]); repeat case_decide; try lia; assumption.
    - rewrite list_lookup_insert_ne by lia.
      destruct (decide (p = p1)) as [-> | Hd1].
      + rewrite list_lookup_insert_eq by (rewrite !length_insert; lia).
        intros Hx. inversion Hx; subst x. exists it2.
        destruct (decide (p1 = p2)); [lia |]. split; [repeat split | exact H2].
      + rewrite !list_lookup_insert_ne by lia.
        intros Hx. exists x. split; [repeat split | exact Hx]. }
  assert (Hmap' : forall p y, 0 <= p < q_length q ->
    items q !! Z.to_nat p = Some y ->
    id_to_position q' !! Z.to_nat (i_id y)
    = Some (if decide (p = p1) then p2
            else if decide (p = p2) then p1 else p)).
  { intros p y Hp Hy. unfold q'. simpl.
    destruct (Hc p y Hp Hy) as [Hidy Hmy].
    destruct (decide (p = p2)) as [-> | Hd2].
    - assert (y = it2) by congruence. subst y.
      rewrite list_lookup_insert_eq by (rewrite length_insert; lia).
      repeat case_decide; f_equal; lia.
    - destruct (decide (p = p1)) as [-> | Hd1].
      + assert (y = it1) by congruence. subst y.
        rewrite list_lookup_insert_ne
          by (intros Heq; apply (Hne Hd2); congruence).
        rewrite list_lookup_insert_eq by lia. reflexivity.
      + assert (Hy1 : Z.to_nat (i_id y) <> Z.to_nat (i_id it1)).
        { intros Heq. apply Hd1.
          apply (idmap_consistent_inj q p p1 y it1); try assumption. lia. }
        assert (Hy2 : Z.to_nat (i_id y) <> Z.to_nat (i_id it2)).
        { intros Heq. apply Hd2.
          apply (idmap_consistent_inj q p p2 y it2); try assumption. lia. }
        rewrite !list_lookup_insert_ne by congruence. exact Hmy. }
  apply HQ; [| exact Hfr | exact Hitem'].
  destruct Hfr as (Hf1 & Hf2 & Hf3 & Hf4 & _ & _ & _ & _ & _ & Hf5 & Hf6).
  split.
  - rewrite Hf1. exact (inv_size _ HI).
  - rewrite Hf1, Hf2. exact (inv_length _ HI).
  - rewrite Hf5, Hf1. exact (inv_items _ HI).
  - rewrite Hf4, Hf1. exact (inv_order _ HI).
  - rewrite Hf6, Hf1. exact (inv_idmap _ HI).
  - rewrite Hf2, Hf4. exact (inv_perm _ HI).
  - intros p x Hp Hx. rewrite Hf2 in Hp.
    destruct (Hitem' p x Hp Hx) as (y & (_ & Hyx & _) & Hy).
    pose proof (eq_sym Hyx) as Hxy.
    assert (Hsrc : 0 <= (if decide (p = p1) then p2
                         else if decide (p = p2) then p1 else p)
                   < q_length q) by (repeat case_decide; lia).
    destruct (Hc _ y Hsrc Hy) as [Hidy _].
    split; [lia |]. rewrite Hxy.
    rewrite (Hmap' _ y Hsrc Hy). f_equal. repeat case_decide; lia.
  - rewrite Hf2. unfold q'. simpl.
    rewrite (used_slots_insert _ _ (if decide (p1 = p2) then p2 else p2)).
    + rewrite (used_slots_insert _ _ p1 p2 Hm1) by lia.
      exact (inv_used _ HI).
    + destruct (decide (Z.to_nat (i_id it2) = Z.to_nat (i_id it1)))
        as [He | He].
      * rewrite He. rewrite list_lookup_insert_eq by lia.
        destruct (decide (p1 = p2)); reflexivity.
      * rewrite list_lookup_insert_ne by congruence.
        destruct (decide (p1 = p2)); exact Hm2.
    + destruct (decide (p1 = p2)); lia.
    + lia.
Qed.

Lemma wp_SwapPositions p1 p2 (Q : unit -> queue -> Prop) q :
  Inv q ->
  0 <= p1 < q_length q -> 0 <= p2 < q_length q ->
  (forall q',
     Inv q' ->
     frame_items q q' ->
     Q tt q') ->
  wp (SwapPositions p1 p2) Q q.
Proof.
  intros HI Hp1 Hp2 HQ. apply wp_SwapPositions_items; try assumption.
  intros q' HI' Hfr _. apply HQ; assumption.
Qed.

Lemma wp_ShuffleRange start end_ (Q : unit -> queue -> Prop) q :
  Inv q ->
  0 <= start <= end_ -> end_ <= q_length q ->
  (forall q',
     Inv q' ->
     max_length q' = max_length q /\ q_length q' = q_length q
     /\ q_random q' = q_random q /\ q_version q' = q_version q ->
     Q tt q') ->
  wp (ShuffleRange start end_) Q q.
Proof.
  intros HI Hs He HQ.
  pose proof (Inv_bounds q HI) as (Hn & _).
  unfold ShuffleRange.
  apply wp_bind, wp_get.
  apply wp_bind, wp_assert; [apply Z.leb_le; lia |].
  apply wp_bind, wp_assert; [apply Z.leb_le; lia |].
  eapply wp_mono.
  - apply (wp_for_range (fun _ q' =>
      Inv q'
      /\ max_length q' = max_length q /\ q_length q' = q_length q
      /\ q_random q' = q_random q /\ q_version q' = q_version q)).
    + lia.
    + auto.
    + intros i q1 Hi (HI1 & Hm1 & Hl1 & Hr1 & Hv1).
      rewrite wrap_small by (rewrite UINT_MOD_eq; lia).
      apply wp_bind, wp_uniform; [lia |]. intros r Hr.
      set (q2 := set_rand _ q1).
      assert (HI2 : Inv q2).
      { destruct HI1. split; assumption. }
      apply (wp_SwapPositions i r _ q2 HI2);
        [change (q_length q2) with (q_length q1); lia
        | change (q_length q2) with (q_length q1); lia |].
      intros q3 HI3 (Hf1 & Hf2 & Hf3 & _ & _ & _ & _ & Hf4 & _).
      split; [exact HI3 |]. unfold q2 in *. simpl in *.
      repeat split; congruence.
  - intros [] q' (HI' & Hfr). apply HQ; assumption.
Qed.

(** ** The invariants are kept by every operation *)

Ltac unbool :=
  repeat match goal with
  | H : _ && _ = true |- _ => apply andb_true_iff in H as [? ?]
  | H : (_ <=? _) = true |- _ => apply Z.leb_le in H
  | H : (_ <? _) = true |- _ => apply Z.ltb_lt in H
  | H : (_ =? _) = true |- _ => apply Z.eqb_eq in H
  end.

Lemma Inv_frame_order q q' :
  Inv q -> frame_order q q' ->
  perm_on (Z.to_nat (q_length q)) (order q') -> Inv q'.
Proof.
  intros [Hsz Hlen Hitems Horder Hidmap Hp0 Hids Hused]
    (Hm & Hl & Hv & Hi & Hd & _ & _ & _ & Hr & Hlo) Hperm.
  split; rewrite ?Hm, ?Hl, ?Hi, ?Hd, ?Hlo; try assumption.
  intros p it Hp Hit. rewrite Hl in Hp. rewrite Hi in Hit. rewrite Hd.
  apply Hids; assumption.
Qed.

Lemma Inv_reprioritized q q' : Inv q -> reprioritized q q' -> Inv q'.
Proof.
  intros HI Hrep.
  pose proof (reprioritized_perm_on _ _ Hrep (inv_perm _ HI)) as Hperm.
  pose proof (reprioritized_lengths _ _ Hrep) as [Hli Hlo].
  destruct Hrep as (Hm & Hl & Hv & Hd & _ & _ & _ & Hr & Hids & Hp).
  destruct HI as [Hsz Hlen Hitems Horder Hidmap Hp0 Hc Hused].
  split; rewrite ?Hm, ?Hl, ?Hli, ?Hlo, ?Hd; try assumption.
  - rewrite <- Hl. exact Hperm.
  - intros p it Hp' Hit. rewrite Hl in Hp'. rewrite Hd.
    assert (Hx : (i_id <$> items q) !! Z.to_nat p = Some (i_id it))
      by (rewrite <- Hids, list_lookup_fmap, Hit; reflexivity).
    rewrite list_lookup_fmap in Hx.
    destruct (items q !! Z.to_nat p) as [y |] eqn:Hy; [| discriminate].
    simpl in Hx. inversion Hx as [Hxy].
    apply Hc; assumption.
Qed.

Lemma Inv_set_modes rep sing cons rnd q :
  Inv q -> Inv (set_modes rep sing cons rnd q).
Proof. intros []. split; assumption. Qed.

Lemma Inv_queue_new max rng :
  0 <= max -> max * QUEUE_HASH_MULT < UINT_MOD -> Inv (queue_new max rng).
Proof.
  intros Hm Hsz. split; simpl.
  - split; assumption.
  - lia.
  - apply length_replicate.
  - apply length_replicate.
  - rewrite wrap_small by (unfold QUEUE_HASH_MULT in *; lia).
    rewrite length_app, !length_replicate. unfold QUEUE_HASH_MULT. lia.
  - split; [lia |]. split; intros; lia.
  - intros p it Hp. simpl in Hp. lia.
  - rewrite wrap_small by (unfold QUEUE_HASH_MULT in *; lia).
    rewrite Z.sub_diag. simpl. rewrite app_nil_r.
    unfold used_slots. 
    induction (Z.to_nat (max * QUEUE_HASH_MULT)) as [| n IH]; simpl;
      [lia |].
    rewrite filter_cons. destruct (decide (-1 <> -1)); [lia | exact IH].
Qed.

Lemma Inv_step o cur q :
  Inv q -> pre_op q o = true ->
  wp (exec_op o cur) (fun _ q' => Inv q') q.
Proof.
  intros HI Hpre.
  pose proof (Inv_bounds q HI) as (Hn & Hli & Hlo & Hmo & Hmi & Hmd).
  pose proof (inv_perm _ HI) as Hperm.
  pose proof (inv_length _ HI) as Hlen.
  destruct o; simpl in Hpre; unfold is_position, is_range, is_priority,
    is_after_order in Hpre; unbool; simpl exec_op.
  - apply wp_Append; [exact HI | lia |]. intros; assumption.
  - apply wp_bind, wp_DeletePosition; [exact HI | lia |].
    intros q' HI' _ _. apply wp_ret. exact HI'.
  - apply wp_bind, wp_Clear; [exact HI |].
    intros q' HI' _. apply wp_ret. exact HI'.
  - apply wp_bind, wp_SwapPositions; [exact HI | lia | lia |].
    intros q' HI' _. apply wp_ret. exact HI'.
  - apply wp_bind, wp_MovePostion; [exact HI | lia | lia |].
    intros q' HI' _ _ _ _. apply wp_ret. exact HI'.
  - apply wp_bind, wp_MoveRange; [exact HI | lia | lia | lia | lia |].
    intros q' HI' _ _ _ _. apply wp_ret. exact HI'.
  - apply wp_bind, wp_SetPriority; [exact Hperm | lia | lia | lia | lia |].
    intros r q' Hpost. apply wp_ret.
    apply SetPriority_post_reprioritized in Hpost as [Hrep _].
    eapply Inv_reprioritized; eassumption.
  - apply wp_bind, wp_SetPriorityRange;
      [exact Hperm | lia | lia | lia | lia | lia |].
    intros r q' Hrep _. apply wp_ret.
    eapply Inv_reprioritized; eassumption.
  - apply wp_bind, wp_ShuffleRange; [exact HI | lia | lia |].
    intros q' HI' _. apply wp_ret. exact HI'.
  - apply wp_bind. unfold ShuffleOrder. apply wp_bind, wp_get.
    apply wp_ShuffleOrderRangeWithPriority;
      [exact Hpre | lia | lia | exact Hperm | lia | rewrite UINT_MOD_eq; lia |].
    intros q' Hfr Hpm _. apply wp_ret.
    eapply Inv_frame_order; [exact HI | exact Hfr |].
    eapply perm_on_permutes; [exact Hperm | exact Hpm | lia].
  - apply wp_bind. apply wp_ShuffleOrderRangeWithPriority;
      [assumption | lia | lia | exact Hperm | lia
      | rewrite UINT_MOD_eq; lia |].
    intros q' Hfr Hpm _. apply wp_ret.
    eapply Inv_frame_order; [exact HI | exact Hfr |].
    eapply perm_on_permutes; [exact Hperm | exact Hpm | lia].
  - apply wp_bind. apply wp_ShuffleOrderFirst;
      [lia | lia | rewrite UINT_MOD_eq; lia |].
    intros q' Hfr Hpm. apply wp_ret.
    eapply Inv_frame_order; [exact HI | exact Hfr |].
    eapply perm_on_permutes; [exact Hperm | exact Hpm | lia].
  - apply wp_bind. apply wp_ShuffleOrderLast;
      [lia | lia | rewrite UINT_MOD_eq; lia |].
    intros q' Hfr Hpm. apply wp_ret.
    eapply Inv_frame_order; [exact HI | exact Hfr |].
    eapply perm_on_permutes; [exact Hperm | exact Hpm | lia].
  - apply wp_bind, wp_modify. apply wp_ret. apply Inv_set_modes, HI.
Qed.

Lemma pre_ok_take ops : forall k cur q,
  pre_ok ops cur q -> pre_ok (take k ops) cur q.
Proof.
  induction ops as [| o ops IH]; intros k cur q Hpre.
  - rewrite take_nil. exact I.
  - destruct k as [| k]; [exact I |].
    simpl. destruct Hpre as [Hp Hrest]. split; [exact Hp |].
    destruct (exec_op o cur q) as [[cur' q'] | | |]; try exact I.
    apply IH, Hrest.
Qed.

Lemma Inv_run ops : forall cur q,
  Inv q -> pre_ok ops cur q ->
  exists cur' q', run ops cur q = Ok (cur', q') /\ Inv q'.
Proof.
  induction ops as [| o ops IH]; intros cur q HI Hpre.
  - exists cur, q. split; [reflexivity | exact HI].
  - destruct Hpre as [Hp Hrest].
    destruct (Inv_step o cur q HI Hp) as (cur1 & q1 & Hrun & HI1).
    rewrite Hrun in Hrest.
    destruct (IH cur1 q1 HI1 Hrest) as (cur2 & q2 & Hrun2 & HI2).
    exists cur2, q2. split; [| exact HI2].
    simpl. rewrite (bind_Ok _ _ _ _ _ Hrun). exact Hrun2.
Qed.

(** C1: starting from a freshly constructed queue, with any setting of
    the mode flags, every sequence of public mutating operations, each
    invoked with its precondition satisfied, runs to completion, and
    after each operation of the sequence the first [length] entries of
    the order array are a permutation of the positions
    [0 .. length - 1]. *)
Theorem order_is_permutation (max : Z) (rng : nat -> Z)
    (rep sing csm rnd : bool) (ops : list op) (k : nat) :
  0 <= max -> max * QUEUE_HASH_MULT < UINT_MOD ->
  pre_ok ops G_MAXUINT (set_modes rep sing csm rnd (queue_new max rng)) ->
  exists cur' q',
    run (take k ops) G_MAXUINT
      (set_modes rep sing csm rnd (queue_new max rng)) = Ok (cur', q')
    /\ order_perm q'.
Proof.
  intros Hm Hsz Hpre.
  destruct (Inv_run (take k ops) G_MAXUINT
              (set_modes rep sing csm rnd (queue_new max rng)))
    as (cur' & q' & Hrun & HI).
  - apply Inv_set_modes, Inv_queue_new; assumption.
  - apply pre_ok_take, Hpre.
  - exists cur', q'. split; [exact Hrun |].
    apply perm_on_Permutation, (inv_perm _ HI).
Qed.

Lemma order_is_permutation_witness :
  let ops := [OpAppend 65 0; OpAppend 66 7; OpAppend 67 3;
              OpSetModes false false false true; OpShuffleOrder;
              OpMoveRange 0 1 2; OpSetPriority 1 9 (-1);
              OpDeletePosition 0; OpShuffleRange 0 2] in
  let q0 := set_modes false false false false
              (queue_new 4 (fun n => Z.of_nat n)) in
  0 <= 4 /\ 4 * QUEUE_HASH_MULT < UINT_MOD
  /\ pre_ok ops G_MAXUINT q0
  /\ exists cur' q', run (take 9 ops) G_MAXUINT q0 = Ok (cur', q')
                     /\ order_perm q'.
Proof.
  intros ops q0.
  assert (H1 : 0 <= 4) by lia.
  assert (H2 : 4 * QUEUE_HASH_MULT < UINT_MOD) by reflexivity.
  assert (H3 : pre_ok ops G_MAXUINT q0) by (vm_compute; tauto).
  split; [exact H1 |]. split; [exact H2 |]. split; [exact H3 |].
  exact (order_is_permutation 4 (fun n => Z.of_nat n)
           false false false false ops 9 H1 H2 H3).
Defined.

(** ** Priority groups *)

Lemma lookup_priorities_along_order q k :
  (k < Z.to_nat (q_length q))%nat -> (k < length (order q))%nat ->
  priorities_along_order q !! k = Some (prio_at q k).
Proof.
  intros Hk Hl. unfold priorities_along_order, prio_at.
  rewrite list_lookup_fmap, lookup_take_lt by lia.
  destruct (lookup_lt_is_Some_2 (order q) k Hl) as [o Ho].
  rewrite Ho. simpl. rewrite (list_lookup_total_correct _ _ _ Ho).
  reflexivity.
Qed.

Lemma prio_sorted_non_increasing q :
  q_length q <= Z.of_nat (length (order q)) ->
  prio_sorted q <-> non_increasing (priorities_along_order q).
Proof.
  intros Hlen.
  assert (Hll : length (priorities_along_order q) = Z.to_nat (q_length q)).
  { unfold priorities_along_order. rewrite length_fmap, length_take. lia. }
  split.
  - intros Hs i j x y Hij Hx Hy.
    assert (Hi := lookup_lt_Some _ _ _ Hx).
    assert (Hj := lookup_lt_Some _ _ _ Hy).
    rewrite lookup_priorities_along_order in Hx, Hy by lia.
    inversion Hx; inversion Hy; subst. apply Hs; lia.
  - intros Hn i j Hij Hj.
    apply (Hn i j); [exact Hij | |];
      apply lookup_priorities_along_order; lia.
Qed.

Lemma prio_sorted_eq q q' :
  q_length q' = q_length q ->
  (forall k, (k < Z.to_nat (q_length q))%nat -> prio_at q' k = prio_at q k) ->
  prio_sorted q -> prio_sorted q'.
Proof.
  intros Hl Heq Hs i j Hij Hj. rewrite Hl in Hj.
  rewrite !Heq by lia. apply Hs; lia.
Qed.

Lemma priority_order_step o cur q :
  Inv q -> q_random q = true ->
  pre_op q o = true -> keeps_priority_order q o = true ->
  prio_sorted q \/ sorts_by_priority q o = true ->
  wp (exec_op o cur) (fun _ q' => Inv q' /\ prio_sorted q') q.
Proof.
  intros HI Hrnd Hpre Hkeep Hsorted.
  pose proof (Inv_bounds q HI) as (Hn & Hli & Hlo & Hmo & Hmi & Hmd).
  pose proof (inv_perm _ HI) as Hperm.
  pose proof (inv_length _ HI) as Hlen.
  destruct o; simpl in Hpre, Hkeep, Hsorted;
    unfold is_position, is_range, is_priority, is_after_order in Hpre;
    try discriminate Hkeep;
    try (destruct Hsorted as [Hs | Hs]; [| discriminate Hs]);
    unbool; simpl exec_op.
  - (* Append *)
    apply wp_Append; [exact HI | lia |].
    intros id q' HI' (_ & Hl' & _) _ Hold Hnew. split; [exact HI' |].
    intros i j Hij Hj. rewrite Hl' in Hj.
    destruct (decide (j = Z.to_nat (q_length q))) as [-> | Hjn].
    + rewrite Hnew.
      destruct (decide (i = Z.to_nat (q_length q))) as [-> | Hin];
        [rewrite Hnew; lia |].
      rewrite Hold by lia.
      apply orb_true_iff in Hkeep as [Hk | Hk];
        [apply Z.eqb_eq in Hk; lia | apply Z.leb_le in Hk].
      pose proof (Hs i (Z.to_nat (q_length q - 1)) ltac:(lia) ltac:(lia)).
      lia.
    + rewrite !Hold by lia. apply Hs; lia.
  - (* DeletePosition *)
    apply wp_bind, wp_DeletePosition; [exact HI | lia |].
    intros q' HI' _ Hs'. apply wp_ret. split; [exact HI' | apply Hs', Hs].
  - (* Clear *)
    apply wp_bind, wp_Clear; [exact HI |].
    intros q' HI' (_ & Hl' & _). apply wp_ret. split; [exact HI' |].
    intros i j Hij Hj. rewrite Hl' in Hj. lia.
  - (* MovePostion *)
    apply wp_bind, wp_MovePostion; [exact HI | lia | lia |].
    intros q' HI' (_ & Hl' & _) _ Hpr _. apply wp_ret.
    split; [exact HI' |].
    eapply prio_sorted_eq; [exact Hl' | apply Hpr, Hrnd | exact Hs].
  - (* MoveRange *)
    apply wp_bind, wp_MoveRange; [exact HI | lia | lia | lia | lia |].
    intros q' HI' (_ & Hl' & _) _ Hpr _. apply wp_ret.
    split; [exact HI' |].
    eapply prio_sorted_eq; [exact Hl' | apply Hpr, Hrnd | exact Hs].
  - (* SetPriority *)
    apply wp_bind, wp_SetPriority; [exact Hperm | lia | lia | lia | lia |].
    intros r q' Hpost. apply wp_ret.
    apply SetPriority_post_reprioritized in Hpost as [Hrep Hs'].
    split; [eapply Inv_reprioritized; eassumption | auto].
  - (* SetPriorityRange *)
    apply wp_bind, wp_SetPriorityRange;
      [exact Hperm | lia | lia | lia | lia | lia |].
    intros r q' Hrep Hs'. apply wp_ret.
    split; [eapply Inv_reprioritized; eassumption | auto].
  - (* ShuffleOrder *)
    apply wp_bind. unfold ShuffleOrder. apply wp_bind, wp_get.
    apply wp_ShuffleOrderRangeWithPriority;
      [exact Hrnd | lia | lia | exact Hperm | lia | rewrite UINT_MOD_eq; lia |].
    intros q' Hfr Hpm Hs'. apply wp_ret. split.
    + eapply Inv_frame_order; [exact HI | exact Hfr |].
      eapply perm_on_permutes; [exact Hperm | exact Hpm | lia].
    + destruct Hfr as (_ & Hl' & _).
      intros i j Hij Hj. rewrite Hl' in Hj. apply Hs'; lia.
  - (* ShuffleOrderRangeWithPriority over the whole queue *)
    subst start end_.
    apply wp_bind. apply wp_ShuffleOrderRangeWithPriority;
      [exact Hrnd | lia | lia | exact Hperm | lia | rewrite UINT_MOD_eq; lia |].
    intros q' Hfr Hpm Hs'. apply wp_ret. split.
    + eapply Inv_frame_order; [exact HI | exact Hfr |].
      eapply perm_on_permutes; [exact Hperm | exact Hpm | lia].
    + destruct Hfr as (_ & Hl' & _).
      intros i j Hij Hj. rewrite Hl' in Hj. apply Hs'; lia.
  - (* the mode flags *)
    apply wp_bind, wp_modify. apply wp_ret.
    split; [apply Inv_set_modes, HI | exact Hs].
Qed.

(** C3 (as amended): on a queue in random mode that satisfies the
    invariants and whose priorities read along the order array are
    non-increasing, the operations DeletePosition, Clear, MovePostion,
    MoveRange, SetPriority and SetPriorityRange with [after_order = -1],
    and Append of an item whose priority does not exceed that of the last
    order entry, return and leave these priorities non-increasing;
    ShuffleOrder, and ShuffleOrderRangeWithPriority over the whole queue,
    make them non-increasing whatever they were. *)
Theorem priority_order_kept (o : op) (cur : Z) (q : queue) :
  Inv q -> q_random q = true ->
  pre_op q o = true -> keeps_priority_order q o = true ->
  non_increasing (priorities_along_order q) \/ sorts_by_priority q o = true ->
  exists cur' q',
    exec_op o cur q = Ok (cur', q')
    /\ non_increasing (priorities_along_order q').
Proof.
  intros HI Hrnd Hpre Hkeep Hs.
  pose proof (Inv_bounds q HI) as (_ & _ & Hlo & _).
  destruct (priority_order_step o cur q HI Hrnd Hpre Hkeep)
    as (cur' & q' & Hrun & HI' & Hs').
  - destruct Hs as [Hs | Hs]; [left | right; exact Hs].
    apply prio_sorted_non_increasing; assumption.
  - exists cur', q'. split; [exact Hrun |].
    pose proof (Inv_bounds q' HI') as (_ & _ & Hlo' & _).
    apply prio_sorted_non_increasing; assumption.
Qed.

Lemma Inv_ABC rep sing csm rnd rng :
  Inv (set_modes rep sing csm rnd (queue_ABC_value rng)).
Proof.
  split; simpl.
  - split; [lia | reflexivity].
  - lia.
  - reflexivity.
  - reflexivity.
  - reflexivity.
  - apply Permutation_perm_on; [simpl; lia | reflexivity].
  - apply (idmap_consistent_ABC rng).
  - vm_compute. lia.
Qed.

Lemma priority_order_kept_witness :
  let q := set_modes false false false true (queue_ABC_value (fun _ => 0)) in
  q_random q = true
  /\ non_increasing (priorities_along_order q)
  /\ exists cur' q',
       exec_op (OpSetPriority 2 10 (-1)) 2 q = Ok (cur', q')
       /\ non_increasing (priorities_along_order q').
Proof.
  intros q.
  assert (Hs : non_increasing (priorities_along_order q)).
  { intros i j x y Hij Hx Hy.
    destruct i as [| [| [| i]]], j as [| [| [| j]]];
      simpl in Hx, Hy; inversion Hx; inversion Hy; lia. }
  split; [reflexivity |]. split; [exact Hs |].
  apply (priority_order_kept (OpSetPriority 2 10 (-1)) 2 q).
  - apply Inv_ABC.
  - reflexivity.
  - reflexivity.
  - reflexivity.
  - left. exact Hs.
Defined.

(** C3, as stated, fails: in random mode, appending an item of priority
    10 to a queue that holds an item of priority 0 leaves the priorities
    [0, 10] along the order array; so does setting the priority of the
    song being played ([after_order] equal to its order). *)
Lemma priority_order_kept_counterexample :
  let q0 := set_modes false false false true (queue_new 3 (fun _ => 0)) in
  (exists q',
     exec (id ← Append 65 0 G_MAXUINT; Append 66 10 id) q0 = Some q'
     /\ q_random q' = true
     /\ priorities_along_order q' = [0; 10]
     /\ ~ non_increasing (priorities_along_order q'))
  /\ (exists q',
        exec (id ← Append 65 0 G_MAXUINT; id ← Append 66 0 id;
              SetPriority 1 10 1) q0 = Some q'
        /\ q_random q' = true
        /\ priorities_along_order q' = [0; 10]
        /\ ~ non_increasing (priorities_along_order q')).
Proof.
  assert (Hno : ~ non_increasing [0; 10]).
  { intros H. specialize (H 0%nat 1%nat 0 10 ltac:(lia) eq_refl eq_refl).
    lia. }
  split; eexists; (split; [vm_compute; reflexivity |]);
    (split; [reflexivity |]); (split; [reflexivity |]); exact Hno.
Qed.

(** * Further properties of the operations *)

(** ** The IdMap holds nothing but the live items *)

Lemma used_slots_count (js : list nat) : forall l : list Z,
  NoDup js ->
  (forall j, j ∈ js -> exists v : Z, l !! j = Some v /\ v <> -1) ->
  (length js <= used_slots l)%nat.
Proof.
  induction js as [| j js IH]; intros l Hnd Hall; simpl; [lia |].
  apply NoDup_cons in Hnd as [Hnin Hnd].
  destruct (Hall j) as (v & Hv & Hv1); [left |].
  pose proof (used_slots_release l j v Hv Hv1) as Hrel.
  assert (Hle : (length js <= used_slots (<[j := (-1)%Z]> l))%nat).
  { apply IH; [exact Hnd |]. intros j' Hj'.
    destruct (Hall j') as (w & Hw & Hw1); [right; exact Hj' |].
    exists w. split; [| exact Hw1].
    rewrite list_lookup_insert_ne; [exact Hw |].
    intros ->. contradiction. }
  lia.
Qed.

(** Under the invariants, a slot of the IdMap that is the identifier of
    no live item is free. *)
Lemma Inv_slot_free q j :
  Inv q ->
  (j < length (id_to_position q))%nat ->
  (forall p it, 0 <= p < q_length q ->
     items q !! Z.to_nat p = Some it -> Z.to_nat (i_id it) <> j) ->
  id_to_position q !! j = Some (-1).
Proof.
  intros HI Hj Hfresh.
  pose proof (Inv_bounds q HI) as (_ & Hli & _).
  pose proof (inv_length _ HI) as Hlen.
  destruct (lookup_lt_is_Some_2 (id_to_position q) j Hj) as [v Hv].
  destruct (decide (v = -1)) as [-> | Hv1]; [exact Hv |]. exfalso.
  set (n := Z.to_nat (q_length q)).
  set (ids := (fun p => Z.to_nat (i_id (items q !!! p))) <$> seq 0 n).
  assert (Hids : forall k x, ids !! k = Some x ->
    (k < n)%nat /\ exists it, items q !! k = Some it
                              /\ x = Z.to_nat (i_id it)).
  { intros k x Hk. unfold ids in Hk. rewrite list_lookup_fmap in Hk.
    destruct (seq 0 n !! k) as [p |] eqn:Hp; [| discriminate].
    apply lookup_seq in Hp as [-> Hp]. simpl in Hk. inversion Hk; subst x.
    split; [exact Hp |].
    destruct (lookup_lt_is_Some_2 (items q) k) as [it Hit]; [lia |].
    exists it. split; [exact Hit |].
    rewrite (list_lookup_total_correct _ _ _ Hit). reflexivity. }
  assert (Hcount : (length (j :: ids) <= used_slots (id_to_position q))%nat).
  { apply used_slots_count.
    - apply NoDup_cons. split.
      + intros Hin. apply list_elem_of_lookup in Hin as [k Hk].
        destruct (Hids k j Hk) as (Hkn & it & Hit & Heq).
        apply (Hfresh (Z.of_nat k) it); [lia | | lia].
        rewrite Nat2Z.id. exact Hit.
      + apply NoDup_alt. intros k1 k2 x H1 H2.
        destruct (Hids k1 x H1) as (Hk1 & it1 & Hit1 & Heq1).
        destruct (Hids k2 x H2) as (Hk2 & it2 & Hit2 & Heq2).
        destruct (inv_ids _ HI (Z.of_nat k1) it1) as [Hid1 _];
          [lia | rewrite Nat2Z.id; exact Hit1 |].
        destruct (inv_ids _ HI (Z.of_nat k2) it2) as [Hid2 _];
          [lia | rewrite Nat2Z.id; exact Hit2 |].
        apply Nat2Z.inj.
        apply (Inv_ids_distinct q HI (Z.of_nat k1) (Z.of_nat k2) it1 it2);
          rewrite ?Nat2Z.id; try assumption; lia.
    - intros j' Hj'. apply elem_of_cons in Hj' as [-> | Hin].
      + exists v. split; assumption.
      + apply list_elem_of_lookup in Hin as [k Hk].
        destruct (Hids k j' Hk) as (Hkn & it & Hit & ->).
        destruct (inv_ids _ HI (Z.of_nat k) it) as [_ Hs];
          [lia | rewrite Nat2Z.id; exact Hit |].
        exists (Z.of_nat k). split; [exact Hs | lia]. }
  pose proof (inv_used _ HI) as Hu.
  simpl in Hcount. unfold ids in Hcount.
  rewrite length_fmap, length_seq in Hcount. lia.
Qed.

(** ** The identifier handed out *)

Lemma queue_generate_id_loop_first q (d : nat) : forall fuel cur,
  idmap_size q <= Z.of_nat (length (id_to_position q)) ->
  idmap_size q < UINT_MOD ->
  (d < fuel)%nat ->
  0 < idmap_size q ->
  id_to_position q
    !! Z.to_nat ((next_slot (idmap_size q) cur + Z.of_nat d) mod idmap_size q)
    = Some (-1) ->
  (forall d', (d' < d)%nat ->
     id_to_position q
       !! Z.to_nat ((next_slot (idmap_size q) cur + Z.of_nat d')
                    mod idmap_size q)
     <> Some (-1)) ->
  queue_generate_id_loop fuel cur q
  = Ok ((next_slot (idmap_size q) cur + Z.of_nat d) mod idmap_size q, q).
Proof.
  induction d as [| d IH]; intros fuel cur Hsz Hlt Hfuel Hpos Hfree Hused;
    (destruct fuel as [| fuel]; [lia |]);
    pose proof (next_slot_range (idmap_size q) cur Hpos) as Hr;
    simpl queue_generate_id_loop;
    rewrite (bind_Ok get _ q q q eq_refl);
    fold (idmap_size q); fold (next_slot (idmap_size q) cur);
    (destruct (lookup_lt_is_Some_2 (id_to_position q)
               (Z.to_nat (next_slot (idmap_size q) cur))) as [v Hv];
     [lia |]);
    rewrite (bind_Ok (idmap_read _) _ q v q)
      by (apply read_Ok; [lia | exact Hv]).
  - rewrite Z.add_0_r, Z.mod_small in Hfree |- * by lia.
    rewrite Hfree in Hv. inversion Hv; subst v. reflexivity.
  - destruct (Z.eqb_spec v (-1)) as [-> | Hne].
    + exfalso. apply (Hused O); [lia |].
      rewrite Z.add_0_r, Z.mod_small by lia. exact Hv.
    + rewrite (IH fuel (next_slot (idmap_size q) cur)); try assumption;
        try lia.
      * rewrite next_slot_succ by lia. rewrite Zplus_mod_idemp_l.
        do 3 f_equal. lia.
      * rewrite next_slot_succ by lia. rewrite Zplus_mod_idemp_l.
        replace (next_slot (idmap_size q) cur + 1 + Z.of_nat d)
          with (next_slot (idmap_size q) cur + Z.of_nat (S d)) by lia.
        exact Hfree.
      * intros d' Hd'. rewrite next_slot_succ by lia.
        rewrite Zplus_mod_idemp_l.
        replace (next_slot (idmap_size q) cur + 1 + Z.of_nat d')
          with (next_slot (idmap_size q) cur + Z.of_nat (S d')) by lia.
        apply Hused. lia.
Qed.

(** The least number with a decidable property, below one that has it. *)
Lemma least_nat (P : nat -> Prop) (Hdec : forall k, {P k} + {~ P k}) d :
  P d ->
  exists d0, (d0 <= d)%nat /\ P d0 /\ forall d', (d' < d0)%nat -> ~ P d'.
Proof.
  intros Hd.
  assert (Hsplit : forall n,
    (exists d0, (d0 < n)%nat /\ P d0 /\ forall d', (d' < d0)%nat -> ~ P d')
    \/ (forall d', (d' < n)%nat -> ~ P d')).
  { induction n as [| n [IH | IH]].
    - right. intros d' Hlt. lia.
    - left. destruct IH as (d0 & Hlt & H0 & Hmin).
      exists d0. split; [lia |]. split; assumption.
    - destruct (Hdec n) as [Hn | Hn].
      + left. exists n. split; [lia |]. split; assumption.
      + right. intros d' Hlt.
        destruct (decide (d' = n)) as [-> | Hne]; [exact Hn |].
        apply IH. lia. }
  destruct (Hsplit (S d)) as [(d0 & Hlt & H0 & Hmin) | Hno].
  - exists d0. split; [lia |]. split; assumption.
  - exfalso. apply (Hno d); [lia | exact Hd].
Qed.

(** X1: on a queue of positive capacity that satisfies the invariants,
    [queue_generate_id] returns, leaves the queue as it is, and hands out
    the first free slot of the IdMap met when probing cyclically from the
    slot after the cursor: the identifier is in range, its slot is free,
    no live item carries it, and every slot probed before it is in use. *)
Theorem queue_generate_id_first_free q cur :
  Inv q -> 0 < max_length q ->
  exists d : nat,
    let n := max_length q * QUEUE_HASH_MULT in
    let id := (next_slot n cur + Z.of_nat d) mod n in
    queue_generate_id cur q = Ok (id, q)
    /\ 0 <= id < n
    /\ id_to_position q !! Z.to_nat id = Some (-1)
    /\ (forall p it, 0 <= p < q_length q ->
          items q !! Z.to_nat p = Some it -> i_id it <> id)
    /\ (forall d', (d' < d)%nat ->
          id_to_position q
            !! Z.to_nat ((next_slot n cur + Z.of_nat d') mod n)
          <> Some (-1)).
Proof.
  intros HI Hmax.
  destruct (Inv_idmap_size q HI) as [Hsz Hsz'].
  pose proof (Inv_bounds q HI) as (_ & _ & _ & _ & _ & Hmd).
  pose proof (inv_used _ HI) as Hu. pose proof (inv_length _ HI) as Hl.
  rewrite <- Hsz.
  assert (Hpos : 0 < idmap_size q)
    by (rewrite Hsz; unfold QUEUE_HASH_MULT; lia).
  pose proof (next_slot_range (idmap_size q) cur Hpos) as Hr.
  destruct (used_slots_free (id_to_position q)) as [j Hj].
  { unfold QUEUE_HASH_MULT in *. lia. }
  assert (Hjlt := lookup_lt_Some _ _ _ Hj).
  set (P := fun d : nat =>
    id_to_position q
      !! Z.to_nat ((next_slot (idmap_size q) cur + Z.of_nat d)
                   mod idmap_size q) = Some (-1)).
  set (dj := Z.to_nat ((Z.of_nat j - next_slot (idmap_size q) cur)
                       mod idmap_size q)).
  assert (Hdj : (dj < Z.to_nat (idmap_size q))%nat).
  { unfold dj.
    pose proof (Z.mod_pos_bound (Z.of_nat j - next_slot (idmap_size q) cur)
                  (idmap_size q) Hpos). lia. }
  destruct (least_nat P (fun k => decide (P k)) dj) as (d & Hle & Hd & Hmin).
  { unfold P, dj. rewrite Z2Nat.id by (apply Z.mod_pos_bound; lia).
    rewrite Zplus_mod_idemp_r.
    replace (next_slot (idmap_size q) cur
             + (Z.of_nat j - next_slot (idmap_size q) cur))
      with (Z.of_nat j) by lia.
    rewrite Z.mod_small by lia. rewrite Nat2Z.id. exact Hj. }
  exists d. cbv zeta.
  pose proof (Z.mod_pos_bound
                (next_slot (idmap_size q) cur + Z.of_nat d)
                (idmap_size q) Hpos) as Hidr.
  split.
  { unfold queue_generate_id. rewrite (bind_Ok get _ q q q eq_refl).
    fold (idmap_size q).
    apply queue_generate_id_loop_first; try lia; assumption. }
  split; [exact Hidr |]. split; [exact Hd |]. split; [| exact Hmin].
  intros p it Hp Hit Heq.
  destruct (inv_ids _ HI p it Hp Hit) as [_ Hs].
  rewrite Heq in Hs. unfold P in Hd. rewrite Hd in Hs. inversion Hs. lia.
Qed.

Lemma queue_generate_id_first_free_witness :
  let q := set_modes false false false false (queue_ABC_value (fun _ => 0)) in
  Inv q /\ 0 < max_length q
  /\ exists d : nat,
       let n := max_length q * QUEUE_HASH_MULT in
       let id := (next_slot n 2 + Z.of_nat d) mod n in
       queue_generate_id 2 q = Ok (id, q)
       /\ 0 <= id < n
       /\ id_to_position q !! Z.to_nat id = Some (-1)
       /\ (forall p it, 0 <= p < q_length q ->
             items q !! Z.to_nat p = Some it -> i_id it <> id)
       /\ (forall d', (d' < d)%nat ->
             id_to_position q
               !! Z.to_nat ((next_slot n 2 + Z.of_nat d') mod n)
             <> Some (-1)).
Proof.
  intros q. split; [apply Inv_ABC |]. split; [simpl; lia |].
  apply (queue_generate_id_first_free q 2); [apply Inv_ABC | simpl; lia].
Defined.

(** ** Construction *)

(** X2: a queue just constructed, of a capacity whose IdMap size fits an
    [unsigned], satisfies the invariants; it is empty, its version
    counter is 1, the four mode flags are off and every slot of the IdMap
    is free. *)
Theorem queue_new_fresh max rng :
  0 <= max -> max * QUEUE_HASH_MULT < UINT_MOD ->
  let q := queue_new max rng in
  Inv q /\ q_length q = 0 /\ songs_of q = [] /\ q_version q = 1
  /\ max_length q = max
  /\ q_repeat q = false /\ q_single q = false
  /\ q_consume q = false /\ q_random q = false
  /\ Z.of_nat (length (id_to_position q)) = max * QUEUE_HASH_MULT
  /\ forall j, (j < length (id_to_position q))%nat ->
       id_to_position q !! j = Some (-1).
Proof.
  intros Hm Hsz q. subst q.
  pose proof (Inv_queue_new max rng Hm Hsz) as HI.
  split; [exact HI |]. repeat (split; [reflexivity |]).
  split.
  - rewrite (inv_idmap _ HI). simpl. unfold QUEUE_HASH_MULT. lia.
  - intros j Hj. apply (Inv_slot_free _ j HI Hj).
    intros p it Hp. simpl in Hp. lia.
Qed.

Lemma queue_new_fresh_witness :
  let q := queue_new 3 (fun _ => 0) in
  Inv q /\ q_length q = 0 /\ songs_of q = [] /\ q_version q = 1
  /\ max_length q = 3
  /\ q_repeat q = false /\ q_single q = false
  /\ q_consume q = false /\ q_random q = false
  /\ Z.of_nat (length (id_to_position q)) = 3 * QUEUE_HASH_MULT
  /\ forall j, (j < length (id_to_position q))%nat ->
       id_to_position q !! j = Some (-1).
Proof.
  apply (queue_new_fresh 3 (fun _ => 0)); [lia | reflexivity].
Defined.

(** ** Clear *)

(** X3: [Clear] returns on every queue that satisfies the invariants; it
    empties the queue and releases every identifier, so that every slot
    of the IdMap is free afterwards; capacity, version counter and the
    random flag are as before, and the invariants hold again. *)
Theorem Clear_releases_every_id q :
  Inv q ->
  exists q',
    Clear q = Ok (tt, q')
    /\ Inv q' /\ q_length q' = 0 /\ songs_of q' = []
    /\ max_length q' = max_length q /\ q_version q' = q_version q
    /\ q_random q' = q_random q
    /\ length (id_to_position q') = length (id_to_position q)
    /\ forall j, (j < length (id_to_position q'))%nat ->
         id_to_position q' !! j = Some (-1).
Proof.
  intros HI.
  destruct (wp_Clear (fun _ q' =>
              Inv q' /\ max_length q' = max_length q /\ q_length q' = 0
              /\ q_random q' = q_random q /\ q_version q' = q_version q)
              q HI) as ([] & q' & Hrun & HI' & Hm & Hl & Hr & Hv).
  { intros q' HI' Hfr. split; [exact HI' | exact Hfr]. }
  exists q'. split; [exact Hrun |]. split; [exact HI' |].
  split; [exact Hl |]. split.
  { unfold songs_of. rewrite Hl. reflexivity. }
  split; [exact Hm |]. split; [exact Hv |]. split; [exact Hr |]. split.
  { rewrite (inv_idmap _ HI'), (inv_idmap _ HI), Hm. reflexivity. }
  intros j Hj. apply (Inv_slot_free q' j HI' Hj).
  intros p it Hp. lia.
Qed.

Lemma Clear_releases_every_id_witness :
  let q := set_modes false false false false (queue_ABC_value (fun _ => 0)) in
  Inv q
  /\ exists q',
       Clear q = Ok (tt, q')
       /\ Inv q' /\ q_length q' = 0 /\ songs_of q' = []
       /\ max_length q' = max_length q /\ q_version q' = q_version q
       /\ q_random q' = q_random q
       /\ length (id_to_position q') = length (id_to_position q)
       /\ forall j, (j < length (id_to_position q'))%nat ->
            id_to_position q' !! j = Some (-1).
Proof.
  intros q. split; [apply Inv_ABC |].
  apply (Clear_releases_every_id q). apply Inv_ABC.
Defined.

(** ** Rearrangements as permutations *)

(** A list read through an injective map of its indices is a permutation
    of the list. *)
Lemma index_Permutation {A} (l l' : list A) (t : nat -> nat) :
  length l' = length l ->
  (forall k, (k < length l)%nat -> (t k < length l)%nat) ->
  (forall k1 k2, (k1 < length l)%nat -> (k2 < length l)%nat ->
     t k1 = t k2 -> k1 = k2) ->
  (forall k, (k < length l)%nat -> l' !! k = l !! t k) ->
  l' ≡ₚ l.
Proof.
  intros Hlen Hr Hinj Hl'.
  set (n := length l).
  assert (Hidx : t <$> seq 0 n ≡ₚ seq 0 n).
  { apply submseteq_length_Permutation.
    - apply NoDup_submseteq.
      + apply NoDup_alt. intros k1 k2 x H1 H2.
        rewrite list_lookup_fmap in H1, H2.
        destruct (seq 0 n !! k1) as [a |] eqn:Ha; [| discriminate].
        destruct (seq 0 n !! k2) as [b |] eqn:Hb; [| discriminate].
        apply lookup_seq in Ha as [-> Ha]. apply lookup_seq in Hb as [-> Hb].
        simpl in H1, H2. apply Hinj; [exact Ha | exact Hb | congruence].
      + intros x Hx. apply list_elem_of_fmap in Hx as (k & -> & Hk).
        apply elem_of_seq in Hk. apply elem_of_seq.
        pose proof (Hr k ltac:(lia)). lia.
    - rewrite length_fmap. lia. }
  assert (HP0 : (fun i => l !! i) <$> seq 0 n ≡ₚ map Some l').
  { change (map Some l') with (Some <$> l').
    rewrite <- Hidx.
    assert (Heq : (fun i => l !! i) <$> (t <$> seq 0 n) = Some <$> l');
      [| rewrite Heq; reflexivity].
    apply list_eq. intros k.
    rewrite !list_lookup_fmap.
    destruct (decide (k < n)%nat) as [Hk | Hk].
    + rewrite lookup_seq_lt by lia. simpl. rewrite (Hl' k Hk).
      destruct (lookup_lt_is_Some_2 l (t k) (Hr k Hk)) as [x Hx].
      rewrite Hx. reflexivity.
    + rewrite lookup_seq_ge by lia.
      rewrite lookup_ge_None_2 by lia. reflexivity. }
  destruct (Permutation_map_inv _ _ HP0) as (l3 & Hl3 & HP).
  assert (Hl : l3 = l).
  { apply (inj (fmap Some)). change (map Some l3) with (Some <$> l3) in Hl3.
    rewrite <- Hl3.
    apply list_eq. intros k. rewrite !list_lookup_fmap.
    destruct (decide (k < n)%nat) as [Hk | Hk].
    + rewrite lookup_seq_lt by lia. simpl.
      destruct (lookup_lt_is_Some_2 l k Hk) as [x Hx].
      rewrite Hx. reflexivity.
    + rewrite lookup_seq_ge by lia.
      rewrite lookup_ge_None_2 by (unfold n in Hk; lia). reflexivity. }
  subst l3. exact HP.
Qed.

(** A rearrangement of the index range [a .. b - 1]: the entries before
    and after the range are kept, those of the range are permuted. *)
Lemma permutes_Permutation a b l l' :
  permutes a b l l' -> (a <= b)%nat -> (b <= length l)%nat ->
  take a l' = take a l
  /\ drop b l' = drop b l
  /\ take (b - a) (drop a l') ≡ₚ take (b - a) (drop a l).
Proof.
  intros (Hlen & s & Hr & Hinj & Hin & Hout) Hab Hb.
  split; [| split].
  - apply list_eq. intros k. destruct (decide (k < a)%nat) as [Hk | Hk].
    + rewrite !lookup_take_lt by lia. apply Hout. lia.
    + rewrite !lookup_take_ge by lia. reflexivity.
  - apply list_eq. intros k. rewrite !lookup_drop. apply Hout. lia.
  - apply (index_Permutation _ _ (fun k => (s (a + k) - a))%nat).
    + rewrite !length_take, !length_drop. lia.
    + intros k. rewrite length_take, length_drop. intros Hk.
      pose proof (Hr (a + k)%nat ltac:(lia)). lia.
    + intros k1 k2. rewrite length_take, length_drop. intros Hk1 Hk2 Heq.
      pose proof (Hr (a + k1)%nat ltac:(lia)).
      pose proof (Hr (a + k2)%nat ltac:(lia)).
      assert (a + k1 = a + k2)%nat by (apply Hinj; lia). lia.
    + intros k. rewrite length_take, length_drop. intros Hk.
      pose proof (Hr (a + k)%nat ltac:(lia)).
      rewrite !lookup_take_lt by lia. rewrite !lookup_drop.
      rewrite Hin by lia. f_equal. lia.
Qed.

(** ** Removing a block and inserting it elsewhere *)

Lemma length_move_range_spec {A} (start end_ to : nat) (l : list A) :
  (start <= end_)%nat -> (end_ <= length l)%nat ->
  (to + (end_ - start) <= length l)%nat ->
  length (move_range_spec start end_ to l) = length l.
Proof.
  intros Hs He Ht. unfold move_range_spec.
  rewrite !length_app, !length_take, !length_drop, !length_app,
    !length_take, !length_drop. lia.
Qed.

(** Entry [k] of the rearranged list is the entry [MoveRange_source k] of
    the list. *)
Lemma lookup_move_range_spec {A} (start end_ to : nat) (l : list A) k :
  (start <= end_)%nat -> (end_ <= length l)%nat ->
  (to + (end_ - start) <= length l)%nat ->
  (k < length l)%nat ->
  move_range_spec start end_ to l !! k
  = l !! Z.to_nat (MoveRange_source (Z.of_nat start) (Z.of_nat end_)
                     (Z.of_nat to) (Z.of_nat k)).
Proof.
  intros Hs He Ht Hk. unfold move_range_spec, MoveRange_source.
  assert (Hrest : forall i,
    (take start l ++ drop end_ l) !! i
    = l !! (if decide (i < start)%nat then i else i + (end_ - start))%nat).
  { intros i. destruct (decide (i < start)%nat).
    - rewrite lookup_app_l by (rewrite length_take; lia).
      apply lookup_take_lt. lia.
    - rewrite lookup_app_r by (rewrite length_take; lia).
      rewrite length_take, lookup_drop. f_equal. lia. }
  assert (Hlr : length (take start l ++ drop end_ l)
                = (length l - (end_ - start))%nat).
  { rewrite length_app, length_take, length_drop. lia. }
  destruct (decide (k < to)%nat) as [Hk1 | Hk1].
  - rewrite lookup_app_l by (rewrite length_take; lia).
    rewrite lookup_take_lt by lia. rewrite Hrest.
    f_equal. repeat case_decide; lia.
  - rewrite lookup_app_r by (rewrite length_take; lia).
    rewrite length_take, Hlr.
    replace (to `min` (length l - (end_ - start)))%nat with to by lia.
    destruct (decide (k < to + (end_ - start))%nat) as [Hk2 | Hk2].
    + rewrite lookup_app_l by (rewrite length_take, length_drop; lia).
      rewrite lookup_take_lt by lia. rewrite lookup_drop.
      f_equal. repeat case_decide; lia.
    + rewrite lookup_app_r by (rewrite length_take, length_drop; lia).
      rewrite length_take, length_drop.
      replace ((end_ - start) `min` (length l - start))%nat
        with (end_ - start)%nat by lia.
      rewrite lookup_drop, Hrest.
      f_equal. repeat case_decide; lia.
Qed.

(** ** The searches along the order array *)

(** X4: in random mode, [queue_find_priority_order] returns, without
    changing the queue, the first order index at or after [start_order],
    other than [exclude_order], whose item has a priority not above
    [priority]; it returns the length of the queue when there is none. *)
Theorem queue_find_priority_order_first q start_order priority exclude_order :
  Inv q -> q_random q = true -> 0 <= start_order <= q_length q ->
  exists r,
    queue_find_priority_order start_order priority exclude_order q
    = Ok (r, q)
    /\ start_order <= r <= q_length q
    /\ (r < q_length q ->
          r <> exclude_order /\ prio_at q (Z.to_nat r) <= priority)
    /\ (forall k, start_order <= k < r ->
          k = exclude_order \/ priority < prio_at q (Z.to_nat k)).
Proof.
  intros HI Hrnd Hs.
  pose proof (Inv_bounds q HI) as (Hn & Hli & _).
  destruct (wp_queue_find_priority_order start_order priority exclude_order
    (fun r q' =>
       q' = q /\ start_order <= r <= q_length q
       /\ (r < q_length q ->
             r <> exclude_order /\ prio_at q (Z.to_nat r) <= priority)
       /\ (forall k, start_order <= k < r ->
             k = exclude_order \/ priority < prio_at q (Z.to_nat k))) q)
    as (r & q' & Hrun & -> & Hr);
    [exact Hrnd | exact Hs | apply (inv_perm _ HI) | exact Hli
    | rewrite UINT_MOD_eq; lia | auto |].
  exists r. split; [exact Hrun | exact Hr].
Qed.

Lemma queue_find_priority_order_first_witness :
  let q := set_modes false false false true (queue_ABC_value (fun _ => 0)) in
  exists r,
    queue_find_priority_order 1 0 2 q = Ok (r, q)
    /\ 1 <= r <= q_length q
    /\ (r < q_length q -> r <> 2 /\ prio_at q (Z.to_nat r) <= 0)
    /\ (forall k, 1 <= k < r -> k = 2 \/ 0 < prio_at q (Z.to_nat k)).
Proof.
  intros q.
  apply (queue_find_priority_order_first q 1 0 2);
    [apply Inv_ABC | reflexivity | simpl; lia].
Defined.

(** X5: in random mode, [queue_count_same_priority] returns, without
    changing the queue, the length of the longest run of order entries
    that starts at [start_order] and whose items all have the priority
    [priority]. *)
Theorem queue_count_same_priority_run q start_order priority :
  Inv q -> q_random q = true -> 0 <= start_order <= q_length q ->
  exists c,
    queue_count_same_priority start_order priority q = Ok (c, q)
    /\ 0 <= c <= q_length q - start_order
    /\ (forall k, start_order <= k < start_order + c ->
          prio_at q (Z.to_nat k) = priority)
    /\ (start_order + c < q_length q ->
          prio_at q (Z.to_nat (start_order + c)) <> priority).
Proof.
  intros HI Hrnd Hs.
  pose proof (Inv_bounds q HI) as (Hn & Hli & _).
  destruct (wp_queue_count_same_priority start_order priority
    (fun c q' =>
       q' = q /\ 0 <= c <= q_length q - start_order
       /\ (forall k, start_order <= k < start_order + c ->
             prio_at q (Z.to_nat k) = priority)
       /\ (start_order + c < q_length q ->
             prio_at q (Z.to_nat (start_order + c)) <> priority)) q)
    as (c & q' & Hrun & -> & Hc);
    [exact Hrnd | exact Hs | apply (inv_perm _ HI) | exact Hli
    | rewrite UINT_MOD_eq; lia | auto |].
  exists c. split; [exact Hrun | exact Hc].
Qed.

Lemma queue_count_same_priority_run_witness :
  let q := set_modes false false false true (queue_ABC_value (fun _ => 0)) in
  exists c,
    queue_count_same_priority 1 0 q = Ok (c, q)
    /\ 0 <= c <= q_length q - 1
    /\ (forall k, 1 <= k < 1 + c -> prio_at q (Z.to_nat k) = 0)
    /\ (1 + c < q_length q -> prio_at q (Z.to_nat (1 + c)) <> 0).
Proof.
  intros q.
  apply (queue_count_same_priority_run q 1 0);
    [apply Inv_ABC | reflexivity | simpl; lia].
Defined.

(** ** Operations on a range of the order array *)

(** What an operation on the order array keeps, and what a rearrangement
    of the range [start .. end - 1] does to the array. *)
Lemma order_range_rearranged q q' start end_ :
  Inv q -> 0 <= start <= end_ -> end_ <= q_length q ->
  frame_order q q' ->
  permutes (Z.to_nat start) (Z.to_nat end_) (order q) (order q') ->
  Inv q'
  /\ items q' = items q /\ id_to_position q' = id_to_position q
  /\ q_length q' = q_length q /\ q_version q' = q_version q
  /\ take (Z.to_nat start) (order q') = take (Z.to_nat start) (order q)
  /\ drop (Z.to_nat end_) (order q') = drop (Z.to_nat end_) (order q)
  /\ take (Z.to_nat (end_ - start)) (drop (Z.to_nat start) (order q'))
     ≡ₚ take (Z.to_nat (end_ - start)) (drop (Z.to_nat start) (order q)).
Proof.
  intros HI Hs He Hfr Hp.
  pose proof (Inv_bounds q HI) as (_ & _ & Hlo & _).
  pose proof Hfr as (_ & Hl & Hv & Hi & Hd & _).
  split.
  { apply (Inv_frame_order q q' HI Hfr).
    apply (perm_on_permutes _ _ _ _ _ (inv_perm _ HI) Hp). lia. }
  split; [exact Hi |]. split; [exact Hd |]. split; [exact Hl |].
  split; [exact Hv |].
  replace (Z.to_nat (end_ - start))
    with (Z.to_nat end_ - Z.to_nat start)%nat by lia.
  apply permutes_Permutation; [exact Hp | lia | lia].
Qed.

(** In random mode, [queue_sort_order_by_priority] sorts the entries
    [start .. end - 1] of the order array by non-increasing priority of
    their items; the entries of the range are permuted among themselves,
    the rest of the order array, the items and the IdMap are kept, and
    the random engine is not used. *)
Lemma queue_sort_order_by_priority_sorts q start end_ :
  Inv q -> q_random q = true -> 0 <= start <= end_ -> end_ <= q_length q ->
  exists q',
    queue_sort_order_by_priority start end_ q = Ok (tt, q')
    /\ (forall i j, (Z.to_nat start <= i)%nat -> (i <= j)%nat ->
          (j < Z.to_nat end_)%nat -> prio_at q' j <= prio_at q' i)
    /\ rand q' = rand q
    /\ Inv q'
    /\ items q' = items q /\ id_to_position q' = id_to_position q
    /\ q_length q' = q_length q /\ q_version q' = q_version q
    /\ take (Z.to_nat start) (order q') = take (Z.to_nat start) (order q)
    /\ drop (Z.to_nat end_) (order q') = drop (Z.to_nat end_) (order q)
    /\ take (Z.to_nat (end_ - start)) (drop (Z.to_nat start) (order q'))
       ≡ₚ take (Z.to_nat (end_ - start)) (drop (Z.to_nat start) (order q)).
Proof.
  intros HI Hrnd Hs He.
  pose proof (Inv_bounds q HI) as (Hn & _ & Hlo & _).
  destruct (wp_queue_sort_order_by_priority start end_
    (fun _ q' =>
       frame_order q q'
       /\ permutes (Z.to_nat start) (Z.to_nat end_) (order q) (order q')
       /\ forall i j, (Z.to_nat start <= i)%nat -> (i <= j)%nat ->
            (j < Z.to_nat end_)%nat -> prio_at q' j <= prio_at q' i) q)
    as ([] & q' & Hrun & Hfr & Hp & Hsorted);
    [exact Hrnd | exact Hs | exact He | exact Hlo
    | rewrite UINT_MOD_eq; lia | auto |].
  exists q'. split; [exact Hrun |]. split; [exact Hsorted |]. split.
  { unfold queue_sort_order_by_priority in Hrun.
    rewrite (bind_Ok get _ q q q eq_refl) in Hrun.
    rewrite Hrnd in Hrun.
    rewrite (bind_Ok (assert true) _ q tt q eq_refl) in Hrun.
    replace (start <=? end_) with true in Hrun by (symmetry; apply Z.leb_le; lia).
    rewrite (bind_Ok (assert true) _ q tt q eq_refl) in Hrun.
    replace (end_ <=? q_length q) with true in Hrun
      by (symmetry; apply Z.leb_le; lia).
    rewrite (bind_Ok (assert true) _ q tt q eq_refl) in Hrun.
    inversion Hrun. reflexivity. }
  apply (order_range_rearranged q q' start end_); assumption.
Qed.

(** X6: in random mode, [ShuffleOrderRange] permutes the entries
    [start .. end - 1] of the order array among themselves, whatever the
    random engine draws; the rest of the order array, the items, the
    IdMap, the length and the version counter are kept, and the
    invariants hold again. *)
Theorem ShuffleOrderRange_permutes q start end_ :
  Inv q -> q_random q = true -> 0 <= start <= end_ -> end_ <= q_length q ->
  exists q',
    ShuffleOrderRange start end_ q = Ok (tt, q')
    /\ Inv q'
    /\ items q' = items q /\ id_to_position q' = id_to_position q
    /\ q_length q' = q_length q /\ q_version q' = q_version q
    /\ take (Z.to_nat start) (order q') = take (Z.to_nat start) (order q)
    /\ drop (Z.to_nat end_) (order q') = drop (Z.to_nat end_) (order q)
    /\ take (Z.to_nat (end_ - start)) (drop (Z.to_nat start) (order q'))
       ≡ₚ take (Z.to_nat (end_ - start)) (drop (Z.to_nat start) (order q)).
Proof.
  intros HI Hrnd Hs He.
  pose proof (Inv_bounds q HI) as (Hn & _ & Hlo & _).
  destruct (wp_ShuffleOrderRange start end_
    (fun _ q' =>
       frame_order q q'
       /\ permutes (Z.to_nat start) (Z.to_nat end_) (order q) (order q')) q)
    as ([] & q' & Hrun & Hfr & Hp);
    [exact Hrnd | exact Hs | exact He | exact Hlo | auto |].
  exists q'. split; [exact Hrun |].
  apply (order_range_rearranged q q' start end_); assumption.
Qed.

Lemma ShuffleOrderRange_permutes_witness :
  let q := set_modes false false false true (queue_ABC_value (fun _ => 7)) in
  exists q',
    ShuffleOrderRange 0 3 q = Ok (tt, q')
    /\ Inv q'
    /\ items q' = items q /\ id_to_position q' = id_to_position q
    /\ q_length q' = q_length q /\ q_version q' = q_version q
    /\ take (Z.to_nat 0) (order q') = take (Z.to_nat 0) (order q)
    /\ drop (Z.to_nat 3) (order q') = drop (Z.to_nat 3) (order q)
    /\ take (Z.to_nat (3 - 0)) (drop (Z.to_nat 0) (order q'))
       ≡ₚ take (Z.to_nat (3 - 0)) (drop (Z.to_nat 0) (order q)).
Proof.
  intros q.
  apply (ShuffleOrderRange_permutes q 0 3);
    [apply Inv_ABC | reflexivity | lia | simpl; lia].
Defined.






(** X9: [queue_move_order] changes nothing but the order array, whose
    live part becomes the old one with the entry [from_order] removed and
    inserted again at [to_order]: the entries in between move by one
    place, the relative order of all the others is kept, and the
    invariants hold again. *)
Theorem queue_move_order_moves q from_order to_order :
  Inv q ->
  0 <= from_order < q_length q -> 0 <= to_order < q_length q ->
  exists q',
    queue_move_order from_order to_order q = Ok (tt, q')
    /\ q' = set_order (order q') q
    /\ take (Z.to_nat (q_length q)) (order q')
       = move_range_spec (Z.to_nat from_order) (S (Z.to_nat from_order))
           (Z.to_nat to_order) (take (Z.to_nat (q_length q)) (order q))
    /\ drop (Z.to_nat (q_length q)) (order q')
       = drop (Z.to_nat (q_length q)) (order q)
    /\ order q' !! Z.to_nat to_order = order q !! Z.to_nat from_order
    /\ Inv q'.
Proof.
  intros HI Hf Ht.
  pose proof (Inv_bounds q HI) as (Hn & _ & Hlo & Hmo & _).
  set (n := Z.to_nat (q_length q)).
  set (f := Z.to_nat from_order). set (t := Z.to_nat to_order).
  assert (Hidx : forall k, (k < n)%nat -> (move_order_index f t k < n)%nat).
  { intros k Hk. unfold move_order_index. repeat case_decide; lia. }
  assert (Hsrc : forall k, (k < n)%nat ->
    Z.to_nat (MoveRange_source (Z.of_nat f) (Z.of_nat (S f)) (Z.of_nat t)
                (Z.of_nat k))
    = move_order_index f t k).
  { intros k Hk. unfold MoveRange_source, move_order_index.
    repeat case_decide; lia. }
  eexists. split.
  { apply queue_move_order_Ok; try lia. rewrite UINT_MOD_eq. lia. }
  fold f t. simpl order.
  split; [reflexivity |].
  split; [| split; [| split]].
  - apply list_eq. intros k.
    destruct (decide (k < n)%nat) as [Hk | Hk].
    + rewrite lookup_take_lt by lia.
      rewrite lookup_reindex by (pose proof (Hidx k Hk); lia).
      rewrite lookup_move_range_spec
        by (rewrite ?length_take; unfold f, t, n in *; lia).
      rewrite (Hsrc k Hk). rewrite lookup_take_lt by (apply Hidx; lia).
      reflexivity.
    + rewrite lookup_take_ge by lia.
      rewrite lookup_ge_None_2; [reflexivity |].
      rewrite length_move_range_spec
        by (rewrite ?length_take; unfold f, t, n in *; lia).
      rewrite length_take. lia.
  - apply list_eq. intros k. rewrite !lookup_drop.
    destruct (decide (n + k < length (order q))%nat) as [Hk | Hk].
    + rewrite lookup_reindex; [| lia |];
        unfold move_order_index; repeat case_decide; try lia.
      reflexivity.
    + rewrite !lookup_ge_None_2; [reflexivity | lia |].
      rewrite length_reindex. lia.
  - rewrite lookup_reindex;
      unfold move_order_index; repeat case_decide; try lia.
    reflexivity.
  - apply (Inv_frame_order q); [exact HI | |].
    + apply frame_order_set_order. rewrite length_reindex. reflexivity.
    + simpl. apply perm_on_move_order; [apply (inv_perm _ HI) | lia | lia].
Qed.

Lemma queue_move_order_moves_witness :
  let q := queue_ABCDE_value false false false true (fun _ => 0) in
  exists q',
    queue_move_order 1 3 q = Ok (tt, q')
    /\ q' = set_order (order q') q
    /\ take (Z.to_nat (q_length q)) (order q')
       = move_range_spec (Z.to_nat 1) (S (Z.to_nat 1))
           (Z.to_nat 3) (take (Z.to_nat (q_length q)) (order q))
    /\ drop (Z.to_nat (q_length q)) (order q')
       = drop (Z.to_nat (q_length q)) (order q)
    /\ order q' !! Z.to_nat 3 = order q !! Z.to_nat 1
    /\ Inv q'.
Proof.
  intros q.
  apply (queue_move_order_moves q 1 3); [| simpl; lia | simpl; lia].
  rewrite <- (set_order_id q). apply Inv_ABCDE. reflexivity.
Defined.

(** ** The walk along the order array *)

(** X10: for an order index of the queue, [GetNextOrder] returns the end
    of the queue (-1) or an order index of the queue, and leaves the
    queue as it is.  It returns the end exactly at the last order index
    when repeat is off, or when consume is on and the queue has a single
    item; with repeat on and consume off it never does. *)
Theorem GetNextOrder_end q _order :
  0 <= _order < q_length q -> q_length q <= 2 ^ 31 ->
  exists r,
    GetNextOrder _order q = Ok (r, q)
    /\ (r = -1 \/ 0 <= r < q_length q)
    /\ (r = -1 <->
        _order = q_length q - 1
        /\ (q_repeat q = false \/ (q_consume q = true /\ _order = 0)))
    /\ (q_repeat q = true -> q_consume q = false -> r <> -1).
Proof.
  intros Ho Hlen. eexists. split; [apply GetNextOrder_eq; assumption |].
  unfold next_selector.
  destruct (q_single q), (q_repeat q), (q_consume q); simpl;
    destruct (Z.ltb_spec (_order + 1) (q_length q));
    try destruct (Z.ltb_spec 0 _order); simpl;
    (split; [lia |]); (split; [| intros; try discriminate; lia]);
    split; try lia; try (intros [_ [? | [? ?]]]; try discriminate; lia);
    intros _; split; try lia; auto.
Qed.

Lemma GetNextOrder_end_witness :
  let q := set_modes true false true false (queue_ABC_value (fun _ => 0)) in
  exists r,
    GetNextOrder 2 q = Ok (r, q)
    /\ (r = -1 \/ 0 <= r < q_length q)
    /\ (r = -1 <->
        2 = q_length q - 1
        /\ (q_repeat q = false \/ (q_consume q = true /\ 2 = 0)))
    /\ (q_repeat q = true -> q_consume q = false -> r <> -1).
Proof.
  intros q. apply (GetNextOrder_end q 2); simpl; lia.
Defined.

Lemma play_from q :
  q_repeat q = false -> q_length q <= 2 ^ 31 ->
  forall (k fuel : nat) o,
    0 <= o -> o + Z.of_nat k = q_length q -> (1 <= k <= fuel)%nat ->
    play fuel o q = Z.of_nat <$> seq (Z.to_nat o) k.
Proof.
  intros Hrep Hlen. induction k as [| k IH]; intros fuel o Ho Hk Hf; [lia |].
  destruct fuel as [| fuel]; [lia |]. simpl play.
  rewrite GetNextOrder_eq by lia. unfold next_selector.
  rewrite Hrep, andb_false_r. simpl.
  rewrite Z2Nat.id by lia. f_equal.
  destruct (Z.ltb_spec (o + 1) (q_length q)) as [Hlt | Hge].
  - destruct (Z.eqb_spec (o + 1) (-1)); [lia |].
    rewrite (IH fuel (o + 1)) by lia.
    replace (Z.to_nat (o + 1)) with (S (Z.to_nat o)) by lia. reflexivity.
  - simpl. destruct k; [reflexivity | lia].
Qed.

(** X11: with repeat off, the walk that starts at order 0 and follows
    [GetNextOrder] plays every order index of the queue once, in
    increasing order, and then reaches the end of the queue, whatever
    single and consume are. *)
Theorem play_every_order_once q (fuel : nat) :
  q_repeat q = false -> 0 < q_length q <= 2 ^ 31 ->
  (Z.to_nat (q_length q) <= fuel)%nat ->
  play fuel 0 q = Z.of_nat <$> seq 0 (Z.to_nat (q_length q)).
Proof.
  intros Hrep Hlen Hfuel.
  apply (play_from q Hrep ltac:(lia) (Z.to_nat (q_length q)) fuel 0); lia.
Qed.

Lemma play_every_order_once_witness :
  let q := set_modes false true true false (queue_ABC_value (fun _ => 0)) in
  play 10 0 q = Z.of_nat <$> seq 0 (Z.to_nat (q_length q)).
Proof.
  intros q. apply (play_every_order_once q 10); [reflexivity | simpl; lia |].
  simpl. lia.
Defined.

(** ** The discipline of the version stamps *)

(** The queue after [IncrementVersion], from a counter below
    [2^31 - 1]: the counter stays in [1, 2^31 - 2], the live stamps are
    below it when they were at most the old counter, and nothing else
    changes. *)
Lemma IncrementVersion_below q :
  0 <= q_length q <= Z.of_nat (length (items q)) ->
  0 <= q_version q < 2 ^ 31 - 1 ->
  stamps_below (q_version q + 1) q ->
  exists q',
    IncrementVersion q = Ok (tt, q')
    /\ 1 <= q_version q' < 2 ^ 31 - 1
    /\ stamps_below (q_version q') q'
    /\ (q_version q < 2 ^ 31 - 2 -> q' = set_version (q_version q + 1) q)
    /\ q_length q' = q_length q /\ order q' = order q
    /\ id_to_position q' = id_to_position q
    /\ length (items q') = length (items q)
    /\ forall p it, 0 <= p < q_length q ->
         items q !! Z.to_nat p = Some it ->
         exists it', items q' !! Z.to_nat p = Some it' /\ same_item it it'.
Proof.
  intros Hlen Hv Hst. eexists. split; [apply IncrementVersion_Ok, Hlen |].
  rewrite wrap_small by (rewrite UINT_MOD_eq; lia).
  destruct (Z.leb_spec (2 ^ 31 - 1) (q_version q + 1)) as [Hw | Hw]; simpl.
  - split; [lia |]. split.
    { intros p it Hp Hit. simpl in Hp, Hit.
      rewrite lookup_map_prefix in Hit.
      destruct (decide (Z.to_nat p < Z.to_nat (q_length q))%nat); [| lia].
      destruct (items q !! Z.to_nat p) as [x |]; [| discriminate].
      simpl in Hit. inversion Hit. simpl. lia. }
    split; [lia |]. repeat (split; [reflexivity |]).
    split; [apply length_map_prefix |].
    intros p it Hp Hit. exists (item_set_version 0 it).
    rewrite lookup_map_prefix.
    destruct (decide (Z.to_nat p < Z.to_nat (q_length q))%nat); [| lia].
    rewrite Hit. split; [reflexivity | repeat split].
  - split; [lia |]. split; [exact Hst |]. split; [reflexivity |].
    repeat (split; [reflexivity |]).
    intros p it Hp Hit. exists it. split; [exact Hit | repeat split].
Qed.

(** X12: from a counter in [0, 2^31 - 2] and live stamps that are at most
    the counter, [IncrementVersion] returns with the counter in
    [1, 2^31 - 2] and every live stamp strictly below it, so that an
    observer who remembers the new counter sees every item as older;
    songs, identifiers, priorities, order array and IdMap are kept. *)
Theorem IncrementVersion_stamps_below q :
  0 <= q_length q <= Z.of_nat (length (items q)) ->
  0 <= q_version q < 2 ^ 31 - 1 ->
  stamps_below (q_version q + 1) q ->
  exists q',
    IncrementVersion q = Ok (tt, q')
    /\ 1 <= q_version q' < 2 ^ 31 - 1
    /\ stamps_below (q_version q') q'
    /\ q_length q' = q_length q /\ order q' = order q
    /\ id_to_position q' = id_to_position q
    /\ forall p it, 0 <= p < q_length q ->
         items q !! Z.to_nat p = Some it ->
         exists it', items q' !! Z.to_nat p = Some it' /\ same_item it it'.
Proof.
  intros Hlen Hv Hst.
  destruct (IncrementVersion_below q Hlen Hv Hst)
    as (q' & Hrun & Hv' & Hst' & _ & Hl & Ho & Hd & _ & Hit).
  exists q'. repeat split; try assumption; lia.
Qed.

Lemma IncrementVersion_stamps_below_witness :
  let q := set_version (2 ^ 31 - 2) (queue_ABC_value (fun _ => 0)) in
  stamps_below (q_version q + 1) q
  /\ exists q',
       IncrementVersion q = Ok (tt, q')
       /\ 1 <= q_version q' < 2 ^ 31 - 1
       /\ stamps_below (q_version q') q'
       /\ q_length q' = q_length q /\ order q' = order q
       /\ id_to_position q' = id_to_position q
       /\ forall p it, 0 <= p < q_length q ->
            items q !! Z.to_nat p = Some it ->
            exists it', items q' !! Z.to_nat p = Some it' /\ same_item it it'.
Proof.
  intros q.
  assert (Hst : stamps_below (q_version q + 1) q).
  { intros p it Hp Hit. simpl in Hp.
    assert (Hc : p = 0 \/ p = 1 \/ p = 2) by lia.
    destruct Hc as [-> | [-> | ->]]; simpl in Hit; inversion Hit; simpl; lia. }
  split; [exact Hst |].
  apply (IncrementVersion_stamps_below q); [simpl; lia | simpl; lia | exact Hst].
Defined.

(** X13: from a counter in [0, 2^31 - 2], [ModifyAll] returns with the
    counter in [1, 2^31 - 2] and every live stamp strictly below it;
    away from the wrap-around every live item carries the old counter as
    its stamp and the counter has grown by one; songs, identifiers,
    priorities, order array and IdMap are kept. *)
Theorem ModifyAll_stamps q :
  0 <= q_length q <= Z.of_nat (length (items q)) ->
  0 <= q_version q < 2 ^ 31 - 1 ->
  exists q',
    ModifyAll q = Ok (tt, q')
    /\ 1 <= q_version q' < 2 ^ 31 - 1
    /\ stamps_below (q_version q') q'
    /\ (q_version q < 2 ^ 31 - 2 ->
        q_version q' = q_version q + 1
        /\ forall p it, 0 <= p < q_length q ->
             items q !! Z.to_nat p = Some it ->
             items q' !! Z.to_nat p
             = Some (item_set_version (q_version q) it))
    /\ q_length q' = q_length q /\ order q' = order q
    /\ id_to_position q' = id_to_position q
    /\ forall p it, 0 <= p < q_length q ->
         items q !! Z.to_nat p = Some it ->
         exists it', items q' !! Z.to_nat p = Some it' /\ same_item it it'.
Proof.
  intros Hlen Hv.
  set (q1 := set_items
               (map_prefix (item_set_version (q_version q))
                  (Z.to_nat (q_length q)) (items q)) q).
  assert (Hq1 : forall p it, 0 <= p < q_length q ->
    items q !! Z.to_nat p = Some it ->
    items q1 !! Z.to_nat p = Some (item_set_version (q_version q) it)).
  { intros p it Hp Hit. unfold q1. simpl. rewrite lookup_map_prefix.
    destruct (decide (Z.to_nat p < Z.to_nat (q_length q))%nat); [| lia].
    rewrite Hit. reflexivity. }
  destruct (IncrementVersion_below q1)
    as (q' & Hrun & Hv' & Hst' & Heq & Hl & Ho & Hd & Hli & Hit').
  { unfold q1. simpl. rewrite length_map_prefix. exact Hlen. }
  { exact Hv. }
  { intros p it Hp Hit. change (q_length q1) with (q_length q) in Hp.
    destruct (lookup_lt_is_Some_2 (items q) (Z.to_nat p)) as [x Hx]; [lia |].
    rewrite (Hq1 p x Hp Hx) in Hit. inversion Hit.
    change (q_version q1) with (q_version q). simpl. lia. }
  exists q'. split.
  { unfold ModifyAll. rewrite (bind_Ok get _ q q q eq_refl).
    rewrite (bind_Ok _ _ _ _ _ (stamp_all_Ok (q_version q) q Hlen)).
    exact Hrun. }
  split; [exact Hv' |]. split; [exact Hst' |]. split.
  { intros Hnw. rewrite (Heq Hnw). split; [reflexivity |].
    intros p it Hp Hit. simpl. apply Hq1; assumption. }
  split; [exact Hl |]. split; [exact Ho |]. split; [exact Hd |].
  intros p it Hp Hit.
  destruct (Hit' p _ Hp (Hq1 p it Hp Hit)) as (it' & Hx & Hs).
  exists it'. split; [exact Hx |].
  destruct Hs as (H1 & H2 & H3). repeat split; assumption.
Qed.

Lemma ModifyAll_stamps_witness :
  let q := queue_ABC_value (fun _ => 0) in
  exists q',
    ModifyAll q = Ok (tt, q')
    /\ 1 <= q_version q' < 2 ^ 31 - 1
    /\ stamps_below (q_version q') q'
    /\ (q_version q < 2 ^ 31 - 2 ->
        q_version q' = q_version q + 1
        /\ forall p it, 0 <= p < q_length q ->
             items q !! Z.to_nat p = Some it ->
             items q' !! Z.to_nat p
             = Some (item_set_version (q_version q) it))
    /\ q_length q' = q_length q /\ order q' = order q
    /\ id_to_position q' = id_to_position q
    /\ forall p it, 0 <= p < q_length q ->
         items q !! Z.to_nat p = Some it ->
         exists it', items q' !! Z.to_nat p = Some it' /\ same_item it it'.
Proof.
  intros q. apply (ModifyAll_stamps q); simpl; lia.
Defined.

(** X14: from a counter in [0, 2^31 - 2] and live stamps that are at most
    the counter, [ModifyAtOrder] returns with the counter in
    [1, 2^31 - 2] and every live stamp strictly below it; away from the
    wrap-around the item that plays at the order index carries the old
    counter as its stamp, every other item is untouched, and the counter
    has grown by one. *)
Theorem ModifyAtOrder_stamps q _order :
  Inv q -> 0 <= _order < q_length q ->
  0 <= q_version q < 2 ^ 31 - 1 ->
  stamps_below (q_version q + 1) q ->
  exists q' position it,
    ModifyAtOrder _order q = Ok (tt, q')
    /\ order q !! Z.to_nat _order = Some position
    /\ items q !! Z.to_nat position = Some it
    /\ 1 <= q_version q' < 2 ^ 31 - 1
    /\ stamps_below (q_version q') q'
    /\ (q_version q < 2 ^ 31 - 2 ->
        q' = set_version (q_version q + 1)
               (set_items (<[Z.to_nat position :=
                               item_set_version (q_version q) it]> (items q))
                  q))
    /\ q_length q' = q_length q /\ order q' = order q
    /\ id_to_position q' = id_to_position q.
Proof.
  intros HI Ho Hv Hst.
  pose proof (Inv_bounds q HI) as (_ & Hli & Hlo & _).
  pose proof (inv_length _ HI) as Hlen.
  destruct (lookup_lt_is_Some_2 (order q) (Z.to_nat _order))
    as [position Hpos]; [lia |].
  destruct (inv_perm _ HI) as (_ & Hrange & _).
  pose proof (Hrange (Z.to_nat _order) position ltac:(lia) Hpos) as Hpr.
  destruct (lookup_lt_is_Some_2 (items q) (Z.to_nat position)) as [it Hit];
    [lia |].
  set (q1 := set_items
               (<[Z.to_nat position := item_set_version (q_version q) it]>
                  (items q)) q).
  destruct (IncrementVersion_below q1)
    as (q' & Hrun & Hv' & Hst' & Heq & Hl & Ho' & Hd & _).
  { unfold q1. simpl. rewrite length_insert. lia. }
  { exact Hv. }
  { intros p x Hp Hx. change (q_length q1) with (q_length q) in Hp.
    change (q_version q1) with (q_version q).
    unfold q1 in Hx. simpl in Hx.
    destruct (decide (Z.to_nat position = Z.to_nat p)) as [He | Hne].
    - rewrite He in Hx.
      rewrite list_lookup_insert_eq in Hx by lia.
      inversion Hx. simpl. lia.
    - rewrite list_lookup_insert_ne in Hx by exact Hne.
      apply (Hst p x Hp Hx). }
  exists q', position, it. split.
  { unfold ModifyAtOrder. rewrite (bind_Ok get _ q q q eq_refl).
    rewrite (bind_Ok (assert _) _ q tt q)
      by (apply assert_Ok, Z.ltb_lt; lia).
    rewrite (bind_Ok (order_read _order) _ q position q)
      by (apply read_Ok; [lia | exact Hpos]).
    rewrite (bind_Ok _ _ _ _ _
               (items_set_version_Ok position (q_version q) q it
                  ltac:(lia) Hit)).
    exact Hrun. }
  split; [exact Hpos |]. split; [exact Hit |]. split; [exact Hv' |].
  split; [exact Hst' |]. split; [exact Heq |].
  split; [exact Hl |]. split; [exact Ho' | exact Hd].
Qed.

Lemma ModifyAtOrder_stamps_witness :
  let q := set_modes false false false false (queue_ABC_value (fun _ => 0)) in
  stamps_below (q_version q + 1) q
  /\ exists q' position it,
       ModifyAtOrder 1 q = Ok (tt, q')
       /\ order q !! Z.to_nat 1 = Some position
       /\ items q !! Z.to_nat position = Some it
       /\ 1 <= q_version q' < 2 ^ 31 - 1
       /\ stamps_below (q_version q') q'
       /\ (q_version q < 2 ^ 31 - 2 ->
           q' = set_version (q_version q + 1)
                  (set_items (<[Z.to_nat position :=
                                  item_set_version (q_version q) it]>
                                (items q)) q))
       /\ q_length q' = q_length q /\ order q' = order q
       /\ id_to_position q' = id_to_position q.
Proof.
  intros q.
  assert (Hst : stamps_below (q_version q + 1) q).
  { intros p it Hp Hit. simpl in Hp.
    assert (Hc : p = 0 \/ p = 1 \/ p = 2) by lia.
    destruct Hc as [-> | [-> | ->]]; simpl in Hit; inversion Hit; simpl; lia. }
  split; [exact Hst |].
  apply (ModifyAtOrder_stamps q 1);
    [apply Inv_ABC | simpl; lia | simpl; lia | exact Hst].
Defined.

(** ** The songs by position and in playing order *)

Lemma length_songs_of q :
  0 <= q_length q <= Z.of_nat (length (items q)) ->
  length (songs_of q) = Z.to_nat (q_length q).
Proof.
  intros Hl. unfold songs_of. rewrite length_fmap, length_take. lia.
Qed.

Lemma lookup_songs_of q p :
  (p < Z.to_nat (q_length q))%nat ->
  songs_of q !! p = i_song <$> items q !! p.
Proof.
  intros Hp. unfold songs_of.
  rewrite list_lookup_fmap, lookup_take_lt by lia. reflexivity.
Qed.

Lemma length_songs_along_order q :
  0 <= q_length q <= Z.of_nat (length (order q)) ->
  length (songs_along_order q) = Z.to_nat (q_length q).
Proof.
  intros Hl. unfold songs_along_order. rewrite length_fmap, length_take. lia.
Qed.

Lemma lookup_songs_along_order q k o it :
  (k < Z.to_nat (q_length q))%nat ->
  order q !! k = Some o -> items q !! Z.to_nat o = Some it ->
  songs_along_order q !! k = Some (i_song it).
Proof.
  intros Hk Ho Hit. unfold songs_along_order.
  rewrite list_lookup_fmap, lookup_take_lt by lia. rewrite Ho. simpl.
  rewrite (list_lookup_total_correct _ _ _ Hit). reflexivity.
Qed.

(** Under the invariants, every order index of the queue plays an item
    of the queue. *)
Lemma Inv_order_item q k :
  Inv q -> (k < Z.to_nat (q_length q))%nat ->
  exists o it, order q !! k = Some o /\ 0 <= o < q_length q
               /\ items q !! Z.to_nat o = Some it.
Proof.
  intros HI Hk.
  pose proof (Inv_bounds q HI) as (_ & Hli & Hlo & _).
  destruct (inv_perm _ HI) as (_ & Hrange & _).
  destruct (lookup_lt_is_Some_2 (order q) k) as [o Ho]; [lia |].
  pose proof (Hrange k o Hk Ho) as Hor.
  destruct (lookup_lt_is_Some_2 (items q) (Z.to_nat o)) as [it Hit]; [lia |].
  exists o, it. split; [exact Ho |]. split; [lia | exact Hit].
Qed.

(** ** Append *)

(** The queue after [Append], and its songs. *)
Lemma Append_run q song priority cur :
  Inv q -> q_length q < max_length q ->
  exists id q',
    Append song priority cur q = Ok (id, q')
    /\ Inv q'
    /\ queue_generate_id cur q = Ok (id, q)
    /\ id_to_position q !! Z.to_nat id = Some (-1)
    /\ q' = set_length (q_length q + 1)
              (set_id_to_position
                 (<[Z.to_nat id := q_length q]> (id_to_position q))
                 (set_order
                    (<[Z.to_nat (q_length q) := q_length q]> (order q))
                    (set_items
                       (<[Z.to_nat (q_length q) :=
                            mk_item song id (q_version q) priority]>
                          (items q)) q)))
    /\ songs_of q' = songs_of q ++ [song]
    /\ songs_along_order q' = songs_along_order q ++ [song].
Proof.
  intros HI Hlt.
  pose proof (Inv_bounds q HI) as (Hn & Hli & Hlo & _).
  pose proof (inv_length _ HI) as Hlen.
  assert (Hitl : (Z.to_nat (q_length q) < length (items q))%nat)
    by (rewrite (inv_items _ HI); lia).
  assert (Horl : (Z.to_nat (q_length q) < length (order q))%nat)
    by (rewrite (inv_order _ HI); lia).
  destruct (wp_Append_effect song priority cur
    (fun id q' =>
       Inv q'
       /\ queue_generate_id cur q = Ok (id, q)
       /\ id_to_position q !! Z.to_nat id = Some (-1)
       /\ q' = set_length (q_length q + 1)
                 (set_id_to_position
                    (<[Z.to_nat id := q_length q]> (id_to_position q))
                    (set_order
                       (<[Z.to_nat (q_length q) := q_length q]> (order q))
                       (set_items
                          (<[Z.to_nat (q_length q) :=
                               mk_item song id (q_version q) priority]>
                             (items q)) q)))) q HI Hlt)
    as (id & q' & Hrun & HI' & Hgen & Hfree & Hq').
  { intros id q' HI' _ _ _ _ (Hgen & Hfree & Hq'). auto. }
  exists id, q'. split; [exact Hrun |]. split; [exact HI' |].
  split; [exact Hgen |]. split; [exact Hfree |]. split; [exact Hq' |].
  assert (Hnew : items q' !! Z.to_nat (q_length q)
                 = Some (mk_item song id (q_version q) priority)).
  { rewrite Hq'. simpl. apply list_lookup_insert_eq. lia. }
  assert (Hlast : order q' !! Z.to_nat (q_length q) = Some (q_length q)).
  { rewrite Hq'. simpl. apply list_lookup_insert_eq. lia. }
  assert (Hl' : q_length q' = q_length q + 1) by (rewrite Hq'; reflexivity).
  split.
  { unfold songs_of. rewrite Hl'.
    replace (Z.to_nat (q_length q + 1)) with (S (Z.to_nat (q_length q)))
      by lia.
    rewrite (take_S_r _ _ _ Hnew), fmap_app. simpl. f_equal.
    rewrite Hq'. simpl. rewrite take_insert_ge by lia. reflexivity. }
  unfold songs_along_order. rewrite Hl'.
  replace (Z.to_nat (q_length q + 1)) with (S (Z.to_nat (q_length q)))
    by lia.
  rewrite (take_S_r _ _ _ Hlast), fmap_app. simpl.
  rewrite (list_lookup_total_correct _ _ _ Hnew). simpl. f_equal.
  assert (Ht : take (Z.to_nat (q_length q)) (order q')
               = take (Z.to_nat (q_length q)) (order q)).
  { rewrite Hq'. simpl. apply take_insert_ge. lia. }
  rewrite Ht. apply list_fmap_ext. intros k o Ho.
  apply lookup_take_Some in Ho as [Ho Hk].
  destruct (inv_perm _ HI) as (_ & Hrange & _).
  pose proof (Hrange k o Hk Ho) as Hor.
  rewrite !list_lookup_total_alt.
  rewrite Hq'. simpl. rewrite list_lookup_insert_ne by lia. reflexivity.
Qed.

(** X15: below capacity, [Append] returns the identifier that
    [queue_generate_id] hands out, which was free; the new item, with the
    song, the identifier, the current version as its stamp and the
    priority, is the last one by position and the last one in playing
    order; the IdMap binds the identifier to that position; the items,
    the order entries and the IdMap slots that were there are kept, the
    version counter is not incremented, and the invariants hold again. *)
Theorem Append_appends q song priority cur :
  Inv q -> q_length q < max_length q -> 0 <= priority < 256 ->
  exists id q',
    Append song priority cur q = Ok (id, q')
    /\ queue_generate_id cur q = Ok (id, q)
    /\ id_to_position q !! Z.to_nat id = Some (-1)
    /\ q_length q' = q_length q + 1
    /\ songs_of q' = songs_of q ++ [song]
    /\ songs_along_order q' = songs_along_order q ++ [song]
    /\ items q' !! Z.to_nat (q_length q)
       = Some (mk_item song id (q_version q) priority)
    /\ order q' !! Z.to_nat (q_length q) = Some (q_length q)
    /\ id_to_position q' !! Z.to_nat id = Some (q_length q)
    /\ (forall p, (p < Z.to_nat (q_length q))%nat ->
          items q' !! p = items q !! p /\ order q' !! p = order q !! p)
    /\ (forall j, j <> Z.to_nat id ->
          id_to_position q' !! j = id_to_position q !! j)
    /\ q_version q' = q_version q
    /\ Inv q'.
Proof.
  intros HI Hlt Hprio.
  pose proof (Inv_bounds q HI) as (Hn & Hli & Hlo & _).
  pose proof (inv_length _ HI) as Hlen.
  assert (Hitl : (Z.to_nat (q_length q) < length (items q))%nat)
    by (rewrite (inv_items _ HI); lia).
  assert (Horl : (Z.to_nat (q_length q) < length (order q))%nat)
    by (rewrite (inv_order _ HI); lia).
  destruct (Append_run q song priority cur HI Hlt)
    as (id & q' & Hrun & HI' & Hgen & Hfree & Hq' & Hsongs & Hplay).
  exists id, q'. split; [exact Hrun |]. split; [exact Hgen |].
  split; [exact Hfree |].
  split; [rewrite Hq'; reflexivity |].
  split; [exact Hsongs |]. split; [exact Hplay |].
  split; [rewrite Hq'; simpl; apply list_lookup_insert_eq; lia |].
  split; [rewrite Hq'; simpl; apply list_lookup_insert_eq; lia |].
  split.
  { rewrite Hq'. simpl. apply list_lookup_insert_eq.
    apply lookup_lt_Some in Hfree. exact Hfree. }
  split.
  { intros p Hp. rewrite Hq'. simpl.
    rewrite !list_lookup_insert_ne by lia. split; reflexivity. }
  split.
  { intros j Hj. rewrite Hq'. simpl.
    apply list_lookup_insert_ne. congruence. }
  split; [rewrite Hq'; reflexivity | exact HI'].
Qed.

Lemma Append_appends_witness :
  let q := queue_new 3 (fun _ => 0) in
  Inv q /\ q_length q < max_length q
  /\ exists id q',
       Append 70 5 G_MAXUINT q = Ok (id, q')
       /\ queue_generate_id G_MAXUINT q = Ok (id, q)
       /\ id_to_position q !! Z.to_nat id = Some (-1)
       /\ q_length q' = q_length q + 1
       /\ songs_of q' = songs_of q ++ [70]
       /\ songs_along_order q' = songs_along_order q ++ [70]
       /\ items q' !! Z.to_nat (q_length q)
          = Some (mk_item 70 id (q_version q) 5)
       /\ order q' !! Z.to_nat (q_length q) = Some (q_length q)
       /\ id_to_position q' !! Z.to_nat id = Some (q_length q)
       /\ (forall p, (p < Z.to_nat (q_length q))%nat ->
             items q' !! p = items q !! p /\ order q' !! p = order q !! p)
       /\ (forall j, j <> Z.to_nat id ->
             id_to_position q' !! j = id_to_position q !! j)
       /\ q_version q' = q_version q
       /\ Inv q'.
Proof.
  intros q.
  assert (HI : Inv q) by (apply Inv_queue_new; [lia | reflexivity]).
  split; [exact HI |]. split; [simpl; lia |].
  apply (Append_appends q 70 5 G_MAXUINT HI); simpl; lia.
Defined.

(** Appending the songs of a list one after the other, on a queue
    with room for them, returns; the songs are added at the end, both by
    position and in playing order, in the order of the list, and the
    invariants hold again. *)
Lemma append_all_appends songs : forall q cur,
  Inv q -> q_length q + Z.of_nat (length songs) <= max_length q ->
  exists cur' q',
    append_all songs cur q = Ok (cur', q')
    /\ Inv q'
    /\ q_length q' = q_length q + Z.of_nat (length songs)
    /\ songs_of q' = songs_of q ++ songs
    /\ songs_along_order q' = songs_along_order q ++ songs.
Proof.
  induction songs as [| s songs IH]; intros q cur HI Hroom.
  - exists cur, q. split; [reflexivity |]. split; [exact HI |].
    split; [simpl; lia |]. rewrite !app_nil_r. split; reflexivity.
  - simpl in Hroom.
    destruct (Append_run q s 0 cur HI ltac:(lia))
      as (id & q1 & Hrun & HI1 & _ & _ & Hq1 & Hsongs & Hplay).
    assert (Hl1 : q_length q1 = q_length q + 1) by (rewrite Hq1; reflexivity).
    assert (Hm1 : max_length q1 = max_length q) by (rewrite Hq1; reflexivity).
    destruct (IH q1 id HI1 ltac:(lia))
      as (cur' & q' & Hrun' & HI' & Hl' & Hsongs' & Hplay').
    exists cur', q'. split.
    { simpl. rewrite (bind_Ok _ _ _ _ _ Hrun). exact Hrun'. }
    split; [exact HI' |]. split; [simpl length; lia |].
    rewrite Hsongs', Hsongs, Hplay', Hplay, <- !app_assoc.
    split; reflexivity.
Qed.





(** ** What a rearrangement of the items does *)

(** After the items have been rearranged, position [p] holds the item
    that was at position [s p]. *)
Lemma moved_lookup q q' s p :
  moved (q_length q) (fun _ => False) (fun _ => False) s q
    (set_order (order q) q') ->
  0 <= p < q_length q ->
  exists it it0,
    items q' !! Z.to_nat p = Some it
    /\ items q !! Z.to_nat (s p) = Some it0
    /\ same_item it0 it
    /\ 0 <= s p < q_length q
    /\ id_to_position q' !! Z.to_nat (i_id it0) = Some p.
Proof.
  intros Hmv Hp.
  destruct (mv_item _ _ _ _ _ _ Hmv p Hp ltac:(tauto))
    as (it & it0 & Hit & Hit0 & Hsame).
  destruct (mv_idmap _ _ _ _ _ _ Hmv p it Hp ltac:(tauto) Hit) as [_ Hid].
  destruct (mv_src _ _ _ _ _ _ Hmv p Hp ltac:(tauto)) as [Hs _].
  exists it, it0. simpl in Hit, Hid.
  destruct Hsame as (Hs1 & Hs2 & Hs3). rewrite <- Hs2 in Hid.
  repeat split; try assumption; lia.
Qed.

Lemma same_item_entry_of a b : same_item a b <-> entry_of a = entry_of b.
Proof.
  unfold same_item, entry_of. split.
  - intros (-> & -> & ->). reflexivity.
  - intros H. inversion H. auto.
Qed.

Lemma songs_of_entries_of q : songs_of q = (fun e => e.1.1) <$> entries_of q.
Proof.
  unfold songs_of, entries_of. rewrite <- list_fmap_compose. reflexivity.
Qed.

Lemma lookup_entries_of q p :
  (p < Z.to_nat (q_length q))%nat ->
  entries_of q !! p = entry_of <$> items q !! p.
Proof.
  intros Hp. unfold entries_of.
  rewrite list_lookup_fmap, lookup_take_lt by lia. reflexivity.
Qed.

Lemma length_entries_of q :
  0 <= q_length q <= Z.of_nat (length (items q)) ->
  length (entries_of q) = Z.to_nat (q_length q).
Proof.
  intros Hl. unfold entries_of. rewrite length_fmap, length_take. lia.
Qed.

Lemma fmap_move_range_spec {A B} (f : A -> B) start end_ to (l : list A) :
  f <$> move_range_spec start end_ to l
  = move_range_spec start end_ to (f <$> l).
Proof.
  unfold move_range_spec.
  rewrite !fmap_app, !fmap_take, !fmap_drop, !fmap_app, !fmap_take,
    !fmap_drop. reflexivity.
Qed.

(** The live items by position, after the rearrangement. *)
Lemma moved_entries_of q q' s (L : list (Z * Z * Z)) :
  moved (q_length q) (fun _ => False) (fun _ => False) s q
    (set_order (order q) q') ->
  length L = Z.to_nat (q_length q) ->
  (forall k, (k < Z.to_nat (q_length q))%nat ->
     L !! k = entries_of q !! Z.to_nat (s (Z.of_nat k))) ->
  entries_of q' = L.
Proof.
  intros Hmv HL Hk.
  pose proof (mv_frame _ _ _ _ _ _ Hmv) as (_ & Hl & _).
  simpl in Hl.
  apply list_eq. intros k.
  destruct (decide (k < Z.to_nat (q_length q))%nat) as [Hlt | Hge].
  - destruct (moved_lookup q q' s (Z.of_nat k) Hmv ltac:(lia))
      as (it & it0 & Hit & Hit0 & Hsame & Hsr & _).
    rewrite Nat2Z.id in Hit.
    rewrite lookup_entries_of by lia. rewrite Hit.
    rewrite (Hk k Hlt). rewrite lookup_entries_of by lia.
    rewrite Hit0. simpl. f_equal. symmetry.
    apply same_item_entry_of, Hsame.
  - rewrite (lookup_ge_None_2 L) by lia.
    apply lookup_ge_None_2. unfold entries_of.
    rewrite length_fmap, length_take. lia.
Qed.

(** Where every item went, [F] being the inverse of [s]. *)
Lemma moved_item_to q q' s (F : Z -> Z) p it :
  moved (q_length q) (fun _ => False) (fun _ => False) s q
    (set_order (order q) q') ->
  (forall o, 0 <= o < q_length q -> 0 <= F o < q_length q /\ s (F o) = o) ->
  0 <= p < q_length q ->
  items q !! Z.to_nat p = Some it ->
  exists it', items q' !! Z.to_nat (F p) = Some it'
              /\ same_item it it'
              /\ id_to_position q' !! Z.to_nat (i_id it) = Some (F p).
Proof.
  intros Hmv HF Hp Hit.
  destruct (HF p Hp) as [HFr HFs].
  destruct (moved_lookup q q' s (F p) Hmv HFr)
    as (it' & it0 & Hit' & Hit0 & Hsame & _ & Hid).
  rewrite HFs in Hit0. assert (it0 = it) by congruence. subst it0.
  exists it'. repeat split; try assumption; apply Hsame.
Qed.

(** The songs in playing order, when the order array has been rewritten
    with the inverse of [s]. *)
Lemma moved_songs_along_order q q' s (F : Z -> Z) :
  Inv q ->
  moved (q_length q) (fun _ => False) (fun _ => False) s q
    (set_order (order q) q') ->
  (forall o, 0 <= o < q_length q -> 0 <= F o < q_length q /\ s (F o) = o) ->
  order q' = map_prefix F (Z.to_nat (q_length q)) (order q) ->
  songs_along_order q' = songs_along_order q.
Proof.
  intros HI Hmv HF Hord.
  pose proof (mv_frame _ _ _ _ _ _ Hmv) as (_ & Hl & _).
  simpl in Hl.
  pose proof (Inv_bounds q HI) as (_ & Hli & Hlo & _).
  pose proof (inv_length _ HI) as Hlen.
  apply list_eq. intros k.
  destruct (decide (k < Z.to_nat (q_length q))%nat) as [Hlt | Hge].
  - destruct (Inv_order_item q k HI Hlt) as (o & it & Ho & Hor & Hit).
    destruct (moved_item_to q q' s F o it Hmv HF Hor Hit)
      as (it' & Hit' & (Hsong & _) & _).
    rewrite (lookup_songs_along_order q k o it Hlt Ho Hit).
    rewrite (lookup_songs_along_order q' k (F o) it');
      [congruence | lia | | exact Hit'].
    rewrite Hord, lookup_map_prefix.
    destruct (decide (k < Z.to_nat (q_length q))%nat); [| lia].
    rewrite Ho. reflexivity.
  - rewrite !lookup_ge_None_2; [reflexivity | |];
      unfold songs_along_order; rewrite length_fmap, length_take; lia.
Qed.

(** ** MoveRange and MovePostion on every queue *)

(** The facts about [MoveRange] that the properties below share. *)
Lemma MoveRange_run q start end_ to :
  Inv q ->
  0 <= start <= end_ -> end_ <= q_length q ->
  0 <= to -> to + (end_ - start) <= q_length q ->
  exists q',
    MoveRange start end_ to q = Ok (tt, q')
    /\ Inv q'
    /\ q_length q' = q_length q /\ q_version q' = q_version q
    /\ max_length q' = max_length q
    /\ moved (q_length q) (fun _ => False) (fun _ => False)
         (MoveRange_source start end_ to) q (set_order (order q) q')
    /\ (q_random q = false -> order q' = order q)
    /\ (q_random q = true ->
        order q' = map_prefix (MoveRange_order start end_ to)
                     (Z.to_nat (q_length q)) (order q)).
Proof.
  intros HI Hse He Ht Hte.
  destruct (wp_MoveRange_order start end_ to
    (fun _ q' =>
       Inv q'
       /\ q_length q' = q_length q /\ q_version q' = q_version q
       /\ max_length q' = max_length q
       /\ moved (q_length q) (fun _ => False) (fun _ => False)
            (MoveRange_source start end_ to) q (set_order (order q) q')
       /\ (q_random q = false -> order q' = order q)
       /\ (q_random q = true ->
           order q' = map_prefix (MoveRange_order start end_ to)
                        (Z.to_nat (q_length q)) (order q))) q HI)
    as ([] & q' & Hrun & Hpost); try assumption.
  { intros q' HI' (Hm & Hl & _ & Hv) Hmv _ Hnr Hr.
    do 6 (split; [assumption |]). assumption. }
  exists q'. split; [exact Hrun | exact Hpost].
Qed.

(** X17: on every queue that satisfies the invariants, [MoveRange]
    returns when the block lies in the queue and the destination is at
    most [length - (end - start)]; the live items, taken with song,
    identifier and priority, are the old ones with the block
    [start .. end - 1] removed and inserted again at index [to] of the
    remaining sequence, and so are the songs; the invariants hold again,
    so that the IdMap binds every identifier to the new position of its
    item; length and version counter are kept. *)
Theorem MoveRange_moves_block q start end_ to :
  Inv q ->
  0 <= start <= end_ -> end_ <= q_length q ->
  0 <= to -> to + (end_ - start) <= q_length q ->
  exists q',
    MoveRange start end_ to q = Ok (tt, q')
    /\ Inv q'
    /\ q_length q' = q_length q /\ q_version q' = q_version q
    /\ entries_of q'
       = move_range_spec (Z.to_nat start) (Z.to_nat end_) (Z.to_nat to)
           (entries_of q)
    /\ songs_of q'
       = move_range_spec (Z.to_nat start) (Z.to_nat end_) (Z.to_nat to)
           (songs_of q).
Proof.
  intros HI Hse He Ht Hte.
  pose proof (Inv_bounds q HI) as (_ & Hli & _).
  destruct (MoveRange_run q start end_ to HI Hse He Ht Hte)
    as (q' & Hrun & HI' & Hl & Hv & _ & Hmv & _).
  assert (Hent : entries_of q'
                 = move_range_spec (Z.to_nat start) (Z.to_nat end_)
                     (Z.to_nat to) (entries_of q)).
  { apply (moved_entries_of q q' (MoveRange_source start end_ to));
      [exact Hmv | |].
    - rewrite length_move_range_spec; rewrite ?length_entries_of; lia.
    - intros k Hk.
      rewrite lookup_move_range_spec by (rewrite ?length_entries_of; lia).
      rewrite !Z2Nat.id by lia. reflexivity. }
  exists q'. split; [exact Hrun |]. split; [exact HI' |].
  split; [exact Hl |]. split; [exact Hv |]. split; [exact Hent |].
  rewrite !songs_of_entries_of, Hent. apply fmap_move_range_spec.
Qed.

Lemma MoveRange_moves_block_witness :
  let q := set_order [4; 2; 0; 1; 3]
             (queue_ABCDE_value false false false true (fun _ => 0)) in
  Inv q
  /\ exists q',
       MoveRange 3 5 0 q = Ok (tt, q')
       /\ Inv q'
       /\ q_length q' = q_length q /\ q_version q' = q_version q
       /\ entries_of q'
          = move_range_spec (Z.to_nat 3) (Z.to_nat 5) (Z.to_nat 0)
              (entries_of q)
       /\ songs_of q'
          = move_range_spec (Z.to_nat 3) (Z.to_nat 5) (Z.to_nat 0)
              (songs_of q).
Proof.
  intros q.
  assert (HI : Inv q).
  { apply Inv_ABCDE. apply (bool_decide_unpack _). vm_compute. reflexivity. }
  split; [exact HI |].
  apply (MoveRange_moves_block q 3 5 0 HI); simpl; lia.
Defined.

(** X18: [MoveRange] keeps the playing sequence: in random mode the order
    array is rewritten so that every order index plays the song it
    played before, with the priority it had; outside random mode the
    order array is not touched. *)
Theorem MoveRange_keeps_playing_order q start end_ to :
  Inv q ->
  0 <= start <= end_ -> end_ <= q_length q ->
  0 <= to -> to + (end_ - start) <= q_length q ->
  exists q',
    MoveRange start end_ to q = Ok (tt, q')
    /\ (q_random q = true ->
        songs_along_order q' = songs_along_order q
        /\ priorities_along_order q' = priorities_along_order q)
    /\ (q_random q = false -> order q' = order q).
Proof.
  intros HI Hse He Ht Hte.
  pose proof (Inv_bounds q HI) as (Hn & Hli & Hlo & _).
  destruct (MoveRange_run q start end_ to HI Hse He Ht Hte)
    as (q' & Hrun & HI' & Hl & Hv & _ & Hmv & Hnr & Hr).
  exists q'. split; [exact Hrun |]. split; [| exact Hnr].
  intros Hrnd.
  assert (HF : forall o, 0 <= o < q_length q ->
    0 <= MoveRange_order start end_ to o < q_length q
    /\ MoveRange_source start end_ to (MoveRange_order start end_ to o) = o).
  { intros o Ho.
    apply (MoveRange_order_spec start end_ to (q_length q)); lia. }
  split.
  - apply (moved_songs_along_order q q' _ _ HI Hmv HF (Hr Hrnd)).
  - pose proof (Inv_bounds q' HI') as (_ & _ & Hlo' & _).
    apply list_eq. intros k.
    destruct (decide (k < Z.to_nat (q_length q))%nat) as [Hk | Hk].
    + rewrite !lookup_priorities_along_order by lia. f_equal.
      apply (prio_at_moved q (set_order (order q) q') q'
               (MoveRange_source start end_ to)
               (MoveRange_order start end_ to));
        [exact Hmv | apply (inv_perm _ HI) | reflexivity | exact Hk | | exact HF].
      intros o Ho. rewrite (Hr Hrnd), lookup_map_prefix.
      destruct (decide (k < Z.to_nat (q_length q))%nat); [| lia].
      rewrite Ho. reflexivity.
    + rewrite !lookup_ge_None_2; [reflexivity | |];
        unfold priorities_along_order; rewrite length_fmap, length_take; lia.
Qed.

Lemma MoveRange_keeps_playing_order_witness :
  let q := set_order [4; 2; 0; 1; 3]
             (queue_ABCDE_value false false false true (fun _ => 0)) in
  Inv q
  /\ exists q',
       MoveRange 3 5 0 q = Ok (tt, q')
       /\ (q_random q = true ->
           songs_along_order q' = songs_along_order q
           /\ priorities_along_order q' = priorities_along_order q)
       /\ (q_random q = false -> order q' = order q).
Proof.
  intros q.
  assert (HI : Inv q).
  { apply Inv_ABCDE. apply (bool_decide_unpack _). vm_compute. reflexivity. }
  split; [exact HI |].
  apply (MoveRange_keeps_playing_order q 3 5 0 HI); simpl; lia.
Defined.

(** The facts about [MovePostion] that the properties below share. *)
Lemma MovePostion_run q from to :
  Inv q ->
  0 <= from < q_length q -> 0 <= to < q_length q ->
  exists q',
    MovePostion from to q = Ok (tt, q')
    /\ Inv q'
    /\ q_length q' = q_length q /\ q_version q' = q_version q
    /\ max_length q' = max_length q
    /\ moved (q_length q) (fun _ => False) (fun _ => False)
         (MovePostion_source from to) q (set_order (order q) q')
    /\ (q_random q = false -> order q' = order q)
    /\ (q_random q = true ->
        order q' = map_prefix (MovePostion_order from to)
                     (Z.to_nat (q_length q)) (order q)).
Proof.
  intros HI Hf Ht.
  destruct (wp_MovePostion_order from to
    (fun _ q' =>
       Inv q'
       /\ q_length q' = q_length q /\ q_version q' = q_version q
       /\ max_length q' = max_length q
       /\ moved (q_length q) (fun _ => False) (fun _ => False)
            (MovePostion_source from to) q (set_order (order q) q')
       /\ (q_random q = false -> order q' = order q)
       /\ (q_random q = true ->
           order q' = map_prefix (MovePostion_order from to)
                        (Z.to_nat (q_length q)) (order q))) q HI)
    as ([] & q' & Hrun & Hpost); try assumption.
  { intros q' HI' (Hm & Hl & _ & Hv) Hmv _ Hnr Hr.
    do 6 (split; [assumption |]). assumption. }
  exists q'. split; [exact Hrun | exact Hpost].
Qed.

Lemma MovePostion_source_eq from to p :
  MovePostion_source from to p = MoveRange_source from (from + 1) to p.
Proof.
  unfold MovePostion_source, MoveRange_source. repeat case_decide; lia.
Qed.

(** X19: on every queue that satisfies the invariants, [MovePostion]
    returns for two positions of the queue; the live items, taken with
    song, identifier and priority, are the old ones with the item at
    [from] removed and inserted again at index [to], and so are the
    songs; the invariants hold again, so that the IdMap binds every
    identifier to the new position of its item; length and version
    counter are kept. *)
Theorem MovePostion_moves_item q from to :
  Inv q ->
  0 <= from < q_length q -> 0 <= to < q_length q ->
  exists q',
    MovePostion from to q = Ok (tt, q')
    /\ Inv q'
    /\ q_length q' = q_length q /\ q_version q' = q_version q
    /\ entries_of q'
       = move_range_spec (Z.to_nat from) (S (Z.to_nat from)) (Z.to_nat to)
           (entries_of q)
    /\ songs_of q'
       = move_range_spec (Z.to_nat from) (S (Z.to_nat from)) (Z.to_nat to)
           (songs_of q).
Proof.
  intros HI Hf Ht.
  pose proof (Inv_bounds q HI) as (_ & Hli & _).
  destruct (MovePostion_run q from to HI Hf Ht)
    as (q' & Hrun & HI' & Hl & Hv & _ & Hmv & _).
  assert (Hent : entries_of q'
                 = move_range_spec (Z.to_nat from) (S (Z.to_nat from))
                     (Z.to_nat to) (entries_of q)).
  { apply (moved_entries_of q q' (MovePostion_source from to));
      [exact Hmv | |].
    - rewrite length_move_range_spec; rewrite ?length_entries_of; lia.
    - intros k Hk.
      rewrite lookup_move_range_spec by (rewrite ?length_entries_of; lia).
      rewrite MovePostion_source_eq.
      replace (Z.of_nat (S (Z.to_nat from))) with (from + 1) by lia.
      rewrite !Z2Nat.id by lia. reflexivity. }
  exists q'. split; [exact Hrun |]. split; [exact HI' |].
  split; [exact Hl |]. split; [exact Hv |]. split; [exact Hent |].
  rewrite !songs_of_entries_of, Hent. apply fmap_move_range_spec.
Qed.

Lemma MovePostion_moves_item_witness :
  let q := set_order [4; 2; 0; 1; 3]
             (queue_ABCDE_value false false false true (fun _ => 0)) in
  Inv q
  /\ exists q',
       MovePostion 4 1 q = Ok (tt, q')
       /\ Inv q'
       /\ q_length q' = q_length q /\ q_version q' = q_version q
       /\ entries_of q'
          = move_range_spec (Z.to_nat 4) (S (Z.to_nat 4)) (Z.to_nat 1)
              (entries_of q)
       /\ songs_of q'
          = move_range_spec (Z.to_nat 4) (S (Z.to_nat 4)) (Z.to_nat 1)
              (songs_of q).
Proof.
  intros q.
  assert (HI : Inv q).
  { apply Inv_ABCDE. apply (bool_decide_unpack _). vm_compute. reflexivity. }
  split; [exact HI |].
  apply (MovePostion_moves_item q 4 1 HI); simpl; lia.
Defined.

(** [MovePostion] keeps the playing sequence: in random mode the
    order array is rewritten so that every order index plays the song it
    played before, with the priority it had; outside random mode the
    order array is not touched. *)
Lemma MovePostion_keeps_playing_order q from to :
  Inv q ->
  0 <= from < q_length q -> 0 <= to < q_length q ->
  exists q',
    MovePostion from to q = Ok (tt, q')
    /\ (q_random q = true ->
        songs_along_order q' = songs_along_order q
        /\ priorities_along_order q' = priorities_along_order q)
    /\ (q_random q = false -> order q' = order q).
Proof.
  intros HI Hf Ht.
  pose proof (Inv_bounds q HI) as (Hn & Hli & Hlo & _).
  destruct (MovePostion_run q from to HI Hf Ht)
    as (q' & Hrun & HI' & Hl & Hv & _ & Hmv & Hnr & Hr).
  exists q'. split; [exact Hrun |]. split; [| exact Hnr].
  intros Hrnd.
  assert (HF : forall o, 0 <= o < q_length q ->
    0 <= MovePostion_order from to o < q_length q
    /\ MovePostion_source from to (MovePostion_order from to o) = o).
  { intros o Ho. apply (MovePostion_order_spec from to (q_length q)); lia. }
  split.
  - apply (moved_songs_along_order q q' _ _ HI Hmv HF (Hr Hrnd)).
  - pose proof (Inv_bounds q' HI') as (_ & _ & Hlo' & _).
    apply list_eq. intros k.
    destruct (decide (k < Z.to_nat (q_length q))%nat) as [Hk | Hk].
    + rewrite !lookup_priorities_along_order by lia. f_equal.
      apply (prio_at_moved q (set_order (order q) q') q'
               (MovePostion_source from to) (MovePostion_order from to));
        [exact Hmv | apply (inv_perm _ HI) | reflexivity | exact Hk | | exact HF].
      intros o Ho. rewrite (Hr Hrnd), lookup_map_prefix.
      destruct (decide (k < Z.to_nat (q_length q))%nat); [| lia].
      rewrite Ho. reflexivity.
    + rewrite !lookup_ge_None_2; [reflexivity | |];
        unfold priorities_along_order; rewrite length_fmap, length_take; lia.
Qed.

(** ** The IdMap is determined by the live items *)

Lemma Inv_idmap_eq q1 q2 :
  Inv q1 -> Inv q2 ->
  max_length q1 = max_length q2 -> q_length q1 = q_length q2 ->
  entries_of q1 = entries_of q2 ->
  id_to_position q1 = id_to_position q2.
Proof.
  intros HI1 HI2 Hm Hl Hent.
  pose proof (Inv_bounds q1 HI1) as (_ & Hli1 & _).
  pose proof (Inv_bounds q2 HI2) as (_ & Hli2 & _).
  pose proof (inv_length _ HI1) as Hlen1.
  assert (Hlen : length (id_to_position q1) = length (id_to_position q2)).
  { rewrite (inv_idmap _ HI1), (inv_idmap _ HI2), Hm. reflexivity. }
  assert (Hitem : forall p it1, 0 <= p < q_length q1 ->
    items q1 !! Z.to_nat p = Some it1 ->
    exists it2, items q2 !! Z.to_nat p = Some it2 /\ i_id it2 = i_id it1).
  { intros p it1 Hp H1.
    destruct (lookup_lt_is_Some_2 (items q2) (Z.to_nat p)) as [it2 H2];
      [lia |].
    exists it2. split; [exact H2 |].
    assert (He : entries_of q1 !! Z.to_nat p = entries_of q2 !! Z.to_nat p)
      by (rewrite Hent; reflexivity).
    rewrite !lookup_entries_of in He by lia.
    rewrite H1, H2 in He. simpl in He. inversion He. auto. }
  apply list_eq. intros j.
  destruct (decide (j < length (id_to_position q1))%nat) as [Hj | Hj];
    [| rewrite !lookup_ge_None_2 by lia; reflexivity].
  destruct (decide (Exists (fun e => Z.to_nat e.1.2 = j) (entries_of q1)))
    as [Hex | Hno].
  - apply Exists_exists in Hex as (e & Hin & He).
    apply list_elem_of_lookup in Hin as [p Hp].
    assert (Hpl : (p < Z.to_nat (q_length q1))%nat).
    { apply lookup_lt_Some in Hp. rewrite length_entries_of in Hp; lia. }
    rewrite lookup_entries_of in Hp by lia.
    destruct (items q1 !! p) as [it1 |] eqn:H1; [| discriminate].
    simpl in Hp. inversion Hp; subst e. simpl in He.
    destruct (Hitem (Z.of_nat p) it1 ltac:(lia)
                ltac:(rewrite Nat2Z.id; exact H1)) as (it2 & H2 & Hid).
    destruct (inv_ids _ HI1 (Z.of_nat p) it1 ltac:(lia)
                ltac:(rewrite Nat2Z.id; exact H1)) as [_ Hs1].
    destruct (inv_ids _ HI2 (Z.of_nat p) it2 ltac:(lia) H2) as [_ Hs2].
    rewrite Hid in Hs2. rewrite He in Hs1, Hs2. congruence.
  - assert (Hfree : forall q, Inv q -> entries_of q = entries_of q1 ->
      q_length q = q_length q1 ->
      (j < length (id_to_position q))%nat ->
      id_to_position q !! j = Some (-1)).
    { intros q HI He Hlq Hjq. apply (Inv_slot_free q j HI Hjq).
      intros p it Hp Hit Hc. apply Hno. apply Exists_exists.
      exists (entry_of it). split; [| exact Hc].
      apply list_elem_of_lookup. exists (Z.to_nat p).
      rewrite <- He, lookup_entries_of by lia. rewrite Hit. reflexivity. }
    rewrite (Hfree q1 HI1 eq_refl eq_refl Hj).
    rewrite (Hfree q2 HI2 (eq_sym Hent) (eq_sym Hl) ltac:(lia)).
    reflexivity.
Qed.

Lemma map_prefix_ext {A} (f g : A -> A) n (l : list A) :
  (forall k x, (k < n)%nat -> l !! k = Some x -> f x = g x) ->
  map_prefix f n l = map_prefix g n l.
Proof.
  intros H. apply list_eq. intros k. rewrite !lookup_map_prefix.
  destruct (decide (k < n)%nat); [| reflexivity].
  destruct (l !! k) as [x |] eqn:Hx; [| reflexivity].
  simpl. f_equal. apply (H k x); assumption.
Qed.

(** X20: [MovePostion from to] is the one-item case of [MoveRange]: on
    every queue that satisfies the invariants, for two positions of the
    queue, both return, and the two results carry the same items (song,
    identifier and priority) at the same positions, the same order array
    and the same IdMap. *)
Theorem MovePostion_is_MoveRange q from to :
  Inv q ->
  0 <= from < q_length q -> 0 <= to < q_length q ->
  exists q1 q2,
    MovePostion from to q = Ok (tt, q1)
    /\ MoveRange from (from + 1) to q = Ok (tt, q2)
    /\ entries_of q1 = entries_of q2
    /\ order q1 = order q2
    /\ id_to_position q1 = id_to_position q2
    /\ q_length q1 = q_length q2 /\ q_version q1 = q_version q2.
Proof.
  intros HI Hf Ht.
  pose proof (Inv_bounds q HI) as (Hn & Hli & Hlo & _).
  destruct (MovePostion_run q from to HI Hf Ht)
    as (q1 & Hrun1 & HI1 & Hl1 & Hv1 & Hm1 & Hmv1 & Hnr1 & Hr1).
  destruct (MoveRange_run q from (from + 1) to HI)
    as (q2 & Hrun2 & HI2 & Hl2 & Hv2 & Hm2 & Hmv2 & Hnr2 & Hr2); try lia.
  pose proof (Inv_bounds q2 HI2) as (_ & Hli2 & _).
  assert (Hent : entries_of q1 = entries_of q2).
  { apply (moved_entries_of q q1 (MovePostion_source from to));
      [exact Hmv1 | rewrite length_entries_of; lia |].
    intros k Hk.
    destruct (moved_lookup q q2 _ (Z.of_nat k) Hmv2 ltac:(lia))
      as (it & it0 & Hit & Hit0 & Hsame & Hsr & _).
    rewrite Nat2Z.id in Hit.
    rewrite MovePostion_source_eq.
    rewrite !lookup_entries_of by lia. rewrite Hit, Hit0. simpl. f_equal.
    symmetry. apply same_item_entry_of, Hsame. }
  exists q1, q2. split; [exact Hrun1 |]. split; [exact Hrun2 |].
  split; [exact Hent |]. split.
  { destruct (q_random q) eqn:Hrnd.
    - rewrite (Hr1 eq_refl), (Hr2 eq_refl). apply map_prefix_ext.
      intros k o Hk Ho.
      destruct (inv_perm _ HI) as (_ & Hrange & _).
      pose proof (Hrange k o Hk Ho) as Hor.
      rewrite (MoveRange_order_eq from (from + 1) to (q_length q)) by lia.
      unfold MovePostion_order.
      destruct (Z.ltb_spec from o); destruct (Z.leb_spec o to); simpl;
        [rewrite wrap_small by (rewrite UINT_MOD_eq; lia);
         repeat case_decide; lia | ..];
        (destruct (Z.ltb_spec o from); destruct (Z.leb_spec to o); simpl;
         [rewrite wrap_small by (rewrite UINT_MOD_eq; lia);
          repeat case_decide; lia | ..]);
        destruct (Z.eqb_spec from o); repeat case_decide; lia.
    - rewrite (Hnr1 eq_refl), (Hnr2 eq_refl). reflexivity. }
  split; [| split; lia].
  apply Inv_idmap_eq; try assumption; lia.
Qed.

Lemma MovePostion_is_MoveRange_witness :
  let q := set_order [4; 2; 0; 1; 3]
             (queue_ABCDE_value false false false true (fun _ => 0)) in
  Inv q
  /\ exists q1 q2,
       MovePostion 1 3 q = Ok (tt, q1)
       /\ MoveRange 1 (1 + 1) 3 q = Ok (tt, q2)
       /\ entries_of q1 = entries_of q2
       /\ order q1 = order q2
       /\ id_to_position q1 = id_to_position q2
       /\ q_length q1 = q_length q2 /\ q_version q1 = q_version q2.
Proof.
  intros q.
  assert (HI : Inv q).
  { apply Inv_ABCDE. apply (bool_decide_unpack _). vm_compute. reflexivity. }
  split; [exact HI |].
  apply (MovePostion_is_MoveRange q 1 3 HI); simpl; lia.
Defined.

(** ** DeletePosition on every queue *)

(** The facts about [DeletePosition] that the properties below share. *)
Lemma DeletePosition_run q position :
  Inv q -> 0 <= position < q_length q ->
  exists q' o,
    DeletePosition position q = Ok (tt, q')
    /\ Inv q'
    /\ q_length q' = q_length q - 1 /\ q_version q' = q_version q
    /\ max_length q' = max_length q
    /\ 0 <= o < q_length q /\ order q !! Z.to_nat o = Some position
    /\ (forall p, 0 <= p < q_length q - 1 ->
          exists it it0,
            items q' !! Z.to_nat p = Some it
            /\ items q
                 !! Z.to_nat (if decide (position <= p) then p + 1 else p)
               = Some it0
            /\ same_item it0 it)
    /\ (forall k, (k < Z.to_nat (q_length q - 1))%nat ->
          exists v,
            order q !! (if decide (Z.to_nat o <= k)%nat then S k else k)
            = Some v
            /\ order q' !! k
               = Some (if decide (position < v) then v - 1 else v)
            /\ v <> position /\ 0 <= v < q_length q).
Proof.
  intros HI Hpos.
  destruct (wp_DeletePosition_effect position
    (fun _ q' =>
       Inv q'
       /\ q_length q' = q_length q - 1 /\ q_version q' = q_version q
       /\ max_length q' = max_length q
       /\ exists o,
            0 <= o < q_length q /\ order q !! Z.to_nat o = Some position
            /\ (forall p, 0 <= p < q_length q - 1 ->
                  exists it it0,
                    items q' !! Z.to_nat p = Some it
                    /\ items q
                         !! Z.to_nat (if decide (position <= p)
                                      then p + 1 else p)
                       = Some it0
                    /\ same_item it0 it)
            /\ (forall k, (k < Z.to_nat (q_length q - 1))%nat ->
                  exists v,
                    order q
                      !! (if decide (Z.to_nat o <= k)%nat then S k else k)
                    = Some v
                    /\ order q' !! k
                       = Some (if decide (position < v) then v - 1 else v)
                    /\ v <> position /\ 0 <= v < q_length q)) q HI Hpos)
    as ([] & q' & Hrun & HI' & Hl & Hv & Hm & o & Ho & Hoo & Hit & Hord).
  { intros q' HI' (Hm & Hl & _ & Hv) _ Hex.
    do 4 (split; [assumption |]). exact Hex. }
  exists q', o. do 7 (split; [assumption |]). split; assumption.
Qed.

(** The live items after [DeletePosition]. *)
Lemma DeletePosition_entries q q' position :
  Inv q -> Inv q' -> 0 <= position < q_length q ->
  q_length q' = q_length q - 1 ->
  (forall p, 0 <= p < q_length q - 1 ->
     exists it it0,
       items q' !! Z.to_nat p = Some it
       /\ items q !! Z.to_nat (if decide (position <= p) then p + 1 else p)
          = Some it0
       /\ same_item it0 it) ->
  entries_of q' = delete (Z.to_nat position) (entries_of q).
Proof.
  intros HI HI' Hpos Hl Hitems.
  pose proof (Inv_bounds q HI) as (_ & Hli & _).
  pose proof (Inv_bounds q' HI') as (_ & Hli' & _).
  apply list_eq. intros k. rewrite list_lookup_delete.
  destruct (decide (k < Z.to_nat (q_length q - 1))%nat) as [Hk | Hk].
  - destruct (Hitems (Z.of_nat k) ltac:(lia))
      as (x & x0 & Hx & Hx0 & Hsame).
    rewrite Nat2Z.id in Hx.
    rewrite lookup_entries_of by lia. rewrite Hx. simpl.
    rewrite lookup_entries_of
      by (destruct (decide (k < Z.to_nat position)%nat); lia).
    replace (if decide (k < Z.to_nat position)%nat then k else S k)
      with (Z.to_nat (if decide (position <= Z.of_nat k)
                      then Z.of_nat k + 1 else Z.of_nat k))
      by (repeat case_decide; lia).
    rewrite Hx0. simpl. f_equal. symmetry.
    apply same_item_entry_of, Hsame.
  - rewrite !lookup_ge_None_2; [reflexivity | |];
      rewrite length_entries_of by lia; try case_decide; lia.
Qed.

(** X21: on every queue that satisfies the invariants, [DeletePosition]
    returns for a position of the queue; the live items, taken with
    song, identifier and priority, are the old ones without the item at
    the position, the later ones having moved down by one; the
    identifier of the deleted item is released; the invariants hold
    again, so that the IdMap binds the identifier of every other item to
    its new position; the version counter is not incremented. *)
Theorem DeletePosition_removes q position it :
  Inv q -> 0 <= position < q_length q ->
  items q !! Z.to_nat position = Some it ->
  exists q',
    DeletePosition position q = Ok (tt, q')
    /\ Inv q'
    /\ q_length q' = q_length q - 1 /\ q_version q' = q_version q
    /\ entries_of q' = delete (Z.to_nat position) (entries_of q)
    /\ songs_of q' = delete (Z.to_nat position) (songs_of q)
    /\ id_to_position q' !! Z.to_nat (i_id it) = Some (-1).
Proof.
  intros HI Hpos Hit.
  pose proof (Inv_bounds q HI) as (_ & Hli & _).
  destruct (DeletePosition_run q position HI Hpos)
    as (q' & o & Hrun & HI' & Hl & Hv & Hm & Ho & Hoo & Hitems & Hord).
  pose proof (Inv_bounds q' HI') as (_ & Hli' & _).
  assert (Hent : entries_of q' = delete (Z.to_nat position) (entries_of q))
    by (apply DeletePosition_entries; assumption).
  exists q'. split; [exact Hrun |]. split; [exact HI' |].
  split; [exact Hl |]. split; [exact Hv |]. split; [exact Hent |]. split.
  { rewrite !songs_of_entries_of, Hent.
    apply list_eq. intros k.
    rewrite list_lookup_fmap, !list_lookup_delete, list_lookup_fmap.
    reflexivity. }
  destruct (inv_ids _ HI position it Hpos Hit) as [Hid Hslot].
  apply (Inv_slot_free q' _ HI').
  { apply lookup_lt_Some in Hslot.
    rewrite (inv_idmap _ HI'), Hm, <- (inv_idmap _ HI). exact Hslot. }
  intros p x Hp Hx Hc. rewrite Hl in Hp.
  destruct (Hitems p Hp) as (x' & x0 & Hx' & Hx0 & (_ & Hide & _)).
  assert (x' = x) by congruence. subst x'.
  assert (Hsrc : 0 <= (if decide (position <= p) then p + 1 else p)
                 < q_length q) by (case_decide; lia).
  destruct (inv_ids _ HI _ x0 Hsrc Hx0) as [Hid0 _].
  assert (Heq : (if decide (position <= p) then p + 1 else p) = position).
  { apply (Inv_ids_distinct q HI _ _ x0 it);
      [exact Hsrc | exact Hpos | exact Hx0 | exact Hit | lia]. }
  clear Hsrc. case_decide; lia.
Qed.

Lemma DeletePosition_removes_witness :
  let q := set_order [4; 2; 0; 1; 3]
             (queue_ABCDE_value false false false true (fun _ => 0)) in
  let it := mk_item 66 1 1 0 in
  Inv q /\ items q !! Z.to_nat 1 = Some it
  /\ exists q',
       DeletePosition 1 q = Ok (tt, q')
       /\ Inv q'
       /\ q_length q' = q_length q - 1 /\ q_version q' = q_version q
       /\ entries_of q' = delete (Z.to_nat 1) (entries_of q)
       /\ songs_of q' = delete (Z.to_nat 1) (songs_of q)
       /\ id_to_position q' !! Z.to_nat (i_id it) = Some (-1).
Proof.
  intros q it.
  assert (HI : Inv q).
  { apply Inv_ABCDE. apply (bool_decide_unpack _). vm_compute. reflexivity. }
  split; [exact HI |]. split; [reflexivity |].
  apply (DeletePosition_removes q 1 it HI); [simpl; lia | reflexivity].
Defined.

(** X22: in every mode, [DeletePosition] removes from the playing
    sequence the one entry that played the deleted item and keeps the
    others in their order: the songs and the priorities read along the
    order array are the old ones without the entry at the order index of
    the position. *)
Theorem DeletePosition_keeps_playing_order q position :
  Inv q -> 0 <= position < q_length q ->
  exists q' o,
    DeletePosition position q = Ok (tt, q')
    /\ 0 <= o < q_length q /\ order q !! Z.to_nat o = Some position
    /\ songs_along_order q' = delete (Z.to_nat o) (songs_along_order q)
    /\ priorities_along_order q'
       = delete (Z.to_nat o) (priorities_along_order q).
Proof.
  intros HI Hpos.
  pose proof (Inv_bounds q HI) as (_ & Hli & Hlo & _).
  destruct (DeletePosition_run q position HI Hpos)
    as (q' & o & Hrun & HI' & Hl & Hv & Hm & Ho & Hoo & Hitems & Hord).
  pose proof (Inv_bounds q' HI') as (_ & Hli' & Hlo' & _).
  (* the item played at an order index of the new queue *)
  assert (Hplay : forall k, (k < Z.to_nat (q_length q - 1))%nat ->
    exists v v' x x0,
      order q !! (if decide (k < Z.to_nat o)%nat then k else S k) = Some v
      /\ order q' !! k = Some v'
      /\ items q' !! Z.to_nat v' = Some x
      /\ items q !! Z.to_nat v = Some x0
      /\ same_item x0 x).
  { intros k Hk. destruct (Hord k Hk) as (v & Hv1 & Hv2 & Hvp & Hvr).
    set (v' := if decide (position < v) then v - 1 else v) in *.
    assert (Hv'r : 0 <= v' < q_length q - 1)
      by (unfold v'; destruct (decide (position < v)); lia).
    destruct (Hitems v' Hv'r) as (x & x0 & Hx & Hx0 & Hsame).
    replace (if decide (position <= v') then v' + 1 else v') with v in Hx0
      by (unfold v'; destruct (decide (position < v));
          repeat case_decide; lia).
    exists v, v', x, x0. split; [| auto].
    replace (if decide (k < Z.to_nat o)%nat then k else S k)
      with (if decide (Z.to_nat o <= k)%nat then S k else k)
      by (repeat case_decide; lia).
    exact Hv1. }
  exists q', o. split; [exact Hrun |]. split; [exact Ho |].
  split; [exact Hoo |]. split.
  - apply list_eq. intros k. rewrite list_lookup_delete.
    destruct (decide (k < Z.to_nat (q_length q - 1))%nat) as [Hk | Hk].
    + destruct (Hplay k Hk) as (v & v' & x & x0 & Hv1 & Hv2 & Hx & Hx0 & Hs).
      rewrite (lookup_songs_along_order q' k v' x) by (assumption || lia).
      rewrite (lookup_songs_along_order q _ v x0)
        by (assumption || (case_decide; lia)).
      f_equal. symmetry. apply Hs.
    + rewrite !lookup_ge_None_2; [reflexivity | |];
        rewrite length_songs_along_order by lia; try case_decide; lia.
  - apply list_eq. intros k. rewrite list_lookup_delete.
    destruct (decide (k < Z.to_nat (q_length q - 1))%nat) as [Hk | Hk].
    + destruct (Hplay k Hk) as (v & v' & x & x0 & Hv1 & Hv2 & Hx & Hx0 & Hs).
      rewrite !lookup_priorities_along_order by (case_decide; lia).
      rewrite (prio_at_lookup q' k v' x Hv2 Hx).
      rewrite (prio_at_lookup q _ v x0 Hv1 Hx0).
      f_equal. symmetry. apply Hs.
    + rewrite !lookup_ge_None_2; [reflexivity | |];
        unfold priorities_along_order; rewrite length_fmap, length_take;
        try case_decide; lia.
Qed.

Lemma DeletePosition_keeps_playing_order_witness :
  let q := set_order [4; 2; 0; 1; 3]
             (queue_ABCDE_value false false false true (fun _ => 0)) in
  Inv q
  /\ exists q' o,
       DeletePosition 1 q = Ok (tt, q')
       /\ 0 <= o < q_length q /\ order q !! Z.to_nat o = Some 1
       /\ songs_along_order q' = delete (Z.to_nat o) (songs_along_order q)
       /\ priorities_along_order q'
          = delete (Z.to_nat o) (priorities_along_order q).
Proof.
  intros q.
  assert (HI : Inv q).
  { apply Inv_ABCDE. apply (bool_decide_unpack _). vm_compute. reflexivity. }
  split; [exact HI |].
  apply (DeletePosition_keeps_playing_order q 1 HI). simpl. lia.
Defined.

(** ** Append followed by DeletePosition *)

Lemma delete_snoc {A} (l : list A) x : delete (length l) (l ++ [x]) = l.
Proof.
  rewrite delete_take_drop. rewrite take_app_length.
  rewrite drop_ge by (rewrite length_app; simpl; lia).
  apply app_nil_r.
Qed.

(** X23: appending a song and deleting the last position gives back the
    queue that was there: the same items (song, identifier, priority) at
    the same positions, the same playing order, the same IdMap, the
    identifier handed out being free again, the same length and the same
    version counter. *)
Theorem Append_DeletePosition_round_trip q song priority cur :
  Inv q -> q_length q < max_length q -> 0 <= priority < 256 ->
  exists id q1 q2,
    Append song priority cur q = Ok (id, q1)
    /\ DeletePosition (q_length q) q1 = Ok (tt, q2)
    /\ entries_of q2 = entries_of q
    /\ songs_of q2 = songs_of q
    /\ take (Z.to_nat (q_length q)) (order q2)
       = take (Z.to_nat (q_length q)) (order q)
    /\ id_to_position q2 = id_to_position q
    /\ q_length q2 = q_length q /\ q_version q2 = q_version q
    /\ Inv q2.
Proof.
  intros HI Hlt Hprio.
  pose proof (Inv_bounds q HI) as (Hn & Hli & Hlo & _).
  pose proof (inv_length _ HI) as Hlen.
  assert (Hitl : (Z.to_nat (q_length q) < length (items q))%nat)
    by (rewrite (inv_items _ HI); lia).
  assert (Horl : (Z.to_nat (q_length q) < length (order q))%nat)
    by (rewrite (inv_order _ HI); lia).
  destruct (Append_run q song priority cur HI Hlt)
    as (id & q1 & Hrun1 & HI1 & _ & _ & Hq1 & _ & _).
  assert (Hl1 : q_length q1 = q_length q + 1) by (rewrite Hq1; reflexivity).
  assert (Hm1 : max_length q1 = max_length q) by (rewrite Hq1; reflexivity).
  assert (Hv1 : q_version q1 = q_version q) by (rewrite Hq1; reflexivity).
  assert (Hent1 : entries_of q1 = entries_of q ++ [(song, id, priority)]).
  { unfold entries_of. rewrite Hl1.
    replace (Z.to_nat (q_length q + 1)) with (S (Z.to_nat (q_length q)))
      by lia.
    rewrite (take_S_r _ _ (mk_item song id (q_version q) priority))
      by (rewrite Hq1; simpl; apply list_lookup_insert_eq; lia).
    rewrite fmap_app. simpl. f_equal.
    rewrite Hq1. simpl. rewrite take_insert_ge by lia. reflexivity. }
  destruct (DeletePosition_run q1 (q_length q) HI1 ltac:(lia))
    as (q2 & o & Hrun2 & HI2 & Hl2 & Hv2 & Hm2 & Ho & Hoo & Hitems & Hord).
  assert (Hent2 : entries_of q2 = entries_of q).
  { rewrite (DeletePosition_entries q1 q2 (q_length q)); try assumption;
      try lia.
    rewrite Hent1.
    replace (Z.to_nat (q_length q)) with (length (entries_of q))
      by (apply length_entries_of; lia).
    apply delete_snoc. }
  (* the deleted position plays last *)
  assert (Hon : o = q_length q).
  { destruct (inv_perm _ HI1) as (_ & _ & Hinj).
    assert (Z.to_nat o = Z.to_nat (q_length q)); [| lia].
    apply (Hinj _ _ (q_length q)); [lia | lia | exact Hoo |].
    rewrite Hq1. simpl. apply list_lookup_insert_eq. lia. }
  exists id, q1, q2. split; [exact Hrun1 |]. split; [exact Hrun2 |].
  split; [exact Hent2 |]. split.
  { rewrite !songs_of_entries_of, Hent2. reflexivity. }
  split.
  { apply list_eq. intros k.
    destruct (decide (k < Z.to_nat (q_length q))%nat) as [Hk | Hk].
    - rewrite !lookup_take_lt by lia.
      destruct (Hord k ltac:(lia)) as (v & Hv1' & Hv2' & Hvp & Hvr).
      rewrite decide_False in Hv1' by lia.
      rewrite Hq1 in Hv1'. simpl in Hv1'.
      rewrite list_lookup_insert_ne in Hv1' by lia.
      destruct (inv_perm _ HI) as (_ & Hrange & _).
      pose proof (Hrange k v Hk Hv1') as Hvr'.
      rewrite decide_False in Hv2' by lia. congruence.
    - rewrite !lookup_take_ge by lia. reflexivity. }
  split.
  { apply Inv_idmap_eq; try assumption; lia. }
  split; [lia |]. split; [lia | exact HI2].
Qed.

Lemma Append_DeletePosition_round_trip_witness :
  let q := queue_new 3 (fun _ => 0) in
  Inv q
  /\ exists id q1 q2,
       Append 65 0 G_MAXUINT q = Ok (id, q1)
       /\ DeletePosition (q_length q) q1 = Ok (tt, q2)
       /\ entries_of q2 = entries_of q
       /\ songs_of q2 = songs_of q
       /\ take (Z.to_nat (q_length q)) (order q2)
          = take (Z.to_nat (q_length q)) (order q)
       /\ id_to_position q2 = id_to_position q
       /\ q_length q2 = q_length q /\ q_version q2 = q_version q
       /\ Inv q2.
Proof.
  intros q.
  assert (HI : Inv q) by (apply Inv_queue_new; [lia | reflexivity]).
  split; [exact HI |].
  apply (Append_DeletePosition_round_trip q 65 0 G_MAXUINT HI); simpl; lia.
Defined.

(** ** SetPriority on every queue *)

Lemma permutes_prefix_Permutation n l l' :
  permutes 0 n l l' -> (n <= length l)%nat ->
  take n l' ≡ₚ take n l /\ drop n l' = drop n l.
Proof.
  intros Hp Hn.
  destruct (permutes_Permutation 0 n l l' Hp ltac:(lia) Hn)
    as (_ & Hd & Ht).
  rewrite !drop_0, Nat.sub_0_r in Ht. split; assumption.
Qed.

(** The facts about [SetPriority] that the properties below share. *)
Lemma SetPriority_run q position priority after_order :
  Inv q -> 0 <= position < q_length q ->
  -1 <= after_order < q_length q ->
  exists r q' it,
    SetPriority position priority after_order q = Ok (r, q')
    /\ items q !! Z.to_nat position = Some it
    /\ r = negb (i_priority it =? priority)
    /\ items q'
       = <[Z.to_nat position := reprioritize (q_version q) priority it]>
           (items q)
    /\ reprioritized q q'
    /\ (q_random q = false -> order q' = order q).
Proof.
  intros HI Hpos Hafter.
  pose proof (Inv_bounds q HI) as (Hn & Hli & Hlo & Hmo & _).
  destruct (wp_SetPriority position priority after_order
    (fun r q' => SetPriority_post q position priority after_order r q') q)
    as (r & q' & Hrun & Hpost);
    [apply (inv_perm _ HI) | exact Hpos | exact Hli | lia | exact Hafter
    | auto |].
  pose proof (SetPriority_post_reprioritized _ _ _ _ _ _ Hpost) as [Hrep _].
  destruct Hpost as (it & Hit & Hpost).
  exists r, q', it. split; [exact Hrun |]. split; [exact Hit |].
  unfold reprioritize.
  destruct (i_priority it =? priority) eqn:Hp.
  - destruct Hpost as [-> ->]. split; [reflexivity |].
    split; [symmetry; apply list_insert_id; exact Hit |].
    split; [exact Hrep | reflexivity].
  - destruct Hpost as [-> Hpost]. cbv zeta in Hpost.
    split; [reflexivity |].
    destruct (q_random q) eqn:Hrnd.
    + destruct Hpost as ((_ & _ & _ & Hi & _) & _).
      split; [exact Hi |]. split; [exact Hrep | discriminate].
    + subst q'. split; [reflexivity |]. split; [exact Hrep | reflexivity].
Qed.

(** X24: [SetPriority] returns for a position of the queue and an
    [after_order] that is -1 or an order index; it returns [true] exactly
    when the priority differs from the one the item has, and then the
    item carries the new priority and the current version as its stamp;
    no other item changes, and songs, identifiers, IdMap, length and
    version counter are kept.  Outside random mode the order array is
    kept; in random mode its live part is permuted.  The invariants hold
    again. *)
Theorem SetPriority_effect q position priority after_order :
  Inv q -> 0 <= position < q_length q -> 0 <= priority < 256 ->
  -1 <= after_order < q_length q ->
  exists r q' it,
    SetPriority position priority after_order q = Ok (r, q')
    /\ items q !! Z.to_nat position = Some it
    /\ (r = true <-> i_priority it <> priority)
    /\ items q'
       = (if r
          then <[Z.to_nat position :=
                   item_set_priority priority
                     (item_set_version (q_version q) it)]> (items q)
          else items q)
    /\ songs_of q' = songs_of q
    /\ id_to_position q' = id_to_position q
    /\ q_length q' = q_length q /\ q_version q' = q_version q
    /\ (q_random q = false -> order q' = order q)
    /\ take (Z.to_nat (q_length q)) (order q')
       ≡ₚ take (Z.to_nat (q_length q)) (order q)
    /\ drop (Z.to_nat (q_length q)) (order q')
       = drop (Z.to_nat (q_length q)) (order q)
    /\ Inv q'.
Proof.
  intros HI Hpos Hprio Hafter.
  pose proof (Inv_bounds q HI) as (Hn & Hli & Hlo & _).
  destruct (SetPriority_run q position priority after_order HI Hpos Hafter)
    as (r & q' & it & Hrun & Hit & Hr & Hitems & Hrep & Hnr).
  pose proof Hrep as (_ & Hl & Hv & Hd & _ & _ & _ & _ & _ & Hperm).
  destruct (permutes_prefix_Permutation _ _ _ Hperm ltac:(lia)) as [HP Hdrop].
  exists r, q', it. split; [exact Hrun |]. split; [exact Hit |].
  unfold reprioritize in Hitems.
  split.
  { rewrite Hr. destruct (Z.eqb_spec (i_priority it) priority); simpl;
      split; congruence. }
  split.
  { rewrite Hitems, Hr. destruct (i_priority it =? priority); simpl;
      [apply list_insert_id; exact Hit | reflexivity]. }
  split.
  { unfold songs_of. rewrite Hl, Hitems.
    apply list_eq. intros k. rewrite !list_lookup_fmap.
    destruct (decide (k < Z.to_nat (q_length q))%nat) as [Hk | Hk];
      [| rewrite !lookup_take_ge by lia; reflexivity].
    rewrite !lookup_take_lt by lia.
    destruct (decide (k = Z.to_nat position)) as [-> | Hne].
    - rewrite list_lookup_insert_eq by lia. rewrite Hit. simpl.
      destruct (i_priority it =? priority); reflexivity.
    - rewrite list_lookup_insert_ne by lia. reflexivity. }
  split; [exact Hd |]. split; [exact Hl |]. split; [exact Hv |].
  split; [exact Hnr |]. split; [exact HP |]. split; [exact Hdrop |].
  apply (Inv_reprioritized q q' HI Hrep).
Qed.

Lemma SetPriority_effect_witness :
  let q := set_modes false false false true (queue_ABC_value (fun _ => 3)) in
  Inv q
  /\ exists r q' it,
       SetPriority 2 10 0 q = Ok (r, q')
       /\ items q !! Z.to_nat 2 = Some it
       /\ (r = true <-> i_priority it <> 10)
       /\ items q'
          = (if r
             then <[Z.to_nat 2 :=
                      item_set_priority 10
                        (item_set_version (q_version q) it)]> (items q)
             else items q)
       /\ songs_of q' = songs_of q
       /\ id_to_position q' = id_to_position q
       /\ q_length q' = q_length q /\ q_version q' = q_version q
       /\ (q_random q = false -> order q' = order q)
       /\ take (Z.to_nat (q_length q)) (order q')
          ≡ₚ take (Z.to_nat (q_length q)) (order q)
       /\ drop (Z.to_nat (q_length q)) (order q')
          = drop (Z.to_nat (q_length q)) (order q)
       /\ Inv q'.
Proof.
  intros q. split; [apply Inv_ABC |].
  apply (SetPriority_effect q 2 10 0); [apply Inv_ABC | | |]; simpl; lia.
Defined.

(** X25: in random mode, [SetPriority] with a current song
    ([after_order >= 0]) changes the priority and the stamp of the item
    but leaves the order array alone when the item is the current song,
    and when it has been played already (its order index is below
    [after_order]) unless its priority was at most the current song's
    and has become greater than it. *)
Theorem SetPriority_played_not_reordered q position priority after_order
    it o after_position after_item :
  Inv q -> q_random q = true ->
  0 <= position < q_length q -> 0 <= priority < 256 ->
  0 <= after_order < q_length q ->
  items q !! Z.to_nat position = Some it -> i_priority it <> priority ->
  0 <= o < q_length q -> order q !! Z.to_nat o = Some position ->
  order q !! Z.to_nat after_order = Some after_position ->
  items q !! Z.to_nat after_position = Some after_item ->
  o = after_order
  \/ (o < after_order
      /\ (i_priority after_item < i_priority it
          \/ priority <= i_priority after_item)) ->
  SetPriority position priority after_order q
  = Ok (true,
        set_items
          (<[Z.to_nat position :=
               item_set_priority priority
                 (item_set_version (q_version q) it)]> (items q)) q).
Proof.
  intros HI Hrnd Hpos Hprio Hafter Hit Hne Ho Hoo Hap Hai Hcase.
  pose proof (Inv_bounds q HI) as (Hn & Hli & Hlo & Hmo & _).
  pose proof (inv_perm _ HI) as Hperm.
  pose proof Hperm as (_ & Hrange & Hinj).
  set (q1 := set_items _ q).
  assert (Hwp : wp (SetPriority position priority after_order)
                  (fun r q' => r = true /\ q' = q1) q);
    [| destruct Hwp as (r & q' & Hrun & -> & ->); exact Hrun].
  unfold SetPriority. apply wp_bind, wp_get.
  apply wp_bind, wp_assert; [apply Z.ltb_lt; lia |].
  apply wp_bind. eapply wp_read; [lia | exact Hit |].
  destruct (Z.eqb_spec (i_priority it) priority) as [Heq | _]; [lia |].
  apply wp_bind, wp_write; [lia |]. fold q1.
  change (q_random q1) with (q_random q). rewrite Hrnd. simpl negb. cbv iota.
  apply wp_bind. apply wp_PositionToOrder;
    [exact Hperm | exact Hpos | change (q_length q1) with (q_length q);
                                rewrite UINT_MOD_eq; lia |].
  intros o' Ho' Hoo'. change (q_length q1) with (q_length q) in Ho'.
  change (order q1) with (order q) in Hoo'.
  assert (o' = o).
  { assert (Z.to_nat o' = Z.to_nat o); [| lia].
    apply (Hinj _ _ position); try assumption; lia. }
  subst o'.
  destruct (Z.leb_spec 0 after_order) as [_ | ?]; [| lia].
  rewrite to_unsigned_small by (rewrite UINT_MOD_eq; lia).
  destruct Hcase as [-> | [Hlt Hpr]].
  - rewrite Z.eqb_refl. apply wp_ret. split; reflexivity.
  - destruct (Z.eqb_spec o after_order); [lia |].
    destruct (Z.ltb_spec o after_order); [| lia].
    assert (Hapr : 0 <= after_position < q_length q).
    { pose proof (Hrange (Z.to_nat after_order) after_position
                    ltac:(lia) Hap). lia. }
    assert (Hnp : after_position <> position).
    { intros ->. assert (Z.to_nat after_order = Z.to_nat o); [| lia].
      apply (Hinj _ _ position); try assumption; lia. }
    apply wp_bind. unfold OrderToPosition.
    apply wp_bind, wp_get.
    apply wp_bind, wp_assert;
      [apply Z.ltb_lt; change (q_length q1) with (q_length q); lia |].
    eapply wp_read; [lia | exact Hap |].
    apply wp_bind. eapply (wp_read _ _ after_item); [lia | |].
    { unfold q1. simpl. rewrite list_lookup_insert_ne by lia. exact Hai. }
    replace ((i_priority after_item <? i_priority it)
             || (priority <=? i_priority after_item)) with true.
    + apply wp_ret. split; reflexivity.
    + symmetry. apply orb_true_iff.
      destruct Hpr; [left; apply Z.ltb_lt | right; apply Z.leb_le]; lia.
Qed.

Lemma SetPriority_played_not_reordered_witness :
  let q := set_modes false false false true (queue_ABC_value (fun _ => 3)) in
  SetPriority 0 10 0 q
  = Ok (true,
        set_items
          (<[Z.to_nat 0 :=
               item_set_priority 10
                 (item_set_version (q_version q) (mk_item 65 0 1 0))]>
             (items q)) q).
Proof.
  intros q.
  apply (SetPriority_played_not_reordered q 0 10 0 (mk_item 65 0 1 0) 0 0
           (mk_item 65 0 1 0));
    try reflexivity; try (simpl; lia).
  apply Inv_ABC.
Defined.

(** ** SetPriorityRange on every queue *)

(** The order index passed to [SetPriority] by the loop of
    [SetPriorityRange]. *)
Lemma wp_after_order ap q (Q : Z -> queue -> Prop) :
  Inv q -> -1 <= ap < q_length q ->
  (forall ao, -1 <= ao < q_length q -> (ap = -1 -> ao = -1) -> Q ao q) ->
  wp (if 0 <=? ap
      then o ← PositionToOrder (to_unsigned ap); mret (to_int o)
      else mret (-1)) Q q.
Proof.
  intros HI Hap HQ.
  pose proof (Inv_bounds q HI) as (Hn & _).
  destruct (Z.leb_spec 0 ap).
  - rewrite to_unsigned_small by (rewrite UINT_MOD_eq; lia).
    apply wp_bind. apply wp_PositionToOrder;
      [apply (inv_perm _ HI) | lia | rewrite UINT_MOD_eq; lia |].
    intros o Ho _. apply wp_ret.
    rewrite to_int_small by lia. apply HQ; lia.
  - apply wp_ret. apply HQ; lia.
Qed.

(** The position of the current song, computed before the loop. *)
Lemma after_position_Ok q after_order :
  Inv q -> -1 <= after_order < q_length q ->
  exists ap,
    (if 0 <=? after_order then
       p ← OrderToPosition (to_unsigned after_order); mret (to_int p)
     else mret (-1)) q = Ok (ap, q)
    /\ -1 <= ap < q_length q.
Proof.
  intros HI Hafter.
  pose proof (Inv_bounds q HI) as (Hn & _ & Hlo & _).
  destruct (inv_perm _ HI) as (_ & Hrange & _).
  destruct (Z.leb_spec 0 after_order) as [Hge | Hlt].
  - rewrite to_unsigned_small by (rewrite UINT_MOD_eq; lia).
    destruct (lookup_lt_is_Some_2 (order q) (Z.to_nat after_order))
      as [p Hp]; [lia |].
    pose proof (Hrange (Z.to_nat after_order) p ltac:(lia) Hp).
    exists p. split; [| lia].
    unfold OrderToPosition.
    rewrite (bind_Ok _ _ q p q).
    + rewrite to_int_small by lia. reflexivity.
    + rewrite (bind_Ok get _ q q q eq_refl).
      rewrite (bind_Ok (assert _) _ q tt q)
        by (apply assert_Ok, Z.ltb_lt; lia).
      apply read_Ok; [lia | exact Hp].
  - exists (-1). split; [reflexivity | lia].
Qed.

(** [SetPriorityRange] with what it does to the items and its result. *)
Lemma SetPriorityRange_run q start end_ priority after_order :
  Inv q -> 0 <= start <= end_ -> end_ <= q_length q ->
  -1 <= after_order < q_length q ->
  exists r q',
    SetPriorityRange start end_ priority after_order q = Ok (r, q')
    /\ Inv q' /\ reprioritized q q'
    /\ (q_random q = false -> order q' = order q)
    /\ (forall p : nat,
          items q' !! p
          = if decide (start <= Z.of_nat p < end_)
            then reprioritize (q_version q) priority <$> items q !! p
            else items q !! p)
    /\ (r = true <->
        exists p it, start <= p < end_
          /\ items q !! Z.to_nat p = Some it /\ i_priority it <> priority).
Proof.
  intros HI Hs He Hafter.
  destruct (after_position_Ok q after_order HI Hafter) as (ap & Hapr & Hap).
  assert (Hwp : wp (SetPriorityRange start end_ priority after_order)
    (fun r q' =>
       Inv q' /\ reprioritized q q'
       /\ (q_random q = false -> order q' = order q)
       /\ (forall p : nat,
             items q' !! p
             = if decide (start <= Z.of_nat p < end_)
               then reprioritize (q_version q) priority <$> items q !! p
               else items q !! p)
       /\ (r = true <->
           exists p it, start <= p < end_
             /\ items q !! Z.to_nat p = Some it
             /\ i_priority it <> priority)) q).
  { unfold SetPriorityRange.
    apply wp_bind, wp_get.
    apply wp_bind, wp_assert; [apply Z.leb_le; lia |].
    apply wp_bind, wp_assert; [apply Z.leb_le; lia |].
    apply (wp_bind _ _ _ q). apply (wp_eq _ _ q ap q Hapr).
    eapply wp_mono.
    - apply (wp_for_up_acc (fun i (m : bool) q1 =>
        Inv q1 /\ reprioritized q q1
        /\ (q_random q = false -> order q1 = order q)
        /\ (forall p : nat,
              items q1 !! p
              = if decide (start <= Z.of_nat p < i)
                then reprioritize (q_version q) priority <$> items q !! p
                else items q !! p)
        /\ (m = true <->
            exists p it, start <= p < i
              /\ items q !! Z.to_nat p = Some it
              /\ i_priority it <> priority))).
      + split; [exact HI |]. split; [apply reprioritized_refl |].
        split; [reflexivity |]. split.
        * intros p. rewrite decide_False by lia. reflexivity.
        * split; [discriminate |]. intros (p & it & Hp & _). lia.
      + intros i m q1 Hi (HI1 & Hrep & Hnr & Hitems & Hm).
        pose proof Hrep as (_ & Hl1 & Hv1 & _ & _ & _ & _ & Hrnd1 & _).
        apply (wp_bind _ _ _ q1).
        apply (wp_after_order ap q1 _ HI1); [lia |].
        intros ao Hao _.
        destruct (SetPriority_run q1 i priority ao HI1 ltac:(lia) Hao)
          as (r & q2 & it & Hrun & Hit & Hr & Hitems2 & Hrep2 & Hnr2).
        apply wp_bind. eapply wp_eq; [exact Hrun |]. apply wp_ret.
        assert (Hit0 : items q !! Z.to_nat i = Some it).
        { rewrite <- Hit, Hitems. rewrite decide_False by lia. reflexivity. }
        split; [apply (Inv_reprioritized q1 q2 HI1 Hrep2) |].
        split; [eapply reprioritized_trans; eassumption |].
        split.
        { intros Hf. rewrite Hnr2 by congruence. apply Hnr, Hf. }
        split.
        { intros p. rewrite Hitems2, Hv1.
          destruct (decide (p = Z.to_nat i)) as [-> | Hne].
          - rewrite list_lookup_insert_eq
              by (apply lookup_lt_Some in Hit; exact Hit).
            rewrite decide_True by lia. rewrite Hit0. reflexivity.
          - rewrite list_lookup_insert_ne by lia. rewrite Hitems.
            repeat case_decide; try lia; reflexivity. }
        rewrite Hr. split.
        * intros Hor. apply orb_true_iff in Hor as [Hm1 | Hr1].
          -- destruct (proj1 Hm Hm1) as (p & x & Hp & Hx & Hpx).
             exists p, x. split; [lia |]. split; assumption.
          -- exists i, it. split; [lia |]. split; [exact Hit0 |].
             destruct (Z.eqb_spec (i_priority it) priority);
               [discriminate | assumption].
        * intros (p & x & Hp & Hx & Hpx). apply orb_true_iff.
          destruct (decide (p = i)) as [-> | Hne].
          -- right. assert (x = it) by congruence. subst x.
             destruct (Z.eqb_spec (i_priority it) priority);
               [contradiction | reflexivity].
          -- left. apply Hm. exists p, x.
             split; [lia |]. split; assumption.
    - intros r q' Hpost. simpl in Hpost.
      replace (start + Z.of_nat (Z.to_nat (end_ - start))) with end_
        in Hpost by lia.
      exact Hpost. }
  destruct Hwp as (r & q' & Hrun & Hpost).
  exists r, q'. split; [exact Hrun | exact Hpost].
Qed.

(** X26: [SetPriorityRange] returns for a range of positions of the queue
    and an [after_order] that is -1 or an order index; every item of the
    range whose priority differs gets the priority and the current
    version as its stamp, no other item changes, and the result is [true]
    exactly when some item of the range had another priority; songs,
    identifiers, IdMap, length and version counter are kept.  Outside
    random mode the order array is kept; in random mode its live part is
    permuted.  The invariants hold again. *)
Theorem SetPriorityRange_effect q start end_ priority after_order :
  Inv q -> 0 <= start <= end_ -> end_ <= q_length q ->
  0 <= priority < 256 -> -1 <= after_order < q_length q ->
  exists r q',
    SetPriorityRange start end_ priority after_order q = Ok (r, q')
    /\ (r = true <->
        exists p it, start <= p < end_
          /\ items q !! Z.to_nat p = Some it /\ i_priority it <> priority)
    /\ (forall p : nat,
          items q' !! p
          = if decide (start <= Z.of_nat p < end_)
            then reprioritize (q_version q) priority <$> items q !! p
            else items q !! p)
    /\ songs_of q' = songs_of q
    /\ id_to_position q' = id_to_position q
    /\ q_length q' = q_length q /\ q_version q' = q_version q
    /\ (q_random q = false -> order q' = order q)
    /\ take (Z.to_nat (q_length q)) (order q')
       ≡ₚ take (Z.to_nat (q_length q)) (order q)
    /\ drop (Z.to_nat (q_length q)) (order q')
       = drop (Z.to_nat (q_length q)) (order q)
    /\ Inv q'.
Proof.
  intros HI Hs He Hprio Hafter.
  pose proof (Inv_bounds q HI) as (Hn & Hli & Hlo & _).
  destruct (SetPriorityRange_run q start end_ priority after_order
              HI Hs He Hafter)
    as (r & q' & Hrun & HI' & Hrep & Hnr & Hitems & Hr).
  pose proof Hrep as (_ & Hl & Hv & Hd & _ & _ & _ & _ & _ & Hperm).
  destruct (permutes_prefix_Permutation _ _ _ Hperm ltac:(lia)) as [HP Hdrop].
  exists r, q'. split; [exact Hrun |]. split; [exact Hr |].
  split; [exact Hitems |]. split.
  { unfold songs_of. rewrite Hl.
    apply list_eq. intros k. rewrite !list_lookup_fmap.
    destruct (decide (k < Z.to_nat (q_length q))%nat) as [Hk | Hk];
      [| rewrite !lookup_take_ge by lia; reflexivity].
    rewrite !lookup_take_lt by lia. rewrite Hitems.
    case_decide; [| reflexivity].
    destruct (items q !! k) as [it |]; [| reflexivity]. simpl.
    unfold reprioritize. destruct (i_priority it =? priority); reflexivity. }
  split; [exact Hd |]. split; [exact Hl |]. split; [exact Hv |].
  split; [exact Hnr |]. split; [exact HP |]. split; [exact Hdrop | exact HI'].
Qed.

Lemma SetPriorityRange_effect_witness :
  let q := set_modes false false false true (queue_ABC_value (fun _ => 3)) in
  Inv q
  /\ exists r q',
       SetPriorityRange 1 3 10 0 q = Ok (r, q')
       /\ (r = true <->
           exists p it, 1 <= p < 3
             /\ items q !! Z.to_nat p = Some it /\ i_priority it <> 10)
       /\ (forall p : nat,
             items q' !! p
             = if decide (1 <= Z.of_nat p < 3)
               then reprioritize (q_version q) 10 <$> items q !! p
               else items q !! p)
       /\ songs_of q' = songs_of q
       /\ id_to_position q' = id_to_position q
       /\ q_length q' = q_length q /\ q_version q' = q_version q
       /\ (q_random q = false -> order q' = order q)
       /\ take (Z.to_nat (q_length q)) (order q')
          ≡ₚ take (Z.to_nat (q_length q)) (order q)
       /\ drop (Z.to_nat (q_length q)) (order q')
          = drop (Z.to_nat (q_length q)) (order q)
       /\ Inv q'.
Proof.
  intros q. split; [apply Inv_ABC |].
  apply (SetPriorityRange_effect q 1 3 10 0); [apply Inv_ABC | | | |];
    simpl; lia.
Defined.

(** When every item of the range has the priority already,
    [SetPriorityRange] changes nothing. *)
Lemma SetPriorityRange_same q start end_ priority after_order :
  Inv q -> 0 <= start <= end_ -> end_ <= q_length q ->
  -1 <= after_order < q_length q ->
  (forall p it, start <= p < end_ ->
     items q !! Z.to_nat p = Some it -> i_priority it = priority) ->
  SetPriorityRange start end_ priority after_order q = Ok (false, q).
Proof.
  intros HI Hs He Hafter Hall.
  pose proof (Inv_bounds q HI) as (Hn & Hli & Hlo & Hmo & _).
  destruct (after_position_Ok q after_order HI Hafter) as (ap & Hapr & Hap).
  assert (Hwp : wp (SetPriorityRange start end_ priority after_order)
                  (fun r q' => r = false /\ q' = q) q);
    [| destruct Hwp as (r & q' & Hrun & -> & ->); exact Hrun].
  unfold SetPriorityRange.
  apply wp_bind, wp_get.
  apply wp_bind, wp_assert; [apply Z.leb_le; lia |].
  apply wp_bind, wp_assert; [apply Z.leb_le; lia |].
  apply (wp_bind _ _ _ q). apply (wp_eq _ _ q ap q Hapr).
  eapply wp_mono.
  - apply (wp_for_up_acc (fun _ (m : bool) q1 => m = false /\ q1 = q)).
    + split; reflexivity.
    + intros i m q1 Hi [-> ->].
      apply (wp_bind _ _ _ q).
      apply (wp_after_order ap q _ HI); [lia |].
      intros ao Hao _.
      apply wp_bind. apply wp_SetPriority;
        [apply (inv_perm _ HI) | lia | lia | lia | exact Hao |].
      intros r q3 (it & Hit & Hpost). apply wp_ret.
      rewrite (Hall i it ltac:(lia) Hit), Z.eqb_refl in Hpost.
      destruct Hpost as [-> ->]. split; reflexivity.
  - intros r q' Hpost. exact Hpost.
Qed.

(** X27: [SetPriorityRange] is idempotent: called again with the same
    range and priority, it returns [false] and leaves the queue exactly
    as the first call left it, whatever the current song given then. *)
Theorem SetPriorityRange_idempotent q start end_ priority
    after_order after_order' :
  Inv q -> 0 <= start <= end_ -> end_ <= q_length q ->
  0 <= priority < 256 ->
  -1 <= after_order < q_length q -> -1 <= after_order' < q_length q ->
  exists r q',
    SetPriorityRange start end_ priority after_order q = Ok (r, q')
    /\ SetPriorityRange start end_ priority after_order' q'
       = Ok (false, q').
Proof.
  intros HI Hs He Hprio Hafter Hafter'.
  pose proof (Inv_bounds q HI) as (Hn & Hli & Hlo & _).
  destruct (SetPriorityRange_run q start end_ priority after_order
              HI Hs He Hafter)
    as (r & q' & Hrun & HI' & Hrep & _ & Hitems & _).
  pose proof Hrep as (_ & Hl & _).
  exists r, q'. split; [exact Hrun |].
  apply SetPriorityRange_same; try assumption; try lia.
  intros p it Hp Hit. rewrite Hitems in Hit.
  rewrite decide_True in Hit by lia.
  destruct (items q !! Z.to_nat p) as [x |]; [| discriminate].
  simpl in Hit. inversion Hit. unfold reprioritize.
  destruct (Z.eqb_spec (i_priority x) priority); [assumption | reflexivity].
Qed.

Lemma SetPriorityRange_idempotent_witness :
  let q := set_modes false false false true (queue_ABC_value (fun _ => 3)) in
  Inv q
  /\ exists r q',
       SetPriorityRange 0 3 10 (-1) q = Ok (r, q')
       /\ SetPriorityRange 0 3 10 1 q' = Ok (false, q').
Proof.
  intros q. split; [apply Inv_ABC |].
  apply (SetPriorityRange_idempotent q 0 3 10 (-1) 1);
    [apply Inv_ABC | | | | |]; simpl; lia.
Defined.

(** ** ShuffleRange and SwapPositions on every queue *)

(** A list read through a map of its indices that is injective on a range
    and the identity elsewhere. *)
Lemma range_index_Permutation {A} (a b : nat) (l l' : list A)
    (s : nat -> nat) :
  length l' = length l -> (a <= b)%nat -> (b <= length l)%nat ->
  (forall k, (a <= k < b)%nat -> (a <= s k < b)%nat) ->
  (forall k1 k2, (a <= k1 < b)%nat -> (a <= k2 < b)%nat ->
     s k1 = s k2 -> k1 = k2) ->
  (forall k, (k < length l)%nat ->
     l' !! k = l !! (if decide (a <= k < b)%nat then s k else k)) ->
  take a l' = take a l
  /\ drop b l' = drop b l
  /\ take (b - a) (drop a l') ≡ₚ take (b - a) (drop a l).
Proof.
  intros Hlen Hab Hb Hr Hinj Hl'.
  split; [| split].
  - apply list_eq. intros k. destruct (decide (k < a)%nat) as [Hk | Hk].
    + rewrite !lookup_take_lt by lia. rewrite Hl' by lia.
      rewrite decide_False by lia. reflexivity.
    + rewrite !lookup_take_ge by lia. reflexivity.
  - apply list_eq. intros k. rewrite !lookup_drop.
    destruct (decide (b + k < length l)%nat) as [Hk | Hk].
    + rewrite Hl' by lia. rewrite decide_False by lia. reflexivity.
    + rewrite !lookup_ge_None_2 by lia. reflexivity.
  - apply (index_Permutation _ _ (fun k => (s (a + k) - a))%nat).
    + rewrite !length_take, !length_drop. lia.
    + intros k. rewrite length_take, length_drop. intros Hk.
      pose proof (Hr (a + k)%nat ltac:(lia)). lia.
    + intros k1 k2. rewrite length_take, length_drop. intros Hk1 Hk2 Heq.
      pose proof (Hr (a + k1)%nat ltac:(lia)).
      pose proof (Hr (a + k2)%nat ltac:(lia)).
      assert (a + k1 = a + k2)%nat by (apply Hinj; lia). lia.
    + intros k. rewrite length_take, length_drop. intros Hk.
      pose proof (Hr (a + k)%nat ltac:(lia)).
      rewrite !lookup_take_lt by lia. rewrite !lookup_drop.
      rewrite Hl' by lia. rewrite decide_True by lia. f_equal. lia.
Qed.

(** [SwapPositions] on the live items, taken without their stamps. *)
Lemma SwapPositions_run q p1 p2 :
  Inv q -> 0 <= p1 < q_length q -> 0 <= p2 < q_length q ->
  exists q',
    SwapPositions p1 p2 q = Ok (tt, q')
    /\ Inv q' /\ frame_items q q'
    /\ forall k, (k < Z.to_nat (q_length q))%nat ->
         entries_of q' !! k
         = entries_of q
             !! (if decide (k = Z.to_nat p1) then Z.to_nat p2
                 else if decide (k = Z.to_nat p2) then Z.to_nat p1 else k).
Proof.
  intros HI Hp1 Hp2.
  pose proof (Inv_bounds q HI) as (_ & Hli & _).
  destruct (wp_SwapPositions_items p1 p2
    (fun _ q' =>
       Inv q' /\ frame_items q q'
       /\ forall p x, 0 <= p < q_length q ->
            items q' !! Z.to_nat p = Some x ->
            exists y, same_item y x
              /\ items q !! Z.to_nat (if decide (p = p1) then p2
                                      else if decide (p = p2) then p1
                                           else p)
                 = Some y) q HI Hp1 Hp2)
    as ([] & q' & Hrun & HI' & Hfr & Hitems).
  { intros q' HI' Hfr Hit. split; [exact HI' |]. split; assumption. }
  exists q'. split; [exact Hrun |]. split; [exact HI' |].
  split; [exact Hfr |].
  intros k Hk.
  pose proof Hfr as (_ & Hl & _ & _ & _ & _ & _ & _ & _ & Hli' & _).
  destruct (lookup_lt_is_Some_2 (items q') k) as [x Hx]; [lia |].
  destruct (Hitems (Z.of_nat k) x ltac:(lia)
              ltac:(rewrite Nat2Z.id; exact Hx)) as (y & Hsame & Hy).
  rewrite lookup_entries_of by lia. rewrite Hx. simpl.
  replace (if decide (k = Z.to_nat p1) then Z.to_nat p2
           else if decide (k = Z.to_nat p2) then Z.to_nat p1 else k)
    with (Z.to_nat (if decide (Z.of_nat k = p1) then p2
                    else if decide (Z.of_nat k = p2) then p1
                         else Z.of_nat k))
    by (repeat case_decide; lia).
  rewrite lookup_entries_of by (repeat case_decide; lia).
  rewrite Hy. simpl. f_equal. symmetry. apply same_item_entry_of, Hsame.
Qed.

(** The items after [ShuffleRange]: inside the range, position [k] holds
    the item that was at position [s k], for a map [s] that is injective
    on the range; the other positions keep their items. *)
Lemma ShuffleRange_run q start end_ :
  Inv q -> 0 <= start <= end_ -> end_ <= q_length q ->
  exists q' (s : nat -> nat),
    ShuffleRange start end_ q = Ok (tt, q')
    /\ Inv q' /\ q_length q' = q_length q /\ q_version q' = q_version q
    /\ order q' = order q
    /\ (forall k, (Z.to_nat start <= k < Z.to_nat end_)%nat ->
          (Z.to_nat start <= s k < Z.to_nat end_)%nat)
    /\ (forall k1 k2,
          (Z.to_nat start <= k1 < Z.to_nat end_)%nat ->
          (Z.to_nat start <= k2 < Z.to_nat end_)%nat ->
          s k1 = s k2 -> k1 = k2)
    /\ (forall k, (k < Z.to_nat (q_length q))%nat ->
          entries_of q' !! k
          = entries_of q
              !! (if decide (Z.to_nat start <= k < Z.to_nat end_)%nat
                  then s k else k)).
Proof.
  intros HI Hs He.
  pose proof (Inv_bounds q HI) as (Hn & Hli & _).
  set (a := Z.to_nat start). set (b := Z.to_nat end_).
  assert (Hwp : wp (ShuffleRange start end_)
    (fun _ q' =>
       Inv q' /\ q_length q' = q_length q /\ q_version q' = q_version q
       /\ order q' = order q
       /\ exists s : nat -> nat,
            (forall k, (a <= k < b)%nat -> (a <= s k < b)%nat)
            /\ (forall k1 k2, (a <= k1 < b)%nat -> (a <= k2 < b)%nat ->
                  s k1 = s k2 -> k1 = k2)
            /\ (forall k, (k < Z.to_nat (q_length q))%nat ->
                  entries_of q' !! k
                  = entries_of q
                      !! (if decide (a <= k < b)%nat then s k else k))) q).
  { unfold ShuffleRange.
    apply wp_bind, wp_get.
    apply wp_bind, wp_assert; [apply Z.leb_le; lia |].
    apply wp_bind, wp_assert; [apply Z.leb_le; lia |].
    eapply wp_mono.
    - apply (wp_for_range (fun _ q' =>
        Inv q' /\ q_length q' = q_length q /\ q_version q' = q_version q
        /\ order q' = order q
        /\ exists s : nat -> nat,
             (forall k, (a <= k < b)%nat -> (a <= s k < b)%nat)
             /\ (forall k1 k2, (a <= k1 < b)%nat -> (a <= k2 < b)%nat ->
                   s k1 = s k2 -> k1 = k2)
             /\ (forall k, (k < Z.to_nat (q_length q))%nat ->
                   entries_of q' !! k
                   = entries_of q
                       !! (if decide (a <= k < b)%nat then s k else k)))).
      + lia.
      + split; [exact HI |]. do 3 (split; [reflexivity |]).
        exists (fun k => k). split; [auto |]. split; [auto |].
        intros k Hk. case_decide; reflexivity.
      + intros i q1 Hi (HI1 & Hl1 & Hv1 & Ho1 & s & Hr & Hinj & Hent).
        rewrite wrap_small by (rewrite UINT_MOD_eq; lia).
        apply wp_bind, wp_uniform; [lia |]. intros r Hr'.
        set (q2 := set_rand _ q1).
        assert (HI2 : Inv q2) by (destruct HI1; split; assumption).
        destruct (SwapPositions_run q2 i r HI2)
          as (q3 & Hrun & HI3 & Hfr & Hsw);
          [change (q_length q2) with (q_length q1); lia
          | change (q_length q2) with (q_length q1); lia |].
        eapply wp_eq; [exact Hrun |].
        pose proof Hfr as (_ & Hl3 & Hv3 & Ho3 & _).
        change (q_length q2) with (q_length q1) in Hl3, Hsw.
        change (q_version q2) with (q_version q1) in Hv3.
        change (order q2) with (order q1) in Ho3.
        change (entries_of q2) with (entries_of q1) in Hsw.
        split; [exact HI3 |]. split; [lia |]. split; [lia |].
        split; [congruence |].
        set (sw := fun k : nat =>
          if decide (k = Z.to_nat i) then Z.to_nat r
          else if decide (k = Z.to_nat r) then Z.to_nat i else k).
        assert (Hswr : forall k, (a <= k < b)%nat -> (a <= sw k < b)%nat).
        { intros k Hk. unfold sw, a, b in *. repeat case_decide; lia. }
        assert (Hswo : forall k, ~ (a <= k < b)%nat -> sw k = k).
        { intros k Hk. unfold sw, a, b in *. repeat case_decide; lia. }
        assert (Hswi : forall k1 k2, sw k1 = sw k2 -> k1 = k2).
        { intros k1 k2. unfold sw. repeat case_decide; lia. }
        exists (fun k => s (sw k)). split; [| split].
        * intros k Hk. apply Hr, Hswr, Hk.
        * intros k1 k2 Hk1 Hk2 Heq. apply Hswi.
          apply Hinj; [apply Hswr, Hk1 | apply Hswr, Hk2 | exact Heq].
        * intros k Hk. rewrite Hsw by lia. fold (sw k).
          assert (Hswn : (sw k < Z.to_nat (q_length q))%nat).
          { unfold sw. repeat case_decide; lia. }
          rewrite Hent by exact Hswn.
          destruct (decide (a <= k < b)%nat) as [Hin | Hout].
          -- rewrite decide_True by (apply Hswr, Hin). reflexivity.
          -- rewrite (Hswo k Hout). rewrite decide_False by exact Hout.
             reflexivity.
    - intros [] q' Hpost. exact Hpost. }
  destruct Hwp as ([] & q' & Hrun & HI' & Hl & Hv & Ho & s & Hr & Hinj & Hent).
  exists q', s. do 6 (split; [assumption |]). split; assumption.
Qed.

(** X28: [ShuffleRange] returns for a range of positions of the queue,
    whatever the random engine draws; the live items of the range, taken
    with song, identifier and priority, are permuted among themselves,
    and so are the songs; the items outside the range and the order array
    are kept, so are length and version counter, and the invariants hold
    again, so that the IdMap binds every identifier to the new position
    of its item. *)
Theorem ShuffleRange_permutes q start end_ :
  Inv q -> 0 <= start <= end_ -> end_ <= q_length q ->
  exists q',
    ShuffleRange start end_ q = Ok (tt, q')
    /\ Inv q'
    /\ q_length q' = q_length q /\ q_version q' = q_version q
    /\ order q' = order q
    /\ take (Z.to_nat start) (entries_of q')
       = take (Z.to_nat start) (entries_of q)
    /\ drop (Z.to_nat end_) (entries_of q')
       = drop (Z.to_nat end_) (entries_of q)
    /\ take (Z.to_nat (end_ - start)) (drop (Z.to_nat start) (entries_of q'))
       ≡ₚ take (Z.to_nat (end_ - start))
            (drop (Z.to_nat start) (entries_of q))
    /\ songs_of q' ≡ₚ songs_of q.
Proof.
  intros HI Hs He.
  pose proof (Inv_bounds q HI) as (Hn & Hli & _).
  set (a := Z.to_nat start). set (b := Z.to_nat end_).
  destruct (ShuffleRange_run q start end_ HI Hs He)
    as (q' & s & Hrun & HI' & Hl & Hv & Ho & Hr & Hinj & Hent).
  fold a b in Hr, Hinj, Hent.
  pose proof (Inv_bounds q' HI') as (_ & Hli' & _).
  destruct (range_index_Permutation a b (entries_of q) (entries_of q') s)
    as (Ht & Hd & HP);
    [rewrite !length_entries_of by lia; lia | unfold a, b; lia
    | rewrite length_entries_of by lia; unfold b; lia | exact Hr | exact Hinj
    | intros k Hk; apply Hent; rewrite length_entries_of in Hk; lia |].
  exists q'. split; [exact Hrun |]. split; [exact HI' |].
  split; [exact Hl |]. split; [exact Hv |]. split; [exact Ho |].
  split; [exact Ht |]. split; [exact Hd |]. split.
  { replace (Z.to_nat (end_ - start)) with (b - a)%nat
      by (unfold a, b; lia). exact HP. }
  rewrite !songs_of_entries_of. apply fmap_Permutation.
  rewrite <- (take_drop a (entries_of q')), <- (take_drop a (entries_of q)).
  rewrite Ht. apply Permutation_app_head.
  rewrite <- (take_drop (b - a) (drop a (entries_of q'))).
  rewrite <- (take_drop (b - a) (drop a (entries_of q))).
  rewrite HP. apply Permutation_app_head.
  rewrite !drop_drop.
  replace (a + (b - a))%nat with b by (unfold a, b; lia).
  rewrite Hd. reflexivity.
Qed.

Lemma ShuffleRange_permutes_witness :
  let q := set_modes false false false true (queue_ABC_value (fun _ => 5)) in
  Inv q
  /\ exists q',
       ShuffleRange 0 3 q = Ok (tt, q')
       /\ Inv q'
       /\ q_length q' = q_length q /\ q_version q' = q_version q
       /\ order q' = order q
       /\ take (Z.to_nat 0) (entries_of q')
          = take (Z.to_nat 0) (entries_of q)
       /\ drop (Z.to_nat 3) (entries_of q')
          = drop (Z.to_nat 3) (entries_of q)
       /\ take (Z.to_nat (3 - 0)) (drop (Z.to_nat 0) (entries_of q'))
          ≡ₚ take (Z.to_nat (3 - 0)) (drop (Z.to_nat 0) (entries_of q))
       /\ songs_of q' ≡ₚ songs_of q.
Proof.
  intros q. split; [apply Inv_ABC |].
  apply (ShuffleRange_permutes q 0 3); [apply Inv_ABC | lia | simpl; lia].
Defined.

(** X29: swapping two positions twice gives back the items there were
    (song, identifier and priority) at their positions, and the IdMap
    there was; the order array, the length and the version counter are
    not touched by the swaps. *)
Theorem SwapPositions_twice q p1 p2 :
  Inv q -> 0 <= p1 < q_length q -> 0 <= p2 < q_length q ->
  exists q1 q2,
    SwapPositions p1 p2 q = Ok (tt, q1)
    /\ SwapPositions p1 p2 q1 = Ok (tt, q2)
    /\ entries_of q2 = entries_of q
    /\ id_to_position q2 = id_to_position q
    /\ order q2 = order q
    /\ q_length q2 = q_length q /\ q_version q2 = q_version q
    /\ Inv q2.
Proof.
  intros HI Hp1 Hp2.
  pose proof (Inv_bounds q HI) as (_ & Hli & _).
  destruct (SwapPositions_run q p1 p2 HI Hp1 Hp2)
    as (q1 & Hrun1 & HI1 & Hfr1 & Hsw1).
  pose proof Hfr1 as (Hm1 & Hl1 & Hv1 & Ho1 & _).
  destruct (SwapPositions_run q1 p1 p2 HI1 ltac:(lia) ltac:(lia))
    as (q2 & Hrun2 & HI2 & Hfr2 & Hsw2).
  pose proof Hfr2 as (Hm2 & Hl2 & Hv2 & Ho2 & _).
  pose proof (Inv_bounds q2 HI2) as (_ & Hli2 & _).
  assert (Hent : entries_of q2 = entries_of q).
  { apply list_eq. intros k.
    destruct (decide (k < Z.to_nat (q_length q))%nat) as [Hk | Hk].
    - rewrite Hsw2 by lia. rewrite Hsw1 by (repeat case_decide; lia).
      f_equal. repeat case_decide; lia.
    - rewrite !lookup_ge_None_2; [reflexivity | |];
        rewrite length_entries_of by lia; lia. }
  exists q1, q2. split; [exact Hrun1 |]. split; [exact Hrun2 |].
  split; [exact Hent |]. split.
  { apply Inv_idmap_eq; try assumption; lia. }
  split; [congruence |]. split; [lia |]. split; [lia | exact HI2].
Qed.

Lemma SwapPositions_twice_witness :
  let q := set_modes false false false false (queue_ABC_value (fun _ => 0)) in
  Inv q
  /\ exists q1 q2,
       SwapPositions 0 2 q = Ok (tt, q1)
       /\ SwapPositions 0 2 q1 = Ok (tt, q2)
       /\ entries_of q2 = entries_of q
       /\ id_to_position q2 = id_to_position q
       /\ order q2 = order q
       /\ q_length q2 = q_length q /\ q_version q2 = q_version q
       /\ Inv q2.
Proof.
  intros q. split; [apply Inv_ABC |].
  apply (SwapPositions_twice q 0 2); [apply Inv_ABC | |]; simpl; lia.
Defined.

(** ** Identifiers are stable *)

(** Under the invariants, a live item is found under its identifier. *)
Lemma has_song_live q p it :
  Inv q -> 0 <= p < q_length q -> items q !! Z.to_nat p = Some it ->
  has_song q (i_id it) (i_song it).
Proof.
  intros HI Hp Hit. destruct (inv_ids _ HI p it Hp Hit) as [_ Hs].
  exists p, it. repeat split; try assumption; lia.
Qed.

Lemma has_song_entry q k song id priority :
  Inv q -> entries_of q !! k = Some (song, id, priority) ->
  has_song q id song.
Proof.
  intros HI Hk.
  pose proof (Inv_bounds q HI) as (_ & Hli & _).
  pose proof (inv_length _ HI) as Hlen.
  assert (Hkn : (k < Z.to_nat (q_length q))%nat).
  { apply lookup_lt_Some in Hk. rewrite length_entries_of in Hk; lia. }
  rewrite lookup_entries_of in Hk by lia.
  destruct (items q !! k) as [it |] eqn:Hit; [| discriminate].
  simpl in Hk. inversion Hk; subst.
  apply (has_song_live q (Z.of_nat k)); [exact HI | lia |].
  rewrite Nat2Z.id. exact Hit.
Qed.

Lemma has_song_entries_of q id song :
  has_song q id song ->
  exists priority, (song, id, priority) ∈ entries_of q.
Proof.
  intros (p & it & Hp & Hit & <- & <- & _).
  exists (i_priority it). apply list_elem_of_lookup. exists (Z.to_nat p).
  rewrite lookup_entries_of by lia. rewrite Hit. reflexivity.
Qed.

(** The songs found under their identifiers are kept when the live items
    are permuted. *)
Lemma has_song_Permutation q q' id song :
  Inv q' -> entries_of q' ≡ₚ entries_of q ->
  has_song q id song -> has_song q' id song.
Proof.
  intros HI' HP Hs. destruct (has_song_entries_of q id song Hs) as [pr Hin].
  rewrite <- HP in Hin. apply list_elem_of_lookup in Hin as [k Hk].
  apply (has_song_entry q' k song id pr HI' Hk).
Qed.

(** ... or kept at their positions, with their identifiers. *)
Lemma has_song_pointwise q q' id song :
  Inv q' -> q_length q <= q_length q' ->
  (forall p it, 0 <= p < q_length q -> items q !! Z.to_nat p = Some it ->
     exists it', items q' !! Z.to_nat p = Some it'
                 /\ i_id it' = i_id it /\ i_song it' = i_song it) ->
  has_song q id song -> has_song q' id song.
Proof.
  intros HI' Hl Hpt (p & it & Hp & Hit & <- & <- & _).
  destruct (Hpt p it Hp Hit) as (it' & Hit' & <- & <-).
  apply (has_song_live q' p it' HI'); [lia | exact Hit'].
Qed.

Lemma move_range_spec_Permutation {A} (start end_ to : nat) (l : list A) :
  (start <= end_)%nat ->
  move_range_spec start end_ to l ≡ₚ l.
Proof.
  intros Hse. unfold move_range_spec.
  set (rest := take start l ++ drop end_ l).
  rewrite Permutation_app_comm. rewrite <- app_assoc.
  rewrite (Permutation_app_comm (drop to rest)). rewrite take_drop.
  unfold rest. rewrite app_assoc.
  rewrite (Permutation_app_comm _ (take start l)).
  rewrite take_take_drop.
  replace (start + (end_ - start))%nat with end_ by lia.
  rewrite take_drop. reflexivity.
Qed.

Lemma range_Permutation_whole {A} (a b : nat) (l l' : list A) :
  (a <= b)%nat ->
  take a l' = take a l -> drop b l' = drop b l ->
  take (b - a) (drop a l') ≡ₚ take (b - a) (drop a l) ->
  l' ≡ₚ l.
Proof.
  intros Hab Ht Hd HP.
  rewrite <- (take_drop a l'), <- (take_drop a l).
  rewrite Ht. apply Permutation_app_head.
  rewrite <- (take_drop (b - a) (drop a l')).
  rewrite <- (take_drop (b - a) (drop a l)).
  rewrite HP. apply Permutation_app_head.
  rewrite !drop_drop.
  replace (a + (b - a))%nat with b by lia.
  rewrite Hd. reflexivity.
Qed.

(** An operation on the order array keeps the items and the IdMap. *)
Lemma has_song_frame_order q q' id song :
  frame_order q q' -> has_song q id song -> has_song q' id song.
Proof.
  intros (_ & Hl & _ & Hi & Hd & _) (p & it & Hp & Hit & Hid & Hs & Hslot).
  exists p, it. rewrite Hl, Hi, Hd. repeat split; try assumption; lia.
Qed.

(** One operation that removes no item keeps every song under its
    identifier. *)
Lemma ids_stable_step o cur q id song :
  Inv q -> pre_op q o = true -> keeps_items o = true ->
  has_song q id song ->
  exists cur' q',
    exec_op o cur q = Ok (cur', q') /\ Inv q' /\ has_song q' id song.
Proof.
  intros HI Hpre Hkeep Hsong.
  pose proof (Inv_bounds q HI) as (Hn & Hli & Hlo & Hmo & Hmi & Hmd).
  pose proof (inv_perm _ HI) as Hperm.
  pose proof (inv_length _ HI) as Hlen.
  destruct o; simpl in Hpre, Hkeep; try discriminate;
    unfold is_position, is_range, is_priority, is_after_order in Hpre;
    unbool; simpl exec_op.
  - (* Append *)
    destruct (Append_run q song0 priority cur HI ltac:(lia))
      as (id' & q' & Hrun & HI' & _ & Hfree & Hq' & _).
    exists id', q'. split; [exact Hrun |]. split; [exact HI' |].
    apply (has_song_pointwise q q'); [exact HI' | rewrite Hq'; simpl; lia
                                     | | exact Hsong].
    intros p it Hp Hit. exists it. split; [| split; reflexivity].
    rewrite Hq'. simpl. rewrite list_lookup_insert_ne by lia. exact Hit.
  - (* SwapPositions *)
    destruct (SwapPositions_run q position1 position2 HI)
      as (q' & Hrun & HI' & Hfr & Hsw); [lia | lia |].
    exists cur, q'. split; [rewrite (bind_Ok _ _ _ _ _ Hrun); reflexivity |].
    split; [exact HI' |].
    destruct Hsong as (p & it & Hp & Hit & <- & <- & _).
    set (sw := fun k : nat =>
      if decide (k = Z.to_nat position1) then Z.to_nat position2
      else if decide (k = Z.to_nat position2) then Z.to_nat position1
           else k).
    apply (has_song_entry q' (sw (Z.to_nat p)) _ _ (i_priority it) HI').
    rewrite Hsw by (unfold sw; repeat case_decide; lia).
    fold (sw (sw (Z.to_nat p))).
    replace (sw (sw (Z.to_nat p))) with (Z.to_nat p)
      by (unfold sw; repeat case_decide; lia).
    rewrite lookup_entries_of by lia. rewrite Hit. reflexivity.
  - (* MovePostion *)
    destruct (MovePostion_run q from to HI)
      as (q' & Hrun & HI' & Hl & _ & _ & Hmv & _); [lia | lia |].
    exists cur, q'. split; [rewrite (bind_Ok _ _ _ _ _ Hrun); reflexivity |].
    split; [exact HI' |].
    destruct Hsong as (p & it & Hp & Hit & <- & <- & _).
    destruct (moved_item_to q q' _ (MovePostion_order from to) p it Hmv)
      as (it' & Hit' & (Hs1 & Hs2 & _) & _); [| exact Hp | exact Hit |].
    { intros o Ho. apply (MovePostion_order_spec from to (q_length q)); lia. }
    rewrite Hs1, Hs2.
    apply (has_song_live q' (MovePostion_order from to p) it' HI');
      [| exact Hit'].
    rewrite Hl. apply (MovePostion_order_spec from to (q_length q)); lia.
  - (* MoveRange *)
    destruct (MoveRange_run q start end_ to HI)
      as (q' & Hrun & HI' & Hl & _ & _ & Hmv & _); [lia | lia | lia | lia |].
    exists cur, q'. split; [rewrite (bind_Ok _ _ _ _ _ Hrun); reflexivity |].
    split; [exact HI' |].
    destruct Hsong as (p & it & Hp & Hit & <- & <- & _).
    assert (HF : forall o, 0 <= o < q_length q ->
      0 <= MoveRange_order start end_ to o < q_length q
      /\ MoveRange_source start end_ to (MoveRange_order start end_ to o)
         = o).
    { intros o Ho.
      apply (MoveRange_order_spec start end_ to (q_length q)); lia. }
    destruct (moved_item_to q q' _ (MoveRange_order start end_ to) p it
                Hmv HF Hp Hit) as (it' & Hit' & (Hs1 & Hs2 & _) & _).
    rewrite Hs1, Hs2.
    apply (has_song_live q' (MoveRange_order start end_ to p) it' HI');
      [| exact Hit'].
    rewrite Hl. apply HF, Hp.
  - (* SetPriority *)
    destruct (SetPriority_run q position priority after_order HI)
      as (r & q' & it0 & Hrun & Hit0 & _ & Hitems & Hrep & _); [lia | lia |].
    exists cur, q'. split; [rewrite (bind_Ok _ _ _ _ _ Hrun); reflexivity |].
    pose proof (Inv_reprioritized q q' HI Hrep) as HI'.
    split; [exact HI' |].
    pose proof Hrep as (_ & Hl & _).
    apply (has_song_pointwise q q'); [exact HI' | lia | | exact Hsong].
    intros p it Hp Hit. rewrite Hitems.
    destruct (decide (Z.to_nat p = Z.to_nat position)) as [He | Hne].
    + rewrite He. rewrite list_lookup_insert_eq by lia.
      assert (it0 = it) by congruence. subst it0.
      eexists. split; [reflexivity |]. unfold reprioritize.
      destruct (i_priority it =? priority); split; reflexivity.
    + rewrite list_lookup_insert_ne by lia.
      exists it. split; [exact Hit | split; reflexivity].
  - (* SetPriorityRange *)
    destruct (SetPriorityRange_run q start_position end_position priority
                after_order HI)
      as (r & q' & Hrun & HI' & Hrep & _ & Hitems & _); [lia | lia | lia |].
    exists cur, q'. split; [rewrite (bind_Ok _ _ _ _ _ Hrun); reflexivity |].
    split; [exact HI' |].
    pose proof Hrep as (_ & Hl & _).
    apply (has_song_pointwise q q'); [exact HI' | lia | | exact Hsong].
    intros p it Hp Hit. rewrite Hitems, Hit.
    case_decide; [| exists it; split; [reflexivity | split; reflexivity]].
    eexists. split; [reflexivity |]. unfold reprioritize.
    destruct (i_priority it =? priority); split; reflexivity.
  - (* ShuffleRange *)
    destruct (ShuffleRange_run q start end_ HI)
      as (q' & s & Hrun & HI' & Hl & _ & _ & Hr & Hinj & Hent); [lia | lia |].
    exists cur, q'. split; [rewrite (bind_Ok _ _ _ _ _ Hrun); reflexivity |].
    split; [exact HI' |].
    pose proof (Inv_bounds q' HI') as (_ & Hli' & _).
    apply (has_song_Permutation q q'); [exact HI' | | exact Hsong].
    destruct (range_index_Permutation (Z.to_nat start) (Z.to_nat end_)
                (entries_of q) (entries_of q') s) as (Ht & Hd & HP);
      [rewrite !length_entries_of by lia; lia | lia
      | rewrite length_entries_of by lia; lia | exact Hr | exact Hinj
      | intros k Hk; apply Hent; rewrite length_entries_of in Hk; lia |].
    apply (range_Permutation_whole (Z.to_nat start) (Z.to_nat end_));
      [lia | assumption ..].
  - (* ShuffleOrder *)
    destruct (wp_ShuffleOrderRangeWithPriority 0 (q_length q)
                (fun _ q' => frame_order q q'
                   /\ permutes (Z.to_nat 0) (Z.to_nat (q_length q))
                        (order q) (order q')) q)
      as ([] & q' & Hrun & Hfr & Hp);
      [exact Hpre | lia | lia | exact Hperm | lia | rewrite UINT_MOD_eq; lia
      | auto |].
    exists cur, q'. split.
    { assert (Hso : ShuffleOrder q = Ok (tt, q')) by exact Hrun.
      rewrite (bind_Ok _ _ _ _ _ Hso). reflexivity. }
    split; [| apply (has_song_frame_order q q' _ _ Hfr Hsong)].
    apply (Inv_frame_order q q' HI Hfr).
    eapply perm_on_permutes; [exact Hperm | exact Hp | lia].
  - (* ShuffleOrderRangeWithPriority *)
    destruct (wp_ShuffleOrderRangeWithPriority start end_
                (fun _ q' => frame_order q q'
                   /\ permutes (Z.to_nat start) (Z.to_nat end_)
                        (order q) (order q')) q)
      as ([] & q' & Hrun & Hfr & Hp);
      [assumption | lia | lia | exact Hperm | lia | rewrite UINT_MOD_eq; lia
      | auto |].
    exists cur, q'. split; [rewrite (bind_Ok _ _ _ _ _ Hrun); reflexivity |].
    split; [| apply (has_song_frame_order q q' _ _ Hfr Hsong)].
    apply (Inv_frame_order q q' HI Hfr).
    eapply perm_on_permutes; [exact Hperm | exact Hp | lia].
  - (* ShuffleOrderFirst *)
    destruct (wp_ShuffleOrderFirst start end_
                (fun _ q' => frame_order q q'
                   /\ permutes (Z.to_nat start) (Z.to_nat end_)
                        (order q) (order q')) q)
      as ([] & q' & Hrun & Hfr & Hp);
      [lia | lia | rewrite UINT_MOD_eq; lia | auto |].
    exists cur, q'. split; [rewrite (bind_Ok _ _ _ _ _ Hrun); reflexivity |].
    split; [| apply (has_song_frame_order q q' _ _ Hfr Hsong)].
    apply (Inv_frame_order q q' HI Hfr).
    eapply perm_on_permutes; [exact Hperm | exact Hp | lia].
  - (* ShuffleOrderLast *)
    destruct (wp_ShuffleOrderLast start end_
                (fun _ q' => frame_order q q'
                   /\ permutes (Z.to_nat start) (Z.to_nat end_)
                        (order q) (order q')) q)
      as ([] & q' & Hrun & Hfr & Hp);
      [lia | lia | rewrite UINT_MOD_eq; lia | auto |].
    exists cur, q'. split; [rewrite (bind_Ok _ _ _ _ _ Hrun); reflexivity |].
    split; [| apply (has_song_frame_order q q' _ _ Hfr Hsong)].
    apply (Inv_frame_order q q' HI Hfr).
    eapply perm_on_permutes; [exact Hperm | exact Hp | lia].
  - (* the mode flags *)
    eexists _, _. split; [reflexivity |].
    split; [apply Inv_set_modes, HI |].
    destruct Hsong as (p & it & Hp & Hit & Hid & Hs & Hslot).
    exists p, it. repeat split; try assumption; simpl; lia.
Qed.

(** X30: identifiers are stable.  Along any sequence of operations that
    removes no item (anything but [DeletePosition] and [Clear]), each
    invoked within its precondition, the sequence runs to the end and a
    song that could be found under an identifier is still found under
    that identifier, wherever it has been moved. *)
Theorem ids_stable ops : forall cur q id song,
  Inv q -> pre_ok ops cur q -> forallb keeps_items ops = true ->
  has_song q id song ->
  exists cur' q',
    run ops cur q = Ok (cur', q') /\ Inv q' /\ has_song q' id song.
Proof.
  induction ops as [| o ops IH]; intros cur q id song HI Hpre Hkeep Hsong.
  - exists cur, q. split; [reflexivity | split; assumption].
  - simpl in Hpre, Hkeep. destruct Hpre as [Hpo Hrest].
    apply andb_prop in Hkeep as [Hko Hkeep].
    destruct (ids_stable_step o cur q id song HI Hpo Hko Hsong)
      as (cur1 & q1 & Hrun1 & HI1 & Hsong1).
    rewrite Hrun1 in Hrest.
    destruct (IH cur1 q1 id song HI1 Hrest Hkeep Hsong1)
      as (cur' & q' & Hrun & HI' & Hsong').
    exists cur', q'. split; [| split; assumption].
    simpl. rewrite (bind_Ok _ _ _ _ _ Hrun1). exact Hrun.
Qed.

Lemma ids_stable_witness :
  let q := set_order [4; 2; 0; 1; 3]
             (queue_ABCDE_value false false false true
                (fun n => Z.of_nat n)) in
  let ops := [OpSwapPositions 0 3; OpMoveRange 0 2 3; OpSetPriority 1 9 (-1);
              OpShuffleRange 0 5; OpShuffleOrder; OpMovePostion 4 0] in
  Inv q /\ pre_ok ops G_MAXUINT q /\ has_song q 2 67
  /\ exists cur' q',
       run ops G_MAXUINT q = Ok (cur', q') /\ Inv q' /\ has_song q' 2 67.
Proof.
  intros q ops.
  assert (HI : Inv q).
  { apply Inv_ABCDE. apply (bool_decide_unpack _). vm_compute. reflexivity. }
  assert (Hpre : pre_ok ops G_MAXUINT q) by (vm_compute; tauto).
  assert (Hsong : has_song q 2 67).
  { exists 2, (mk_item 67 2 1 0). repeat split; try reflexivity; simpl; lia. }
  split; [exact HI |]. split; [exact Hpre |]. split; [exact Hsong |].
  exact (ids_stable ops G_MAXUINT q 2 67 HI Hpre eq_refl Hsong).
Defined.
